(** * PuzzleBox: maze generation and mesh stitching of [puzzlebox.c]

    A shallow embedding of the maze engine of [makemaze] (the nested functions
    [test], [slice], [addpoint], the frontier loop, the test pattern) and of
    [random_int], with the properties of the specification that can be stated
    about them.

    Conventions.
    - A C [int] is a [Z].  Grid coordinates, depths and point indices stay far
      below 2^31, so signed arithmetic is exact; the one [unsigned int] of the
      program, [rng_state], wraps modulo 2^32 and the wrap is written out.
    - [/] and [%] on [int] are [Z.quot] and [Z.rem] (truncation toward zero).
    - [unsigned char maze[W][H]], zeroed by [memset], is a finite map from
      (x, y) to the byte, absent keys reading 0.  An access outside the array
      is undefined behaviour in C and is the outcome [Undefined] here.
    - A [double] comparison or coordinate is not computed: the height-band test
      of the "Clear too high/low" loop is a field of the options, the values
      [W] and [(int) (h / mazestep)] are arguments of [makemaze], and an
      emitted point is recorded by its slice and its layer.
    - A loop that C does not bound runs on fuel and gives [OutOfFuel] when it
      is spent; the statements below show the fuel granted to be enough. *)

From Stdlib Require Import ZArith Lia Bool List String Sorted Ascii ZifyBool.
From stdpp Require Import base option list gmap.
Import ListNotations.

Local Open Scope Z_scope.

(** ** Outcomes of a run *)

Inductive result (A : Type) : Type :=
| Ok (a : A)
| Fatal (msg : string)   (* fatal (): message on stderr, then exit (1) *)
| Undefined              (* array access out of bounds *)
| OutOfFuel.             (* a loop did not finish within its fuel *)

Arguments Ok {A} a.
Arguments Fatal {A} msg.
Arguments Undefined {A}.
Arguments OutOfFuel {A}.

Definition rbind {A B : Type} (r : result A) (k : A -> result B) : result B :=
  match r with
  | Ok a => k a
  | Fatal msg => Fatal msg
  | Undefined => Undefined
  | OutOfFuel => OutOfFuel
  end.

Notation "'let*' x := r 'in' k" := (rbind r (fun x => k))
  (at level 10, x pattern, r at level 100, k at level 200).

(** ** Flags for the maze array *)

Definition FLAGL : Z := 0x01.
Definition FLAGR : Z := 0x02.
Definition FLAGU : Z := 0x04.
Definition FLAGD : Z := 0x08.
Definition FLAGA : Z := 0x0F.
Definition FLAGI : Z := 0x80.

(** Direction bias for random maze choices *)

Definition BIASL : Z := 2.
Definition BIASR : Z := 1.
Definition BIASU : Z := 1.
Definition BIASD : Z := 4.

(** ** The grid *)

Record grid : Type := Grid {
  W : Z;                       (* angular resolution *)
  H : Z;                       (* rows, after [H += 2 + helix] *)
  helix : Z;
  nubs : Z
}.

Abbreviation maze_t := (gmap (Z * Z) Z).

Definition cell (m : maze_t) (x y : Z) : Z := default 0 (m !! (x, y)).

Definition in_grid (g : grid) (x y : Z) : bool :=
  (0 <=? x) && (x <? W g) && (0 <=? y) && (y <? H g).

(** [maze[x][y]] as an rvalue *)
Definition maze_get (g : grid) (m : maze_t) (x y : Z) : result Z :=
  if in_grid g x y then Ok (cell m x y) else Undefined.

(** [maze[x][y] |= f] *)
Definition maze_or (g : grid) (m : maze_t) (x y f : Z) : result maze_t :=
  if in_grid g x y then Ok (<[(x, y) := Z.lor (cell m x y) f]> m) else Undefined.

(** Fuel for a loop that moves [x] by [W] toward [0, W): [|x| + 1] rounds are
    enough as soon as [W >= 1]; with [W <= 0] the C loop does not end. *)
Definition loop_fuel (x : Z) : nat := S (Z.to_nat (Z.abs x)).

(** [while (x < 0) { x += W; y -= helix; }] *)
Fixpoint wrap_neg (g : grid) (fuel : nat) (x y : Z) : result (Z * Z) :=
  match fuel with
  | O => OutOfFuel
  | S fuel' =>
      if x <? 0 then wrap_neg g fuel' (x + W g) (y - helix g) else Ok (x, y)
  end.

(** [while (x >= W) { x -= W; y += helix; }] *)
Fixpoint wrap_pos (g : grid) (fuel : nat) (x y : Z) : result (Z * Z) :=
  match fuel with
  | O => OutOfFuel
  | S fuel' =>
      if W g <=? x then wrap_pos g fuel' (x - W g) (y + helix g) else Ok (x, y)
  end.

(** The two loops at the head of [test]: the normalisation of a coordinate. *)
Definition wrap (g : grid) (x y : Z) : result (Z * Z) :=
  let* (x1, y1) := wrap_neg g (loop_fuel x) x y in
  wrap_pos g (loop_fuel x1) x1 y1.

(** The loop [while (n--) { ... }] of [test], entered with [n = nubs], [v = 0]. *)
Fixpoint test_loop (g : grid) (m : maze_t) (fuel : nat) (n x y v : Z) : result Z :=
  match fuel with
  | O => OutOfFuel
  | S fuel' =>
      if n =? 0 then Ok v
      else
        let n := n - 1 in
        let* v := (if (y <? 0) || (H g <=? y) then Ok (Z.lor v FLAGI)
                   else let* c := maze_get g m x y in Ok (Z.lor v c)) in
        if n =? 0 then Ok v
        else
          let x := x + Z.quot (W g) (nubs g) in
          let* (x, y) := wrap_pos g (loop_fuel x) x y in
          let y := if helix g =? nubs g then y - 1 else y in
          test_loop g m fuel' n x y v
  end.

(** [int test (int x, int y)]: test if in use *)
Definition test (g : grid) (m : maze_t) (x y : Z) : result Z :=
  let* (x, y) := wrap g x y in
  test_loop g m (S (Z.to_nat (nubs g))) (nubs g) x y 0.

(** ** The pseudo-random sequence *)

(** [rng_state = rng_state * 1103515245 + 12345] on [unsigned int] *)
Definition rng_next (s : Z) : Z := (s * 1103515245 + 12345) mod 2 ^ 32.

(** [random_int (limit)] on a seeded state: the value and the new state.
    [seed_rng] only acts on the first call; the seed is the state the run
    starts from. *)
Definition random_int (limit : Z) (s : Z) : Z * Z :=
  if limit <=? 0 then (0, s)
  else
    let s' := rng_next s in
    (Z.rem ((s' / 65536) mod 32768) limit, s').

(** ** Options read by [makemaze] *)

Record options : Type := Options {
  flip : bool;
  inside : bool;
  testmaze : bool;
  parkvertical : bool;
  noa : bool;
  mazecomplexity : Z;
  MAXY : Z;                        (* capacity of a slice's point list *)
  too_high_low : Z -> Z -> bool    (* the double comparison that sets FLAGI *)
}.

(** [for (i = lo; i < hi; i++) body] *)
Fixpoint for_loop {S : Type} (cnt : nat) (i : Z) (body : Z -> S -> result S) (s : S)
  : result S :=
  match cnt with
  | O => Ok s
  | Datatypes.S cnt' => let* s' := body i s in for_loop cnt' (i + 1) body s'
  end.

Definition for_range {S : Type} (lo hi : Z) (body : Z -> S -> result S) (s : S)
  : result S :=
  for_loop (Z.to_nat (hi - lo)) lo body s.

(** ** Maze generation *)

(** "Clear too high/low": [maze[X][Y] |= FLAGI] where the band test holds. *)
Definition clear_high_low (g : grid) (o : options) (m : maze_t) : result maze_t :=
  for_range 0 (H g) (fun Y m =>
    for_range 0 (W g) (fun X m =>
      if too_high_low o X Y then maze_or g m X Y FLAGI else Ok m) m) m.

(** "Final park point": the seeded edges, and the cell (X, Y) the walk starts
    from.  [X] and [Y] are the loop variables of [box], left at [W] and [H] by
    the loops before. *)
Definition park_point (g : grid) (o : options) (m : maze_t) : result (maze_t * Z * Z) :=
  if parkvertical o then
    let* (m, X, Y) := for_range 0 (helix g + 2) (fun N '(m, _, _) =>
        let* m := maze_or g m 0 N (FLAGU + FLAGD) in
        let* m := maze_or g m 0 (N + 1) FLAGD in
        Ok (m, 0, N + 1)) (m, W g, H g) in
    if negb (inside o) && negb (noa o)
       && (2 <? Z.quot (W g) (nubs g)) && (helix g + 4 <? H g)
    then
      let* m := maze_or g m X Y (Z.lor (Z.lor FLAGD FLAGU) FLAGR) in
      let* m := maze_or g m X (Y + 1) (Z.lor FLAGD FLAGR) in
      let* m := maze_or g m (X + 1) Y (Z.lor (Z.lor FLAGD FLAGU) FLAGL) in
      let* m := maze_or g m (X + 1) (Y + 1) (Z.lor FLAGD FLAGL) in
      let* m := maze_or g m (X + 1) (Y - 1) FLAGU in
      Ok (m, X + 1, Y - 1)
    else Ok (m, X, Y)
  else
    let* m := maze_or g m 0 (helix g + 1) FLAGR in
    let X := 1 in
    let Y := helix g + 1 in
    let* m := maze_or g m X Y FLAGL in
    if negb (inside o) && negb (noa o)
       && (3 <? Z.quot (W g) (nubs g)) && (helix g + 3 <? H g)
    then
      let* m := maze_or g m X Y (Z.lor (Z.lor FLAGL FLAGR) FLAGU) in
      let* m := maze_or g m (X + 1) Y (Z.lor FLAGL FLAGU) in
      let* m := maze_or g m (X + 1) (Y + 1) (Z.lor FLAGL FLAGD) in
      let* m := maze_or g m X (Y + 1) (Z.lor (Z.lor FLAGL FLAGR) FLAGD) in
      let* m := maze_or g m (X - 1) (Y + 1) FLAGR in
      Ok (m, X - 1, Y + 1)
    else Ok (m, X, Y).

(** [while (maxx + 1 < W && !(test (maxx + 1, H - 2) & FLAGI)) maxx++;] *)
Fixpoint scan_maxx (g : grid) (m : maze_t) (fuel : nat) (maxx : Z) : result Z :=
  match fuel with
  | O => OutOfFuel
  | S fuel' =>
      if maxx + 1 <? W g then
        let* t := test g m (maxx + 1) (H g - 2) in
        if Z.land t FLAGI =? 0 then scan_maxx g m fuel' (maxx + 1) else Ok maxx
      else Ok maxx
  end.

(** The body of the two loops of the test pattern, at (X, Y). *)
Definition testmaze_cell (g : grid) (X Y : Z) (m : maze_t) : result maze_t :=
  let* t := test g m X Y in
  if Z.land t FLAGI =? 0 then
    let* t' := test g m (X + 1) Y in
    if Z.land t' FLAGI =? 0 then
      let* m := maze_or g m X Y FLAGR in
      let x := X + 1 in
      let y := Y in
      let '(x, y) := if W g <=? x then (x - W g, y + helix g) else (x, y) in
      maze_or g m x y FLAGL
    else Ok m
  else Ok m.

(** "Simple test pattern": the maze, and [maxx]. *)
Definition testmaze_pattern (g : grid) (o : options) (m : maze_t) : result (maze_t * Z) :=
  let* m := for_range 0 (H g) (fun Y m => for_range 0 (W g) (fun X m => testmaze_cell g X Y m) m) m in
  if negb (flip o) || inside o then
    let* maxx := scan_maxx g m (S (Z.to_nat (W g))) 0 in
    Ok (m, maxx)
  else Ok (m, 0).

(** A node of the queue of the walk ([struct pos_s], without its link). *)
Record pos_t : Type := Pos { px : Z; py : Z; pn : Z }.

(** The variables of the "Actual maze" loop.  The linked list from [pos] to
    [last] is the list [queue]: [pos] is its head and [last] its last node;
    adding at the start is a cons, adding at the end appends. *)
Record walk : Type := Walk {
  maze : maze_t;
  queue : list pos_t;
  rng : Z;
  max : Z;
  maxx : Z
}.

Inductive dir : Type := Right | Left | Down | Up.

Definition bias (d : dir) : Z :=
  match d with Right => BIASR | Left => BIASL | Down => BIASD | Up => BIASU end.

(** The cell a direction is tested at, from (X, Y). *)
Definition ahead (d : dir) (X Y : Z) : Z * Z :=
  match d with
  | Right => (X + 1, Y)
  | Left => (X - 1, Y)
  | Down => (X, Y - 1)
  | Up => (X, Y + 1)
  end.

(** [!test (...)] at the cell ahead in direction [d] *)
Definition closed (g : grid) (m : maze_t) (d : dir) (X Y : Z) : result bool :=
  let '(x, y) := ahead d X Y in
  let* t := test g m x y in
  Ok (t =? 0).

(** "Which way can we go": the sum [n] of the biases of the closed directions. *)
Definition ways (g : grid) (m : maze_t) (X Y : Z) : result Z :=
  let* r := closed g m Right X Y in
  let* l := closed g m Left X Y in
  let* d := closed g m Down X Y in
  let* u := closed g m Up X Y in
  Ok ((if r then BIASR else 0) + (if l then BIASL else 0)
      + (if d then BIASD else 0) + (if u then BIASU else 0)).

(** The chain [if (!test (..) && (v -= BIAS) < 0) .. else if ..]: the direction
    taken, or [None] where the C reaches [fatal ("Unexpected maze path")].
    [v] is only decreased where the test before [&&] holds. *)
Definition choose (g : grid) (m : maze_t) (X Y v : Z) : result (option dir) :=
  let* r := closed g m Right X Y in
  let v := if r then v - BIASR else v in
  if r && (v <? 0) then Ok (Some Right)
  else
    let* l := closed g m Left X Y in
    let v := if l then v - BIASL else v in
    if l && (v <? 0) then Ok (Some Left)
    else
      let* d := closed g m Down X Y in
      let v := if d then v - BIASD else v in
      if d && (v <? 0) then Ok (Some Down)
      else
        let* u := closed g m Up X Y in
        let v := if u then v - BIASU else v in
        if u && (v <? 0) then Ok (Some Up) else Ok None.

(** "Move forward": the two writes of a direction, and the new (X, Y). *)
Definition move (g : grid) (m : maze_t) (d : dir) (X Y : Z) : result (maze_t * Z * Z) :=
  match d with
  | Right =>
      let* m := maze_or g m X Y FLAGR in
      let X := X + 1 in
      let '(X, Y) := if W g <=? X then (X - W g, Y + helix g) else (X, Y) in
      let* m := maze_or g m X Y FLAGL in
      Ok (m, X, Y)
  | Left =>
      let* m := maze_or g m X Y FLAGL in
      let X := X - 1 in
      let '(X, Y) := if X <? 0 then (X + W g, Y - helix g) else (X, Y) in
      let* m := maze_or g m X Y FLAGR in
      Ok (m, X, Y)
  | Down =>
      let* m := maze_or g m X Y FLAGD in
      let Y := Y - 1 in
      let* m := maze_or g m X Y FLAGU in
      Ok (m, X, Y)
  | Up =>
      let* m := maze_or g m X Y FLAGU in
      let Y := Y + 1 in
      let* m := maze_or g m X Y FLAGD in
      Ok (m, X, Y)
  end.

(** "Entry": the test that lets the new cell (X, Y), reached from a node of
    depth [n], replace the longest path that reaches the top. *)
Definition reaches_top (g : grid) (o : options) (m : maze_t) (n mx X Y : Z) : result bool :=
  if mx <? n then
    let* t := test g m X (Y + 1) in
    Ok (negb (Z.land t FLAGI =? 0)
        && (negb (flip o) || inside o || (Z.rem X (Z.quot (W g) (nubs g)) =? 0)))
  else Ok false.

(** "How to add points to queue": [v] is the one value drawn for both nodes. *)
Definition next_at_start (o : options) (v : Z) : bool :=
  v <? (if mazecomplexity o <? 0 then - mazecomplexity o else mazecomplexity o).

Definition current_at_start (o : options) (v : Z) : bool :=
  (mazecomplexity o <=? 0) && (v <? - mazecomplexity o).

Definition enqueue (o : options) (v : Z) (p next : pos_t) (pos : list pos_t) : list pos_t :=
  let pos := if next_at_start o v then next :: pos else pos ++ [next] in
  if current_at_start o v then p :: pos else pos ++ [p].

(** One round of [while (pos)]: the state after it, and the node [next] it
    allocated, if any.  With an empty queue the loop is over and nothing
    changes. *)
Definition expand (g : grid) (o : options) (s : walk) : result (walk * option pos_t) :=
  match queue s with
  | [] => Ok (s, None)
  | p :: pos =>
      let X := px p in
      let Y := py p in
      let* n := ways g (maze s) X Y in
      if n =? 0 then
        Ok (Walk (maze s) pos (rng s) (max s) (maxx s), None)
      else
        let '(v, rng1) := random_int n (rng s) in
        let* d := choose g (maze s) X Y v in
        match d with
        | None => Fatal "Unexpected maze path"
        | Some d =>
            let* (m, X, Y) := move g (maze s) d X Y in
            let* top := reaches_top g o m (pn p) (max s) X Y in
            let '(mx, mxx) := if top then (pn p, X) else (max s, maxx s) in
            let next := Pos X Y (pn p + 1) in
            let '(v, rng2) := random_int 10 rng1 in
            Ok (Walk m (enqueue o v p next pos) rng2 mx mxx, Some next)
        end
  end.

(** [while (pos) { ... }]: the final state and the nodes allocated, oldest
    first. *)
Fixpoint run (g : grid) (o : options) (fuel : nat) (s : walk) : result (walk * list pos_t) :=
  match fuel with
  | O => OutOfFuel
  | S fuel' =>
      match queue s with
      | [] => Ok (s, [])
      | _ :: _ =>
          let* (s', nd) := expand g o s in
          let* (s'', nds) := run g o fuel' s' in
          Ok (s'', match nd with Some x => x :: nds | None => nds end)
      end
  end.

(** "Actual maze": the walk from the park point (X, Y). *)
Definition actual_maze (g : grid) (o : options) (fuel : nat) (m : maze_t) (X Y seed : Z)
  : result (walk * list pos_t) :=
  run g o fuel (Walk m [Pos X Y 0] seed 0 0).

(** "Entry point for maze": [while (Y && (maze[X][Y] & FLAGI)) maze[X][Y--] |= FLAGU + FLAGD;] *)
Fixpoint carve_down (g : grid) (fuel : nat) (X Y : Z) (m : maze_t) : result (maze_t * Z) :=
  match fuel with
  | O => OutOfFuel
  | S fuel' =>
      if Y =? 0 then Ok (m, Y)
      else
        let* c := maze_get g m X Y in
        if Z.land c FLAGI =? 0 then Ok (m, Y)
        else
          let* m := maze_or g m X Y (FLAGU + FLAGD) in
          carve_down g fuel' X (Y - 1) m
  end.

(** [for (X = maxx % (W / nubs); X < W; X += W / nubs) { ... maze[X][Y] += FLAGU; }]
    The byte addition wraps modulo 256. *)
Fixpoint entry_columns (g : grid) (fuel : nat) (X : Z) (m : maze_t) : result maze_t :=
  match fuel with
  | O => OutOfFuel
  | S fuel' =>
      if X <? W g then
        let* (m, Y) := carve_down g (S (Z.to_nat (H g))) X (H g - 1) m in
        let* c := maze_get g m X Y in
        let m := <[(X, Y) := (c + FLAGU) mod 256]> m in
        entry_columns g fuel' (X + Z.quot (W g) (nubs g)) m
      else Ok m
  end.

Definition entry_point (g : grid) (maxx : Z) (m : maze_t) : result maze_t :=
  if Z.quot (W g) (nubs g) =? 0 then Undefined   (* [%] by zero *)
  else entry_columns g (S (Z.to_nat (W g))) (Z.rem maxx (Z.quot (W g) (nubs g))) m.

(** ** The mesh *)

(** What [makemaze] prints of the polyhedron: a point, by its slice and its
    radial layer (0 back, 1 recess, 2 front), and a face, by its point
    indices. *)
Inductive out : Type :=
| Point (S layer : Z)
| Face (f : list Z).

(** A computation that prints: what was printed, up to its end or to the
    failure that stopped it. *)
Definition emit (A : Type) : Type := (list out * result A)%type.

Definition ebind {A B : Type} (e : emit A) (k : A -> emit B) : emit B :=
  match e with
  | (o, Ok a) => let '(o', r) := k a in (o ++ o', r)
  | (o, Fatal msg) => (o, Fatal msg)
  | (o, Undefined) => (o, Undefined)
  | (o, OutOfFuel) => (o, OutOfFuel)
  end.

Definition eret {A : Type} (a : A) : emit A := ([], Ok a).
Definition quiet {A : Type} (r : result A) : emit A := ([], r).
Definition print (x : out) : emit unit := ([x], Ok tt).

Notation "'do*' x := e 'in' k" := (ebind e (fun x => k))
  (at level 10, x pattern, e at level 100, k at level 200).

Fixpoint for_loop_e {S : Type} (cnt : nat) (i : Z) (body : Z -> S -> emit S) (s : S)
  : emit S :=
  match cnt with
  | O => eret s
  | Datatypes.S cnt' => do* s' := body i s in for_loop_e cnt' (i + 1) body s'
  end.

Definition for_range_e {S : Type} (lo hi : Z) (body : Z -> S -> emit S) (s : S)
  : emit S :=
  for_loop_e (Z.to_nat (hi - lo)) lo body s.

(** "Data for each slice", without the pre-calculated coordinates: the last
    points [l] and [r] (negative for recess, 0 for not set yet) and the points
    [p[0 .. n)] from bottom up. *)
Record slice_t : Type := Slice { sl : Z; sr : Z; sp : list Z }.

Record mesh : Type := Mesh {
  slices : list slice_t;     (* s[W * 4] *)
  P : Z;                     (* the next point index *)
  pstart : gmap (Z * Z) Z;   (* p[W][H], 0 for not set *)
  bottom : Z;
  top : Z
}.

(** [s[S]] *)
Definition slice_at (ss : list slice_t) (S : Z) : result slice_t :=
  if S <? 0 then Undefined
  else match ss !! Z.to_nat S with Some x => Ok x | None => Undefined end.

Definition set_slice (S : Z) (x : slice_t) (k : mesh) : mesh :=
  Mesh (<[Z.to_nat S := x]> (slices k)) (P k) (pstart k) (bottom k) (top k).

(** [addpoint] ([recess = false]) and [addpointr] ([recess = true]): the point
    is printed before the capacity check. *)
Definition addpoint (o : options) (recess : bool) (S layer : Z) (k : mesh) : emit mesh :=
  do* x := quiet (slice_at (slices k) S) in
  do* _ := print (Point S layer) in
  if MAXY o <=? Z.of_nat (length (sp x)) then quiet (Fatal "WTF points %d")
  else
    let i := if recess then - P k else P k in
    let k := set_slice S (Slice (sl x) (sr x) (sp x ++ [i])) k in
    eret (Mesh (slices k) (P k + 1) (pstart k) (bottom k) (top k)).

(** [for (S = lo; S < hi; S++) addpoint (S, ...)] *)
Definition addpoints (o : options) (recess : bool) (layer lo hi : Z) (k : mesh) : emit mesh :=
  for_range_e lo hi (fun S k => addpoint o recess S layer k) k.

(** "Points for each maze location", at (X, Y). *)
Definition cell_points (g : grid) (o : options) (m : maze_t) (X Y : Z) (k : mesh) : emit mesh :=
  do* v := quiet (test g m X Y) in
  if (Z.land v FLAGA =? 0) || negb (Z.land v FLAGI =? 0) then eret k
  else
    let k := Mesh (slices k) (P k) (<[(X, Y) := P k]> (pstart k)) (bottom k) (top k) in
    do* k := addpoints o false 2 (X * 4) (X * 4 + 4) k in
    do* k := addpoints o true 1 (X * 4) (X * 4 + 4) k in
    do* k := addpoints o true 1 (X * 4) (X * 4 + 4) k in
    addpoints o false 2 (X * 4) (X * 4 + 4) k.

(** "Wrap back to start": [s[S].p[s[S].n++] = S] *)
Definition wrap_back (o : options) (S : Z) (k : mesh) : emit mesh :=
  do* x := quiet (slice_at (slices k) S) in
  if MAXY o <=? Z.of_nat (length (sp x)) then quiet (Fatal "WTF points")
  else eret (set_slice S (Slice (sl x) (sr x) (sp x ++ [S])) k).

(** "Make points": from the zeroed slices to the wrap back. *)
Definition make_points (g : grid) (o : options) (m : maze_t) : emit mesh :=
  let n := W g * 4 in
  let k := Mesh (replicate (Z.to_nat n) (Slice 0 0 [])) 0 ∅ 0 0 in
  let k := Mesh (slices k) (P k) (pstart k) (P k) (top k) in
  do* k := addpoints o false 0 0 n k in
  do* k := addpoints o true 1 0 n k in
  do* k := addpoints o false 2 0 n k in
  do* k := for_range_e 0 (H g) (fun Y k =>
             for_range_e 0 (W g) (fun X k => cell_points g o m X Y k) k) k in
  let k := Mesh (slices k) (P k) (pstart k) (bottom k) (P k) in
  do* k := addpoints o false 2 0 n k in
  do* k := addpoints o false 1 0 n k in
  do* k := addpoints o false 0 0 n k in
  for_range_e 0 n (fun S k => wrap_back o S k) k.

(** ** Faces *)

(** The first index [i] of [p] with [abs (p[i]) == abs (a)], or the length of
    [p]: the loop [for (n = 0; n < s[S].n && abs (s[S].p[n]) != abs (a); n++);] *)
Fixpoint scan (p : list Z) (a : Z) : nat :=
  match p with
  | [] => O
  | x :: p' => if Z.abs x =? Z.abs a then O else S (scan p' a)
  end.

(** The same loop started at [from]. *)
Definition scan_from (p : list Z) (from : nat) (a : Z) : nat :=
  (from + scan (drop from p) a)%nat.

(** The points [p[n1 .. n2)] whose sign is that of [b], as printed. *)
Definition same_side (p : list Z) (n1 n2 : nat) (b : Z) : list Z :=
  Z.abs <$> filter (fun x => Z.sgn x = Z.sgn b) (take (n2 - n1) (drop n1 p)).

(** [void slice (int S, int l, int r)]: advance slice S to new L and R
    (negative for recess).  A face is recorded once it is closed. *)
Definition slice (g : grid) (S l r : Z) (k : mesh) : emit mesh :=
  let n4 := W g * 4 in
  if n4 <=? S then quiet (Fatal "Bad render %d")
  else
    do* x := quiet (slice_at (slices k) S) in
    do* k := (if sl x =? 0 then
                (* New - draw to bottom *)
                let l0 := (if l <? 0 then -1 else 1)
                          * (bottom k + S + n4 + (if l <? 0 then 0 else n4)) in
                let r0 := (if r <? 0 then -1 else 1)
                          * (bottom k + Z.rem (S + 1) n4 + n4 + (if r <? 0 then 0 else n4)) in
                do* _ := print (Face [Z.abs l0; Z.abs r0; Z.rem (S + 1) n4; S]) in
                eret (set_slice S (Slice l0 r0 (sp x)) k)
              else eret k) in
    do* x := quiet (slice_at (slices k) S) in
    (* Advance *)
    if (l =? sl x) && (r =? sr x) then eret k
    else
      let SR := Z.rem (S + 1) n4 in
      let n1 := scan (sp x) (sl x) in
      let n2 := scan_from (sp x) n1 l in
      if (n1 =? length (sp x))%nat || (n2 =? length (sp x))%nat
      then quiet (Fatal "Bad render %d->%d")
      else
        let ls := same_side (sp x) n1 n2 (sl x) in
        do* _ := (match ls with
                  | [] => eret tt
                  | _ :: _ => print (Face (ls ++ [Z.abs l; Z.abs r]))   (* Triangles *)
                  end) in
        do* xr := quiet (slice_at (slices k) SR) in
        let m1 := scan (sp xr) (sr x) in
        let m2 := scan_from (sp xr) m1 r in
        if (m1 =? length (sp xr))%nat || (m2 =? length (sp xr))%nat
        then quiet (Fatal "Bad render %d->%d")
        else
          let rs := rev (same_side (sp xr) m1 m2 (sr x)) in
          do* _ := (match ls with
                    | [] => print (Face ([Z.abs l; Z.abs r] ++ rs))
                    | _ :: _ =>
                        if (m1 <? m2)%nat
                        then print (Face ([Z.abs r] ++ rs ++ [Z.abs (sl x)]))
                        else eret tt
                    end) in
          eret (set_slice S (Slice l r (sp x)) k).

(** A run of calls [slice (S, l, r)], in order. *)
Fixpoint slice_calls (g : grid) (calls : list (Z * Z * Z)) (k : mesh) : emit mesh :=
  match calls with
  | [] => eret k
  | (i, l, r) :: calls' => do* k := slice g i l r k in slice_calls g calls' k
  end.

Definition has (v f : Z) : bool := negb (Z.land v f =? 0).

(** The calls for the cell at (X, Y) with flags [v] and first point [P]:
    "Left", "Middle", "Right". *)
Definition cell_calls (X v P : Z) : list (Z * Z * Z) :=
  let S := X * 4 in
  (if has v FLAGD then [] else [(S + 0, P + 0, P + 1)])
  ++ [(S + 0, P + 0, - (P + 5))]
  ++ (if has v FLAGL then [(S + 0, - (P + 4), - (P + 5)); (S + 0, - (P + 8), - (P + 9))] else [])
  ++ [(S + 0, P + 12, - (P + 9))]
  ++ (if has v FLAGU then [] else [(S + 0, P + 12, P + 13)])
  ++ (if has v FLAGD then [] else [(S + 1, P + 1, P + 2)])
  ++ [(S + 1, - (P + 5), - (P + 6)); (S + 1, - (P + 9), - (P + 10))]
  ++ (if has v FLAGU then [] else [(S + 1, P + 13, P + 14)])
  ++ (if has v FLAGD then [] else [(S + 2, P + 2, P + 3)])
  ++ [(S + 2, - (P + 6), P + 3)]
  ++ (if has v FLAGR then [(S + 2, - (P + 6), - (P + 7)); (S + 2, - (P + 10), - (P + 11))] else [])
  ++ [(S + 2, - (P + 10), P + 15)]
  ++ (if has v FLAGU then [] else [(S + 2, P + 14, P + 15)]).

(** "Joining to right": the calls toward the cell whose first point is [PR]. *)
Definition join_calls (X v P PR : Z) : list (Z * Z * Z) :=
  let S := X * 4 in
  [(S + 3, P + 3, PR + 0)]
  ++ (if has v FLAGR then [(S + 3, - (P + 7), - (PR + 4)); (S + 3, - (P + 11), - (PR + 8))] else [])
  ++ [(S + 3, P + 15, PR + 12)].

Definition cell_faces (g : grid) (m : maze_t) (X Y : Z) (k : mesh) : emit mesh :=
  do* v := quiet (test g m X Y) in
  if (Z.land v FLAGA =? 0) || has v FLAGI then eret k
  else
    let P := default 0 (pstart k !! (X, Y)) in
    do* k := slice_calls g (cell_calls X v P) k in
    let x := X + 1 in
    let y := Y in
    let '(x, y) := if W g <=? x then (x - W g, y + helix g) else (x, y) in
    if (0 <=? y) && (y <? H g) then
      let PR := default 0 (pstart k !! (x, y)) in
      if PR =? 0 then eret k else slice_calls g (join_calls X v P PR) k
    else eret k.

(** "Top": the four calls that close slice [S]. *)
Definition top_faces (g : grid) (S : Z) (k : mesh) : emit mesh :=
  let n4 := W g * 4 in
  let SR := Z.rem (S + 1) n4 in
  do* x := quiet (slice_at (slices k) S) in
  do* k := slice g S (top k + S + (if sl x <? 0 then n4 else 0))
                     (top k + SR + (if sr x <? 0 then n4 else 0)) k in
  do* k := slice g S (top k + S + n4) (top k + SR + n4) k in
  do* k := slice g S (top k + S + 2 * n4) (top k + SR + 2 * n4) k in
  slice g S (bottom k + S) (bottom k + SR) k.

(** "Make faces" *)
Definition make_faces (g : grid) (m : maze_t) (k : mesh) : emit mesh :=
  do* k := for_range_e 0 (H g) (fun Y k =>
             for_range_e 0 (W g) (fun X k => cell_faces g m X Y k) k) k in
  for_range_e 0 (W g * 4) (fun S k => top_faces g S k) k.

(** ** [makemaze] *)

(** [entrya = (double) 360 * maxx / W], as the exact quotient in degrees:
    numerator and denominator. *)
Definition entrya (g : grid) (maxx : Z) : Z * Z := (360 * maxx, W g).

(** Rounds granted to the walk: more than twice the cells of the grid plus
    the one node of the first queue, which is more than it can take (see
    [run_ok]). *)
Definition walk_fuel (g : grid) : nat :=
  S (S (2 * (Z.to_nat (W g) * Z.to_nat (H g)))).

(** The maze before the entry is carved: "Clear too high/low", "Final park
    point" and "Make maze".  The result is the maze, [maxx] and the state of
    the random sequence. *)
Definition build_maze (g : grid) (o : options) (seed : Z)
  : result (maze_t * Z * Z) :=
  let* m := clear_high_low g o ∅ in
  let* (m, X, Y) := park_point g o m in
  if testmaze o then
    let* (m, maxx) := testmaze_pattern g o m in Ok (m, maxx, seed)
  else
    let* (s, _) := actual_maze g o (walk_fuel g) m X Y seed in
    Ok (maze s, maxx s, rng s).

(** [makemaze], from the update of [W] to the last face.  [Wm] is the updated
    [W] and [H0] the value [(int) (h / mazestep)], both computed from doubles;
    [seed] is the state of the random sequence.  The result is [entrya], the
    state of the random sequence and the mesh. *)
Definition makemaze (o : options) (helix nubs Wm H0 seed : Z)
  : emit (Z * Z * Z * mesh) :=
  let H := H0 + 2 + helix in   (* Allow one above, one below and helix below *)
  let g := Grid Wm H helix nubs in
  if (W g <? 3) || (H <? 1) then quiet (Fatal "Too small")
  else
    do* (m, maxx, seed) := quiet (build_maze g o seed) in
    let a := entrya g maxx in
    do* m := quiet (entry_point g maxx m) in
    do* k := make_points g o m in
    do* k := make_faces g m k in
    eret (a, seed, k).

(** ** The group of a cell, in closed form *)

(** From a copy to the next one: the step of [W / nubs] in x, the wrap at the
    seam, and the decrement of y when [helix == nubs]. *)
Definition next_copy (g : grid) (c : Z * Z) : Z * Z :=
  let '(x, y) := c in
  let x := x + Z.quot (W g) (nubs g) in
  (x mod W g, y + helix g * (x / W g) - (if helix g =? nubs g then 1 else 0)).

(** The [k]-th copy met by [test] from the normalised cell [c]. *)
Fixpoint copy (g : grid) (k : nat) (c : Z * Z) : Z * Z :=
  match k with
  | O => c
  | S k' => next_copy g (copy g k' c)
  end.

(** What a copy adds to the result: FLAGI out of range, else its byte. *)
Definition flags_at (g : grid) (m : maze_t) (c : Z * Z) : Z :=
  let '(x, y) := c in
  if (y <? 0) || (H g <=? y) then FLAGI else cell m x y.

(** [f 0 | f 1 | ... | f (n - 1)] *)
Fixpoint bigor (f : nat -> Z) (n : nat) : Z :=
  match n with
  | O => 0
  | S n' => Z.lor (bigor f n') (f n')
  end.

(** The normalised coordinate, without the loops. *)
Definition normal (g : grid) (x y : Z) : Z * Z :=
  (x mod W g, y + helix g * (x / W g)).

Definition group_flags (g : grid) (m : maze_t) (x y : Z) : Z :=
  bigor (fun k => flags_at g m (copy g k (normal g x y))) (Z.to_nat (nubs g)).

(** The reading of "decrementing y once per full traversal": the copies after
    the first all sit one row down, whatever their rank. *)
Definition copy_once (g : grid) (k : nat) (c : Z * Z) : Z * Z :=
  let '(x, y) := c in
  let x := x + Z.of_nat k * Z.quot (W g) (nubs g) in
  (x mod W g,
   y + helix g * (x / W g) - (if (helix g =? nubs g) && (0 <? Z.of_nat k) then 1 else 0)).

Definition group_flags_once (g : grid) (m : maze_t) (x y : Z) : Z :=
  bigor (fun k => flags_at g m (copy_once g k (normal g x y))) (Z.to_nat (nubs g)).

(** ** Sample runs *)

(** Rows 0 and 3 outside the band, as with [helix = 0] and two usable rows. *)
Definition band_1_2 (X Y : Z) : bool := (Y <? 1) || (2 <? Y).

Definition sample_options : options := Options false false false false false 5 100 band_1_2.

(** Six columns and four rows, two nubs, no helix. *)
Definition sample_grid : grid := Grid 6 4 0 2.

(** Six columns and eight rows, three nubs on a helix of three. *)
Definition helix_grid : grid := Grid 6 8 3 3.

(** One flagged cell, two rows and four columns away from (0, 4). *)
Definition lone_cell : maze_t := {[ (4, 2) := FLAGR ]}.

(** ** The choice of a direction, on the four test results *)

(** The chain of [choose], given which directions are closed. *)
Definition pick (r l d u : bool) (v : Z) : option dir :=
  let v := if r then v - BIASR else v in
  if r && (v <? 0) then Some Right
  else
    let v := if l then v - BIASL else v in
    if l && (v <? 0) then Some Left
    else
      let v := if d then v - BIASD else v in
      if d && (v <? 0) then Some Down
      else
        let v := if u then v - BIASU else v in
        if u && (v <? 0) then Some Up else None.

(** The bias of a direction where it is closed, 0 where it is not. *)
Definition weight (a : bool) (d : dir) : Z := if a then bias d else 0.

Definition dir_eqb (a b : dir) : bool :=
  match a, b with
  | Right, Right | Left, Left | Down, Down | Up, Up => true
  | _, _ => false
  end.

(** Whether the draw [v] takes direction [way] at (X, Y). *)
Definition takes (g : grid) (m : maze_t) (X Y : Z) (way : dir) (v : Z) : bool :=
  match choose g m X Y v with
  | Ok (Some d) => dir_eqb d way
  | _ => false
  end.

(** The values [0 .. n - 1] a draw [random_int (n)] can take. *)
Definition draws (n : Z) : list Z := map Z.of_nat (seq 0 (Z.to_nat n)).

(** How many of the draws satisfy [f]. *)
Definition count (f : Z -> bool) (l : list Z) : Z := Z.of_nat (length (List.filter f l)).

(** An empty maze on six columns and five rows, one nub. *)
Definition open_grid : grid := Grid 6 5 0 1.

(** The sample options with [mazecomplexity = -5]. *)
Definition negative_options : options := Options false false false false false (-5) 100 band_1_2.

(** A walk about to start at (2, 2) of the empty maze. *)
Definition open_walk : walk := Walk ∅ [Pos 2 2 0] 42 0 0.

(** The same walk one round later, gone left, under [negative_options]. *)
Definition open_walk_after : walk :=
  Walk {[ (1, 2) := FLAGR; (2, 2) := FLAGL ]} [Pos 2 2 0; Pos 1 2 1] 3263785912 0 0.

(** A mesh on six columns whose slice 0 has its boundary set. *)
Definition started_mesh : mesh :=
  Mesh (Slice 48 (-25) [0; -24; 48] :: replicate 23 (Slice 0 0 [])) 72 ∅ 0 0.

(** ** The test pattern, cell by cell *)

(** [!(test (x, y) & FLAGI)] *)
Definition valid (g : grid) (m : maze_t) (x y : Z) : bool :=
  match test g m x y with
  | Ok t => Z.land t FLAGI =? 0
  | _ => false
  end.

(** The condition of the test pattern at (X, Y): the cell and the one to its
    right are both valid. *)
Definition pair_valid (g : grid) (m : maze_t) (X Y : Z) : bool :=
  valid g m X Y && valid g m (X + 1) Y.

(** The cell to the right of (X, Y), wrapped once at the seam. *)
Definition right_of (g : grid) (X Y : Z) : Z * Z :=
  if W g <=? X + 1 then (X + 1 - W g, Y + helix g) else (X + 1, Y).

(** The cell whose right neighbour is (x, y). *)
Definition left_of (g : grid) (x y : Z) : Z * Z :=
  if x =? 0 then (W g - 1, y - helix g) else (x - 1, y).

(** The byte [a] with FLAGR added where [r] holds and FLAGL where [l] holds. *)
Definition stamp (a : Z) (r l : bool) : Z :=
  Z.lor a (Z.lor (if r then FLAGR else 0) (if l then FLAGL else 0)).

(** Whether the test pattern opens the rightward edge of (x, y), on the maze
    [m] it starts from. *)
Definition opens_right (g : grid) (m : maze_t) (x y : Z) : bool :=
  in_grid g x y && pair_valid g m x y.

(** Whether the test pattern opens the leftward edge of (x, y). *)
Definition opens_left (g : grid) (m : maze_t) (x y : Z) : bool :=
  (0 <=? x) && (x <? W g)
  && (let '(X, Y) := left_of g x y in in_grid g X Y && pair_valid g m X Y).

(** (x, y) comes before (Xc, Yc) in the order of the two loops. *)
Definition earlier (x y Xc Yc : Z) : bool :=
  (y <? Yc) || ((y =? Yc) && (x <? Xc)).

(** The same two conditions, for the pairs the loops have reached before
    (Xc, Yc). *)
Definition done_right (g : grid) (m : maze_t) (Xc Yc x y : Z) : bool :=
  in_grid g x y && earlier x y Xc Yc && pair_valid g m x y.

Definition done_left (g : grid) (m : maze_t) (Xc Yc x y : Z) : bool :=
  (0 <=? x) && (x <? W g)
  && (let '(X, Y) := left_of g x y in
      in_grid g X Y && earlier X Y Xc Yc && pair_valid g m X Y).

(** The maze [m'] when the loops of the test pattern, started on [m], are
    about to visit (Xc, Yc). *)
Definition pattern_upto (g : grid) (m : maze_t) (Xc Yc : Z) (m' : maze_t) : Prop :=
  forall x y, cell m' x y = stamp (cell m x y) (done_right g m Xc Yc x y) (done_left g m Xc Yc x y).

(** ** The exit, node by node *)

(** The second and third conditions of "Entry" for the cell of node [nd]:
    [test (X, Y + 1) & FLAGI], and the column condition, which only binds
    with [flip] on an outside maze. *)
Definition eligible (g : grid) (o : options) (m : maze_t) (nd : pos_t) : bool :=
  negb (valid g m (px nd) (py nd + 1))
  && (negb (flip o) || inside o || (Z.rem (px nd) (Z.quot (W g) (nubs g)) =? 0)).

(** The two mazes carry FLAGI on the same cells. *)
Definition same_FLAGI (m m' : maze_t) : Prop :=
  forall a b, Z.land (cell m' a b) FLAGI = Z.land (cell m a b) FLAGI.

(** What [max] and [maxx] record of the nodes [nds] allocated so far.  A node
    of depth [pn nd] was reached from a node of depth [pn nd - 1], the depth
    that "Entry" compares and stores. *)
Definition records (g : grid) (o : options) (m : maze_t) (nds : list pos_t) (mx mxx : Z) : Prop :=
  0 <= mx
  /\ (forall nd, In nd nds -> eligible g o m nd = true -> pn nd <= mx + 1)
  /\ ((mx = 0 /\ mxx = 0)
      \/ (0 < mx /\ exists nd, In nd nds /\ eligible g o m nd = true
                               /\ pn nd = mx + 1 /\ px nd = mxx)).

(** Three columns and three rows, of which the middle one is in the band. *)
Definition band_1 (X Y : Z) : bool := (Y <? 1) || (1 <? Y).
Definition small_options : options := Options false false false false false 5 100 band_1.
Definition small_grid : grid := Grid 3 3 0 1.

(** The maze a walk starts from: the band cleared and the park point seeded;
    the walk then starts at (1, 1). *)
Definition seeded (g : grid) (o : options) : maze_t :=
  match (let* m := clear_high_low g o ∅ in park_point g o m) with
  | Ok (m, _, _) => m
  | _ => ∅
  end.

Definition sample_maze : maze_t := seeded sample_grid sample_options.
Definition small_maze : maze_t := seeded small_grid small_options.

(** ** The measure of the walk *)

(** The cells of the grid, column by column. *)
Definition cells (g : grid) : list (Z * Z) :=
  x ← seqZ 0 (W g); (fun y => (x, y)) <$> seqZ 0 (H g).

(** A cell no edge has reached: [!test (x, y)]. *)
Definition untouched (g : grid) (m : maze_t) (c : Z * Z) : bool :=
  group_flags g m (fst c) (snd c) =? 0.

(** Twice the number of untouched cells, plus the length of the queue: it
    decreases at every round of the walk. *)
Definition measure (g : grid) (s : walk) : nat :=
  (2 * length (List.filter (untouched g (maze s)) (cells g)) + length (queue s))%nat.

(** Every node of the queue is a cell of the grid. *)
Definition queue_in_grid (g : grid) (q : list pos_t) : Prop :=
  Forall (fun p => in_grid g (px p) (py p) = true) q.

(** [m'] is [m] with bits added. *)
Definition grown (m m' : maze_t) : Prop :=
  forall a b, exists f, cell m' a b = Z.lor (cell m a b) f.

(** ** Adjustments of [main] and [box] *)

(** "Sanity checks and adjustments", the nub count against the helix:
    [if (helix && nubs > 1 && nubs < helix) { if (!(helix % 2) && nubs <= helix / 2)
    nubs = helix / 2; else nubs = helix; } if (helix && nubs > helix) nubs = helix;] *)
Definition adjust_nubs (helix nubs : Z) : Z :=
  let nubs :=
    if negb (helix =? 0) && (1 <? nubs) && (nubs <? helix) then
      if (Z.rem helix 2 =? 0) && (nubs <=? Z.quot helix 2) then Z.quot helix 2 else helix
    else nubs in
  if negb (helix =? 0) && (helix <? nubs) then helix else nubs.

(** [W = ((int) (...)) / nubs * nubs]: the count [n] of maze steps round the
    part, cut down to a multiple of [nubs].  A division by zero is undefined. *)
Definition maze_width (n nubs : Z) : result Z :=
  if nubs =? 0 then Undefined else Ok (Z.quot n nubs * nubs).

(** The four flags at the head of [box]: whether this part has its maze
    inside, outside, and whether the next part has. *)
Record part_flags : Type := PartFlags {
  mazeinside : bool;
  mazeoutside : bool;
  nextinside : bool;
  nextoutside : bool
}.

(** [inside] and [flip] are the options of [main], each 0 or 1; [part & 1] is
    the parity of the part. *)
Definition box_flags (inside flip : bool) (part parts : Z) : part_flags :=
  let mazeinside := inside in
  let mazeoutside := negb inside in
  let nextinside := inside in
  let nextoutside := negb inside in
  let '(mazeinside, mazeoutside, nextinside, nextoutside) :=
    if flip then
      if negb (Z.land part 1 =? 0)
      then (negb mazeinside, mazeoutside, nextinside, negb nextoutside)
      else (mazeinside, negb mazeoutside, negb nextinside, nextoutside)
    else (mazeinside, mazeoutside, nextinside, nextoutside) in
  let mazeinside := if part =? 1 then false else mazeinside in
  let mazeoutside := if part =? parts then false else mazeoutside in
  let nextoutside := if parts <=? part + 1 then false else nextoutside in
  let nextinside := if part =? parts then false else nextinside in
  PartFlags mazeinside mazeoutside nextinside nextoutside.

(** [if (!mazeinside && part > 1) addnub (r0, 1);] *)
Definition nubs_inside (f : part_flags) (part : Z) : bool :=
  negb (mazeinside f) && (1 <? part).

(** [if (!mazeoutside && part < parts) addnub (r1, 0);] *)
Definition nubs_outside (f : part_flags) (part parts : Z) : bool :=
  negb (mazeoutside f) && (part <? parts).

(** ** The maze as the sum of its writes *)

(** A run of statements [maze[x][y] |= f], in order. *)
Fixpoint writes (g : grid) (ws : list (Z * Z * Z)) (m : maze_t) : result maze_t :=
  match ws with
  | [] => Ok m
  | (x, y, f) :: ws' => let* m := maze_or g m x y f in writes g ws' m
  end.

(** The bits the run adds at (x, y). *)
Definition written (ws : list (Z * Z * Z)) (x y : Z) : Z :=
  fold_right (fun '(a, b, f) acc => if (a =? x) && (b =? y) then Z.lor f acc else acc) 0 ws.

(** Whether the run adds a bit of [F] at (x, y). *)
Definition wrote (ws : list (Z * Z * Z)) (F x y : Z) : bool :=
  existsb (fun '(a, b, f) => (a =? x) && (b =? y) && has f F) ws.

(** The condition of the "A" at finish. *)
Definition park_A (g : grid) (o : options) : bool :=
  negb (inside o) && negb (noa o)
  && (if parkvertical o
      then (2 <? Z.quot (W g) (nubs g)) && (helix g + 4 <? H g)
      else (3 <? Z.quot (W g) (nubs g)) && (helix g + 3 <? H g)).

(** The writes of "Final park point", in order, for [helix >= 0]. *)
Definition park_writes (g : grid) (o : options) : list (Z * Z * Z) :=
  if parkvertical o then
    flat_map (fun N => [(0, N, FLAGU + FLAGD); (0, N + 1, FLAGD)]) (seqZ 0 (helix g + 2))
    ++ (if park_A g o then
          let X := 0 in
          let Y := helix g + 2 in
          [(X, Y, Z.lor (Z.lor FLAGD FLAGU) FLAGR);
           (X, Y + 1, Z.lor FLAGD FLAGR);
           (X + 1, Y, Z.lor (Z.lor FLAGD FLAGU) FLAGL);
           (X + 1, Y + 1, Z.lor FLAGD FLAGL);
           (X + 1, Y - 1, FLAGU)]
        else [])
  else
    let X := 1 in
    let Y := helix g + 1 in
    [(0, helix g + 1, FLAGR); (X, Y, FLAGL)]
    ++ (if park_A g o then
          [(X, Y, Z.lor (Z.lor FLAGL FLAGR) FLAGU);
           (X + 1, Y, Z.lor FLAGL FLAGU);
           (X + 1, Y + 1, Z.lor FLAGL FLAGD);
           (X, Y + 1, Z.lor (Z.lor FLAGL FLAGR) FLAGD);
           (X - 1, Y + 1, FLAGR)]
        else []).

(** The cell the walk starts from, for [helix >= 0]. *)
Definition park_cell (g : grid) (o : options) : Z * Z :=
  if parkvertical o
  then if park_A g o then (1, helix g + 1) else (0, helix g + 2)
  else if park_A g o then (0, helix g + 2) else (1, helix g + 1).

(** Rows the park point needs above the helix: [maze[0][helix + 2]] is written
    when parking vertically, [maze[1][helix + 1]] otherwise. *)
Definition park_rows (o : options) : Z := if parkvertical o then 2 else 1.

(** Every passage is open from both of its ends: FLAGR on a cell goes with
    FLAGL on the cell to its right, wrapped at the seam, and FLAGU with FLAGD
    on the cell above, for two cells of the grid. *)
Definition paired (g : grid) (m : maze_t) : Prop :=
  forall x y, 0 <= x < W g ->
    has (cell m x y) FLAGR
    = has (cell m (fst (right_of g x y)) (snd (right_of g x y))) FLAGL
    /\ (0 <= y -> y + 1 < H g ->
        has (cell m x y) FLAGU = has (cell m x (y + 1)) FLAGD).

(** The same, of the bits a run of writes adds. *)
Definition paired_writes (g : grid) (ws : list (Z * Z * Z)) : Prop :=
  forall x y, 0 <= x < W g ->
    wrote ws FLAGR x y = wrote ws FLAGL (fst (right_of g x y)) (snd (right_of g x y))
    /\ (0 <= y -> y + 1 < H g -> wrote ws FLAGU x y = wrote ws FLAGD x (y + 1)).

(** The two writes of a move, and the cell it ends in. *)
Definition move_writes (g : grid) (d : dir) (X Y : Z) : list (Z * Z * Z) * (Z * Z) :=
  match d with
  | Right =>
      let c := if W g <=? X + 1 then (X + 1 - W g, Y + helix g) else (X + 1, Y) in
      ([(X, Y, FLAGR); (fst c, snd c, FLAGL)], c)
  | Left =>
      let c := if X - 1 <? 0 then (X - 1 + W g, Y - helix g) else (X - 1, Y) in
      ([(X, Y, FLAGL); (fst c, snd c, FLAGR)], c)
  | Down => ([(X, Y, FLAGD); (X, Y - 1, FLAGU)], (X, Y - 1))
  | Up => ([(X, Y, FLAGU); (X, Y + 1, FLAGD)], (X, Y + 1))
  end.

(** The maze [m'] when the loops of "Clear too high/low", started on [m],
    are about to visit (Xc, Yc). *)
Definition cleared_upto (g : grid) (o : options) (m : maze_t) (Xc Yc : Z) (m' : maze_t)
  : Prop :=
  forall x y,
    cell m' x y = if in_grid g x y && earlier x y Xc Yc && too_high_low o x y
                  then Z.lor (cell m x y) FLAGI else cell m x y.

(** The cell of a node. *)
Definition cell_of (nd : pos_t) : Z * Z := (px nd, py nd).

(** No direction is left to take from the cell of [nd]: the four neighbours
    are in use or invalid. *)
Definition stuck (g : grid) (m : maze_t) (nd : pos_t) : Prop :=
  ways g m (px nd) (py nd) = Ok 0.

(** [nd] was reached from [par] by one move: it is one deeper and its cell is
    the neighbour of the cell of [par] in some direction, wrapped at the
    seam. *)
Definition child_of (g : grid) (par nd : pos_t) : Prop :=
  pn nd = pn par + 1
  /\ exists d, cell_of nd = normal g (fst (ahead d (px par) (py par)))
                                     (snd (ahead d (px par) (py par))).

(** ** The entry *)

(** Column [X] of [m'] is column [X] of [m] with the entry carved: from the
    top row down, the cells that carry FLAGI are opened up and down, and the
    first cell without FLAGI, or else the cell of row 0, has FLAGU added to
    its byte. *)
Definition entry_carved (g : grid) (m m' : maze_t) (X : Z) : Prop :=
  exists Y0,
    0 <= Y0 < H g
    /\ (Y0 = 0 \/ has (cell m X Y0) FLAGI = false)
    /\ (forall y, Y0 < y < H g ->
          has (cell m X y) FLAGI = true
          /\ cell m' X y = Z.lor (cell m X y) (FLAGU + FLAGD))
    /\ cell m' X Y0 = (cell m X Y0 + FLAGU) mod 256
    /\ (forall y, y < Y0 \/ H g <= y -> cell m' X y = cell m X y).

(** The columns the entry is carved in: those of the grid at a multiple of
    [W / nubs] from [maxx]. *)
Definition entry_column (g : grid) (maxx x : Z) : bool :=
  (0 <=? x) && (x <? W g)
  && (x mod Z.quot (W g) (nubs g) =? maxx mod Z.quot (W g) (nubs g)).

(** The maze built on the sample grid, before the entry is carved. *)
Definition sample_built : maze_t :=
  match build_maze sample_grid sample_options 42 with
  | Ok (m, _, _) => m
  | _ => ∅
  end.

(** The sample options with the park point vertical. *)
Definition vertical_options : options := Options false false false true false 5 100 band_1_2.

(** ** What a printing computation leaves *)

(** If [e], run after [pre] was printed, returns [a], then [Q] holds of all
    that was printed and of [a]. *)
Definition eafter {A : Type} (pre : list out) (e : emit A) (Q : list out -> A -> Prop)
  : Prop :=
  forall o a, e = (o, Ok a) -> Q (pre ++ o) a.

(** [e] returns a value that satisfies [J], or ends in [fatal] with one of
    the messages [msgs]: it does not leave an array and does not run out of
    fuel. *)
Definition esafe {A : Type} (msgs : list string) (e : emit A) (J : A -> Prop) : Prop :=
  match snd e with
  | Ok a => J a
  | Fatal msg => In msg msgs
  | Undefined | OutOfFuel => False
  end.

(** The points printed so far and the mesh agree: [P] counts the points,
    there are [W * 4] slices, and every index stored in slice [S] is the
    rank of a point printed for slice [S], a negative one of a point of the
    recess layer. *)
Definition indexed (g : grid) (pts : list out) (k : mesh) : Prop :=
  Z.of_nat (length pts) = P k
  /\ length (slices k) = Z.to_nat (W g * 4)
  /\ Forall (fun x => exists S layer, x = Point S layer) pts
  /\ forall S x i,
       0 <= S -> slices k !! Z.to_nat S = Some x -> In i (sp x) ->
       exists layer,
         pts !! Z.to_nat (Z.abs i) = Some (Point S layer) /\ (i < 0 -> layer = 1).

(** The first ring: point [S] is the back point of slice [S]. *)
Definition based (g : grid) (pts : list out) : Prop :=
  forall S, 0 <= S < W g * 4 -> pts !! Z.to_nat S = Some (Point S 0).

(** Every face of [fs] is made of indices of [0, n). *)
Definition faces_in (n : Z) (fs : list out) : Prop :=
  Forall (fun x => match x with
                   | Face f => Forall (fun j => 0 <= j < n) f
                   | Point _ _ => False
                   end) fs.

(** Every stored index is below [P], and the three rings of the base, from
    [bottom = 0], are printed. *)
Definition bounded (g : grid) (k : mesh) : Prop :=
  bottom k = 0 /\ 3 * (W g * 4) <= P k
  /\ length (slices k) = Z.to_nat (W g * 4)
  /\ Forall (fun x => Forall (fun i => Z.abs i < P k) (sp x)) (slices k).

(** The six rings of "Make points": three at the base from [bottom], three at
    the top from [top], each of [W * 4] points, one for each slice. *)
Definition ringed (g : grid) (pts : list out) (k : mesh) : Prop :=
  let n := W g * 4 in
  bottom k = 0 /\ 3 * n <= top k /\ P k = top k + 3 * n
  /\ forall S, 0 <= S < n ->
       pts !! Z.to_nat (bottom k + S) = Some (Point S 0)
       /\ pts !! Z.to_nat (bottom k + n + S) = Some (Point S 1)
       /\ pts !! Z.to_nat (bottom k + 2 * n + S) = Some (Point S 2)
       /\ pts !! Z.to_nat (top k + S) = Some (Point S 2)
       /\ pts !! Z.to_nat (top k + n + S) = Some (Point S 1)
       /\ pts !! Z.to_nat (top k + 2 * n + S) = Some (Point S 0).

(** ** The two halves of [slice] *)

(** "New - draw to bottom": the first call on a slice sets its boundaries on
    the base rings and prints the quad below them. *)
Definition slice_new (g : grid) (S l r : Z) (k : mesh) (x : slice_t) : emit mesh :=
  let n4 := W g * 4 in
  if sl x =? 0 then
    let l0 := (if l <? 0 then -1 else 1)
              * (bottom k + S + n4 + (if l <? 0 then 0 else n4)) in
    let r0 := (if r <? 0 then -1 else 1)
              * (bottom k + Z.rem (S + 1) n4 + n4 + (if r <? 0 then 0 else n4)) in
    do* _ := print (Face [Z.abs l0; Z.abs r0; Z.rem (S + 1) n4; S]) in
    eret (set_slice S (Slice l0 r0 (sp x)) k)
  else eret k.

(** "Advance": from the boundaries of slice [S] to [l] and [r]. *)
Definition slice_advance (g : grid) (S l r : Z) (k : mesh) : emit mesh :=
  let n4 := W g * 4 in
  do* x := quiet (slice_at (slices k) S) in
  if (l =? sl x) && (r =? sr x) then eret k
  else
    let SR := Z.rem (S + 1) n4 in
    let n1 := scan (sp x) (sl x) in
    let n2 := scan_from (sp x) n1 l in
    if (n1 =? length (sp x))%nat || (n2 =? length (sp x))%nat
    then quiet (Fatal "Bad render %d->%d")
    else
      let ls := same_side (sp x) n1 n2 (sl x) in
      do* _ := (match ls with
                | [] => eret tt
                | _ :: _ => print (Face (ls ++ [Z.abs l; Z.abs r]))
                end) in
      do* xr := quiet (slice_at (slices k) SR) in
      let m1 := scan (sp xr) (sr x) in
      let m2 := scan_from (sp xr) m1 r in
      if (m1 =? length (sp xr))%nat || (m2 =? length (sp xr))%nat
      then quiet (Fatal "Bad render %d->%d")
      else
        let rs := rev (same_side (sp xr) m1 m2 (sr x)) in
        do* _ := (match ls with
                  | [] => print (Face ([Z.abs l; Z.abs r] ++ rs))
                  | _ :: _ =>
                      if (m1 <? m2)%nat
                      then print (Face ([Z.abs r] ++ rs ++ [Z.abs (sl x)]))
                      else eret tt
                  end) in
        eret (set_slice S (Slice l r (sp x)) k).

(** The messages "Make points" can end with: a slice has no room left for a
    point. *)
Definition points_messages : list string :=
  ["WTF points %d"%string; "WTF points"%string].

(** The mesh has its [W * 4] slices. *)
Definition sliced (g : grid) (k : mesh) : Prop :=
  length (slices k) = Z.to_nat (W g * 4).

(** What [e] returned, or [d] if it did not return. *)
Definition returned {A : Type} (e : emit A) (d : A) : A :=
  match snd e with
  | Ok a => a
  | _ => d
  end.

(** The mesh with no slice. *)
Definition no_mesh : mesh := Mesh [] 0 ∅ 0 0.

(** The sample maze with its entry carved. *)
Definition sample_entry : maze_t :=
  match entry_point sample_grid 5 sample_built with
  | Ok m => m
  | _ => ∅
  end.

(** The points of the sample maze and the mesh they leave. *)
Definition sample_points : emit mesh := make_points sample_grid sample_options sample_entry.
Definition sample_mesh : mesh := returned sample_points no_mesh.

(** The first call of "Make faces" on the sample mesh. *)
Definition sample_slice : emit mesh := slice sample_grid 0 72 73 sample_mesh.

(** The whole sample run. *)
Definition sample_makemaze : emit (Z * Z * Z * mesh) := makemaze sample_options 0 2 6 2 42.

(** A grid with one nub, a band that cuts row 2 short after column 3, and the
    test pattern built on them. *)
Definition plain_grid : grid := Grid 6 4 0 1.
Definition band_cut (X Y : Z) : bool := (Y <? 1) || (2 <? Y) || ((3 <? X) && (1 <? Y)).
Definition test_options : options := Options false false true false false 5 100 band_cut.
Definition test_built : maze_t :=
  match build_maze plain_grid test_options 7 with
  | Ok (m, _, _) => m
  | _ => ∅
  end.

(** ** The layout of "Make points" *)

(** Slice [S] holds the index [i], with its sign. *)
Definition holds (k : mesh) (S i : Z) : Prop :=
  0 <= S /\ exists x, slices k !! Z.to_nat S = Some x /\ In i (sp x).

(** The absolute values of [p] go up strictly. *)
Definition increasing (p : list Z) : Prop :=
  forall i j a b, p !! i = Some a -> p !! j = Some b -> (i < j)%nat -> Z.abs a < Z.abs b.

(** While the points are added: no boundary is set, and the list of every
    slice goes up strictly in absolute value, below [P]. *)
Definition growing (g : grid) (k : mesh) : Prop :=
  length (slices k) = Z.to_nat (W g * 4) /\ 0 <= P k
  /\ forall S x, slices k !! S = Some x ->
       sl x = 0 /\ sr x = 0 /\ increasing (sp x) /\ Forall (fun i => Z.abs i < P k) (sp x).

(** The condition under which a cell gets its points and its faces:
    [!(!(v & FLAGA) || (v & FLAGI))] for [v = test (X, Y)]. *)
Definition rendered (g : grid) (m : maze_t) (X Y : Z) : bool :=
  let v := group_flags g m X Y in
  negb ((Z.land v FLAGA =? 0) || negb (Z.land v FLAGI =? 0)).

(** The sixteen points of a cell of column [X], from [Pc]: four rows of four,
    one point of each row in each of the slices [X * 4 .. X * 4 + 3], the two
    middle rows in the recess. *)
Definition block (k : mesh) (X Pc : Z) : Prop :=
  forall j, 0 <= j < 4 ->
    holds k (X * 4 + j) (Pc + j) /\ holds k (X * 4 + j) (- (Pc + 4 + j))
    /\ holds k (X * 4 + j) (- (Pc + 8 + j)) /\ holds k (X * 4 + j) (Pc + 12 + j).

(** What [p[][]] holds when the loops of "Points for each maze location" are
    about to visit (Xc, Yc), [lim] being the next point: a block for each
    rendered cell met so far, in the order the cells were met. *)
Definition celled (g : grid) (m : maze_t) (k : mesh) (Xc Yc lim : Z) : Prop :=
  (forall X Y Pc, pstart k !! (X, Y) = Some Pc ->
     0 <= X < W g /\ 0 <= Y < H g /\ earlier X Y Xc Yc = true
     /\ rendered g m X Y = true
     /\ 3 * (W g * 4) <= Pc /\ Pc + 16 <= lim /\ block k X Pc)
  /\ (forall X Y, 0 <= X < W g -> 0 <= Y < H g -> earlier X Y Xc Yc = true ->
        rendered g m X Y = true -> is_Some (pstart k !! (X, Y)))
  /\ (forall X Y Pc X' Y' Pc',
        pstart k !! (X, Y) = Some Pc -> pstart k !! (X', Y') = Some Pc' ->
        earlier X Y X' Y' = true -> Pc + 16 <= Pc').

(** The six rings: three from [bottom = 0], the middle one in the recess, and
    three from [top]. *)
Definition rings (g : grid) (k : mesh) : Prop :=
  let n := W g * 4 in
  forall S, 0 <= S < n ->
    holds k S S /\ holds k S (- (n + S)) /\ holds k S (2 * n + S)
    /\ holds k S (top k + S) /\ holds k S (top k + n + S) /\ holds k S (top k + 2 * n + S).

(** The mesh that "Make points" leaves. *)
Definition laid (g : grid) (m : maze_t) (k : mesh) : Prop :=
  let n := W g * 4 in
  bottom k = 0 /\ 3 * n <= top k /\ P k = top k + 3 * n
  /\ length (slices k) = Z.to_nat n
  /\ (forall S x, 0 <= S -> slices k !! Z.to_nat S = Some x ->
        sl x = 0 /\ sr x = 0
        /\ exists q, sp x = q ++ [S] /\ increasing q /\ Forall (fun i => Z.abs i < P k) q)
  /\ rings g k
  /\ celled g m k 0 (H g) (top k).

(** ** When [slice] finds its way *)

(** The two searches of "Advance" on a list [p] end inside it: [a] is found,
    and [b] is found at or after the place of [a]. *)
Definition follows (p : list Z) (a b : Z) : Prop :=
  (scan p a < length p)%nat /\ (scan_from p (scan p a) b < length p)%nat.

(** The boundaries that "Advance" starts from, in a call [slice (S, l, r)] on
    a slice [x]: those of "New - draw to bottom" if the slice has none. *)
Definition start_l (g : grid) (k : mesh) (x : slice_t) (S l : Z) : Z :=
  if sl x =? 0
  then (if l <? 0 then -1 else 1) * (bottom k + S + W g * 4 + (if l <? 0 then 0 else W g * 4))
  else sl x.

Definition start_r (g : grid) (k : mesh) (x : slice_t) (S r : Z) : Z :=
  if sl x =? 0
  then (if r <? 0 then -1 else 1)
       * (bottom k + Z.rem (S + 1) (W g * 4) + W g * 4 + (if r <? 0 then 0 else W g * 4))
  else sr x.

(** ** Runs of calls of [slice] *)

(** [k] is the mesh [k0] that "Make points" left, up to the boundaries of
    its slices. *)
Definition framed (k0 k : mesh) : Prop :=
  P k = P k0 /\ bottom k = bottom k0 /\ top k = top k0 /\ pstart k = pstart k0
  /\ length (slices k) = length (slices k0)
  /\ forall S x, slices k !! S = Some x ->
       exists x0, slices k0 !! S = Some x0 /\ sp x = sp x0.

(** Slice [S] holds [i], and [i] is not of the first ring. *)
Definition inner (g : grid) (k0 : mesh) (S i : Z) : Prop :=
  holds k0 S i /\ W g * 4 <= Z.abs i.

(** The boundaries of every slice are points of its list and of the list of
    the next slice, or are not set. *)
Definition leveled (g : grid) (k0 k : mesh) : Prop :=
  forall S x, 0 <= S -> slices k !! Z.to_nat S = Some x ->
    sl x = 0
    \/ (inner g k0 S (sl x) /\ inner g k0 (Z.rem (S + 1) (W g * 4)) (sr x)).

(** A call [slice (S, l, r)] toward points of the two lists, not below the
    ring that a new slice starts from. *)
Definition fit (g : grid) (k0 : mesh) (c : Z * Z * Z) : Prop :=
  let '(i, l, r) := c in
  let n := W g * 4 in
  0 <= i < n
  /\ inner g k0 i l /\ inner g k0 (Z.rem (i + 1) n) r
  /\ (if l <? 0 then n + i else 2 * n + i) <= Z.abs l
  /\ (if r <? 0 then n + Z.rem (i + 1) n else 2 * n + Z.rem (i + 1) n) <= Z.abs r.

(** The call does not go back from the boundaries that slice [S] has. *)
Definition above (k : mesh) (c : Z * Z * Z) : Prop :=
  let '(i, l, r) := c in
  forall x, slices k !! Z.to_nat i = Some x -> sl x <> 0 ->
    Z.abs (sl x) <= Z.abs l /\ Z.abs (sr x) <= Z.abs r.

(** A later call on the same slice does not go back from an earlier one. *)
Definition rising (c c' : Z * Z * Z) : Prop :=
  fst (fst c) = fst (fst c') ->
  Z.abs (snd (fst c)) <= Z.abs (snd (fst c')) /\ Z.abs (snd c) <= Z.abs (snd c').

(** ** The loops of "Make faces" *)

(** When the loops of the maze are about to visit (Xc, Yc), the boundaries
    of every slice are below [top] and below the blocks of the cells of its
    column still to come; the right boundary of the fourth slice of a column
    is below the blocks of their right neighbours. *)
Definition below (g : grid) (k0 k : mesh) (Xc Yc : Z) : Prop :=
  forall X j x, 0 <= X < W g -> 0 <= j < 4 ->
    slices k !! Z.to_nat (X * 4 + j) = Some x -> sl x <> 0 ->
    Z.abs (sl x) < top k0 /\ Z.abs (sr x) < top k0
    /\ forall Y Pc, earlier X Y Xc Yc = false -> pstart k0 !! (X, Y) = Some Pc ->
         Z.abs (sl x) < Pc
         /\ (j < 3 -> Z.abs (sr x) < Pc)
         /\ (j = 3 -> forall PR, pstart k0 !! right_of g X Y = Some PR -> Z.abs (sr x) < PR).

(** When the loop of "Top" is about to close slice [Sc], the slices from
    [Sc] on have their boundaries below [top]. *)
Definition topping (g : grid) (k0 k : mesh) (Sc : Z) : Prop :=
  framed k0 k
  /\ forall S x, Sc <= S < W g * 4 -> slices k !! Z.to_nat S = Some x ->
       sl x = 0
       \/ (inner g k0 S (sl x) /\ inner g k0 (Z.rem (S + 1) (W g * 4)) (sr x)
           /\ Z.abs (sl x) < top k0 /\ Z.abs (sr x) < top k0).

(** A call [slice (S, l, r)] made for the cell (X, Y) leaves the boundaries
    of slice [S], one of the four of column [X], below [top] and below the
    blocks of the cells of the column above row [Y]. *)
Definition settled (g : grid) (k0 : mesh) (X Y : Z) (c : Z * Z * Z) : Prop :=
  let '(i, l, r) := c in
  exists j, 0 <= j < 4 /\ i = X * 4 + j
    /\ l <> 0 /\ Z.abs l < top k0 /\ Z.abs r < top k0
    /\ forall Y' Pc', Y < Y' -> pstart k0 !! (X, Y') = Some Pc' ->
         Z.abs l < Pc'
         /\ (j < 3 -> Z.abs r < Pc')
         /\ (j = 3 -> forall PR', pstart k0 !! right_of g X Y' = Some PR' -> Z.abs r < PR').

(** The slices of [k'] are those of [k], but for the boundaries that the
    calls [calls] have set. *)
Definition advanced (k k' : mesh) (calls : list (Z * Z * Z)) : Prop :=
  forall S x', 0 <= S -> slices k' !! Z.to_nat S = Some x' ->
    slices k !! Z.to_nat S = Some x'
    \/ exists l r, In (S, l, r) calls /\ sl x' = l /\ sr x' = r.

(** [i] is one of the four points of slice [j] of the block that starts at
    [Pc], with its sign. *)
Definition cell_point (Pc j i : Z) : Prop :=
  exists d, (i = Pc + d /\ (d = j \/ d = 12 + j))
            \/ (i = - (Pc + d) /\ (d = 4 + j \/ d = 8 + j)).

(** ** Room for the points *)

(** The list of slice [S] has at most [f S] points. *)
Definition fits (k : mesh) (f : Z -> Z) : Prop :=
  forall S x, 0 <= S -> slices k !! Z.to_nat S = Some x -> Z.of_nat (length (sp x)) <= f S.

(** ** The options of the command line and of the path *)

(** A C string is the list of its bytes, without the terminating zero; a
    character is its code.  The tests of [ctype.h] are those of the "C"
    locale, the only one the program runs in. *)
Definition chr (s : string) : Z :=
  match s with
  | String a _ => Z.of_N (N_of_ascii a)
  | EmptyString => 0
  end.

Definition cstr (s : string) : list Z :=
  (fun a => Z.of_N (N_of_ascii a)) <$> list_ascii_of_string s.

Definition isdigit (c : Z) : bool := (chr "0" <=? c) && (c <=? chr "9").

Definition isalpha (c : Z) : bool :=
  ((chr "A" <=? c) && (c <=? chr "Z")) || ((chr "a" <=? c) && (c <=? chr "z")).

Definition isxdigit (c : Z) : bool :=
  isdigit c || ((chr "A" <=? c) && (c <=? chr "F")) || ((chr "a" <=? c) && (c <=? chr "f")).

(** [strcmp (a, b) == 0] *)
Definition streq (a b : list Z) : bool := bool_decide (a = b).

(** What the program takes from the C library to read numbers: the type of
    [double], and [strtol (value, &end, 10)] and [strtod (value, &end)] as
    the value read and the count of characters up to [end]. *)
Record libc : Type := Libc {
  double : Type;
  strtol : list Z -> Z * nat;
  strtod : list Z -> double * nat
}.

Inductive option_type_t : Type := OPT_NONE | OPT_INT | OPT_DOUBLE | OPT_STRING.

(** [option_t], without the two texts of the usage; [target] is the name of
    the variable of [main] that the option sets. *)
Record option_t : Type := Opt {
  long_name : string;
  short_name : Z;
  type : option_type_t;
  target : string
}.

Definition optionsTable : list option_t :=
  [
    Opt "parts" (chr "m") OPT_INT "parts";
    Opt "part" (chr "n") OPT_INT "part";
    Opt "inside" (chr "i") OPT_NONE "inside";
    Opt "flip" (chr "f") OPT_NONE "flip";
    Opt "nubs" (chr "N") OPT_INT "nubs";
    Opt "helix" (chr "H") OPT_INT "helix";
    Opt "base-height" (chr "b") OPT_DOUBLE "baseheight";
    Opt "core-diameter" (chr "c") OPT_DOUBLE "corediameter";
    Opt "core-height" (chr "h") OPT_DOUBLE "coreheight";
    Opt "core-gap" (chr "C") OPT_DOUBLE "coregap";
    Opt "core-solid" (chr "q") OPT_NONE "coresolid";
    Opt "base-thickness" (chr "B") OPT_DOUBLE "basethickness";
    Opt "base-gap" (chr "G") OPT_DOUBLE "basegap";
    Opt "base-wide" (chr "W") OPT_NONE "basewide";
    Opt "part-thickness" (chr "w") OPT_DOUBLE "wallthickness";
    Opt "maze-thickness" (chr "t") OPT_DOUBLE "mazethickness";
    Opt "maze-step" (chr "z") OPT_DOUBLE "mazestep";
    Opt "maze-margin" (chr "M") OPT_DOUBLE "mazemargin";
    Opt "maze-complexity" (chr "X") OPT_INT "mazecomplexity";
    Opt "park-thickness" (chr "p") OPT_DOUBLE "parkthickness";
    Opt "park-vertical" (chr "v") OPT_NONE "parkvertical";
    Opt "clearance" (chr "g") OPT_DOUBLE "clearance";
    Opt "outer-sides" (chr "s") OPT_INT "outersides";
    Opt "outer-round" (chr "r") OPT_DOUBLE "outerround";
    Opt "grip-depth" (chr "R") OPT_DOUBLE "gripdepth";
    Opt "text-depth" (chr "D") OPT_DOUBLE "textdepth";
    Opt "text-end" (chr "E") OPT_STRING "textend";
    Opt "text-side" (chr "S") OPT_STRING "textsides";
    Opt "text-font" (chr "F") OPT_STRING "textfont";
    Opt "text-font-end" (chr "e") OPT_STRING "textfontend";
    Opt "text-slow" (chr "d") OPT_NONE "textslow";
    Opt "text-side-scale" (chr "T") OPT_DOUBLE "textsidescale";
    Opt "text-outset" (chr "O") OPT_NONE "textoutset";
    Opt "text-inside" (chr "I") OPT_STRING "textinside";
    Opt "logo-depth" (chr "L") OPT_DOUBLE "logodepth";
    Opt "symmetric-cut" (chr "V") OPT_NONE "symmectriccut";
    Opt "nub-r-clearance" (chr "y") OPT_DOUBLE "nubrclearance";
    Opt "nub-z-clearance" (chr "Z") OPT_DOUBLE "nubzclearance";
    Opt "logo" (chr "A") OPT_NONE "logo";
    Opt "test" (chr "Q") OPT_NONE "testmaze";
    Opt "mime" 0 OPT_NONE "mime";
    Opt "no-a" 0 OPT_NONE "noa";
    Opt "web-form" 0 OPT_NONE "webform"
  ].

(** The variables of [main] that the options have set, the last set first. *)
Inductive value (L : libc) : Type :=
| VInt (v : Z)
| VDouble (v : double L)
| VString (v : list Z).
Arguments VInt {L} v.
Arguments VDouble {L} v.
Arguments VString {L} v.

Definition store (L : libc) : Type := list (string * value L).

(** How reading the options ends: they are read and [main] goes on; the usage
    is printed and [main] returns 0; a message is printed, made of a format
    and its argument, and [main] returns 1. *)
Inductive outcome (L : libc) : Type :=
| Done (st : store L)
| Usage
| Failed (fmt : string) (arg : list Z).
Arguments Done {L} st.
Arguments Usage {L}.
Arguments Failed {L} fmt arg.

(** [(int) v] for a [long] *)
Definition to_int (v : Z) : Z := (v + 2 ^ 31) mod 2 ^ 32 - 2 ^ 31.

(** [parse_int]: [-1] is [None]. *)
Definition parse_int (L : libc) (v : list Z) : option Z :=
  let '(x, e) := strtol L v in
  if bool_decide (v = []) || (e <? length v)%nat then None else Some (to_int x).

Definition parse_double (L : libc) (v : list Z) : option (double L) :=
  let '(x, e) := strtod L v in
  if bool_decide (v = []) || (e <? length v)%nat then None else Some x.

Fixpoint find_option_by_short (options : list option_t) (c : Z) : option option_t :=
  match options with
  | [] => None
  | o :: options' => if short_name o =? c then Some o else find_option_by_short options' c
  end.

Fixpoint find_option_by_long (options : list option_t) (name : list Z) : option option_t :=
  match options with
  | [] => None
  | o :: options' =>
      if streq (cstr (long_name o)) name then Some o else find_option_by_long options' name
  end.

(** [apply_option]: the store with the target set, or the message left in
    [error].  [strdup] is taken to succeed. *)
Definition apply_option (L : libc) (opt : option_t) (v : option (list Z)) (st : store L)
  : store L + outcome L :=
  match type opt with
  | OPT_NONE => inl ((target opt, VInt 1) :: st)
  | OPT_INT =>
      match v with
      | None => inr (Failed "Invalid integer for -%c" [short_name opt])
      | Some s =>
          match parse_int L s with
          | None => inr (Failed "Invalid integer for -%c" [short_name opt])
          | Some x => inl ((target opt, VInt x) :: st)
          end
      end
  | OPT_DOUBLE =>
      match v with
      | None => inr (Failed "Invalid number for -%c" [short_name opt])
      | Some s =>
          match parse_double L s with
          | None => inr (Failed "Invalid number for -%c" [short_name opt])
          | Some x => inl ((target opt, VDouble x) :: st)
          end
      end
  | OPT_STRING =>
      match v with
      | None => inr (Failed "Missing value for -%c" [short_name opt])
      | Some s => inl ((target opt, VString s) :: st)
      end
  end.

(** [strchr (name, c)]: the index of the first [c]. *)
Fixpoint strchr (s : list Z) (c : Z) : option nat :=
  match s with
  | [] => None
  | x :: s' => if x =? c then Some O else S <$> strchr s' c
  end.

Definition is_none (t : option_type_t) : bool :=
  match t with OPT_NONE => true | _ => false end.

(** The loop of [main] over [argv[1 .. argc)]. *)
Fixpoint parse_args (L : libc) (args : list (list Z)) (st : store L) : outcome L :=
  match args with
  | [] => Done st
  | arg :: rest =>
      if streq arg (cstr "--help") || streq arg (cstr "-h") then Usage
      else if streq (take 2 arg) (cstr "--") then
        let name := drop 2 arg in
        let '(name, v) :=
          match strchr name (chr "=") with
          | Some len => (take (if (64 <=? len)%nat then 63%nat else len) name,
                         Some (drop (S len) name))
          | None => (name, None)
          end in
        match find_option_by_long optionsTable name with
        | None => Failed "Unknown option: %s" arg
        | Some opt =>
            if negb (is_none (type opt)) && negb (bool_decide (is_Some v)) then
              match rest with
              | [] => Failed "Missing value for %s" arg
              | v :: rest' =>
                  match apply_option L opt (Some v) st with
                  | inl st' => parse_args L rest' st'
                  | inr e => e
                  end
              end
            else if is_none (type opt) && bool_decide (is_Some v) then
              Failed "Option %s does not take a value" arg
            else
              match apply_option L opt v st with
              | inl st' => parse_args L rest st'
              | inr e => e
              end
        end
      else
        match arg with
        | a0 :: a1 :: arg2 =>
            if (a0 =? chr "-") then
              let short_name := a1 in
              match find_option_by_short optionsTable short_name with
              | None => Failed "Unknown option: %s" arg
              | Some opt =>
                  if negb (is_none (type opt)) then
                    match arg2 with
                    | _ :: _ =>
                        match apply_option L opt (Some arg2) st with
                        | inl st' => parse_args L rest st'
                        | inr e => e
                        end
                    | [] =>
                        match rest with
                        | [] => Failed "Missing value for -%c" [short_name]
                        | v :: rest' =>
                            match apply_option L opt (Some v) st with
                            | inl st' => parse_args L rest' st'
                            | inr e => e
                            end
                        end
                    end
                  else
                    match arg2 with
                    | _ :: _ => Failed "Option -%c does not take a value" [short_name]
                    | [] =>
                        match apply_option L opt None st with
                        | inl st' => parse_args L rest st'
                        | inr e => e
                        end
                    end
              end
            else Failed "Unknown argument: %s" arg
        | _ => Failed "Unknown argument: %s" arg
        end
  end.

(** ** The path *)

(** [*p] and [*p = c] in the copy of the path: outside the copy they are
    undefined. *)
Definition byte_at (buf : list Z) (p : nat) : result Z :=
  match buf !! p with
  | Some c => Ok c
  | None => Undefined
  end.

Definition set_byte (buf : list Z) (p : nat) (c : Z) : result (list Z) :=
  if (p <? length buf)%nat then Ok (<[p := c]> buf) else Undefined.

(** The C string at [p]. *)
Fixpoint cstring_of (buf : list Z) : list Z :=
  match buf with
  | [] => []
  | c :: buf' => if c =? 0 then [] else c :: cstring_of buf'
  end.

Definition cstring (buf : list Z) (p : nat) : list Z := cstring_of (drop p buf).

(** [isalpha (c) ? (10 + (c & 0xF)) : (c & 0xF)] *)
Definition hexval (c : Z) : Z :=
  if isalpha c then 10 + Z.land c 0xF else Z.land c 0xF.

(** [(char) v], as a byte *)
Definition to_char (v : Z) : Z := v mod 256.

(** [while ( *p && *p != pathsep) p++;] *)
Fixpoint skip_to_sep (fuel : nat) (sep : Z) (buf : list Z) (p : nat) : result nat :=
  match fuel with
  | O => OutOfFuel
  | S fuel' =>
      let* c := byte_at buf p in
      if negb (c =? 0) && negb (c =? sep) then skip_to_sep fuel' sep buf (S p) else Ok p
  end.

(** The loop that copies a value down to [q], decoding it when the path is a
    query string: the copy, [p] and [q] at its end. *)
Fixpoint decode (fuel : nat) (sep : Z) (buf : list Z) (p q : nat)
  : result (list Z * nat * nat) :=
  match fuel with
  | O => OutOfFuel
  | S fuel' =>
      let* c := byte_at buf p in
      if negb (c =? 0) && negb (c =? sep) then
        if (sep =? chr "&") && (c =? chr "+") then
          let* buf := set_byte buf q (chr " ") in
          decode fuel' sep buf (S p) (S q)
        else
          let* escape :=
            (if (sep =? chr "&") && (c =? chr "%") then
               let* c1 := byte_at buf (p + 1) in
               if isxdigit c1 then
                 let* c2 := byte_at buf (p + 2) in Ok (isxdigit c2)
               else Ok false
             else Ok false) in
          if escape then
            let* c1 := byte_at buf (p + 1) in
            let* c2 := byte_at buf (p + 2) in
            let v1 := hexval c1 in
            let v2 := hexval c2 in
            let* buf := set_byte buf q (to_char (Z.shiftl v1 4 + v2)) in
            decode fuel' sep buf (S (p + 2)) (S q)
          else
            let* buf := set_byte buf q c in
            decode fuel' sep buf (S p) (S q)
      else Ok (buf, p, q)
  end.

(** The value of an option of the path: the copy, [p] and [value], or the
    message. *)
Definition path_value (L : libc) (fuel : nat) (sep : Z) (buf : list Z) (p : nat)
    (argch : Z) (opt : option_t)
  : result (list Z * nat * option (list Z) + outcome L) :=
  if negb (is_none (type opt)) then
    let* c := byte_at buf p in
    if negb (c =? chr "=") then Ok (inr (Failed "Missing value [%c=]" [argch]))
    else
      let p := S p in
      let v := p in
      let* (buf, p, q) := decode fuel sep buf p p in
      let* buf := set_byte buf q 0 in
      Ok (inl (buf, p, Some (cstring buf v)))
  else
    let* c := byte_at buf p in
    if c =? chr "=" then
      let* p := skip_to_sep fuel sep buf p in Ok (inl (buf, p, None))
    else Ok (inl (buf, p, None)).

(** The loop over the path, from [p]. *)
Fixpoint parse_path (L : libc) (fuel : nat) (sep : Z) (buf : list Z) (p : nat)
    (st : store L) : result (outcome L) :=
  match fuel with
  | O => OutOfFuel
  | S fuel' =>
      let* c := byte_at buf p in
      if c =? 0 then Ok (Done st)
      else if c =? sep then
        let* buf := set_byte buf p 0 in
        parse_path L fuel' sep buf (S p) st
      else if negb (isalpha c) then Ok (Failed "Path error [%s]" (cstring buf p))
      else
        let argch := c in
        let p := S p in
        match find_option_by_short optionsTable argch with
        | None => Ok (Failed "Unknown arg [%c]" [argch])
        | Some opt =>
            let* r := path_value L (S fuel') sep buf p argch opt in
            match r with
            | inr e => Ok e
            | inl (buf, p, v) =>
                match apply_option L opt v st with
                | inr e => Ok e
                | inl st =>
                    let* p := skip_to_sep (S fuel') sep buf p in
                    let* c := byte_at buf p in
                    let p := if c =? sep then S p else p in
                    parse_path L fuel' sep buf p st
                end
            end
        end
  end.

(** [if (path) { ... }] on the copy of [path], with one turn of the loops
    for each of its bytes and one more. *)
Definition read_path (L : libc) (sep : Z) (path : list Z) (st : store L)
  : result (outcome L) :=
  parse_path L (S (S (length path))) sep (path ++ [0]) 0 st.

(** A library to run the samples with: numbers are runs of decimal digits,
    a [double] is its integer part. *)
Fixpoint digits (acc : Z) (s : list Z) : Z * nat :=
  match s with
  | [] => (acc, O)
  | c :: s' =>
      if isdigit c then let '(v, n) := digits (acc * 10 + (c - chr "0")) s' in (v, S n)
      else (acc, O)
  end.

Definition sample_libc : libc := Libc Z (digits 0) (digits 0).

(** The copy of a path of [n] bytes: [n + 1] bytes, the last one zero. *)
Definition terminated (buf : list Z) (n : nat) : Prop :=
  length buf = S n /\ buf !! n = Some 0.

(** The value of a hexadecimal digit. *)
Definition hex_digit (c : Z) : Z :=
  if isdigit c then c - chr "0"
  else if (chr "a" <=? c) then c - chr "a" + 10
  else c - chr "A" + 10.

(** A value of a query string that holds no escape, decoded: [+] is a
    space. *)
Definition plus_to_space (sep : Z) (v : list Z) : list Z :=
  (fun b => if (sep =? chr "&") && (b =? chr "+") then chr " " else b) <$> v.

(** ** The park ridge *)

(** [for (i = lo; i < hi; i += step) body], for at most [fuel] turns. *)
Fixpoint for_step {A : Type} (fuel : nat) (i hi step : Z) (body : Z -> A -> result A) (a : A)
  : result A :=
  if i <? hi then
    match fuel with
    | O => OutOfFuel
    | S fuel' => let* a := body i a in for_step fuel' (i + step) hi step body a
    end
  else Ok a.

(** Where a point of the ridge lies: on the back of the wall ([x[0]]), on the
    surface ([x[1]]), or at the ridge height, between [x[1]] and [x[2]]. *)
Inductive ridge_place : Type := OnBack | OnSurface | OnRidge.

(** A point of the ridge as printed: the slice that gives its x and y, the
    [Y] and [X] that give its z, and its place. *)
Definition ridge_point : Type := (Z * Z * Z * ridge_place)%type.

Definition ridge_slice (p : ridge_point) : Z := p.1.1.1.

(** The body of the loops over [N], [Y] and [X]: it reads [s[S]] and prints
    two points. *)
Definition ridge_cell (o : options) (ss : list slice_t) (N Y X : Z) (pts : list ridge_point)
  : result (list ridge_point) :=
  let S := N * 4 + X + (if parkvertical o then 0 else 2) in
  let* _ := slice_at ss S in
  let raised := if parkvertical o then (Y =? 1) || (Y =? 2) else (X =? 1) || (X =? 2) in
  Ok (pts ++ [(S, Y, X, OnBack); (S, Y, X, if raised then OnRidge else OnSurface)]).

Definition ridge_nub (o : options) (ss : list slice_t) (N : Z) (pts : list ridge_point)
  : result (list ridge_point) :=
  for_loop 4 0 (fun Y pts => for_loop 4 0 (fun X pts => ridge_cell o ss N Y X pts) pts) pts.

(** The points of "Park ridge", which is made when [parkthickness] is not
    zero: [for (N = 0; N < W; N += W / nubs)] over the slices [ss]. *)
Definition ridge_points (g : grid) (o : options) (ss : list slice_t)
  : result (list ridge_point) :=
  for_step (S (Z.to_nat (W g))) 0 (W g) (Z.quot (W g) (nubs g)) (ridge_nub o ss) [].

(** [add (a, b, c, d)]: two triangles, from the point [P]. *)
Definition add (P a b c d : Z) : list (Z * Z * Z) :=
  [(P + a, P + b, P + c); (P + a, P + c, P + d)].

(** The faces of a nub of the ridge: [X] runs over 0, 2 and 4, [Y] over 0, 8
    and 16. *)
Definition nub_faces (N : Z) : list (Z * Z * Z) :=
  let P := N * 32 in
  flat_map (fun X =>
    add P (X + 0) (X + 1) (X + 3) (X + 2)
    ++ flat_map (fun Y =>
         add P (X + 0 + Y) (X + 2 + Y) (X + 10 + Y) (X + 8 + Y)
         ++ add P (X + 1 + Y) (X + 9 + Y) (X + 11 + Y) (X + 3 + Y)) [0; 8; 16]
    ++ add P (X + 25) (X + 24) (X + 26) (X + 27)) [0; 2; 4]
  ++ flat_map (fun Y =>
       add P (Y + 0) (Y + 8) (Y + 9) (Y + 1)
       ++ add P (Y + 6) (Y + 7) (Y + 15) (Y + 14)) [0; 8; 16].

(** [for (N = 0; N < nubs; N++)] *)
Definition ridge_faces (g : grid) : list (Z * Z * Z) :=
  flat_map nub_faces (seqZ 0 (nubs g)).

(** The three points of a face are among the first [n]. *)
Definition face_within (n : Z) (f : Z * Z * Z) : Prop :=
  let '(a, b, c) := f in 0 <= a < n /\ 0 <= b < n /\ 0 <= c < n.

(** ** The edges of a move *)

(** The flag that a move in direction [d] sets on the cell it leaves, and the
    flag it sets on the cell it enters. *)
Definition flag_out (d : dir) : Z :=
  match d with Right => FLAGR | Left => FLAGL | Down => FLAGD | Up => FLAGU end.

Definition flag_in (d : dir) : Z :=
  match d with Right => FLAGL | Left => FLAGR | Down => FLAGU | Up => FLAGD end.

(** Six columns and eight rows, two nubs on a helix of four, as
    [-H 4 -N 2] gives. *)
Definition half_helix_grid : grid := Grid 6 8 4 2.

(** ** The whole of [makemaze], and the run of the parts *)

(** [makemaze] to its end: the maze polyhedron and then, when [parkthickness]
    is not zero ([park]), "Park ridge".  The points of the ridge are returned;
    the output lists the points and the faces of the maze polyhedron. *)
Definition makemaze_park (o : options) (park : bool) (helix nubs Wm H0 seed : Z)
  : emit (Z * Z * Z * mesh * list ridge_point) :=
  do* (a, seed, k) := makemaze o helix nubs Wm H0 seed in
  if park then
    do* pts := quiet (ridge_points (Grid Wm (H0 + 2 + helix) helix nubs) o (slices k)) in
    eret (a, seed, k, pts)
  else eret (a, seed, k, []).

(** What a call of [makemaze] computes in doubles from its radius and from
    the height of the part: the updated [W], [(int) (h / mazestep)], [MAXY]
    and the comparison of "Clear too high/low". *)
Record maze_call : Type := MazeCall {
  call_W : Z;
  call_H0 : Z;
  call_MAXY : Z;
  call_too_high_low : Z -> Z -> bool
}.

(** The options of [main] that the run of the parts reads, after the
    adjustments, with [run_park] for [parkthickness != 0], and the calls of
    each part: [inner_call] for [makemaze (r0, 1)], [outer_call] for
    [makemaze (r1, 0)]. *)
Record run_t : Type := Run {
  run_part : Z;
  run_parts : Z;
  run_inside : bool;
  run_flip : bool;
  run_basewide : bool;
  run_testmaze : bool;
  run_parkvertical : bool;
  run_noa : bool;
  run_mazecomplexity : Z;
  run_park : bool;
  run_helix : Z;
  run_nubs : Z;
  inner_call : Z -> maze_call;
  outer_call : Z -> maze_call
}.

(** [makemaze (r, inside)] in a run: the state of the random sequence after
    it. *)
Definition call_maze (r : run_t) (inside : bool) (c : maze_call) (seed : Z) : emit Z :=
  let o := Options (run_flip r) inside (run_testmaze r) (run_parkvertical r) (run_noa r)
                   (run_mazecomplexity r) (call_MAXY c) (call_too_high_low c) in
  do* (a, seed, k, pts) :=
    makemaze_park o (run_park r) (run_helix r) (run_nubs r) (call_W c) (call_H0 c) seed in
  eret seed.

(** [box (part)], as far as the mazes and the random sequence go:
    [if (mazeinside) makemaze (r0, 1); if (mazeoutside) makemaze (r1, 0);] and
    then the choice of [entrya] for the nubs, which draws [random_int (360)]
    unless the part is aligned with the lid. *)
Definition box (r : run_t) (part : Z) (seed : Z) : emit Z :=
  let f := box_flags (run_inside r) (run_flip r) part (run_parts r) in
  do* seed := (if mazeinside f then call_maze r true (inner_call r part) seed
               else eret seed) in
  do* seed := (if mazeoutside f then call_maze r false (outer_call r part) seed
               else eret seed) in
  if (mazeoutside f && negb (run_flip r) && (part =? run_parts r))
     || (negb (mazeoutside f) && (part + 1 =? run_parts r))
  then eret seed
  else if (part <? run_parts r) && negb (run_basewide r)
  then eret (snd (random_int 360 seed))
  else eret seed.

(** [if (part) box (part); else for (part = 1; part <= parts; part++) box (part);] *)
Definition boxes (r : run_t) (seed : Z) : emit Z :=
  if negb (run_part r =? 0) then box r (run_part r) seed
  else for_range_e 1 (run_parts r + 1) (box r) seed.

(** The calls of [makemaze] that [box] makes for a part, in order, each with
    its argument [inside]. *)
Definition box_calls (r : run_t) (part : Z) : list (bool * maze_call) :=
  let f := box_flags (run_inside r) (run_flip r) part (run_parts r) in
  (if mazeinside f then [(true, inner_call r part)] else [])
  ++ (if mazeoutside f then [(false, outer_call r part)] else []).

(** Calls made one after the other. *)
Fixpoint calls_in_turn (r : run_t) (cs : list (bool * maze_call)) (seed : Z) : emit Z :=
  match cs with
  | [] => eret seed
  | (inside, c) :: cs' => do* seed := call_maze r inside c seed in calls_in_turn r cs' seed
  end.

(** The parts made before [part] in a run: none when the run makes one part. *)
Definition parts_before (r : run_t) (part : Z) (seed : Z) : emit Z :=
  if negb (run_part r =? 0) then eret seed else for_range_e 1 part (box r) seed.

(** Whether the run makes [part]. *)
Definition makes_part (r : run_t) (part : Z) : bool :=
  if negb (run_part r =? 0) then part =? run_part r
  else (1 <=? part) && (part <=? run_parts r).

Definition is_point (x : out) : bool :=
  match x with Point _ _ => true | Face _ => false end.

(** The run of [puzzlebox --core-height 10 -H 0]: four parts with the maze
    outside, three nubs, no helix.  Part 1 has twelve columns and no usable
    row ("Maze outside 12/0"), part 2 has eighteen columns and
    [(int) (h / mazestep) = -2]. *)
Definition short_call (part : Z) : maze_call :=
  if part =? 1 then MazeCall 12 0 25 (fun _ _ => true)
  else MazeCall 18 (-2) 14 (fun _ _ => true).

Definition short_run : run_t :=
  Run 0 4 false false false false false false 5 true 0 3 short_call short_call.

(** * Properties *)

(** Case analysis on the outcome [r] of a call: only [Ok x] goes on. *)
Ltac when_ok r x := destruct r as [x| | |]; try discriminate; cbn [rbind].

(** ** Arithmetic, bits and lists *)

Lemma shift_up (w x : Z) :
  0 < w -> (x + w) mod w = x mod w /\ (x + w) / w = x / w + 1.
Proof.
  intros Hw. split.
  - rewrite <- (Z_mod_plus_full x 1 w). f_equal. ring.
  - rewrite <- (Z.div_add x 1 w) by lia. f_equal. ring.
Qed.

Lemma shift_down (w x : Z) :
  0 < w -> (x - w) mod w = x mod w /\ (x - w) / w = x / w - 1.
Proof.
  intros Hw. destruct (shift_up w (x - w) Hw) as [Hm Hd].
  replace (x - w + w) with x in * by ring. split; lia.
Qed.

Lemma bigor_first (f : nat -> Z) (n : nat) :
  bigor f (S n) = Z.lor (f O) (bigor (fun k => f (S k)) n).
Proof.
  induction n as [|n IH].
  - cbn. rewrite Z.lor_0_r. reflexivity.
  - cbn [bigor] in *. rewrite IH, Z.lor_assoc. reflexivity.
Qed.

Lemma bigor_ext (f f' : nat -> Z) (n : nat) :
  (forall k, (k < n)%nat -> f k = f' k) -> bigor f n = bigor f' n.
Proof.
  induction n as [|n IH]; intros Hf; [reflexivity|].
  cbn [bigor]. rewrite IH, Hf by (intros; try apply Hf; lia). reflexivity.
Qed.

Lemma bigor_absorb (f : nat -> Z) (n j : nat) :
  (j < n)%nat -> Z.lor (f j) (bigor f n) = bigor f n.
Proof.
  induction n as [|n IH]; intros Hj; [lia|].
  cbn [bigor]. destruct (decide (j = n)) as [->|Hne].
  - rewrite (Z.lor_comm (bigor f n)), Z.lor_assoc, Z.lor_diag. reflexivity.
  - rewrite Z.lor_assoc, IH by lia. reflexivity.
Qed.

Lemma bigor_testbit (f : nat -> Z) (n : nat) (i : Z) :
  Z.testbit (bigor f n) i = true <-> exists k, (k < n)%nat /\ Z.testbit (f k) i = true.
Proof.
  induction n as [|n IH]; cbn [bigor].
  - rewrite Z.bits_0. split; [discriminate|]. intros (k & Hk & _). lia.
  - rewrite Z.lor_spec, orb_true_iff, IH. split.
    + intros [(k & Hk & Hb)|Hb]; [exists k|exists n]; split; auto; lia.
    + intros (k & Hk & Hb). destruct (decide (k = n)) as [->|Hne]; [right|left]; auto.
      exists k. split; [lia|exact Hb].
Qed.

Lemma div_mod_step (w a s : Z) :
  0 < w -> (a mod w + s) mod w = (a + s) mod w /\ a / w + (a mod w + s) / w = (a + s) / w.
Proof.
  intros Hw. split.
  - apply Zplus_mod_idemp_l.
  - rewrite (Z.div_mod a w) at 3 by lia.
    replace (w * (a / w) + a mod w + s) with (a mod w + s + a / w * w) by ring.
    rewrite Z.div_add by lia. ring.
Qed.

Lemma random_int_range (limit s : Z) :
  0 < limit -> 0 <= fst (random_int limit s) < limit.
Proof.
  intros Hl. unfold random_int. destruct (Z.leb_spec limit 0); [lia|]. cbn [fst].
  assert (0 <= (rng_next s / 65536) mod 32768 < 32768) as Hm by (apply Z.mod_pos_bound; lia).
  split.
  - apply Z.rem_nonneg; lia.
  - apply Z.rem_bound_pos; lia.
Qed.

Lemma random_int_state (limit s : Z) :
  0 < limit -> snd (random_int limit s) = rng_next s.
Proof. intros Hl. unfold random_int. destruct (Z.leb_spec limit 0); [lia|reflexivity]. Qed.

Lemma pick_available (r l d u : bool) (v : Z) :
  0 <= v < weight r Right + weight l Left + weight d Down + weight u Up ->
  exists way, pick r l d u v = Some way
              /\ match way with Right => r | Left => l | Down => d | Up => u end = true.
Proof.
  unfold pick, weight, bias, BIASR, BIASL, BIASD, BIASU. intros Hv.
  destruct r, l, d, u; cbn [andb] in *;
    repeat match goal with
           | |- context [?a <? 0] => destruct (Z.ltb_spec a 0)
           end;
    try lia; eauto.
Qed.

Lemma count_ext (f f' : Z -> bool) (l : list Z) :
  (forall v, f v = f' v) -> count f l = count f' l.
Proof. intros Hf. unfold count. rewrite (List.filter_ext f f' Hf). reflexivity. Qed.

Lemma count_below (a : Z) :
  0 <= a -> count (fun v => v <? a) (draws 10) = Z.min a 10.
Proof.
  intros Ha. destruct (Z.le_gt_cases 10 a) as [Hge|Hlt].
  - rewrite Z.min_r by lia.
    change (draws 10) with [0; 1; 2; 3; 4; 5; 6; 7; 8; 9].
    unfold count. cbn [List.filter].
    repeat match goal with
           | |- context [?i <? a] =>
               replace (i <? a) with true by (symmetry; apply Z.ltb_lt; lia)
           end.
    reflexivity.
  - rewrite Z.min_l by lia.
    assert (a = 0 \/ a = 1 \/ a = 2 \/ a = 3 \/ a = 4 \/ a = 5 \/ a = 6 \/ a = 7
            \/ a = 8 \/ a = 9) as Hcases by lia.
    repeat destruct Hcases as [->|Hcases]; try subst a; reflexivity.
Qed.

Lemma land_bigor (f : nat -> Z) (n : nat) (c : Z) :
  Z.land (bigor f n) c = bigor (fun k => Z.land (f k) c) n.
Proof.
  induction n as [|n IH]; [reflexivity|].
  cbn [bigor]. rewrite Z.land_lor_distr_l, IH. reflexivity.
Qed.

Lemma land_FLAGI (t : Z) : (Z.land t FLAGI =? 0) = negb (Z.testbit t 7).
Proof.
  assert (E : Z.land t FLAGI = if Z.testbit t 7 then FLAGI else 0).
  { apply Z.bits_inj'. intros n Hn. rewrite Z.land_spec.
    change FLAGI with (2 ^ 7). rewrite Z.pow2_bits_eqb by lia.
    destruct (Z.eqb_spec 7 n) as [<-|Hne].
    - destruct (Z.testbit t 7); [reflexivity|]. rewrite Z.bits_0. reflexivity.
    - rewrite andb_false_r. destruct (Z.testbit t 7).
      + rewrite Z.pow2_bits_eqb by lia. symmetry. apply Z.eqb_neq. exact Hne.
      + rewrite Z.bits_0. reflexivity. }
  rewrite E. destruct (Z.testbit t 7); reflexivity.
Qed.

Lemma cell_insert (m : maze_t) (a b v x y : Z) :
  cell (<[(a, b) := v]> m) x y = if decide ((a, b) = (x, y)) then v else cell m x y.
Proof.
  unfold cell. rewrite lookup_insert. destruct (decide ((a, b) = (x, y))); reflexivity.
Qed.

Lemma stamp_right (a : Z) (r l : bool) : Z.lor (stamp a r l) FLAGR = stamp a true l.
Proof.
  unfold stamp. rewrite <- !Z.lor_assoc. f_equal.
  destruct r, l; cbn [Z.lor]; reflexivity.
Qed.

Lemma stamp_left (a : Z) (r l : bool) : Z.lor (stamp a r l) FLAGL = stamp a r true.
Proof.
  unfold stamp. rewrite <- !Z.lor_assoc. f_equal.
  destruct r, l; cbn [Z.lor]; reflexivity.
Qed.

Lemma stamp_FLAGI (a : Z) (r l : bool) : Z.land (stamp a r l) FLAGI = Z.land a FLAGI.
Proof.
  unfold stamp. rewrite Z.land_lor_distr_l.
  replace (Z.land (Z.lor (if r then FLAGR else 0) (if l then FLAGL else 0)) FLAGI) with 0
    by (destruct r, l; reflexivity).
  apply Z.lor_0_r.
Qed.

Lemma for_loop_invariant {St : Type} (I : Z -> St -> Prop) (body : Z -> St -> result St) :
  forall (cnt : nat) (i : Z) (s : St),
    I i s ->
    (forall j t, i <= j < i + Z.of_nat cnt -> I j t ->
                 exists t', body j t = Ok t' /\ I (j + 1) t') ->
    exists s', for_loop cnt i body s = Ok s' /\ I (i + Z.of_nat cnt) s'.
Proof.
  induction cnt as [|cnt IH]; intros i s Hi Hbody.
  - exists s. split; [reflexivity|]. rewrite Z.add_0_r. exact Hi.
  - cbn [for_loop]. destruct (Hbody i s ltac:(lia) Hi) as (t & -> & Ht). cbn [rbind].
    destruct (IH (i + 1) t Ht) as (s' & Hs' & Hinv).
    { intros j u Hj. apply Hbody. lia. }
    exists s'. split; [exact Hs'|].
    replace (i + Z.of_nat (S cnt)) with (i + 1 + Z.of_nat cnt) by lia. exact Hinv.
Qed.

Lemma for_range_invariant {St : Type} (I : Z -> St -> Prop) (body : Z -> St -> result St)
    (lo hi : Z) (s : St) :
  lo <= hi -> I lo s ->
  (forall j t, lo <= j < hi -> I j t -> exists t', body j t = Ok t' /\ I (j + 1) t') ->
  exists s', for_range lo hi body s = Ok s' /\ I hi s'.
Proof.
  intros Hle Hi Hbody. unfold for_range.
  destruct (for_loop_invariant I body (Z.to_nat (hi - lo)) lo s Hi) as (s' & Hs' & Hinv).
  { intros j t Hj. apply Hbody. lia. }
  exists s'. split; [exact Hs'|].
  replace hi with (lo + Z.of_nat (Z.to_nat (hi - lo))) by lia. exact Hinv.
Qed.

Lemma earlier_step (x y X Y : Z) :
  earlier x y (X + 1) Y = earlier x y X Y || ((x =? X) && (y =? Y)).
Proof.
  unfold earlier.
  destruct (Z.ltb_spec y Y), (Z.eqb_spec y Y), (Z.ltb_spec x (X + 1)),
    (Z.ltb_spec x X), (Z.eqb_spec x X); cbn; try reflexivity; lia.
Qed.

Lemma eqb_pair_true (a b x y : Z) : (a, b) = (x, y) -> (x =? a) && (y =? b) = true.
Proof. intros [= -> ->]. rewrite !Z.eqb_refl. reflexivity. Qed.

Lemma eqb_pair_false (a b x y : Z) : (a, b) <> (x, y) -> (x =? a) && (y =? b) = false.
Proof.
  intros Hne. destruct (Z.eqb_spec x a), (Z.eqb_spec y b); try reflexivity. congruence.
Qed.

Lemma has_bit (v f i : Z) :
  Z.testbit v i = true -> Z.testbit f i = true -> has v f = true.
Proof.
  intros Hv Hf. unfold has. destruct (Z.eqb_spec (Z.land v f) 0) as [E|_]; [|reflexivity].
  assert (Z.testbit (Z.land v f) i = true) as Hb by (rewrite Z.land_spec, Hv, Hf; reflexivity).
  rewrite E, Z.bits_0 in Hb. discriminate.
Qed.

Lemma has_stamp (a : Z) (r l : bool) :
  (r = true -> has (stamp a r l) FLAGR = true)
  /\ (l = true -> has (stamp a r l) FLAGL = true).
Proof.
  unfold stamp. split; intros ->.
  - apply (has_bit _ _ 1); [|reflexivity].
    rewrite !Z.lor_spec. change (Z.testbit FLAGR 1) with true.
    rewrite orb_true_l, orb_true_r. reflexivity.
  - apply (has_bit _ _ 0); [|reflexivity].
    rewrite !Z.lor_spec. change (Z.testbit FLAGL 0) with true.
    rewrite !orb_true_r. reflexivity.
Qed.

Lemma same_FLAGI_trans (m1 m2 m3 : maze_t) :
  same_FLAGI m1 m2 -> same_FLAGI m2 m3 -> same_FLAGI m1 m3.
Proof. intros H12 H23 a b. rewrite H23. apply H12. Qed.

Lemma bigor_eq_0 (f : nat -> Z) (n : nat) :
  bigor f n = 0 <-> forall k, (k < n)%nat -> f k = 0.
Proof.
  induction n as [|n IH]; cbn [bigor].
  - split; [intros _ k Hk; lia|reflexivity].
  - rewrite Z.lor_eq_0_iff, IH. split.
    + intros [Hall Hn] k Hk. destruct (decide (k = n)) as [->|Hne]; [exact Hn|].
      apply Hall. lia.
    + intros Hall. split; [intros k Hk|]; apply Hall; lia.
Qed.

Lemma grown_refl (m : maze_t) : grown m m.
Proof. intros a b. exists 0. symmetry. apply Z.lor_0_r. Qed.

Lemma grown_trans (m1 m2 m3 : maze_t) : grown m1 m2 -> grown m2 m3 -> grown m1 m3.
Proof.
  intros H12 H23 a b. destruct (H12 a b) as [f Hf]. destruct (H23 a b) as [f' Hf'].
  exists (Z.lor f f'). rewrite Hf', Hf, Z.lor_assoc. reflexivity.
Qed.

Lemma filter_length_lt {A : Type} (f f' : A -> bool) (l : list A) (c : A) :
  (forall a, f' a = true -> f a = true) ->
  In c l -> f c = true -> f' c = false ->
  (length (List.filter f' l) < length (List.filter f l))%nat.
Proof.
  intros Hsub.
  assert (Hle : forall l', (length (List.filter f' l') <= length (List.filter f l'))%nat).
  { induction l' as [|a l' IH]; [reflexivity|]. cbn [List.filter].
    destruct (f' a) eqn:E'; [rewrite (Hsub a E'); cbn [length]; lia|].
    destruct (f a); cbn [length]; lia. }
  induction l as [|a l IH]; intros Hin Hf Hf'; [destruct Hin|].
  cbn [List.filter]. destruct Hin as [->|Hin].
  - rewrite Hf, Hf'. cbn [length]. specialize (Hle l). lia.
  - specialize (IH Hin Hf Hf'). destruct (f' a) eqn:E'; [rewrite (Hsub a E'); cbn [length]; lia|].
    destruct (f a); cbn [length]; lia.
Qed.

Lemma enqueue_length (o : options) (v : Z) (p next : pos_t) (pos : list pos_t) :
  length (enqueue o v p next pos) = S (S (length pos)).
Proof.
  unfold enqueue. destruct (next_at_start o v), (current_at_start o v);
    cbn [length]; rewrite ?length_app; cbn [length]; rewrite ?length_app; cbn [length]; lia.
Qed.

(** ** On a grid *)

Section OnGrid.

(** The grid in use, of positive width, as after the size check, and with at
    least one nub. *)
Context (g : grid) (HW : 0 < W g) (Hn : 0 < nubs g).

(** *** Normalisation *)

Lemma wrap_neg_spec :
  forall (fuel : nat) (x y : Z),
    (0 < fuel)%nat -> - x < Z.of_nat fuel ->
    wrap_neg g fuel x y = Ok (if x <? 0 then normal g x y else (x, y)).
Proof.
  intros fuel. induction fuel as [|fuel IH]; intros x y Hpos Hf; [lia|].
  cbn [wrap_neg].
  destruct (Z.ltb_spec x 0) as [Hx|Hx]; [|reflexivity].
  rewrite IH by lia. unfold normal.
  destruct (shift_up (W g) x HW) as [Hm Hd].
  destruct (Z.ltb_spec (x + W g) 0) as [Hx'|Hx'].
  - rewrite Hm, Hd. f_equal. f_equal. ring.
  - rewrite <- Hm. rewrite Z.mod_small by lia.
    assert (x / W g = -1) as ->.
    { rewrite Z.div_small in Hd by lia. lia. }
    f_equal. f_equal. ring.
Qed.

Lemma wrap_pos_spec :
  forall (fuel : nat) (x y : Z),
    0 <= x < Z.of_nat fuel ->
    wrap_pos g fuel x y = Ok (normal g x y).
Proof.
  intros fuel. induction fuel as [|fuel IH]; intros x y Hf; [lia|].
  cbn [wrap_pos]. unfold normal. destruct (Z.leb_spec (W g) x) as [Hx|Hx].
  - rewrite IH by lia. unfold normal.
    destruct (shift_down (W g) x HW) as [Hm Hd].
    rewrite Hm, Hd. f_equal. f_equal. ring.
  - rewrite Z.mod_small, Z.div_small by lia. f_equal. f_equal. ring.
Qed.

Lemma wrap_spec (x y : Z) :
  wrap g x y = Ok (normal g x y).
Proof.
  unfold wrap, loop_fuel.
  rewrite wrap_neg_spec by lia. destruct (Z.ltb_spec x 0) as [Hx|Hx]; cbn [rbind].
  - pose proof (Z.mod_pos_bound x (W g) HW) as Hb. unfold normal at 1.
    destruct (W g) eqn:E; try lia. cbn [wrap_pos].
    rewrite <- E in *.
    destruct (Z.leb_spec (W g) (x mod W g)); [lia|reflexivity].
  - apply wrap_pos_spec; lia.
Qed.

Lemma normal_in_range (x y : Z) :
  0 <= fst (normal g x y) < W g.
Proof. cbn. apply Z.mod_pos_bound, HW. Qed.

Lemma normal_id (x y : Z) :
  0 <= x < W g -> normal g x y = (x, y).
Proof.
  intros Hx. unfold normal. rewrite Z.mod_small, Z.div_small by lia.
  f_equal. ring.
Qed.

(** *** The group query *)

Lemma copy_next (k : nat) (c : Z * Z) :
  copy g k (next_copy g c) = copy g (S k) c.
Proof.
  induction k as [|k IH]; [reflexivity|].
  cbn [copy] in *. rewrite IH. reflexivity.
Qed.

Lemma next_copy_in_range (c : Z * Z) :
  0 <= fst (next_copy g c) < W g.
Proof. destruct c as [x y]. cbn. apply Z.mod_pos_bound, HW. Qed.

Lemma step_nonneg : 0 <= Z.quot (W g) (nubs g).
Proof. apply Z.quot_pos; lia. Qed.

Lemma test_loop_spec (m : maze_t) :
  forall (n fuel : nat) (x y v : Z),
    (n < fuel)%nat -> 0 <= x < W g ->
    test_loop g m fuel (Z.of_nat n) x y v
    = Ok (Z.lor v (bigor (fun k => flags_at g m (copy g k (x, y))) n)).
Proof.
  intros n. induction n as [|n IH]; intros fuel x y v Hf Hx.
  - destruct fuel as [|fuel]; [lia|]. cbn. rewrite Z.lor_0_r. reflexivity.
  - destruct fuel as [|fuel]; [lia|]. cbn [test_loop].
    destruct (Z.eqb_spec (Z.of_nat (S n)) 0) as [E|_]; [lia|].
    replace (Z.of_nat (S n) - 1) with (Z.of_nat n) by lia.
    rewrite bigor_first. cbn [copy flags_at].
    assert (Hget : (if (y <? 0) || (H g <=? y) then Ok (Z.lor v FLAGI)
                    else let* c := maze_get g m x y in Ok (Z.lor v c))
                   = Ok (Z.lor v (if (y <? 0) || (H g <=? y) then FLAGI else cell m x y))).
    { destruct ((y <? 0) || (H g <=? y)) eqn:Ey; [reflexivity|].
      apply orb_false_elim in Ey as [Ey1 Ey2].
      unfold maze_get, in_grid.
      replace (0 <=? x) with true by (symmetry; apply Z.leb_le; lia).
      replace (x <? W g) with true by (symmetry; apply Z.ltb_lt; lia).
      replace (0 <=? y) with true by (symmetry; apply Z.leb_le; apply Z.ltb_ge in Ey1; lia).
      replace (y <? H g) with true by (symmetry; apply Z.ltb_lt; apply Z.leb_gt in Ey2; lia).
      reflexivity. }
    rewrite Hget. cbn [rbind].
    destruct (Z.eqb_spec (Z.of_nat n) 0) as [E|E].
    + assert (n = O) as -> by lia. cbn. rewrite Z.lor_0_r. reflexivity.
    + pose proof step_nonneg as Hs.
      unfold loop_fuel. rewrite wrap_pos_spec by lia. cbn [rbind normal].
      set (x' := x + Z.quot (W g) (nubs g)).
      replace (if helix g =? nubs g then y + helix g * (x' / W g) - 1
               else y + helix g * (x' / W g))
        with (y + helix g * (x' / W g) - (if helix g =? nubs g then 1 else 0))
        by (destruct (helix g =? nubs g); ring).
      rewrite IH by (try lia; apply Z.mod_pos_bound, HW).
      rewrite Z.lor_assoc. f_equal. f_equal. apply bigor_ext. intros k _.
      exact (f_equal (flags_at g m) (copy_next k (x, y))).
Qed.

Lemma test_spec (m : maze_t) (x y : Z) :
  test g m x y = Ok (group_flags g m x y).
Proof.
  unfold test. rewrite wrap_spec. cbn [rbind].
  destruct (normal g x y) as [x0 y0] eqn:E.
  assert (Hx0 : 0 <= x0 < W g).
  { pose proof (normal_in_range x y) as Hr. rewrite E in Hr. exact Hr. }
  rewrite <- (Z2Nat.id (nubs g)) at 2 by lia.
  rewrite test_loop_spec by (try lia; assumption).
  unfold group_flags. rewrite E. reflexivity.
Qed.

(** *** The copies of a cell form one group *)

Lemma copy_closed_form (k : nat) (x y : Z) :
  0 <= x < W g ->
  copy g k (x, y)
  = ((x + Z.of_nat k * Z.quot (W g) (nubs g)) mod W g,
     y + helix g * ((x + Z.of_nat k * Z.quot (W g) (nubs g)) / W g)
     - Z.of_nat k * (if helix g =? nubs g then 1 else 0)).
Proof.
  intros Hx. induction k as [|k IH].
  - cbn. rewrite Z.add_0_r, Z.mod_small, Z.div_small by lia. f_equal. ring.
  - cbn [copy]. rewrite IH. cbn [next_copy].
    set (s := Z.quot (W g) (nubs g)).
    destruct (div_mod_step (W g) (x + Z.of_nat k * s) s HW) as [Hm Hd].
    replace (x + Z.of_nat (S k) * s) with (x + Z.of_nat k * s + s) by lia.
    rewrite Hm, <- Hd. f_equal. rewrite Nat2Z.inj_succ. ring.
Qed.

Lemma copy_period (x y : Z) :
  Z.quot (W g) (nubs g) * nubs g = W g ->
  helix g = 0 \/ helix g = nubs g ->
  0 <= x < W g ->
  copy g (Z.to_nat (nubs g)) (x, y) = (x, y).
Proof.
  intros Hdiv Hh Hx.
  rewrite copy_closed_form by assumption.
  rewrite Z2Nat.id by lia. rewrite (Z.mul_comm (nubs g)), Hdiv.
  destruct (shift_up (W g) x HW) as [Hm Hd].
  rewrite Hm, Hd, Z.mod_small, Z.div_small by lia.
  f_equal. destruct Hh as [Hh|Hh]; rewrite Hh.
  - destruct (Z.eqb_spec 0 (nubs g)); lia.
  - rewrite Z.eqb_refl. ring.
Qed.

Lemma group_flags_next (m : maze_t) (c : Z * Z) :
  Z.quot (W g) (nubs g) * nubs g = W g ->
  helix g = 0 \/ helix g = nubs g ->
  0 <= fst c < W g ->
  let c' := next_copy g c in
  group_flags g m (fst c') (snd c') = group_flags g m (fst c) (snd c).
Proof.
  intros Hdiv Hh Hc c'.
  pose proof (next_copy_in_range c) as Hc'. fold c' in Hc'.
  unfold group_flags. rewrite !normal_id by assumption.
  rewrite <- !surjective_pairing.
  set (F := fun k => flags_at g m (copy g k c)).
  set (n := Z.to_nat (nubs g)).
  assert (Hn1 : (0 < n)%nat) by (unfold n; lia).
  assert (HA : bigor (fun k => flags_at g m (copy g k c')) n = bigor (fun k => F (S k)) n).
  { apply bigor_ext. intros k _. unfold F, c'. rewrite copy_next. reflexivity. }
  rewrite HA. fold (bigor F n).
  assert (Hper : F n = F O).
  { unfold F, n. destruct c as [x y]. rewrite copy_period by assumption. reflexivity. }
  pose proof (bigor_first F n) as H1. cbn [bigor] in H1.
  assert (H2 : Z.lor (F n) (bigor (fun k => F (S k)) n) = bigor (fun k => F (S k)) n).
  { destruct n as [|n']; [lia|].
    apply (bigor_absorb (fun k => F (S k)) (S n') n'). lia. }
  assert (H3 : Z.lor (F O) (bigor F n) = bigor F n) by (apply bigor_absorb; exact Hn1).
  rewrite <- H2, Hper, <- H1, Hper, Z.lor_comm. exact H3.
Qed.

(** *** The choice of a direction *)

Lemma closed_spec (m : maze_t) (d : dir) (X Y : Z) :
  closed g m d X Y
  = Ok (group_flags g m (fst (ahead d X Y)) (snd (ahead d X Y)) =? 0).
Proof.
  unfold closed. destruct (ahead d X Y) as [x y].
  rewrite test_spec. reflexivity.
Qed.

Lemma ways_spec (m : maze_t) (X Y : Z) (r l d u : bool) :
  closed g m Right X Y = Ok r -> closed g m Left X Y = Ok l ->
  closed g m Down X Y = Ok d -> closed g m Up X Y = Ok u ->
  ways g m X Y = Ok (weight r Right + weight l Left + weight d Down + weight u Up).
Proof. intros Hr Hl Hd Hu. unfold ways. rewrite Hr, Hl, Hd, Hu. reflexivity. Qed.

Lemma choose_spec (m : maze_t) (X Y v : Z) (r l d u : bool) :
  closed g m Right X Y = Ok r -> closed g m Left X Y = Ok l ->
  closed g m Down X Y = Ok d -> closed g m Up X Y = Ok u ->
  choose g m X Y v = Ok (pick r l d u v).
Proof.
  intros Hr Hl Hd Hu. unfold choose, pick. rewrite Hr, Hl, Hd, Hu. cbn [rbind].
  repeat match goal with
         | |- context [if ?b && ?c then _ else _] => destruct (b && c); [reflexivity|]
         end.
  reflexivity.
Qed.

(** *** One round of the walk *)

Lemma maze_or_not_fatal (m : maze_t) (x y f : Z) (msg : string) :
  maze_or g m x y f <> Fatal msg.
Proof. unfold maze_or. destruct (in_grid g x y); discriminate. Qed.

Lemma move_not_fatal (m : maze_t) (d : dir) (X Y : Z) (msg : string) :
  move g m d X Y <> Fatal msg.
Proof.
  destruct d; unfold move, maze_or;
    repeat match goal with
           | |- context [if ?b then (_, _) else (_, _)] => destruct b
           | |- context [in_grid ?g ?x ?y] => destruct (in_grid g x y); cbn [rbind]
           end;
    discriminate.
Qed.

Lemma reaches_top_ok (o : options) (m : maze_t) (n mx X Y : Z) :
  exists b, reaches_top g o m n mx X Y = Ok b.
Proof.
  unfold reaches_top. destruct (mx <? n); [|eauto].
  rewrite test_spec. cbn [rbind]. eauto.
Qed.

(** *** The queue *)

Lemma ways_nonneg (m : maze_t) (X Y n : Z) :
  ways g m X Y = Ok n -> 0 <= n.
Proof.
  unfold ways.
  when_ok (closed g m Right X Y) r. when_ok (closed g m Left X Y) l.
  when_ok (closed g m Down X Y) d. when_ok (closed g m Up X Y) u.
  intros [= <-]. destruct r, l, d, u; cbv; discriminate.
Qed.

(** *** The invalid flag is never written by an edge *)

Lemma group_flags_same_FLAGI (m m' : maze_t) (x y : Z) :
  (forall a b, Z.land (cell m' a b) FLAGI = Z.land (cell m a b) FLAGI) ->
  Z.land (group_flags g m' x y) FLAGI = Z.land (group_flags g m x y) FLAGI.
Proof.
  intros Hc. unfold group_flags. rewrite !land_bigor. apply bigor_ext. intros k _.
  unfold flags_at. destruct (copy g k (normal g x y)) as [a b].
  destruct ((b <? 0) || (H g <=? b)); [reflexivity|apply Hc].
Qed.

Lemma valid_spec (m : maze_t) (x y : Z) :
  valid g m x y = (Z.land (group_flags g m x y) FLAGI =? 0).
Proof. unfold valid. rewrite test_spec. reflexivity. Qed.

Lemma valid_same_FLAGI (m m' : maze_t) (x y : Z) :
  (forall a b, Z.land (cell m' a b) FLAGI = Z.land (cell m a b) FLAGI) ->
  valid g m' x y = valid g m x y.
Proof.
  intros Hc. rewrite !valid_spec.
  rewrite (group_flags_same_FLAGI m m') by exact Hc. reflexivity.
Qed.

Lemma valid_in_rows (m : maze_t) (x y : Z) :
  valid g m x y = true ->
  0 <= snd (normal g x y) < H g.
Proof.
  rewrite valid_spec, land_FLAGI.
  intros Hv. apply negb_true_iff in Hv.
  destruct (normal g x y) as [a b] eqn:E. cbn [snd].
  destruct ((b <? 0) || (H g <=? b)) eqn:Hb.
  - exfalso. rewrite <- not_true_iff_false in Hv. apply Hv.
    unfold group_flags. apply bigor_testbit. exists O. split; [lia|].
    rewrite E. cbn [copy flags_at]. rewrite Hb. reflexivity.
  - apply orb_false_elim in Hb as [Hb1 Hb2].
    apply Z.ltb_ge in Hb1. apply Z.leb_gt in Hb2. lia.
Qed.

(** *** The test pattern *)

Lemma in_grid_spec (x y : Z) :
  in_grid g x y = true <-> 0 <= x < W g /\ 0 <= y < H g.
Proof.
  unfold in_grid. rewrite !andb_true_iff, !Z.leb_le, !Z.ltb_lt. lia.
Qed.

Lemma earlier_row_end (x y Y : Z) :
  0 <= x < W g -> earlier x y (W g) Y = earlier x y 0 (Y + 1).
Proof.
  intros Hx. unfold earlier.
  destruct (Z.ltb_spec y Y), (Z.eqb_spec y Y), (Z.ltb_spec x (W g)),
    (Z.ltb_spec y (Y + 1)), (Z.eqb_spec y (Y + 1)), (Z.ltb_spec x 0);
    cbn; try reflexivity; lia.
Qed.

Lemma right_of_in_columns (X Y : Z) :
  0 <= X < W g -> 0 <= fst (right_of g X Y) < W g.
Proof.
  intros HX. unfold right_of. destruct (Z.leb_spec (W g) (X + 1)); cbn [fst]; lia.
Qed.

Lemma right_of_normal (X Y : Z) :
  0 <= X < W g -> normal g (X + 1) Y = right_of g X Y.
Proof.
  intros HX. unfold right_of. destruct (Z.leb_spec (W g) (X + 1)) as [Hge|Hlt].
  - assert (X + 1 = W g) as -> by lia. unfold normal.
    rewrite Z_mod_same_full, Z_div_same_full by lia. f_equal; ring.
  - apply normal_id. lia.
Qed.

Lemma left_of_right_of (X Y : Z) :
  0 <= X < W g ->
  left_of g (fst (right_of g X Y)) (snd (right_of g X Y)) = (X, Y).
Proof.
  intros HX. unfold right_of, left_of.
  destruct (Z.leb_spec (W g) (X + 1)); cbn [fst snd].
  - destruct (Z.eqb_spec (X + 1 - W g) 0); [f_equal; lia|lia].
  - destruct (Z.eqb_spec (X + 1) 0); [lia|f_equal; lia].
Qed.

Lemma right_of_left_of (x y : Z) :
  0 <= x < W g ->
  right_of g (fst (left_of g x y)) (snd (left_of g x y)) = (x, y).
Proof.
  intros Hx. unfold right_of, left_of.
  destruct (Z.eqb_spec x 0); cbn [fst snd].
  - destruct (Z.leb_spec (W g) (W g - 1 + 1)); [f_equal; lia|lia].
  - destruct (Z.leb_spec (W g) (x - 1 + 1)); [lia|f_equal; lia].
Qed.

Lemma done_right_step (m : maze_t) (X Y x y : Z) :
  in_grid g X Y = true ->
  done_right g m (X + 1) Y x y
  = done_right g m X Y x y || ((x =? X) && (y =? Y) && pair_valid g m X Y).
Proof.
  intros Hin. unfold done_right. rewrite earlier_step.
  destruct (Z.eqb_spec x X) as [->|Hx], (Z.eqb_spec y Y) as [->|Hy];
    cbn [andb]; rewrite ?orb_false_r, ?andb_false_r, ?orb_false_r; try reflexivity.
  rewrite Hin. cbn [andb]. destruct (earlier X Y X Y), (pair_valid g m X Y); reflexivity.
Qed.

Lemma done_left_step (m : maze_t) (X Y x y : Z) :
  in_grid g X Y = true ->
  done_left g m (X + 1) Y x y
  = done_left g m X Y x y
    || ((x =? fst (right_of g X Y)) && (y =? snd (right_of g X Y)) && pair_valid g m X Y).
Proof.
  intros Hin. apply in_grid_spec in Hin as HXY. unfold done_left.
  pose proof (right_of_in_columns X Y ltac:(lia)) as Hr.
  destruct ((0 <=? x) && (x <? W g)) eqn:Hx; cbn [andb].
  - apply andb_true_iff in Hx as [Hx1 Hx2]. apply Z.leb_le in Hx1. apply Z.ltb_lt in Hx2.
    pose proof (right_of_left_of x y ltac:(lia)) as Hrl.
    pose proof (left_of_right_of X Y ltac:(lia)) as Hlr.
    destruct (left_of g x y) as [X0 Y0] eqn:El. cbn [fst snd] in Hrl.
    rewrite earlier_step.
    destruct (decide ((X0, Y0) = (X, Y))) as [[= -> ->]|Hne].
    + rewrite Hrl. cbn [fst snd]. rewrite !Z.eqb_refl, Hin. cbn [andb].
      destruct (earlier X Y X Y), (pair_valid g m X Y); reflexivity.
    + assert (((X0 =? X) && (Y0 =? Y)) = false) as ->.
      { destruct (Z.eqb_spec X0 X), (Z.eqb_spec Y0 Y); try reflexivity. congruence. }
      assert (((x =? fst (right_of g X Y)) && (y =? snd (right_of g X Y))) = false) as ->.
      { destruct (Z.eqb_spec x (fst (right_of g X Y))) as [E1|],
          (Z.eqb_spec y (snd (right_of g X Y))) as [E2|]; try reflexivity.
        exfalso. apply Hne. rewrite <- Hlr, <- E1, <- E2, El. reflexivity. }
      rewrite orb_false_r. cbn [andb]. rewrite orb_false_r. reflexivity.
  - assert ((x =? fst (right_of g X Y)) = false) as ->; [|reflexivity].
    apply Z.eqb_neq. intros ->. apply andb_false_iff in Hx.
    destruct Hx as [Hx|Hx]; [apply Z.leb_gt in Hx|apply Z.ltb_ge in Hx]; lia.
Qed.

Lemma pattern_same_FLAGI (m mc : maze_t) (Xc Yc : Z) :
  pattern_upto g m Xc Yc mc ->
  forall a b, Z.land (cell mc a b) FLAGI = Z.land (cell m a b) FLAGI.
Proof. intros Hinv a b. rewrite Hinv. apply stamp_FLAGI. Qed.

Lemma testmaze_cell_step (m mc : maze_t) (X Y : Z) :
  in_grid g X Y = true ->
  pattern_upto g m X Y mc ->
  exists m', testmaze_cell g X Y mc = Ok m' /\ pattern_upto g m (X + 1) Y m'.
Proof.
  intros Hin Hinv. apply in_grid_spec in Hin as HXY.
  assert (Hv : forall x y, valid g mc x y = valid g m x y).
  { intros x y. apply valid_same_FLAGI; try assumption.
    apply (pattern_same_FLAGI m mc X Y Hinv). }
  assert (Hskip : pair_valid g m X Y = false -> pattern_upto g m (X + 1) Y mc).
  { intros Hpv x y. rewrite done_right_step, done_left_step, Hpv by exact Hin.
    rewrite !andb_false_r, !orb_false_r. apply Hinv. }
  unfold testmaze_cell. rewrite test_spec. cbn [rbind].
  rewrite <- valid_spec, Hv.
  destruct (valid g m X Y) eqn:V1.
  2:{ exists mc. split; [reflexivity|]. apply Hskip. unfold pair_valid. rewrite V1. reflexivity. }
  rewrite test_spec. cbn [rbind].
  rewrite <- valid_spec, Hv.
  destruct (valid g m (X + 1) Y) eqn:V2.
  2:{ exists mc. split; [reflexivity|]. apply Hskip. unfold pair_valid.
      rewrite V1, V2. reflexivity. }
  assert (Hpv : pair_valid g m X Y = true) by (unfold pair_valid; rewrite V1, V2; reflexivity).
  unfold maze_or. rewrite Hin. cbn [rbind].
  change (if W g <=? X + 1 then (X + 1 - W g, Y + helix g) else (X + 1, Y))
    with (right_of g X Y).
  pose proof (right_of_in_columns X Y ltac:(lia)) as Hcol.
  pose proof (valid_in_rows m (X + 1) Y V2) as Hrow.
  rewrite right_of_normal in Hrow by lia.
  destruct (right_of g X Y) as [x' y'] eqn:Er. cbn [fst snd] in Hcol, Hrow.
  assert (Hin' : in_grid g x' y' = true) by (apply in_grid_spec; lia).
  rewrite Hin'. eexists. split; [reflexivity|].
  intros x y. rewrite done_right_step, done_left_step, Hpv, Er by exact Hin.
  cbn [fst snd]. rewrite !andb_true_r, !cell_insert.
  destruct (decide ((x', y') = (x, y))) as [E1|N1];
    destruct (decide ((X, Y) = (x, y))) as [E2|N2];
    rewrite ?(eqb_pair_true _ _ _ _ E1), ?(eqb_pair_false _ _ _ _ N1),
      ?(eqb_pair_true _ _ _ _ E2), ?(eqb_pair_false _ _ _ _ N2),
      ?orb_true_r, ?orb_false_r.
  - destruct (decide ((X, Y) = (x', y'))) as [_|N]; [|congruence].
    injection E2 as <- <-. rewrite Hinv, stamp_right, stamp_left. reflexivity.
  - destruct (decide ((X, Y) = (x', y'))) as [E|_]; [congruence|].
    injection E1 as <- <-. rewrite Hinv, stamp_left. reflexivity.
  - injection E2 as <- <-. rewrite Hinv, stamp_right. reflexivity.
  - apply Hinv.
Qed.

Lemma pattern_row (m mc : maze_t) (Y : Z) :
  0 <= Y < H g ->
  pattern_upto g m 0 Y mc ->
  exists m', for_range 0 (W g) (fun X m => testmaze_cell g X Y m) mc = Ok m'
             /\ pattern_upto g m 0 (Y + 1) m'.
Proof.
  intros HY Hinv.
  destruct (for_range_invariant (fun X mc => pattern_upto g m X Y mc)
              (fun X m => testmaze_cell g X Y m) 0 (W g) mc) as (m' & Hm' & Hend).
  - lia.
  - exact Hinv.
  - intros X t HX Ht. apply testmaze_cell_step; try assumption. apply in_grid_spec. lia.
  - exists m'. split; [exact Hm'|]. intros x y. rewrite Hend. f_equal.
    + unfold done_right. destruct (in_grid g x y) eqn:Hin; [|reflexivity].
      apply in_grid_spec in Hin. rewrite earlier_row_end by lia. reflexivity.
    + unfold done_left. destruct ((0 <=? x) && (x <? W g)); [|reflexivity]. cbn [andb].
      destruct (left_of g x y) as [X0 Y0]. destruct (in_grid g X0 Y0) eqn:Hin; [|reflexivity].
      apply in_grid_spec in Hin. rewrite earlier_row_end by lia. reflexivity.
Qed.

Lemma pattern_all (m : maze_t) :
  0 <= H g ->
  exists m',
    for_range 0 (H g)
      (fun Y m => for_range 0 (W g) (fun X m => testmaze_cell g X Y m) m) m = Ok m'
    /\ forall x y, cell m' x y = stamp (cell m x y) (opens_right g m x y) (opens_left g m x y).
Proof.
  intros HH.
  destruct (for_range_invariant (fun Y mc => pattern_upto g m 0 Y mc)
              (fun Y m => for_range 0 (W g) (fun X m => testmaze_cell g X Y m) m)
              0 (H g) m) as (m' & Hm' & Hend).
  - exact HH.
  - intros x y. unfold done_right, done_left, stamp.
    assert (Hr : in_grid g x y && earlier x y 0 0 = false).
    { destruct (in_grid g x y) eqn:Hin; [|reflexivity]. apply in_grid_spec in Hin.
      unfold earlier. lia. }
    rewrite Hr. cbn [andb].
    assert (Hl : (0 <=? x) && (x <? W g)
                 && (let '(X, Y) := left_of g x y in
                     in_grid g X Y && earlier X Y 0 0 && pair_valid g m X Y) = false).
    { destruct (left_of g x y) as [X0 Y0].
      destruct (in_grid g X0 Y0) eqn:Hin; [|apply andb_false_r].
      apply in_grid_spec in Hin.
      unfold earlier. destruct (pair_valid g m X0 Y0); lia. }
    rewrite Hl. cbn. rewrite Z.lor_0_r. reflexivity.
  - intros Y t HY Ht. apply pattern_row; assumption.
  - exists m'. split; [exact Hm'|]. intros x y. rewrite Hend. f_equal.
    + unfold done_right, opens_right. destruct (in_grid g x y) eqn:Hin; [|reflexivity].
      apply in_grid_spec in Hin. unfold earlier.
      destruct (Z.ltb_spec y (H g)); [reflexivity|lia].
    + unfold done_left, opens_left. destruct ((0 <=? x) && (x <? W g)); [|reflexivity].
      cbn [andb]. destruct (left_of g x y) as [X0 Y0].
      destruct (in_grid g X0 Y0) eqn:Hin; [|reflexivity].
      apply in_grid_spec in Hin. unfold earlier.
      destruct (Z.ltb_spec Y0 (H g)); [reflexivity|lia].
Qed.

Lemma scan_maxx_ok (m : maze_t) :
  forall (fuel : nat) (mx : Z),
    (0 < fuel)%nat -> W g - mx <= Z.of_nat fuel ->
    exists mx', scan_maxx g m fuel mx = Ok mx'.
Proof.
  intros fuel. induction fuel as [|fuel IH]; intros mx Hpos Hf; [lia|].
  cbn [scan_maxx]. destruct (Z.ltb_spec (mx + 1) (W g)); [|eauto].
  rewrite test_spec. cbn [rbind].
  destruct (Z.land _ FLAGI =? 0); [|eauto]. apply IH; lia.
Qed.

(** *** The exit *)

Lemma maze_or_same_FLAGI (m m' : maze_t) (x y f : Z) :
  Z.land f FLAGI = 0 -> maze_or g m x y f = Ok m' -> same_FLAGI m m'.
Proof.
  intros Hf. unfold maze_or. destruct (in_grid g x y); [|discriminate].
  intros [= <-] a b. rewrite cell_insert.
  destruct (decide ((x, y) = (a, b))) as [[= <- <-]|_]; [|reflexivity].
  rewrite Z.land_lor_distr_l, Hf. apply Z.lor_0_r.
Qed.

Lemma move_same_FLAGI (m m' : maze_t) (d : dir) (X Y X' Y' : Z) :
  move g m d X Y = Ok (m', X', Y') -> same_FLAGI m m'.
Proof.
  destruct d; unfold move;
    repeat match goal with
           | |- context [if ?b then (_, _) else (_, _)] => destruct b
           end;
    (destruct (maze_or g m X Y _) as [m1| | |] eqn:E1; cbn [rbind]; try discriminate;
     destruct (maze_or g m1 _ _ _) as [m2| | |] eqn:E2; cbn [rbind]; try discriminate;
     intros [= <- <- <-];
     apply (same_FLAGI_trans m m1 m2);
     [eapply maze_or_same_FLAGI; [|exact E1]; reflexivity
     |eapply maze_or_same_FLAGI; [|exact E2]; reflexivity]).
Qed.

Lemma reaches_top_spec (o : options) (m0 m : maze_t) (n mx X Y : Z) :
  same_FLAGI m0 m ->
  reaches_top g o m n mx X Y = Ok ((mx <? n) && eligible g o m0 (Pos X Y (n + 1))).
Proof.
  intros Hsame. unfold reaches_top, eligible. cbn [px py].
  destruct (mx <? n); [|reflexivity].
  rewrite test_spec. cbn [rbind andb].
  rewrite <- valid_spec.
  rewrite (valid_same_FLAGI m0 m) by assumption. reflexivity.
Qed.

(** A round keeps FLAGI where it was and updates [max] and [maxx] by the one
    node it allocates. *)
Lemma expand_records (o : options) (m0 : maze_t) (s s' : walk) (nd : option pos_t) :
  same_FLAGI m0 (maze s) ->
  expand g o s = Ok (s', nd) ->
  same_FLAGI m0 (maze s')
  /\ match nd with
     | None => max s' = max s /\ maxx s' = maxx s
     | Some next =>
         if (max s <? pn next - 1) && eligible g o m0 next
         then max s' = pn next - 1 /\ maxx s' = px next
         else max s' = max s /\ maxx s' = maxx s
     end.
Proof.
  intros Hsame. unfold expand. destruct (queue s) as [|p pos].
  { intros [= <- <-]. auto. }
  destruct (ways g (maze s) (px p) (py p)) as [n| | |]; try discriminate.
  cbn [rbind]. destruct (n =? 0).
  { intros [= <- <-]. auto. }
  destruct (random_int n (rng s)) as [v rng1].
  destruct (choose g (maze s) (px p) (py p) v) as [[d|]| | |]; try discriminate.
  cbn [rbind].
  destruct (move g (maze s) d (px p) (py p)) as [[[m X] Y]| | |] eqn:Hmove; try discriminate.
  cbn [rbind]. apply move_same_FLAGI in Hmove.
  assert (Hsame' : same_FLAGI m0 m) by (apply (same_FLAGI_trans m0 (maze s) m); assumption).
  rewrite (reaches_top_spec o m0 m) by assumption. cbn [rbind].
  destruct (random_int 10 rng1) as [v' rng2].
  replace (pn p) with (pn (Pos X Y (pn p + 1)) - 1) at 1 by (cbn; lia).
  destruct ((max s <? pn (Pos X Y (pn p + 1)) - 1) && eligible g o m0 (Pos X Y (pn p + 1)))
    eqn:Hb; intros [= <- <-]; cbn [maze max maxx px pn] in *; split; try assumption;
    rewrite Hb; split; try reflexivity; lia.
Qed.

Lemma records_step (o : options) (m : maze_t) (nds : list pos_t)
    (mx mxx mx' mxx' : Z) (next : pos_t) :
  records g o m nds mx mxx ->
  (if (mx <? pn next - 1) && eligible g o m next
   then mx' = pn next - 1 /\ mxx' = px next
   else mx' = mx /\ mxx' = mxx) ->
  records g o m (nds ++ [next]) mx' mxx'.
Proof.
  intros (Hpos & Hall & Hex) Hupd.
  destruct (Z.ltb_spec mx (pn next - 1)) as [Hlt|Hge];
    destruct (eligible g o m next) eqn:He; cbn [andb] in Hupd; destruct Hupd as [-> ->].
  - split; [lia|]. split.
    + intros nd Hin Hel. apply in_app_or in Hin as [Hin|[<-|[]]]; [|lia].
      specialize (Hall nd Hin Hel). lia.
    + right. split; [lia|]. exists next. split; [apply in_or_app; right; left; reflexivity|].
      split; [exact He|]. split; [lia|reflexivity].
  - split; [exact Hpos|]. split.
    + intros nd Hin Hel. apply in_app_or in Hin as [Hin|[<-|[]]]; [auto|congruence].
    + destruct Hex as [Hz|(Hp & nd & Hin & Hex)]; [left; exact Hz|right].
      split; [exact Hp|]. exists nd. split; [apply in_or_app; left; exact Hin|exact Hex].
  - split; [exact Hpos|]. split.
    + intros nd Hin Hel. apply in_app_or in Hin as [Hin|[<-|[]]]; [auto|lia].
    + destruct Hex as [Hz|(Hp & nd & Hin & Hex)]; [left; exact Hz|right].
      split; [exact Hp|]. exists nd. split; [apply in_or_app; left; exact Hin|exact Hex].
  - split; [exact Hpos|]. split.
    + intros nd Hin Hel. apply in_app_or in Hin as [Hin|[<-|[]]]; [auto|lia].
    + destruct Hex as [Hz|(Hp & nd & Hin & Hex)]; [left; exact Hz|right].
      split; [exact Hp|]. exists nd. split; [apply in_or_app; left; exact Hin|exact Hex].
Qed.

Lemma run_records (o : options) (m0 : maze_t) :
  forall (fuel : nat) (s s' : walk) (seen nds : list pos_t),
    same_FLAGI m0 (maze s) ->
    records g o m0 seen (max s) (maxx s) ->
    run g o fuel s = Ok (s', nds) ->
    queue s' = [] /\ records g o m0 (seen ++ nds) (max s') (maxx s').
Proof.
  intros fuel. induction fuel as [|fuel IH]; intros s s' seen nds Hsame Hrec;
    [discriminate|].
  cbn [run]. destruct (queue s) as [|p pos] eqn:Hq.
  { intros [= <- <-]. rewrite app_nil_r. auto. }
  destruct (expand g o s) as [[s1 nd]| | |] eqn:Hexp; try discriminate. cbn [rbind].
  destruct (run g o fuel s1) as [[s2 nds']| | |] eqn:Hrun; try discriminate. cbn [rbind].
  intros [= <- <-].
  destruct (expand_records o m0 s s1 nd Hsame Hexp) as [Hsame1 Hupd].
  destruct nd as [next|].
  - replace (seen ++ next :: nds') with ((seen ++ [next]) ++ nds')
      by (rewrite <- app_assoc; reflexivity).
    apply (IH s1); [exact Hsame1| |exact Hrun].
    apply (records_step o m0 seen (max s) (maxx s)); assumption.
  - destruct Hupd as [E1 E2]. apply (IH s1); [exact Hsame1| |exact Hrun].
    rewrite E1, E2. exact Hrec.
Qed.

(** *** The walk ends *)

Lemma normal_idem (x y : Z) :
  normal g (fst (normal g x y)) (snd (normal g x y)) = normal g x y.
Proof.
  rewrite normal_id by apply normal_in_range.
  symmetry. apply surjective_pairing.
Qed.

Lemma group_flags_normal (m : maze_t) (x y : Z) :
  group_flags g m (fst (normal g x y)) (snd (normal g x y)) = group_flags g m x y.
Proof. unfold group_flags. rewrite normal_idem by exact HW. reflexivity. Qed.

Lemma untouched_in_rows (m : maze_t) (x y : Z) :
  group_flags g m x y = 0 ->
  0 <= snd (normal g x y) < H g /\ cell m (fst (normal g x y)) (snd (normal g x y)) = 0.
Proof.
  intros Hz. unfold group_flags in Hz.
  pose proof (proj1 (bigor_eq_0 _ _) Hz O ltac:(lia)) as H0.
  cbn [copy] in H0. unfold flags_at in H0. destruct (normal g x y) as [a b]. cbn [fst snd].
  destruct ((b <? 0) || (H g <=? b)) eqn:Hb; [discriminate|].
  apply orb_false_elim in Hb as [Hb1 Hb2].
  apply Z.ltb_ge in Hb1. apply Z.leb_gt in Hb2. split; [lia|exact H0].
Qed.

Lemma grown_untouched (m m' : maze_t) (c : Z * Z) :
  grown m m' -> untouched g m' c = true -> untouched g m c = true.
Proof.
  intros Hg. unfold untouched. rewrite !Z.eqb_eq. unfold group_flags.
  rewrite !bigor_eq_0. intros Hall k Hk. specialize (Hall k Hk).
  unfold flags_at in *. destruct (copy g k _) as [a b].
  destruct ((b <? 0) || (H g <=? b)); [exact Hall|].
  destruct (Hg a b) as [f Hf]. rewrite Hf in Hall.
  apply Z.lor_eq_0_iff in Hall. apply Hall.
Qed.

Lemma touched_cell (m : maze_t) (x y : Z) :
  in_grid g x y = true -> cell m x y <> 0 ->
  untouched g m (x, y) = false.
Proof.
  intros Hin Hc. apply in_grid_spec in Hin as Hxy.
  unfold untouched. cbn [fst snd]. apply Z.eqb_neq. intros Hz.
  destruct (untouched_in_rows m x y Hz) as [_ Hcell].
  rewrite normal_id in Hcell by lia. cbn [fst snd] in Hcell. contradiction.
Qed.

Lemma maze_or_grown (m : maze_t) (x y f : Z) :
  in_grid g x y = true -> f <> 0 ->
  exists m', maze_or g m x y f = Ok m' /\ grown m m' /\ cell m' x y <> 0.
Proof.
  intros Hin Hf. unfold maze_or. rewrite Hin. eexists. split; [reflexivity|]. split.
  - intros a b. rewrite cell_insert.
    destruct (decide ((x, y) = (a, b))) as [[= <- <-]|_]; [exists f; reflexivity|].
    exists 0. symmetry. apply Z.lor_0_r.
  - rewrite cell_insert. destruct (decide ((x, y) = (x, y))); [|congruence].
    intros Hz. apply Z.lor_eq_0_iff in Hz. apply Hf, Hz.
Qed.

Lemma in_cells (x y : Z) :
  in_grid g x y = true -> In (x, y) (cells g).
Proof.
  intros Hin. apply in_grid_spec in Hin. apply list_elem_of_In. unfold cells.
  apply list_elem_of_bind. exists x. split.
  - apply list_elem_of_fmap. exists y. split; [reflexivity|]. apply elem_of_seqZ. lia.
  - apply elem_of_seqZ. lia.
Qed.

Lemma length_cells :
  length (cells g) = (Z.to_nat (W g) * Z.to_nat (H g))%nat.
Proof.
  unfold cells. rewrite <- (length_seqZ 0 (W g)).
  induction (seqZ 0 (W g)) as [|x l IH]; [reflexivity|].
  rewrite bind_cons, length_app, IH, length_fmap, length_seqZ. cbn [length]. lia.
Qed.

Lemma two_writes (m : maze_t) (X Y f1 X' Y' f2 : Z) :
  in_grid g X Y = true -> in_grid g X' Y' = true -> f1 <> 0 -> f2 <> 0 ->
  exists m2,
    (let* m1 := maze_or g m X Y f1 in
     let* m2 := maze_or g m1 X' Y' f2 in Ok (m2, X', Y')) = Ok (m2, X', Y')
    /\ grown m m2 /\ cell m2 X' Y' <> 0.
Proof.
  intros Hin Hin' Hf1 Hf2.
  destruct (maze_or_grown m X Y f1 Hin Hf1) as (m1 & -> & Hg1 & _). cbn [rbind].
  destruct (maze_or_grown m1 X' Y' f2 Hin' Hf2) as (m2 & -> & Hg2 & Hc). cbn [rbind].
  exists m2. split; [reflexivity|]. split; [|exact Hc].
  apply (grown_trans m m1 m2); assumption.
Qed.

Lemma left_normal (X Y : Z) :
  0 <= X < W g ->
  normal g (X - 1) Y = if X - 1 <? 0 then (X - 1 + W g, Y - helix g) else (X - 1, Y).
Proof.
  intros HX. destruct (Z.ltb_spec (X - 1) 0) as [Hneg|Hpos].
  - assert (X = 0) as -> by lia. unfold normal.
    destruct (shift_up (W g) (0 - 1) ltac:(lia)) as [Hm Hd].
    rewrite <- Hm. replace (0 - 1 + W g) with (W g - 1) in * by ring.
    rewrite Z.mod_small by lia. rewrite Z.div_small in Hd by lia.
    f_equal; lia.
  - apply normal_id. lia.
Qed.

(** A step toward a closed direction, from a cell of the grid, writes both
    flags in the grid and reaches a cell that was untouched and no longer
    is. *)
Lemma move_ok (m : maze_t) (d : dir) (X Y : Z) :
  in_grid g X Y = true ->
  closed g m d X Y = Ok true ->
  exists m' X' Y',
    move g m d X Y = Ok (m', X', Y')
    /\ in_grid g X' Y' = true /\ grown m m'
    /\ untouched g m (X', Y') = true /\ untouched g m' (X', Y') = false.
Proof.
  intros Hin Hc. apply in_grid_spec in Hin as HXY.
  rewrite closed_spec in Hc. injection Hc as Hc. apply Z.eqb_eq in Hc.
  pose proof (untouched_in_rows m _ _ Hc) as [Hrow _].
  pose proof (normal_in_range (fst (ahead d X Y)) (snd (ahead d X Y))) as Hcol.
  pose proof (group_flags_normal m (fst (ahead d X Y)) (snd (ahead d X Y))) as Hgf.
  rewrite Hc in Hgf.
  assert (Hgoal : forall X' Y' f1 f2,
             normal g (fst (ahead d X Y)) (snd (ahead d X Y)) = (X', Y') ->
             f1 <> 0 -> f2 <> 0 ->
             exists m' X'' Y'',
               (let* m1 := maze_or g m X Y f1 in
                let* m2 := maze_or g m1 X' Y' f2 in Ok (m2, X', Y')) = Ok (m', X'', Y'')
               /\ in_grid g X'' Y'' = true /\ grown m m'
               /\ untouched g m (X'', Y'') = true /\ untouched g m' (X'', Y'') = false).
  { intros X' Y' f1 f2 E Hf1 Hf2. rewrite E in *. cbn [fst snd] in *.
    assert (Hin' : in_grid g X' Y' = true) by (apply in_grid_spec; lia).
    destruct (two_writes m X Y f1 X' Y' f2 Hin Hin' Hf1 Hf2) as (m2 & -> & Hg & Hcell).
    exists m2, X', Y'. split; [reflexivity|]. split; [exact Hin'|]. split; [exact Hg|].
    split; [unfold untouched; apply Z.eqb_eq; exact Hgf|].
    apply touched_cell; assumption. }
  destruct d; unfold move; cbn [ahead fst snd] in *.
  - pose proof (right_of_normal X Y ltac:(lia)) as E. unfold right_of in E.
    destruct (W g <=? X + 1); apply (Hgoal _ _ FLAGR FLAGL E); discriminate.
  - pose proof (left_normal X Y ltac:(lia)) as E.
    destruct (X - 1 <? 0); apply (Hgoal _ _ FLAGL FLAGR E); discriminate.
  - apply (Hgoal _ _ FLAGD FLAGU); [apply normal_id; lia|discriminate..].
  - apply (Hgoal _ _ FLAGU FLAGD); [apply normal_id; lia|discriminate..].
Qed.

Lemma enqueue_in_grid (o : options) (v : Z) (p next : pos_t) (pos : list pos_t) :
  queue_in_grid g (p :: pos) -> in_grid g (px next) (py next) = true ->
  queue_in_grid g (enqueue o v p next pos).
Proof.
  unfold queue_in_grid, enqueue. intros Hq Hnext.
  apply Forall_cons_1 in Hq as [Hp Hpos].
  destruct (next_at_start o v), (current_at_start o v);
    repeat first [apply Forall_cons_2 | apply Forall_app_2 | apply Forall_nil_2];
    assumption.
Qed.

(** A round from a queue of cells of the grid succeeds, keeps the queue in the
    grid and decreases the measure. *)
Lemma expand_ok (o : options) (s : walk) :
  queue s <> [] -> queue_in_grid g (queue s) ->
  exists s' nd,
    expand g o s = Ok (s', nd)
    /\ queue_in_grid g (queue s') /\ (measure g s' < measure g s)%nat.
Proof.
  intros Hne Hq. destruct (queue s) as [|p pos] eqn:Eq; [congruence|].
  pose proof Hq as Hq'. apply Forall_cons_1 in Hq' as [Hp Hpos].
  pose proof (closed_spec (maze s) Right (px p) (py p)) as Hr.
  pose proof (closed_spec (maze s) Left (px p) (py p)) as Hl.
  pose proof (closed_spec (maze s) Down (px p) (py p)) as Hd.
  pose proof (closed_spec (maze s) Up (px p) (py p)) as Hu.
  set (r := _ =? 0) in Hr. set (l := _ =? 0) in Hl.
  set (d := _ =? 0) in Hd. set (u := _ =? 0) in Hu.
  pose proof (ways_spec _ _ _ _ _ _ _ Hr Hl Hd Hu) as Hways.
  set (n := weight r Right + weight l Left + weight d Down + weight u Up) in *.
  assert (Hn0 : 0 <= n) by (unfold n, weight; destruct r, l, d, u; cbv; discriminate).
  unfold expand. rewrite Eq, Hways. cbn [rbind].
  destruct (Z.eqb_spec n 0) as [E|E].
  - eexists _, _. split; [reflexivity|]. cbn [queue]. split; [exact Hpos|].
    unfold measure. cbn [maze queue]. rewrite Eq. cbn [length]. lia.
  - destruct (pick_available r l d u (fst (random_int n (rng s)))) as (way & Hpick & Ha).
    { apply random_int_range. lia. }
    assert (Hclosed : closed g (maze s) way (px p) (py p) = Ok true)
      by (destruct way; congruence).
    destruct (random_int n (rng s)) as [v rng1]. cbn [fst] in Hpick.
    rewrite (choose_spec _ _ _ _ _ _ _ _ Hr Hl Hd Hu), Hpick. cbn [rbind].
    destruct (move_ok (maze s) way (px p) (py p) Hp Hclosed)
      as (m' & X' & Y' & -> & Hin' & Hg & Hbefore & Hafter).
    cbn [rbind].
    destruct (reaches_top_ok o m' (pn p) (max s) X' Y') as [b ->]. cbn [rbind].
    destruct (if b then _ else _) as [mx mxx].
    destruct (random_int 10 rng1) as [v' rng2].
    eexists _, _. split; [reflexivity|]. cbn [queue]. split.
    + apply enqueue_in_grid; [exact Hq|exact Hin'].
    + unfold measure. cbn [maze queue]. rewrite Eq, enqueue_length. cbn [length].
      pose proof (filter_length_lt (untouched g (maze s)) (untouched g m') (cells g) (X', Y')
                    (fun c => grown_untouched (maze s) m' c Hg)
                    (in_cells X' Y' Hin') Hbefore Hafter).
      lia.
Qed.

(** The walk ends: from a queue of cells of the grid, fuel above the measure
    is enough. *)
Lemma run_ok (o : options) :
  forall (fuel : nat) (s : walk),
    queue_in_grid g (queue s) -> (measure g s < fuel)%nat ->
    exists s' nds, run g o fuel s = Ok (s', nds).
Proof.
  intros fuel. induction fuel as [|fuel IH]; intros s Hq Hf; [lia|].
  cbn [run]. destruct (queue s) as [|p pos] eqn:Eq; [eauto|].
  destruct (expand_ok o s) as (s1 & nd & -> & Hq1 & Hm1).
  { rewrite Eq. discriminate. }
  { rewrite Eq. exact Hq. }
  cbn [rbind]. destruct (IH s1 Hq1 ltac:(lia)) as (s2 & nds & ->). cbn [rbind]. eauto.
Qed.

Lemma measure_bound (s : walk) :
  (measure g s <= 2 * (Z.to_nat (W g) * Z.to_nat (H g)) + length (queue s))%nat.
Proof.
  unfold measure. rewrite <- length_cells.
  pose proof (List.filter_length_le (untouched g (maze s)) (cells g)). lia.
Qed.

End OnGrid.

(** ** A whole run *)

(** On six columns and four rows [makemaze] runs to its last face: the first
    thing printed is the base point of slice 0, the exit is found in column 5,
    300 degrees round, and 336 points are printed, three rings of 24 at the
    base, sixteen for each of the 12 cells in use and three rings at the
    top. *)
Example sample_run :
  match makemaze sample_options 0 2 6 2 42 with
  | (Point 0 0 :: printed, Ok (a, _, k)) =>
      a = (360 * 5, 6) /\ P k = 336 /\ bottom k = 0 /\ top k = 264
  | _ => False
  end.
Proof. vm_compute. repeat split; reflexivity. Qed.

(** ** The edges of a move, and the run of the parts *)

Lemma has_or_left (a f F : Z) : has a F = true -> has (Z.lor a f) F = true.
Proof.
  unfold has. rewrite !negb_true_iff, !Z.eqb_neq. intros Ha E. apply Ha.
  apply Z.bits_inj'. intros i Hi. rewrite Z.bits_0.
  assert (Ei : Z.testbit (Z.land (Z.lor a f) F) i = false) by (rewrite E; apply Z.bits_0).
  rewrite Z.land_spec, Z.lor_spec in Ei. rewrite Z.land_spec.
  destruct (Z.testbit a i), (Z.testbit F i); cbn in *; congruence.
Qed.

Lemma has_or_right (a f : Z) : f <> 0 -> has (Z.lor a f) f = true.
Proof.
  intros Hf. unfold has. rewrite negb_true_iff, Z.eqb_neq. intros E. apply Hf.
  apply Z.bits_inj'. intros i Hi. rewrite Z.bits_0.
  assert (Ei : Z.testbit (Z.land (Z.lor a f) f) i = false) by (rewrite E; apply Z.bits_0).
  rewrite Z.land_spec, Z.lor_spec in Ei.
  destruct (Z.testbit a i), (Z.testbit f i); cbn in *; congruence.
Qed.

(** The two writes of a move: the flag of the direction on the cell left, the
    opposite flag on the cell entered, which is the cell ahead, wrapped at the
    seam. *)
Lemma move_edges (g : grid) (m m' : maze_t) (d : dir) (X Y X' Y' : Z) :
  0 < W g -> 0 <= X < W g ->
  move g m d X Y = Ok (m', X', Y') ->
  (X', Y') = normal g (fst (ahead d X Y)) (snd (ahead d X Y))
  /\ has (cell m' X Y) (flag_out d) = true
  /\ has (cell m' X' Y') (flag_in d) = true.
Proof.
  intros HW HX Hm.
  assert (Hwrite : forall (a b f a' b' f' : Z) (m1 : maze_t),
            f <> 0 -> f' <> 0 ->
            (let* m1 := maze_or g m a b f in
             let* m2 := maze_or g m1 a' b' f' in Ok (m2, a', b')) = Ok (m', X', Y') ->
            (X', Y') = (a', b') /\ has (cell m' a b) f = true /\ has (cell m' a' b') f' = true).
  { intros a b f a' b' f' _ Hf Hf'. unfold maze_or.
    destruct (in_grid g a b); [|discriminate]. cbn [rbind].
    destruct (in_grid g a' b'); [|discriminate]. cbn [rbind].
    intros E. injection E as <- <- <-. split; [reflexivity|].
    set (m1 := <[(a, b) := Z.lor (cell m a b) f]> m).
    assert (H1 : has (cell m1 a b) f = true).
    { unfold m1. rewrite cell_insert, decide_True by reflexivity. apply has_or_right, Hf. }
    split.
    - rewrite cell_insert. destruct (decide ((a', b') = (a, b))) as [E|E].
      + injection E as -> ->. apply has_or_left, H1.
      + exact H1.
    - rewrite cell_insert, decide_True by reflexivity. apply has_or_right, Hf'. }
  assert (Hdone : forall a b f a' b' f',
            f <> 0 -> f' <> 0 ->
            (let* m1 := maze_or g m a b f in
             let* m2 := maze_or g m1 a' b' f' in Ok (m2, a', b')) = Ok (m', X', Y') ->
            (X', Y') = (a', b') /\ has (cell m' a b) f = true
            /\ has (cell m' X' Y') f' = true).
  { intros a b f a' b' f' Hf Hf' E.
    destruct (Hwrite a b f a' b' f' m Hf Hf' E) as (E1 & H1 & H2).
    injection E1 as -> ->. auto. }
  clear Hwrite. revert Hm.
  destruct d; cbn [move ahead fst snd flag_out flag_in].
  - rewrite (right_of_normal g HW X Y HX). unfold right_of.
    destruct (W g <=? X + 1); intros Hm; apply Hdone in Hm; try discriminate; exact Hm.
  - rewrite (left_normal g HW X Y HX).
    destruct (X - 1 <? 0); intros Hm; apply Hdone in Hm; try discriminate; exact Hm.
  - rewrite normal_id by lia. intros Hm; apply Hdone in Hm; try discriminate; exact Hm.
  - rewrite normal_id by lia. intros Hm; apply Hdone in Hm; try discriminate; exact Hm.
Qed.

Lemma ebind_assoc {A B C : Type} (e : emit A) (k : A -> emit B) (h : B -> emit C) :
  ebind (ebind e k) h = ebind e (fun a => ebind (k a) h).
Proof.
  destruct e as [o [a| | |]]; cbn [ebind]; try reflexivity.
  destruct (k a) as [o1 [b| | |]]; cbn [ebind]; try reflexivity.
  destruct (h b) as [o2 rc]. rewrite app_assoc. reflexivity.
Qed.

Lemma ebind_stops {A B : Type} (e : emit A) (k : A -> emit B) (o : list out) (msg : string) :
  e = (o, Fatal msg) -> ebind e k = (o, Fatal msg).
Proof. intros ->. reflexivity. Qed.

Lemma ebind_goes {A B : Type} (e : emit A) (k : A -> emit B) (o : list out) (a : A) :
  e = (o, Ok a) -> ebind e k = (o ++ fst (k a), snd (k a)).
Proof. intros ->. cbn [ebind]. destruct (k a). reflexivity. Qed.

Lemma for_loop_e_app {S : Type} (body : Z -> S -> emit S) (n m : nat) :
  forall (i : Z) (s : S),
    for_loop_e (n + m) i body s
    = ebind (for_loop_e n i body s) (fun s' => for_loop_e m (i + Z.of_nat n) body s').
Proof.
  induction n as [|n IH]; intros i s.
  - cbn [for_loop_e Nat.add eret ebind]. replace (i + Z.of_nat 0) with i by lia.
    destruct (for_loop_e m i body s). reflexivity.
  - cbn [for_loop_e Nat.add]. destruct (body i s) as [o [s1| | |]]; cbn [ebind]; try reflexivity.
    rewrite IH. replace (i + 1 + Z.of_nat n) with (i + Z.of_nat (Datatypes.S n)) by lia.
    destruct (for_loop_e n (i + 1) body s1) as [o1 [s2| | |]]; cbn [ebind]; try reflexivity.
    destruct (for_loop_e m (i + Z.of_nat (Datatypes.S n)) body s2) as [o2 rc].
    rewrite app_assoc. reflexivity.
Qed.

Lemma calls_in_turn_app (r : run_t) (pre post : list (bool * maze_call)) :
  forall seed,
    calls_in_turn r (pre ++ post) seed
    = ebind (calls_in_turn r pre seed) (fun s => calls_in_turn r post s).
Proof.
  induction pre as [|[b c] pre IH]; intros seed.
  - cbn [app calls_in_turn eret ebind]. destruct (calls_in_turn r post seed). reflexivity.
  - cbn [app calls_in_turn]. destruct (call_maze r b c seed) as [o [s1| | |]];
      cbn [ebind]; try reflexivity.
    rewrite IH. destruct (calls_in_turn r pre s1) as [o1 [s2| | |]]; cbn [ebind];
      try reflexivity.
    destruct (calls_in_turn r post s2) as [o2 rc]. rewrite app_assoc. reflexivity.
Qed.

(** [box] makes its calls in turn and then chooses [entrya]. *)
Lemma box_calls_first (r : run_t) (part seed : Z) :
  exists tail : Z -> emit Z,
    box r part seed = ebind (calls_in_turn r (box_calls r part) seed) tail.
Proof.
  unfold box, box_calls.
  set (f := box_flags (run_inside r) (run_flip r) part (run_parts r)).
  eexists (fun s => if (mazeoutside f && negb (run_flip r) && (part =? run_parts r))
                       || (negb (mazeoutside f) && (part + 1 =? run_parts r))
                    then eret s
                    else if (part <? run_parts r) && negb (run_basewide r)
                         then eret (snd (random_int 360 s)) else eret s).
  destruct (mazeinside f), (mazeoutside f); cbn [app calls_in_turn ebind eret];
    repeat match goal with
           | |- context [call_maze ?r0 ?b0 ?c0 ?s0] =>
               destruct (call_maze r0 b0 c0 s0) as [? [?| | |]]; cbn [ebind eret];
               try reflexivity
           end;
    rewrite ?app_nil_r;
    match goal with
    | |- context [if ?b0 then _ else _] => destruct b0
    end; cbn [eret app]; rewrite ?app_nil_r; try reflexivity;
    match goal with
    | |- context [if ?b0 then _ else _] => destruct b0
    end; cbn [eret app]; rewrite ?app_nil_r; reflexivity.
Qed.

(** A call on a grid too small stops at the check, before it prints. *)
Lemma call_too_small (r : run_t) (inside : bool) (c : maze_call) (seed : Z) :
  call_W c = 2 \/ call_H0 c + 2 + run_helix r = 0 ->
  call_maze r inside c seed = ([], Fatal "Too small").
Proof.
  intros Hs. unfold call_maze, makemaze_park, makemaze. cbn [W].
  destruct (Z.ltb_spec (call_W c) 3), (Z.ltb_spec (call_H0 c + 2 + run_helix r) 1);
    cbn [orb]; try reflexivity; lia.
Qed.

(** * The claims *)

(** C1, as amended.  With [nubs > 1], [W] a multiple of [nubs] and [helix]
    either 0 or equal to [nubs], the [k]-th copy of a cell (x, y) is the cell
    [k * (W / nubs)] columns to the right, wrapped at the seam with the helix
    shift, and [k] rows down when [helix = nubs]; the group query does not
    tell the copies apart: [test] returns the same mask at every copy of a
    cell, for every content of the maze array, so for the generated maze. *)
Theorem copies_test_alike (g : grid) (m : maze_t) (x y : Z) (k : nat) :
  1 < nubs g -> Z.quot (W g) (nubs g) * nubs g = W g ->
  helix g = 0 \/ helix g = nubs g ->
  0 <= x < W g ->
  copy g k (x, y)
  = ((x + Z.of_nat k * Z.quot (W g) (nubs g)) mod W g,
     y + helix g * ((x + Z.of_nat k * Z.quot (W g) (nubs g)) / W g)
     - Z.of_nat k * (if helix g =? nubs g then 1 else 0))
  /\ 0 <= fst (copy g k (x, y)) < W g
  /\ test g m (fst (copy g k (x, y))) (snd (copy g k (x, y))) = test g m x y.
Proof.
  intros Hn Hdiv Hh Hx. assert (HW : 0 < W g) by lia.
  assert (Hn0 : 0 < nubs g) by lia.
  split; [apply copy_closed_form; assumption|].
  rewrite !test_spec by lia.
  induction k as [|k [IHr IH]]; [split; [exact Hx|reflexivity]|].
  cbn [copy]. split.
  - apply next_copy_in_range, HW.
  - f_equal. injection IH as IH. rewrite <- IH.
    apply (group_flags_next g HW Hn0 m (copy g k (x, y))); assumption.
Qed.

Lemma copies_test_alike_witness :
  copy helix_grid 1 (0, 4)
  = ((0 + Z.of_nat 1 * Z.quot (W helix_grid) (nubs helix_grid)) mod W helix_grid,
     4 + helix helix_grid
         * ((0 + Z.of_nat 1 * Z.quot (W helix_grid) (nubs helix_grid)) / W helix_grid)
     - Z.of_nat 1 * (if helix helix_grid =? nubs helix_grid then 1 else 0))
  /\ 0 <= fst (copy helix_grid 1 (0, 4)) < W helix_grid
  /\ test helix_grid lone_cell (fst (copy helix_grid 1 (0, 4)))
                               (snd (copy helix_grid 1 (0, 4)))
     = test helix_grid lone_cell 0 4.
Proof.
  apply (copies_test_alike helix_grid lone_cell 0 4 1).
  - cbn. lia.
  - reflexivity.
  - right. reflexivity.
  - cbn. lia.
Defined.

(** C1, as stated, fails: in the maze generated on six columns with two
    nubs, the cell (0, 1) holds the edge to its right and its copy at
    (0 + W / nubs, 1) holds no edge; carving the entry does not change that.
    And with a helix that is neither 0 nor the nub count, here the two nubs
    that [main] keeps on a helix of four, [test] itself tells a cell from its
    copy. *)
Lemma copies_store_different_masks :
  (copy sample_grid 1 (0, 1) = (3, 1)
   /\ exists m maxx seed m',
        build_maze sample_grid sample_options 42 = Ok (m, maxx, seed)
        /\ entry_point sample_grid maxx m = Ok m'
        /\ Z.land (cell m 0 1) FLAGA <> Z.land (cell m 3 1) FLAGA
        /\ Z.land (cell m' 0 1) FLAGA <> Z.land (cell m' 3 1) FLAGA)
  /\ (adjust_nubs 4 2 = 2
      /\ copy half_helix_grid 1 (4, 2) = (1, 6)
      /\ test half_helix_grid lone_cell 4 2 = Ok FLAGR
      /\ test half_helix_grid lone_cell 1 6 = Ok 0).
Proof.
  split; [|repeat split; vm_compute; reflexivity].
  split; [reflexivity|].
  assert (E : match build_maze sample_grid sample_options 42 with
              | Ok (m, maxx, _) =>
                  match entry_point sample_grid maxx m with
                  | Ok m' =>
                      (Z.land (cell m 0 1) FLAGA =? FLAGR) && (Z.land (cell m 3 1) FLAGA =? 0)
                      && (Z.land (cell m' 0 1) FLAGA =? FLAGR) && (Z.land (cell m' 3 1) FLAGA =? 0)
                  | _ => false
                  end
              | _ => false
              end = true) by (vm_compute; reflexivity).
  destruct (build_maze sample_grid sample_options 42) as [[[m maxx] seed]| | |];
    try discriminate.
  destruct (entry_point sample_grid maxx m) as [m'| | |] eqn:E'; try discriminate.
  exists m, maxx, seed, m'.
  rewrite !andb_true_iff, !Z.eqb_eq in E. destruct E as [[[E1 E2] E3] E4].
  rewrite E1, E2, E3, E4. unfold FLAGR. repeat split; try reflexivity; try exact E'; lia.
Qed.

(** C2, as amended.  A round that takes a direction draws twice in all, once
    for the direction and once, as [random_int (10)], for the queue; that one
    value [v] decides both insertions.  The new node goes to the start of the
    queue when [v < |mazecomplexity|], which holds for [min (|mazecomplexity|,
    10)] of the ten values; the current node goes to the start when
    [mazecomplexity <= 0] and [v < -mazecomplexity], so with
    [mazecomplexity <= 0] the two nodes always go to the same end, and with
    [mazecomplexity > 0] the current node always goes to the end. *)
Theorem one_draw_decides_both (g : grid) (o : options) (s s' : walk) (next : pos_t) :
  expand g o s = Ok (s', Some next) ->
  exists p pos v,
    queue s = p :: pos
    /\ v = fst (random_int 10 (rng_next (rng s))) /\ 0 <= v < 10
    /\ rng s' = rng_next (rng_next (rng s))
    /\ queue s' = (let q := if next_at_start o v then next :: pos else pos ++ [next] in
                   if current_at_start o v then p :: q else q ++ [p])
    /\ (mazecomplexity o <= 0 -> current_at_start o v = next_at_start o v)
    /\ (0 < mazecomplexity o -> current_at_start o v = false)
    /\ count (next_at_start o) (draws 10) = Z.min (Z.abs (mazecomplexity o)) 10.
Proof.
  unfold expand. destruct (queue s) as [|p pos]; [discriminate|].
  destruct (ways g (maze s) (px p) (py p)) as [n| | |] eqn:Hways; try discriminate.
  cbn [rbind]. destruct (Z.eqb_spec n 0) as [E|E]; [discriminate|].
  apply ways_nonneg in Hways.
  pose proof (random_int_state n (rng s) ltac:(lia)) as Hst.
  destruct (random_int n (rng s)) as [v0 rng1]. cbn [snd] in Hst. subst rng1.
  destruct (choose g (maze s) (px p) (py p) v0) as [[d|]| | |]; try discriminate.
  cbn [rbind].
  destruct (move g (maze s) d (px p) (py p)) as [[[m X] Y]| | |]; try discriminate.
  cbn [rbind].
  destruct (reaches_top g o m (pn p) (max s) X Y) as [b| | |]; try discriminate.
  cbn [rbind]. destruct (if b then _ else _) as [mx mxx].
  pose proof (random_int_range 10 (rng_next (rng s)) ltac:(lia)) as Hv.
  pose proof (random_int_state 10 (rng_next (rng s)) ltac:(lia)) as Hst.
  destruct (random_int 10 (rng_next (rng s))) as [v rng2]. cbn [fst snd] in *.
  intros [= <- <-]. exists p, pos, v. cbn [queue rng].
  repeat split; try lia; try assumption.
  - unfold current_at_start, next_at_start. intros Hc.
    destruct (Z.leb_spec (mazecomplexity o) 0); [|lia].
    destruct (Z.ltb_spec (mazecomplexity o) 0); cbn [andb]; [reflexivity|].
    replace (mazecomplexity o) with 0 by lia. reflexivity.
  - unfold current_at_start. intros Hc.
    destruct (Z.leb_spec (mazecomplexity o) 0); [lia|reflexivity].
  - rewrite <- count_below by lia. apply count_ext. intros w.
    unfold next_at_start. destruct (Z.ltb_spec (mazecomplexity o) 0); f_equal; lia.
Qed.

Lemma one_draw_decides_both_witness :
  exists p pos v,
    queue open_walk = p :: pos
    /\ v = fst (random_int 10 (rng_next (rng open_walk))) /\ 0 <= v < 10
    /\ rng open_walk_after = rng_next (rng_next (rng open_walk))
    /\ queue open_walk_after
       = (let q := if next_at_start negative_options v
                   then Pos 1 2 1 :: pos else pos ++ [Pos 1 2 1] in
          if current_at_start negative_options v then p :: q else q ++ [p])
    /\ (mazecomplexity negative_options <= 0 ->
        current_at_start negative_options v = next_at_start negative_options v)
    /\ (0 < mazecomplexity negative_options -> current_at_start negative_options v = false)
    /\ count (next_at_start negative_options) (draws 10)
       = Z.min (Z.abs (mazecomplexity negative_options)) 10.
Proof.
  apply (one_draw_decides_both open_grid negative_options open_walk open_walk_after
           (Pos 1 2 1)).
  vm_compute. reflexivity.
Defined.

(** C2, as stated, fails: with [mazecomplexity = -5] each of the two nodes
    goes to the start for five of the ten values of the draw, and both do for
    five of them, not for the quarter of them that two independent draws would
    give: [P (both) = 5/10] and [P (next) * P (current) = 25/100]. *)
Lemma queue_choices_not_independent :
  count (next_at_start negative_options) (draws 10) = 5
  /\ count (current_at_start negative_options) (draws 10) = 5
  /\ count (fun v => next_at_start negative_options v && current_at_start negative_options v)
           (draws 10) = 5
  /\ count (fun v => next_at_start negative_options v && current_at_start negative_options v)
           (draws 10) * 10
     <> count (next_at_start negative_options) (draws 10)
        * count (current_at_start negative_options) (draws 10).
Proof. repeat split. vm_compute. discriminate. Qed.

(** C3, as amended.  The weights of the random choice prefer leftward over
    rightward (2 against 1) and downward over upward (4 against 1): where all
    four directions are closed the sum is 8 and, of the eight values the draw
    can take, one goes right, two go left, four go down and one goes up. *)
Theorem bias_left_and_down (g : grid) (m : maze_t) (X Y : Z) :
  (forall d, closed g m d X Y = Ok true) ->
  bias Right < bias Left /\ bias Up < bias Down
  /\ ways g m X Y = Ok 8
  /\ forall way, count (takes g m X Y way) (draws 8) = bias way.
Proof.
  intros Hc. split; [cbv; reflexivity|]. split; [cbv; reflexivity|]. split.
  - rewrite (ways_spec g m X Y true true true true) by apply Hc. reflexivity.
  - intros way.
    rewrite (count_ext _ (fun v => match pick true true true true v with
                                   | Some d => dir_eqb d way
                                   | None => false
                                   end)).
    + destruct way; vm_compute; reflexivity.
    + intros v. unfold takes.
      rewrite (choose_spec g m X Y v true true true true) by apply Hc. reflexivity.
Qed.

Lemma bias_left_and_down_witness :
  bias Right < bias Left /\ bias Up < bias Down
  /\ ways open_grid ∅ 2 2 = Ok 8
  /\ forall way, count (takes open_grid ∅ 2 2 way) (draws 8) = bias way.
Proof.
  apply (bias_left_and_down open_grid ∅ 2 2).
  intros d; destruct d; vm_compute; reflexivity.
Defined.

(** C3, as stated, fails: the rightward weight (1) does not exceed the
    leftward weight (2). *)
Lemma right_not_preferred :
  ~ (bias Left < bias Right /\ bias Up < bias Down).
Proof. cbv. intros [Hc _]. discriminate Hc. Qed.

(** C4.  For every cell (x, y), that is for [0 <= x < W], the
    normalisation at the head of [test] sends (x + W, y) to (x, y + helix) and
    (x - W, y) to (x, y - helix): each crossing of the seam moves y by
    [helix]. *)
Theorem helix_wrap (g : grid) (x y : Z) :
  0 <= x < W g ->
  wrap g (x + W g) y = Ok (x, y + helix g)
  /\ wrap g (x - W g) y = Ok (x, y - helix g).
Proof.
  intros Hx. assert (HW : 0 < W g) by lia.
  rewrite !wrap_spec by exact HW. unfold normal.
  destruct (shift_up (W g) x HW) as [Hm Hd].
  destruct (shift_down (W g) x HW) as [Hm' Hd'].
  rewrite Hm, Hd, Hm', Hd', Z.mod_small, Z.div_small by lia.
  split; f_equal; f_equal; ring.
Qed.

Lemma helix_wrap_witness :
  wrap (Grid 6 5 3 3) (2 + 6) 1 = Ok (2, 1 + 3)
  /\ wrap (Grid 6 5 3 3) (2 - 6) 1 = Ok (2, 1 - 3).
Proof. apply (helix_wrap (Grid 6 5 3 3) 2 1). cbn. lia. Defined.

(** C5.  In a round of the walk on a node of the grid, with [W > 0] and
    [nubs > 0]: the sum [n] of the biases of the closed directions is
    computed; if it is 0 the node is dropped and the maze, like the rest of
    the state, is left as it was; if it is positive the draw [random_int (n)]
    selects a direction that is closed, and the round takes it: the maze of
    the next state is the maze after the move in that direction, with the
    flag of the direction on the cell left and the opposite flag on the cell
    ahead, wrapped at the seam, and the node allocated and queued is that
    cell, one deeper.  The round never ends in [fatal]: "Unexpected maze
    path" is unreachable. *)
Theorem expansion_takes_closed_way (g : grid) (o : options) (s : walk)
    (p : pos_t) (pos : list pos_t) :
  0 < W g -> 0 < nubs g -> queue s = p :: pos -> in_grid g (px p) (py p) = true ->
  exists n,
    ways g (maze s) (px p) (py p) = Ok n /\ 0 <= n
    /\ (n = 0 ->
        expand g o s = Ok (Walk (maze s) pos (rng s) (max s) (maxx s), None))
    /\ (0 < n ->
        exists way m' X' Y' s',
          choose g (maze s) (px p) (py p) (fst (random_int n (rng s))) = Ok (Some way)
          /\ closed g (maze s) way (px p) (py p) = Ok true
          /\ move g (maze s) way (px p) (py p) = Ok (m', X', Y')
          /\ (X', Y') = normal g (fst (ahead way (px p) (py p))) (snd (ahead way (px p) (py p)))
          /\ has (cell m' (px p) (py p)) (flag_out way) = true
          /\ has (cell m' X' Y') (flag_in way) = true
          /\ expand g o s = Ok (s', Some (Pos X' Y' (pn p + 1)))
          /\ maze s' = m'
          /\ In (Pos X' Y' (pn p + 1)) (queue s'))
    /\ (forall msg, expand g o s <> Fatal msg).
Proof.
  intros HW Hn Hq Hin.
  pose proof (closed_spec g HW Hn (maze s) Right (px p) (py p)) as Hr.
  pose proof (closed_spec g HW Hn (maze s) Left (px p) (py p)) as Hl.
  pose proof (closed_spec g HW Hn (maze s) Down (px p) (py p)) as Hd.
  pose proof (closed_spec g HW Hn (maze s) Up (px p) (py p)) as Hu.
  set (r := _ =? 0) in Hr. set (l := _ =? 0) in Hl.
  set (d := _ =? 0) in Hd. set (u := _ =? 0) in Hu.
  pose proof (ways_spec _ _ _ _ _ _ _ _ Hr Hl Hd Hu) as Hways.
  set (n := weight r Right + weight l Left + weight d Down + weight u Up) in *.
  assert (Hn0 : 0 <= n) by (unfold n, weight; destruct r, l, d, u; cbv; discriminate).
  assert (Hpick : 0 < n -> exists way,
             choose g (maze s) (px p) (py p) (fst (random_int n (rng s))) = Ok (Some way)
             /\ closed g (maze s) way (px p) (py p) = Ok true).
  { intros Hpos.
    destruct (pick_available r l d u (fst (random_int n (rng s)))) as (way & Hp & Ha).
    { apply random_int_range, Hpos. }
    exists way. rewrite (choose_spec _ _ _ _ _ _ _ _ _ Hr Hl Hd Hu), Hp.
    split; [reflexivity|]. destruct way; congruence. }
  assert (Hround : 0 < n ->
            exists way m' X' Y' s',
              choose g (maze s) (px p) (py p) (fst (random_int n (rng s))) = Ok (Some way)
              /\ closed g (maze s) way (px p) (py p) = Ok true
              /\ move g (maze s) way (px p) (py p) = Ok (m', X', Y')
              /\ (X', Y') = normal g (fst (ahead way (px p) (py p)))
                                     (snd (ahead way (px p) (py p)))
              /\ has (cell m' (px p) (py p)) (flag_out way) = true
              /\ has (cell m' X' Y') (flag_in way) = true
              /\ expand g o s = Ok (s', Some (Pos X' Y' (pn p + 1)))
              /\ maze s' = m'
              /\ In (Pos X' Y' (pn p + 1)) (queue s')).
  { intros Hpos. destruct (Hpick Hpos) as (way & Hc & Hcl).
    destruct (move_ok g HW Hn (maze s) way (px p) (py p) Hin Hcl)
      as (m' & X' & Y' & Hm & _).
    apply in_grid_spec in Hin.
    destruct (move_edges g (maze s) m' way (px p) (py p) X' Y' HW ltac:(lia) Hm)
      as (Hat & Hout & Hback).
    unfold expand. rewrite Hq, Hways. cbn [rbind].
    destruct (Z.eqb_spec n 0) as [E|_]; [lia|].
    destruct (random_int n (rng s)) as [v rng1]. cbn [fst] in Hc. rewrite Hc. cbn [rbind].
    rewrite Hm. cbn [rbind].
    destruct (reaches_top_ok g HW Hn o m' (pn p) (max s) X' Y') as [b ->]. cbn [rbind].
    destruct (if b then (pn p, X') else (max s, maxx s)) as [mx mxx].
    destruct (random_int 10 rng1) as [v' rng2].
    exists way, m', X', Y'. eexists. repeat (split; [first [eassumption|reflexivity]|]).
    cbn [queue]. unfold enqueue.
    destruct (next_at_start o v'), (current_at_start o v');
      cbn [In app];
      first [ left; reflexivity
            | right; left; reflexivity
            | right; apply in_or_app; right; left; reflexivity
            | apply in_or_app; left; apply in_or_app; right; left; reflexivity ]. }
  exists n. split; [exact Hways|]. split; [exact Hn0|].
  split; [|split; [exact Hround|]].
  - intros ->. unfold expand. rewrite Hq, Hways. reflexivity.
  - intros msg. destruct (Z.eqb_spec n 0) as [E|E].
    + unfold expand. rewrite Hq, Hways. cbn [rbind]. rewrite E. discriminate.
    + destruct (Hround ltac:(lia)) as (way & m' & X' & Y' & s' & _ & _ & _ & _ & _ & _ & -> & _).
      discriminate.
Qed.

Lemma expansion_takes_closed_way_witness :
  exists n,
    ways open_grid (maze open_walk) 2 2 = Ok n /\ 0 <= n
    /\ (n = 0 ->
        expand open_grid sample_options open_walk
        = Ok (Walk (maze open_walk) [] (rng open_walk) (max open_walk) (maxx open_walk), None))
    /\ (0 < n ->
        exists way m' X' Y' s',
          choose open_grid (maze open_walk) 2 2 (fst (random_int n (rng open_walk)))
          = Ok (Some way)
          /\ closed open_grid (maze open_walk) way 2 2 = Ok true
          /\ move open_grid (maze open_walk) way 2 2 = Ok (m', X', Y')
          /\ (X', Y') = normal open_grid (fst (ahead way 2 2)) (snd (ahead way 2 2))
          /\ has (cell m' 2 2) (flag_out way) = true
          /\ has (cell m' X' Y') (flag_in way) = true
          /\ expand open_grid sample_options open_walk = Ok (s', Some (Pos X' Y' (0 + 1)))
          /\ maze s' = m'
          /\ In (Pos X' Y' (0 + 1)) (queue s'))
    /\ (forall msg, expand open_grid sample_options open_walk <> Fatal msg).
Proof.
  apply (expansion_takes_closed_way open_grid sample_options open_walk (Pos 2 2 0) []).
  - cbn. lia.
  - cbn. lia.
  - reflexivity.
  - reflexivity.
Defined.

(** C6, as amended.  With [W > 0] and [nubs > 0], [test (x, y)] returns the
    bitwise OR, over the [nubs] copies of the cell, of FLAGI for a copy whose
    y is outside [0, H) and of the stored byte otherwise.  The copies start at
    the normalised cell; each next one is [W / nubs] further in x, wrapped at
    the seam with y moved by [helix], and one row down when [helix == nubs]:
    the decrement is made at every step between two copies. *)
Theorem test_group_or (g : grid) (m : maze_t) (x y : Z) :
  0 < W g -> 0 < nubs g ->
  test g m x y = Ok (group_flags g m x y)
  /\ (forall i, Z.testbit (group_flags g m x y) i = true <->
        exists k, (k < Z.to_nat (nubs g))%nat
                  /\ Z.testbit (flags_at g m (copy g k (normal g x y))) i = true)
  /\ (forall k, copy g (S k) (normal g x y) = next_copy g (copy g k (normal g x y))).
Proof.
  intros HW Hn. split; [apply test_spec; assumption|]. split.
  - intros i. unfold group_flags. apply bigor_testbit.
  - intros k. reflexivity.
Qed.

Lemma test_group_or_witness :
  test helix_grid lone_cell 0 4 = Ok (group_flags helix_grid lone_cell 0 4)
  /\ (forall i, Z.testbit (group_flags helix_grid lone_cell 0 4) i = true <->
        exists k, (k < Z.to_nat (nubs helix_grid))%nat
                  /\ Z.testbit (flags_at helix_grid lone_cell
                                  (copy helix_grid k (normal helix_grid 0 4))) i = true)
  /\ (forall k, copy helix_grid (S k) (normal helix_grid 0 4)
                = next_copy helix_grid (copy helix_grid k (normal helix_grid 0 4))).
Proof. apply (test_group_or helix_grid lone_cell 0 4); cbn; lia. Defined.

(** C6, as stated, fails: on a helix of three with three nubs, [test (0, 4)]
    reads the third copy at (4, 2), two rows below the first, and returns its
    flag; with y decremented once for the whole traversal the copies would be
    (0, 4), (2, 3) and (4, 3), and the result 0. *)
Lemma test_not_once_per_traversal :
  test helix_grid lone_cell 0 4 = Ok FLAGR
  /\ group_flags_once helix_grid lone_cell 0 4 = 0
  /\ test helix_grid lone_cell 0 4 <> Ok (group_flags_once helix_grid lone_cell 0 4).
Proof.
  assert (E1 : test helix_grid lone_cell 0 4 = Ok FLAGR) by (vm_compute; reflexivity).
  assert (E2 : group_flags_once helix_grid lone_cell 0 4 = 0) by (vm_compute; reflexivity).
  repeat split; try assumption. rewrite E1, E2. discriminate.
Qed.

(** C7.  The code does not choose the deepest cell that touches the top when
    that cell was reached from the start node.  On three columns with one
    usable row, the outside maze of [puzzlebox -m 2 -n 1 -H 0 -N 1 -z 10
    --core-height 24], the walk reaches one cell, (2, 1), at depth 1 and
    below the open top; it is the deepest cell that touches the top, and the
    column recorded is 0, so that line 1073 sets the angle to 0 and not to
    240 degrees: "Entry" compares the depth of the node being expanded, 0,
    with [max], which starts at 0. *)
Lemma deepest_top_cell_not_chosen :
  exists s,
    actual_maze small_grid small_options 100 small_maze 1 1 42 = Ok (s, [Pos 2 1 1])
    /\ queue s = []
    /\ eligible small_grid small_options small_maze (Pos 2 1 1) = true
    /\ maxx s = 0
    /\ maxx s <> px (Pos 2 1 1)
    /\ entrya small_grid (maxx s) = (0, 3).
Proof.
  assert (E : match actual_maze small_grid small_options 100 small_maze 1 1 42 with
              | Ok (s, [nd]) =>
                  (px nd =? 2) && (py nd =? 1) && (pn nd =? 1)
                  && (maxx s =? 0) && (Z.of_nat (length (queue s)) =? 0)
              | _ => false
              end = true) by (vm_compute; reflexivity).
  destruct (actual_maze small_grid small_options 100 small_maze 1 1 42)
    as [[s [|[x y n] [|]]]| | |]; try discriminate.
  cbn [px py pn] in E. rewrite !andb_true_iff, !Z.eqb_eq in E.
  destruct E as [[[[-> ->] ->] Hmx] Hq].
  exists s. split; [reflexivity|]. split; [destruct (queue s); [reflexivity|discriminate]|].
  split; [vm_compute; reflexivity|]. split; [exact Hmx|].
  rewrite Hmx. split; [cbn; lia|reflexivity].
Qed.

(** C8, as amended.  In a run that makes [part], let the parts before it
    have run to their end and let the calls of [makemaze] that [box] makes
    for [part] before the call [c] have returned.  If the grid of [c] has
    [W = 2], or [H = 0] rows (the value tested, after [H += 2 + helix]), the
    call ends in [fatal ("Too small")] and has printed nothing; the run ends
    there, and what it has printed is what the parts and the calls before
    printed, their points included. *)
Theorem too_small_stops_run (r : run_t) (part : Z) (inside : bool) (c : maze_call)
    (pre post : list (bool * maze_call)) (seed seed1 seed2 : Z) (before here : list out) :
  makes_part r part = true ->
  parts_before r part seed = (before, Ok seed1) ->
  box_calls r part = pre ++ (inside, c) :: post ->
  calls_in_turn r pre seed1 = (here, Ok seed2) ->
  call_W c = 2 \/ call_H0 c + 2 + run_helix r = 0 ->
  call_maze r inside c seed2 = ([], Fatal "Too small")
  /\ box r part seed1 = (here, Fatal "Too small")
  /\ boxes r seed = (before ++ here, Fatal "Too small").
Proof.
  intros Hpart Hbefore Hcalls Hpre Hsmall.
  pose proof (call_too_small r inside c seed2 Hsmall) as Hcall.
  assert (Hbox : box r part seed1 = (here, Fatal "Too small")).
  { destruct (box_calls_first r part seed1) as [tail ->].
    rewrite Hcalls, calls_in_turn_app, Hpre. cbn [ebind calls_in_turn].
    rewrite Hcall. cbn [ebind]. rewrite app_nil_r. reflexivity. }
  split; [exact Hcall|]. split; [exact Hbox|].
  unfold boxes, parts_before, makes_part in *.
  destruct (negb (run_part r =? 0)).
  - apply Z.eqb_eq in Hpart. subst part. injection Hbefore as <- <-. exact Hbox.
  - apply andb_true_iff in Hpart. destruct Hpart as [Hlo Hhi].
    apply Z.leb_le in Hlo, Hhi. unfold for_range_e in *.
    replace (Z.to_nat (run_parts r + 1 - 1))
      with (Z.to_nat (part - 1) + Datatypes.S (Z.to_nat (run_parts r - part)))%nat by lia.
    rewrite for_loop_e_app, Hbefore. cbn [ebind for_loop_e].
    replace (1 + Z.of_nat (Z.to_nat (part - 1))) with part by lia.
    rewrite Hbox. reflexivity.
Qed.

Lemma too_small_stops_run_witness :
  call_maze short_run false (short_call 2) 3397979675 = ([], Fatal "Too small")
  /\ box short_run 2 3397979675 = ([], Fatal "Too small")
  /\ boxes short_run 42 = (fst (box short_run 1 42) ++ [], Fatal "Too small").
Proof.
  apply (too_small_stops_run short_run 2 false (short_call 2) [] [] 42 3397979675 3397979675
           (fst (box short_run 1 42)) []).
  - reflexivity.
  - vm_compute. reflexivity.
  - reflexivity.
  - reflexivity.
  - right. reflexivity.
Defined.

(** C8, as stated, fails: in the run of [puzzlebox --core-height 10 -H 0]
    the maze of part 1 has no usable row, "Maze outside 12/0", and is made
    all the same, with its 288 points; the grid of part 2 has [H = 0] after
    [H += 2 + helix], and the run fails with "Too small" after those 288
    points were printed. *)
Lemma points_before_too_small :
  call_H0 (outer_call short_run 1) = 0
  /\ (exists printed seed',
        box short_run 1 42 = (printed, Ok seed')
        /\ length (List.filter is_point printed) = 288%nat)
  /\ call_H0 (outer_call short_run 2) + 2 + run_helix short_run = 0
  /\ exists printed,
       boxes short_run 42 = (printed, Fatal "Too small")
       /\ length (List.filter is_point printed) = 288%nat.
Proof.
  split; [reflexivity|]. split; [|split; [reflexivity|]].
  - assert (E : match box short_run 1 42 with
                | (p1, Ok _) => (length (List.filter is_point p1) =? 288)%nat
                | _ => false
                end = true) by (vm_compute; reflexivity).
    destruct (box short_run 1 42) as [p1 [s1| | |]]; try discriminate.
    apply Nat.eqb_eq in E. eauto.
  - assert (E : match boxes short_run 42 with
                | (p2, Fatal msg) =>
                    (length (List.filter is_point p2) =? 288)%nat
                    && String.eqb msg "Too small"
                | _ => false
                end = true) by (vm_compute; reflexivity).
    destruct (boxes short_run 42) as [p2 [| msg | |]]; try discriminate.
    apply andb_true_iff in E. destruct E as [E2 E3].
    apply Nat.eqb_eq in E2. apply String.eqb_eq in E3. subst. eauto.
Qed.

(** C9.  In test-pattern mode, on a grid with [W > 0], [nubs > 0] and
    [H >= 0], the two loops end without a fault, and for every cell (X, Y) of
    the grid such that neither [test (X, Y)] nor [test (X + 1, Y)] reports
    FLAGI, the cell has FLAGR and the cell to its right, wrapped at the seam,
    is in the grid and has FLAGL.  Nothing else is written: every byte of the
    maze is the byte before with FLAGR added exactly where the cell is the
    left one of such a pair and FLAGL added exactly where it is the right
    one. *)
Theorem test_pattern_opens (g : grid) (o : options) (m : maze_t) :
  0 < W g -> 0 < nubs g -> 0 <= H g ->
  exists m' mx,
    testmaze_pattern g o m = Ok (m', mx)
    /\ (forall X Y,
          in_grid g X Y = true -> pair_valid g m X Y = true ->
          has (cell m' X Y) FLAGR = true
          /\ in_grid g (fst (right_of g X Y)) (snd (right_of g X Y)) = true
          /\ has (cell m' (fst (right_of g X Y)) (snd (right_of g X Y))) FLAGL = true)
    /\ (forall x y,
          cell m' x y = stamp (cell m x y) (opens_right g m x y) (opens_left g m x y)).
Proof.
  intros HW Hn HH. destruct (pattern_all g HW Hn m HH) as (m' & Hm' & Hcells).
  assert (Hmx : exists mx, (if negb (flip o) || inside o
                            then let* maxx := scan_maxx g m' (S (Z.to_nat (W g))) 0 in
                                 Ok (m', maxx)
                            else Ok (m', 0)) = Ok (m', mx)).
  { destruct (negb (flip o) || inside o); [|eauto].
    destruct (scan_maxx_ok g HW Hn m' (S (Z.to_nat (W g))) 0) as [mx ->]; try lia.
    eauto. }
  destruct Hmx as [mx Hmx]. exists m', mx. unfold testmaze_pattern.
  rewrite Hm'. cbn [rbind]. split; [exact Hmx|]. split; [|exact Hcells].
  intros X Y Hin Hpv. apply in_grid_spec in Hin as HXY.
  pose proof (right_of_in_columns g HW X Y ltac:(lia)) as Hcol.
  pose proof (left_of_right_of g X Y ltac:(lia)) as Hlr.
  assert (Hrow : 0 <= snd (right_of g X Y) < H g).
  { rewrite <- right_of_normal by lia. apply (valid_in_rows g HW Hn m).
    unfold pair_valid in Hpv. apply andb_true_iff in Hpv. apply Hpv. }
  rewrite !Hcells. split; [|split].
  - apply has_stamp. unfold opens_right. rewrite Hin, Hpv. reflexivity.
  - apply in_grid_spec. lia.
  - apply has_stamp. unfold opens_left. rewrite Hlr, Hin, Hpv.
    destruct (Z.leb_spec 0 (fst (right_of g X Y))); [|lia].
    destruct (Z.ltb_spec (fst (right_of g X Y)) (W g)); [reflexivity|lia].
Qed.

Lemma test_pattern_opens_witness :
  exists m' mx,
    testmaze_pattern sample_grid sample_options lone_cell = Ok (m', mx)
    /\ (forall X Y,
          in_grid sample_grid X Y = true -> pair_valid sample_grid lone_cell X Y = true ->
          has (cell m' X Y) FLAGR = true
          /\ in_grid sample_grid (fst (right_of sample_grid X Y))
                                 (snd (right_of sample_grid X Y)) = true
          /\ has (cell m' (fst (right_of sample_grid X Y))
                          (snd (right_of sample_grid X Y))) FLAGL = true)
    /\ (forall x y,
          cell m' x y = stamp (cell lone_cell x y) (opens_right sample_grid lone_cell x y)
                              (opens_left sample_grid lone_cell x y)).
Proof. apply (test_pattern_opens sample_grid sample_options lone_cell); cbn; lia. Defined.

(** C10.  For a slice [S] of the mesh ([0 <= S < W * 4]) whose left boundary
    is set ([s[S].l] not 0), [slice (S, s[S].l, s[S].r)] prints no face and
    leaves the whole mesh state, so the boundaries and the points of every
    slice, as it was. *)
Theorem slice_same_targets (g : grid) (k : mesh) (S : Z) (x : slice_t) :
  0 <= S < W g * 4 ->
  slices k !! Z.to_nat S = Some x ->
  sl x <> 0 ->
  slice g S (sl x) (sr x) k = ([], Ok k).
Proof.
  intros HS Hx Hl. unfold slice.
  destruct (Z.leb_spec (W g * 4) S) as [Hge|_]; [lia|].
  unfold slice_at. destruct (Z.ltb_spec S 0) as [Hneg|_]; [lia|].
  rewrite Hx. cbn [quiet ebind].
  destruct (Z.eqb_spec (sl x) 0) as [E|_]; [contradiction|].
  cbn [eret ebind]. rewrite Hx. cbn [ebind].
  rewrite !Z.eqb_refl. reflexivity.
Qed.

Lemma slice_same_targets_witness :
  slice sample_grid 0 48 (-25) started_mesh = ([], Ok started_mesh).
Proof.
  apply (slice_same_targets sample_grid started_mesh 0 (Slice 48 (-25) [0; -24; 48])).
  - cbn. lia.
  - reflexivity.
  - cbn. lia.
Defined.

(** * More of the code *)

Lemma land_1_succ (p : Z) : (Z.land (p + 1) 1 =? 0) = negb (Z.land p 1 =? 0).
Proof.
  assert (forall q, Z.land q 1 = q mod 2) as Hl
    by (intros q; apply (Z.land_ones q 1); lia).
  rewrite !Hl.
  pose proof (Z.mod_pos_bound p 2 ltac:(lia)).
  assert ((p + 1) mod 2 = (p mod 2 + 1) mod 2) as -> by (rewrite Zplus_mod_idemp_l; reflexivity).
  destruct (Z.eqb_spec (p mod 2) 0) as [->|Hne]; [reflexivity|].
  replace (p mod 2) with 1 by lia. reflexivity.
Qed.

(** Case analysis on the condition of every [if] of the goal, innermost
    first; the equations left are for [lia]. *)
Ltac if_cases :=
  repeat match goal with
         | |- context [if ?c then _ else _] =>
             lazymatch c with
             | context [if _ then _ else _] => fail
             | _ => destruct c eqn:?
             end
         end.

Lemma has_lor (a b F : Z) : has (Z.lor a b) F = has a F || has b F.
Proof.
  unfold has. rewrite Z.land_lor_distr_l.
  pose proof (Z.lor_eq_0_iff (Z.land a F) (Z.land b F)) as Hz.
  destruct (Z.eqb_spec (Z.land a F) 0), (Z.eqb_spec (Z.land b F) 0),
    (Z.eqb_spec (Z.lor (Z.land a F) (Z.land b F)) 0); cbn [negb orb];
    try reflexivity; tauto.
Qed.

Lemma for_range_empty {St : Type} (lo hi : Z) (body : Z -> St -> result St) (s : St) :
  hi <= lo -> for_range lo hi body s = Ok s.
Proof.
  intros Hle. unfold for_range. replace (Z.to_nat (hi - lo)) with O by lia. reflexivity.
Qed.

Lemma maze_or_cases (g : grid) (m : maze_t) (x y f : Z) :
  (in_grid g x y = true /\ maze_or g m x y f = Ok (<[(x, y) := Z.lor (cell m x y) f]> m))
  \/ (in_grid g x y = false /\ maze_or g m x y f = Undefined).
Proof. unfold maze_or. destruct (in_grid g x y); [left|right]; split; reflexivity. Qed.

Lemma writes_app (g : grid) (ws ws' : list (Z * Z * Z)) (m : maze_t) :
  writes g (ws ++ ws') m = let* m1 := writes g ws m in writes g ws' m1.
Proof.
  revert m. induction ws as [|[[x y] f] ws IH]; intros m; [reflexivity|].
  cbn [writes app]. destruct (maze_or g m x y f); cbn [rbind]; auto.
Qed.

Lemma writes_spec (g : grid) (ws : list (Z * Z * Z)) :
  forall m m', writes g ws m = Ok m' ->
    Forall (fun w => in_grid g (fst (fst w)) (snd (fst w)) = true) ws
    /\ forall x y, cell m' x y = Z.lor (cell m x y) (written ws x y).
Proof.
  induction ws as [|[[a b] f] ws IH]; intros m m'; cbn [writes].
  - intros [= <-]. split; [constructor|]. intros x y. cbn. symmetry. apply Z.lor_0_r.
  - destruct (maze_or_cases g m a b f) as [[Hin ->]|[_ ->]]; [|discriminate]. cbn [rbind].
    intros Hw. destruct (IH _ _ Hw) as [Hall Hcell]. split; [constructor; assumption|].
    intros x y. rewrite Hcell, cell_insert. cbn [written fold_right].
    fold (written ws x y).
    destruct (decide ((a, b) = (x, y))) as [[= <- <-]|Hne].
    + rewrite !Z.eqb_refl. cbn [andb]. symmetry. apply Z.lor_assoc.
    + rewrite (eqb_pair_false x y a b) by congruence. reflexivity.
Qed.

Lemma writes_ok (g : grid) (ws : list (Z * Z * Z)) :
  Forall (fun w => in_grid g (fst (fst w)) (snd (fst w)) = true) ws ->
  forall m, exists m', writes g ws m = Ok m'.
Proof.
  induction 1 as [|[[a b] f] ws Hin _ IH]; intros m; [eexists; reflexivity|].
  cbn [writes]. cbn [fst snd] in Hin.
  destruct (maze_or_cases g m a b f) as [[_ ->]|[E _]]; [|congruence]. apply IH.
Qed.

Lemma writes_undefined (g : grid) (ws : list (Z * Z * Z)) :
  Exists (fun w => in_grid g (fst (fst w)) (snd (fst w)) = false) ws ->
  forall m, writes g ws m = Undefined.
Proof.
  induction ws as [|[[a b] f] ws IH]; intros Hex m; [inversion Hex|].
  cbn [writes]. destruct (maze_or_cases g m a b f) as [[Hin ->]|[_ ->]]; [|reflexivity].
  cbn [rbind]. apply IH. inversion Hex as [? ? Hout|]; [|assumption].
  cbn [fst snd] in Hout. congruence.
Qed.

Lemma has_written (ws : list (Z * Z * Z)) (F x y : Z) :
  has (written ws x y) F = wrote ws F x y.
Proof.
  induction ws as [|[[a b] f] ws IH]; [reflexivity|].
  cbn [written wrote fold_right existsb]. fold (written ws x y). fold (wrote ws F x y).
  destruct ((a =? x) && (b =? y)); cbn [andb orb]; [|exact IH].
  rewrite has_lor, IH. reflexivity.
Qed.

Lemma wrote_app (ws ws' : list (Z * Z * Z)) (F x y : Z) :
  wrote (ws ++ ws') F x y = wrote ws F x y || wrote ws' F x y.
Proof. apply existsb_app. Qed.

Lemma writes_has (g : grid) (ws : list (Z * Z * Z)) (m m' : maze_t) (F x y : Z) :
  writes g ws m = Ok m' ->
  has (cell m' x y) F = has (cell m x y) F || wrote ws F x y.
Proof.
  intros Hw. destruct (writes_spec g ws m m' Hw) as [_ Hcell].
  rewrite Hcell, has_lor, has_written. reflexivity.
Qed.

Lemma writes_paired (g : grid) (ws : list (Z * Z * Z)) (m m' : maze_t) :
  paired g m -> writes g ws m = Ok m' -> paired_writes g ws -> paired g m'.
Proof.
  intros Hp Hw Hws x y Hx. destruct (Hp x y Hx) as [Hr Hu]. destruct (Hws x y Hx) as [Hr' Hu'].
  rewrite !(writes_has g ws m m' _ _ _ Hw). split.
  - rewrite Hr, Hr'. reflexivity.
  - intros H0 H1. rewrite Hu, Hu' by assumption. reflexivity.
Qed.

Lemma has_FLAGI_land (c : Z) : has c FLAGI = false <-> Z.land c FLAGI = 0.
Proof.
  unfold has. destruct (Z.eqb_spec (Z.land c FLAGI) 0); cbn; split; congruence.
Qed.

Lemma writes_same_FLAGI (g : grid) (ws : list (Z * Z * Z)) (m m' : maze_t) :
  writes g ws m = Ok m' ->
  (forall x y, wrote ws FLAGI x y = false) ->
  same_FLAGI m m'.
Proof.
  intros Hw Hno x y. destruct (writes_spec g ws m m' Hw) as [_ Hcell].
  rewrite Hcell, Z.land_lor_distr_l.
  pose proof (has_written ws FLAGI x y) as Hh. rewrite Hno in Hh.
  apply has_FLAGI_land in Hh. rewrite Hh. apply Z.lor_0_r.
Qed.

Lemma writes_grown (g : grid) (ws : list (Z * Z * Z)) (m m' : maze_t) :
  writes g ws m = Ok m' -> grown m m'.
Proof.
  intros Hw x y. destruct (writes_spec g ws m m' Hw) as [_ Hcell].
  exists (written ws x y). apply Hcell.
Qed.

(** *** The park point as a run of writes *)

Lemma park_loop (g : grid) :
  forall (cnt : nat) (i : Z) (m : maze_t) (X Y : Z),
    for_loop cnt i
      (fun N '(m, _, _) =>
         let* m := maze_or g m 0 N (FLAGU + FLAGD) in
         let* m := maze_or g m 0 (N + 1) FLAGD in
         Ok (m, 0, N + 1)) (m, X, Y)
    = let* m' := writes g (flat_map (fun N => [(0, N, FLAGU + FLAGD); (0, N + 1, FLAGD)])
                             (seqZ i (Z.of_nat cnt))) m in
      Ok (m', match cnt with O => X | S _ => 0 end,
              match cnt with O => Y | S _ => i + Z.of_nat cnt end).
Proof.
  induction cnt as [|cnt IH]; intros i m X Y; [reflexivity|].
  rewrite seqZ_cons by lia. cbn [flat_map app writes for_loop].
  destruct (maze_or g m 0 i (FLAGU + FLAGD)) as [m1| | |]; cbn [rbind]; try reflexivity.
  destruct (maze_or g m1 0 (i + 1) FLAGD) as [m2| | |]; cbn [rbind]; try reflexivity.
  rewrite IH. replace (Z.pred (Z.of_nat (S cnt))) with (Z.of_nat cnt) by lia.
  replace (Z.succ i) with (i + 1) by lia.
  destruct (writes g _ m2) as [m3| | |]; cbn [rbind]; try reflexivity.
  destruct cnt; (f_equal; f_equal; lia).
Qed.

Lemma park_point_writes (g : grid) (o : options) (m : maze_t) :
  0 <= helix g ->
  park_point g o m
  = let* m' := writes g (park_writes g o) m in
    Ok (m', fst (park_cell g o), snd (park_cell g o)).
Proof.
  intros Hh. unfold park_point, park_writes, park_cell, park_A.
  destruct (parkvertical o).
  - unfold for_range. rewrite park_loop, writes_app.
    replace (Z.of_nat (Z.to_nat (helix g + 2 - 0))) with (helix g + 2) by lia.
    destruct (writes g _ m) as [m1| | |]; cbn [rbind]; try reflexivity.
    destruct (Z.to_nat (helix g + 2 - 0)) as [|n] eqn:En; [lia|].
    rewrite Z.add_0_l.
    destruct (negb (inside o) && negb (noa o)
              && ((2 <? Z.quot (W g) (nubs g)) && (helix g + 4 <? H g))) eqn:EA.
    + replace (negb (inside o) && negb (noa o) && (2 <? Z.quot (W g) (nubs g))
               && (helix g + 4 <? H g)) with true
        by (rewrite <- EA; destruct (inside o), (noa o), (2 <? _); reflexivity).
      cbn [writes fst snd]. cbv zeta.
      repeat (match goal with
              | |- context [maze_or g ?a ?x ?y ?f] =>
                  destruct (maze_or g a x y f); cbn [rbind]; try reflexivity
              end).
      apply f_equal, f_equal2; [apply f_equal2; [reflexivity|lia]|lia].
    + replace (negb (inside o) && negb (noa o) && (2 <? Z.quot (W g) (nubs g))
               && (helix g + 4 <? H g)) with false
        by (rewrite <- EA; destruct (inside o), (noa o), (2 <? _); reflexivity).
      reflexivity.
  - cbv zeta. cbn [app writes].
    destruct (maze_or g m 0 (helix g + 1) FLAGR) as [m1| | |]; cbn [rbind]; try reflexivity.
    destruct (maze_or g m1 1 (helix g + 1) FLAGL) as [m2| | |]; cbn [rbind]; try reflexivity.
    destruct (negb (inside o) && negb (noa o)
              && ((3 <? Z.quot (W g) (nubs g)) && (helix g + 3 <? H g))) eqn:EA.
    + replace (negb (inside o) && negb (noa o) && (3 <? Z.quot (W g) (nubs g))
               && (helix g + 3 <? H g)) with true
        by (rewrite <- EA; destruct (inside o), (noa o), (3 <? _); reflexivity).
      cbn [writes fst snd].
      repeat (match goal with
              | |- context [maze_or g ?a ?x ?y ?f] =>
                  destruct (maze_or g a x y f); cbn [rbind]; try reflexivity
              end).
      apply f_equal, f_equal2; [apply f_equal2; [reflexivity|lia]|lia].
    + replace (negb (inside o) && negb (noa o) && (3 <? Z.quot (W g) (nubs g))
               && (helix g + 3 <? H g)) with false
        by (rewrite <- EA; destruct (inside o), (noa o), (3 <? _); reflexivity).
      reflexivity.
Qed.

(** The value of [has] on constant flags. *)
Ltac eval_has :=
  repeat match goal with
         | |- context [has ?v ?f] =>
             let b := eval vm_compute in (has v f) in change (has v f) with b
         end.

Lemma wrote_park_loop (F x y n : Z) :
  0 <= n ->
  wrote (flat_map (fun N => [(0, N, FLAGU + FLAGD); (0, N + 1, FLAGD)]) (seqZ 0 n)) F x y
  = (x =? 0) && ((0 <=? y) && (y <? n) && has (FLAGU + FLAGD) F
                 || (1 <=? y) && (y <? n + 1) && has FLAGD F).
Proof.
  intros Hn. apply eq_true_iff_eq. unfold wrote. rewrite existsb_exists. split.
  - intros ([[a b] f] & Hin & Hp). apply in_flat_map in Hin as (N & HN & Hin).
    apply list_elem_of_In, elem_of_seqZ in HN.
    destruct Hin as [[= <- <- <-]|[[= <- <- <-]|[]]];
      destruct (has _ F); lia.
  - intros Hp.
    destruct (Z.eqb_spec x 0) as [->|]; [|discriminate]. cbn [andb] in Hp.
    apply orb_true_iff in Hp as [Hp|Hp].
    + exists (0, y, FLAGU + FLAGD). split.
      * apply in_flat_map. exists y. split; [|left; reflexivity].
        apply list_elem_of_In, elem_of_seqZ. lia.
      * rewrite !Z.eqb_refl. destruct (has _ F); [reflexivity|lia].
    + exists (0, y, FLAGD). split.
      * apply in_flat_map. exists (y - 1). split.
        -- apply list_elem_of_In, elem_of_seqZ. lia.
        -- right. left. apply f_equal2; [apply f_equal2; [reflexivity|lia]|reflexivity].
      * rewrite !Z.eqb_refl. destruct (has _ F); [reflexivity|lia].
Qed.

Lemma park_writes_in_grid (g : grid) (o : options) :
  3 <= W g -> 0 <= helix g -> helix g + park_rows o < H g ->
  Forall (fun w => in_grid g (fst (fst w)) (snd (fst w)) = true) (park_writes g o)
  /\ in_grid g (fst (park_cell g o)) (snd (park_cell g o)) = true.
Proof.
  intros HW Hh HH. unfold park_writes, park_cell, park_A, park_rows in *.
  destruct (parkvertical o).
  - assert (Hloop : Forall (fun w => in_grid g (fst (fst w)) (snd (fst w)) = true)
                      (flat_map (fun N => [(0, N, FLAGU + FLAGD); (0, N + 1, FLAGD)])
                         (seqZ 0 (helix g + 2)))).
    { apply Forall_forall. intros w Hin. apply list_elem_of_In in Hin.
      apply in_flat_map in Hin as (N & HN & Hin).
      apply list_elem_of_In, elem_of_seqZ in HN.
      destruct Hin as [<-|[<-|[]]]; cbn [fst snd]; apply in_grid_spec; lia. }
    destruct (negb (inside o) && negb (noa o)); cbn [andb];
      [|split; [rewrite app_nil_r; exact Hloop|apply in_grid_spec; cbn; lia]].
    destruct (Z.ltb_spec 2 (Z.quot (W g) (nubs g))) as [HA|HA]; cbn [andb];
      [|split; [rewrite app_nil_r; exact Hloop|apply in_grid_spec; cbn; lia]].
    destruct (Z.ltb_spec (helix g + 4) (H g)) as [HB|HB];
      [|split; [rewrite app_nil_r; exact Hloop|apply in_grid_spec; cbn; lia]].
    split; [|apply in_grid_spec; cbn; lia].
    apply Forall_app. split; [exact Hloop|].
    repeat (apply Forall_cons; split; [cbn [fst snd]; apply in_grid_spec; lia|]).
    constructor.
  - destruct (negb (inside o) && negb (noa o)
              && ((3 <? Z.quot (W g) (nubs g)) && (helix g + 3 <? H g))) eqn:EA.
    + assert (HB : helix g + 3 < H g).
      { apply andb_true_iff in EA as [_ EA]. apply andb_true_iff in EA as [_ EA]. lia. }
      split; [|apply in_grid_spec; cbn; lia].
      cbv zeta. cbn [app].
      repeat (apply Forall_cons; split; [cbn [fst snd]; apply in_grid_spec; lia|]).
      constructor.
    + split; [|apply in_grid_spec; cbn; lia].
      cbv zeta. cbn [app].
      repeat (apply Forall_cons; split; [cbn [fst snd]; apply in_grid_spec; lia|]).
      constructor.
Qed.

Lemma park_writes_no_FLAGI (g : grid) (o : options) (x y : Z) :
  0 <= helix g -> wrote (park_writes g o) FLAGI x y = false.
Proof.
  intros Hh. unfold park_writes. destruct (parkvertical o).
  - rewrite wrote_app, wrote_park_loop by lia. eval_has.
    destruct (park_A g o); cbv zeta; cbn [wrote existsb]; eval_has;
      rewrite ?andb_false_r; reflexivity.
  - cbv zeta. rewrite wrote_app.
    destruct (park_A g o); cbn [wrote existsb]; eval_has;
      rewrite ?andb_false_r; reflexivity.
Qed.

Lemma park_writes_paired (g : grid) (o : options) :
  3 <= W g -> 0 <= helix g -> paired_writes g (park_writes g o).
Proof.
  intros HW Hh x y Hx. unfold park_writes, right_of.
  destruct (parkvertical o).
  - rewrite !wrote_app, !wrote_park_loop by lia. eval_has.
    destruct (park_A g o); cbv zeta; cbn [wrote existsb]; eval_has;
      destruct (Z.leb_spec (W g) (x + 1)); cbn [fst snd]; split; intros; lia.
  - cbv zeta. rewrite !wrote_app.
    destruct (park_A g o); cbn [wrote existsb]; eval_has;
      destruct (Z.leb_spec (W g) (x + 1)); cbn [fst snd]; split; intros; lia.
Qed.

(** *** Loops that keep a property *)

Lemma for_loop_preserves {St : Type} (P : St -> Prop) (body : Z -> St -> result St) :
  (forall j t t', P t -> body j t = Ok t' -> P t') ->
  forall (cnt : nat) (i : Z) (s s' : St),
    P s -> for_loop cnt i body s = Ok s' -> P s'.
Proof.
  intros Hbody. induction cnt as [|cnt IH]; intros i s s' Hs; cbn [for_loop].
  - intros [= <-]. exact Hs.
  - destruct (body i s) as [t| | |] eqn:Et; cbn [rbind]; try discriminate.
    apply IH. apply (Hbody i s t Hs Et).
Qed.

Lemma for_range_preserves {St : Type} (P : St -> Prop) (body : Z -> St -> result St)
    (lo hi : Z) (s s' : St) :
  (forall j t t', P t -> body j t = Ok t' -> P t') ->
  P s -> for_range lo hi body s = Ok s' -> P s'.
Proof. intros Hbody. apply for_loop_preserves, Hbody. Qed.

(** *** Clear too high/low *)

Lemma clear_row (g : grid) (o : options) (m mc : maze_t) (Y : Z) :
  0 <= Y < H g ->
  cleared_upto g o m 0 Y mc ->
  exists m', for_range 0 (W g) (fun X m =>
               if too_high_low o X Y then maze_or g m X Y FLAGI else Ok m) mc = Ok m'
             /\ cleared_upto g o m 0 (Y + 1) m'.
Proof.
  intros HY Hinv. destruct (Z.le_gt_cases (W g) 0) as [HW|HW].
  - rewrite for_range_empty by exact HW. exists mc. split; [reflexivity|].
    intros x y. rewrite Hinv. destruct (in_grid g x y) eqn:Hin; [|reflexivity].
    apply in_grid_spec in Hin. lia.
  - destruct (for_range_invariant (fun X mc => cleared_upto g o m X Y mc)
                (fun X m => if too_high_low o X Y then maze_or g m X Y FLAGI else Ok m)
                0 (W g) mc) as (m' & Hm' & Hend).
    + lia.
    + exact Hinv.
    + intros X t HX Ht.
      assert (Hin : in_grid g X Y = true) by (apply in_grid_spec; lia).
      destruct (too_high_low o X Y) eqn:Eb.
      * unfold maze_or. rewrite Hin. eexists. split; [reflexivity|].
        intros x y. rewrite cell_insert, earlier_step.
        destruct (decide ((X, Y) = (x, y))) as [[= <- <-]|Hne].
        -- rewrite Hin, Eb, !Z.eqb_refl, orb_true_r, Ht, Hin, Eb. cbn [andb].
           assert (earlier X Y X Y = false) as -> by (unfold earlier; lia). reflexivity.
        -- rewrite (eqb_pair_false _ _ _ _ Hne), orb_false_r. apply Ht.
      * exists t. split; [reflexivity|]. intros x y. rewrite earlier_step, Ht.
        destruct (Z.eqb_spec x X) as [->|]; [|rewrite orb_false_r; reflexivity].
        destruct (Z.eqb_spec y Y) as [->|]; [|rewrite orb_false_r; reflexivity].
        rewrite Eb, !andb_false_r. reflexivity.
    + exists m'. split; [exact Hm'|]. intros x y. rewrite Hend.
      destruct (in_grid g x y) eqn:Hin; [|reflexivity].
      apply in_grid_spec in Hin. rewrite (earlier_row_end g) by lia. reflexivity.
Qed.

Lemma clear_high_low_spec (g : grid) (o : options) (m : maze_t) :
  exists m',
    clear_high_low g o m = Ok m'
    /\ forall x y,
         cell m' x y = if in_grid g x y && too_high_low o x y
                       then Z.lor (cell m x y) FLAGI else cell m x y.
Proof.
  unfold clear_high_low. destruct (Z.le_gt_cases (H g) 0) as [HH|HH].
  - rewrite for_range_empty by exact HH. exists m. split; [reflexivity|].
    intros x y. destruct (in_grid g x y) eqn:Hin; [|reflexivity].
    apply in_grid_spec in Hin. lia.
  - destruct (for_range_invariant (fun Y mc => cleared_upto g o m 0 Y mc)
                (fun Y m => for_range 0 (W g) (fun X m =>
                   if too_high_low o X Y then maze_or g m X Y FLAGI else Ok m) m)
                0 (H g) m) as (m' & Hm' & Hend).
    + lia.
    + intros x y. destruct (in_grid g x y) eqn:Hin; [|reflexivity].
      apply in_grid_spec in Hin.
      assert (earlier x y 0 0 = false) as -> by (unfold earlier; lia). reflexivity.
    + intros Y t HY Ht. apply clear_row; assumption.
    + exists m'. split; [exact Hm'|]. intros x y. rewrite Hend.
      destruct (in_grid g x y) eqn:Hin; [|reflexivity].
      apply in_grid_spec in Hin.
      assert (earlier x y 0 (H g) = true) as -> by (unfold earlier; lia). reflexivity.
Qed.

(** *** The moves of the walk as writes *)

Lemma move_writes_spec (g : grid) (m : maze_t) (d : dir) (X Y : Z) :
  move g m d X Y
  = let* m' := writes g (fst (move_writes g d X Y)) m in
    Ok (m', fst (snd (move_writes g d X Y)), snd (snd (move_writes g d X Y))).
Proof.
  destruct d; unfold move, move_writes; cbv zeta; cbn [fst snd writes].
  - destruct (maze_or g m X Y FLAGR) as [m1| | |]; cbn [rbind]; try reflexivity.
    destruct (W g <=? X + 1); cbn [fst snd];
      destruct (maze_or g m1 _ _ FLAGL); reflexivity.
  - destruct (maze_or g m X Y FLAGL) as [m1| | |]; cbn [rbind]; try reflexivity.
    destruct (X - 1 <? 0); cbn [fst snd];
      destruct (maze_or g m1 _ _ FLAGR); reflexivity.
  - destruct (maze_or g m X Y FLAGD) as [m1| | |]; cbn [rbind]; try reflexivity.
    destruct (maze_or g m1 _ _ FLAGU); reflexivity.
  - destruct (maze_or g m X Y FLAGU) as [m1| | |]; cbn [rbind]; try reflexivity.
    destruct (maze_or g m1 _ _ FLAGD); reflexivity.
Qed.

Lemma move_writes_paired (g : grid) (d : dir) (X Y : Z) :
  Forall (fun w => in_grid g (fst (fst w)) (snd (fst w)) = true) (fst (move_writes g d X Y)) ->
  paired_writes g (fst (move_writes g d X Y)).
Proof.
  intros Hall x y Hx. unfold right_of.
  destruct d; unfold move_writes in *; cbv zeta in *; cbn [fst snd] in *;
    apply Forall_cons in Hall as [H1 Hall]; apply Forall_cons in Hall as [H2 _];
    cbn [fst snd] in H1, H2; apply in_grid_spec in H1, H2;
    cbn [wrote existsb]; eval_has.
  - destruct (Z.leb_spec (W g) (X + 1)), (Z.leb_spec (W g) (x + 1));
      cbn [fst snd] in *; split; intros; lia.
  - destruct (Z.ltb_spec (X - 1) 0), (Z.leb_spec (W g) (x + 1));
      cbn [fst snd] in *; split; intros; lia.
  - destruct (Z.leb_spec (W g) (x + 1)); cbn [fst snd]; split; intros; lia.
  - destruct (Z.leb_spec (W g) (x + 1)); cbn [fst snd]; split; intros; lia.
Qed.

Lemma move_paired (g : grid) (m m' : maze_t) (d : dir) (X Y X' Y' : Z) :
  paired g m -> move g m d X Y = Ok (m', X', Y') -> paired g m'.
Proof.
  intros Hp. rewrite move_writes_spec.
  destruct (writes g _ m) as [m1| | |] eqn:Hw; cbn [rbind]; try discriminate.
  intros [= <- _ _]. apply (writes_paired g _ m m1 Hp Hw).
  apply move_writes_paired. apply (writes_spec g _ m m1 Hw).
Qed.

Lemma expand_paired (g : grid) (o : options) (s s' : walk) (nd : option pos_t) :
  paired g (maze s) -> expand g o s = Ok (s', nd) -> paired g (maze s').
Proof.
  intros Hp. unfold expand. destruct (queue s) as [|p pos]; [intros [= <- _]; exact Hp|].
  destruct (ways g (maze s) (px p) (py p)) as [n| | |]; cbn [rbind]; try discriminate.
  destruct (n =? 0); [intros [= <- _]; exact Hp|].
  destruct (random_int n (rng s)) as [v rng1].
  destruct (choose g (maze s) (px p) (py p) v) as [[d|]| | |]; cbn [rbind]; try discriminate.
  destruct (move g (maze s) d (px p) (py p)) as [[[m X] Y]| | |] eqn:Hm;
    cbn [rbind]; try discriminate.
  destruct (reaches_top g o m (pn p) (max s) X Y) as [b| | |]; cbn [rbind]; try discriminate.
  destruct (if b then _ else _) as [mx mxx]. destruct (random_int 10 rng1) as [v' rng2].
  intros [= <- _]. cbn [maze]. apply (move_paired g _ _ _ _ _ _ _ Hp Hm).
Qed.

Lemma run_paired (g : grid) (o : options) :
  forall (fuel : nat) (s s' : walk) (nds : list pos_t),
    paired g (maze s) -> run g o fuel s = Ok (s', nds) -> paired g (maze s').
Proof.
  induction fuel as [|fuel IH]; intros s s' nds Hp; cbn [run]; [discriminate|].
  destruct (queue s) as [|p pos] eqn:Hq; [intros [= <- _]; exact Hp|].
  destruct (expand g o s) as [[s1 nd]| | |] eqn:He; cbn [rbind]; try discriminate.
  destruct (run g o fuel s1) as [[s2 nds2]| | |] eqn:Hr; cbn [rbind]; try discriminate.
  intros [= <- _]. apply (IH s1 s2 nds2); [|exact Hr].
  apply (expand_paired g o s s1 nd Hp He).
Qed.

Lemma testmaze_cell_writes (g : grid) (X Y : Z) (m m' : maze_t) :
  testmaze_cell g X Y m = Ok m' ->
  m' = m
  \/ writes g [(X, Y, FLAGR); (fst (right_of g X Y), snd (right_of g X Y), FLAGL)] m = Ok m'.
Proof.
  unfold testmaze_cell.
  destruct (test g m X Y) as [t| | |]; cbn [rbind]; try discriminate.
  destruct (Z.land t FLAGI =? 0); [|intros [= <-]; left; reflexivity].
  destruct (test g m (X + 1) Y) as [t'| | |]; cbn [rbind]; try discriminate.
  destruct (Z.land t' FLAGI =? 0); [|intros [= <-]; left; reflexivity].
  intros Hw. right. cbn [writes]. unfold right_of.
  destruct (maze_or g m X Y FLAGR) as [m1| | |]; cbn [rbind] in *; try discriminate.
  destruct (W g <=? X + 1); cbn [fst snd];
    destruct (maze_or g m1 _ _ FLAGL); cbn [rbind]; congruence.
Qed.

Lemma testmaze_cell_paired (g : grid) (X Y : Z) (m m' : maze_t) :
  paired g m -> testmaze_cell g X Y m = Ok m' -> paired g m'.
Proof.
  intros Hp Ht. destruct (testmaze_cell_writes g X Y m m' Ht) as [->|Hw]; [exact Hp|].
  apply (writes_paired g _ m m' Hp Hw).
  apply (move_writes_paired g Right X Y). apply (writes_spec g _ m m' Hw).
Qed.

Lemma testmaze_pattern_paired (g : grid) (o : options) (m m' : maze_t) (mx : Z) :
  paired g m -> testmaze_pattern g o m = Ok (m', mx) -> paired g m'.
Proof.
  intros Hp. unfold testmaze_pattern.
  destruct (for_range 0 (H g) _ m) as [m1| | |] eqn:Hloop; cbn [rbind]; try discriminate.
  assert (Hp1 : paired g m1).
  { revert Hloop. apply for_range_preserves; [|exact Hp].
    intros Y t t' Ht. apply for_range_preserves; [|exact Ht].
    intros X u u'. apply testmaze_cell_paired. }
  destruct (negb (flip o) || inside o).
  - destruct (scan_maxx g m1 _ 0); cbn [rbind]; try discriminate. intros [= <- _]. exact Hp1.
  - intros [= <- _]. exact Hp1.
Qed.

Lemma enqueue_elements (o : options) (v : Z) (p next x : pos_t) (pos : list pos_t) :
  In x (enqueue o v p next pos) <-> x = p \/ x = next \/ In x pos.
Proof.
  unfold enqueue. destruct (next_at_start o v), (current_at_start o v);
    cbn [In]; rewrite ?in_app_iff; cbn [In]; rewrite ?in_app_iff; cbn [In];
    intuition congruence.
Qed.

Section Walk.

Context (g : grid) (HW : 0 < W g) (Hn : 0 < nubs g).

Lemma grown_group_flags (m m' : maze_t) (x y : Z) :
  grown m m' -> group_flags g m x y <> 0 -> group_flags g m' x y <> 0.
Proof.
  intros Hg Hne Hz.
  pose proof (grown_untouched g m m' (x, y) Hg) as Hu.
  unfold untouched in Hu. cbn [fst snd] in Hu. rewrite Hz in Hu.
  specialize (Hu eq_refl). apply Z.eqb_eq in Hu. contradiction.
Qed.

Lemma ways_zero (m : maze_t) (X Y : Z) :
  ways g m X Y = Ok 0 <->
  forall d, group_flags g m (fst (ahead d X Y)) (snd (ahead d X Y)) <> 0.
Proof.
  pose proof (closed_spec g HW Hn m Right X Y) as Hr.
  pose proof (closed_spec g HW Hn m Left X Y) as Hl.
  pose proof (closed_spec g HW Hn m Down X Y) as Hd.
  pose proof (closed_spec g HW Hn m Up X Y) as Hu.
  rewrite (ways_spec g m X Y _ _ _ _ Hr Hl Hd Hu).
  clear Hr Hl Hd Hu.
  set (r := group_flags g m (fst (ahead Right X Y)) (snd (ahead Right X Y))).
  set (l := group_flags g m (fst (ahead Left X Y)) (snd (ahead Left X Y))).
  set (d := group_flags g m (fst (ahead Down X Y)) (snd (ahead Down X Y))).
  set (u := group_flags g m (fst (ahead Up X Y)) (snd (ahead Up X Y))).
  unfold weight, bias, BIASR, BIASL, BIASD, BIASU. split.
  - intros [= Hs] way.
    destruct (Z.eqb_spec r 0), (Z.eqb_spec l 0), (Z.eqb_spec d 0), (Z.eqb_spec u 0);
      try lia. destruct way; assumption.
  - intros Hall.
    pose proof (Hall Right). pose proof (Hall Left). pose proof (Hall Down).
    pose proof (Hall Up).
    destruct (Z.eqb_spec r 0), (Z.eqb_spec l 0), (Z.eqb_spec d 0), (Z.eqb_spec u 0);
      try contradiction. reflexivity.
Qed.

Lemma stuck_grown (m m' : maze_t) (nd : pos_t) :
  grown m m' -> stuck g m nd -> stuck g m' nd.
Proof.
  unfold stuck. rewrite !ways_zero. intros Hg Hall d.
  apply (grown_group_flags m m'); [exact Hg|apply Hall].
Qed.

(** What a round does, from a head node in the grid. *)
Lemma expand_step (o : options) (s : walk) (p : pos_t) (pos : list pos_t) :
  queue s = p :: pos -> in_grid g (px p) (py p) = true ->
  (stuck g (maze s) p
   /\ expand g o s = Ok (Walk (maze s) pos (rng s) (max s) (maxx s), None))
  \/ (exists s' next v,
        expand g o s = Ok (s', Some next)
        /\ child_of g p next
        /\ in_grid g (px next) (py next) = true
        /\ grown (maze s) (maze s')
        /\ untouched g (maze s) (cell_of next) = true
        /\ untouched g (maze s') (cell_of next) = false
        /\ queue s' = enqueue o v p next pos).
Proof.
  intros Eq Hp.
  pose proof (closed_spec g HW Hn (maze s) Right (px p) (py p)) as Hr.
  pose proof (closed_spec g HW Hn (maze s) Left (px p) (py p)) as Hl.
  pose proof (closed_spec g HW Hn (maze s) Down (px p) (py p)) as Hd.
  pose proof (closed_spec g HW Hn (maze s) Up (px p) (py p)) as Hu.
  set (r := _ =? 0) in Hr. set (l := _ =? 0) in Hl.
  set (d := _ =? 0) in Hd. set (u := _ =? 0) in Hu.
  pose proof (ways_spec g _ _ _ _ _ _ _ Hr Hl Hd Hu) as Hways.
  set (n := weight r Right + weight l Left + weight d Down + weight u Up) in *.
  assert (Hn0 : 0 <= n) by (unfold n, weight; destruct r, l, d, u; cbv; discriminate).
  unfold expand, stuck. rewrite Eq, Hways. cbn [rbind].
  destruct (Z.eqb_spec n 0) as [E|E].
  - left. rewrite E. split; reflexivity.
  - right.
    destruct (pick_available r l d u (fst (random_int n (rng s)))) as (way & Hpick & Ha).
    { apply random_int_range. lia. }
    assert (Hclosed : closed g (maze s) way (px p) (py p) = Ok true)
      by (destruct way; congruence).
    destruct (random_int n (rng s)) as [v rng1]. cbn [fst] in Hpick.
    rewrite (choose_spec g _ _ _ _ _ _ _ _ Hr Hl Hd Hu), Hpick. cbn [rbind].
    destruct (move_ok g HW Hn (maze s) way (px p) (py p) Hp Hclosed)
      as (m' & X' & Y' & Hmove & Hin' & Hg & Hbefore & Hafter).
    assert (Hcell : (X', Y') = normal g (fst (ahead way (px p) (py p)))
                                        (snd (ahead way (px p) (py p)))).
    { apply in_grid_spec in Hp. rewrite move_writes_spec in Hmove.
      destruct (writes g _ (maze s)) as [m1| | |]; cbn [rbind] in Hmove; try discriminate.
      injection Hmove as _ <- <-.
      destruct way; unfold move_writes; cbv zeta; cbn [fst snd ahead].
      - rewrite (right_of_normal g HW) by lia. unfold right_of.
        destruct (W g <=? px p + 1); reflexivity.
      - rewrite (left_normal g HW) by lia. destruct (px p - 1 <? 0); reflexivity.
      - rewrite (normal_id g) by lia. reflexivity.
      - rewrite (normal_id g) by lia. reflexivity. }
    rewrite Hmove. cbn [rbind].
    destruct (reaches_top_ok g HW Hn o m' (pn p) (max s) X' Y') as [b ->]. cbn [rbind].
    destruct (if b then _ else _) as [mx mxx].
    destruct (random_int 10 rng1) as [v' rng2].
    eexists _, _, v'. split; [reflexivity|]. cbn [queue maze px py pn cell_of].
    split; [split; [reflexivity|exists way; exact Hcell]|].
    repeat split; assumption.
Qed.

(** From a queue of cells of the grid, a walk that ends has only entered
    cells that were untouched and has left no node with a way to go. *)
Lemma run_walk (o : options) :
  forall (fuel : nat) (s s' : walk) (nds : list pos_t),
    queue_in_grid g (queue s) ->
    run g o fuel s = Ok (s', nds) ->
    grown (maze s) (maze s')
    /\ Forall (fun nd => in_grid g (px nd) (py nd) = true
                         /\ untouched g (maze s) (cell_of nd) = true
                         /\ untouched g (maze s') (cell_of nd) = false) nds
    /\ NoDup (cell_of <$> nds)
    /\ (forall nd, In nd (queue s ++ nds) -> stuck g (maze s') nd)
    /\ (forall nd, In nd nds -> exists par, In par (queue s ++ nds) /\ child_of g par nd).
Proof.
  induction fuel as [|fuel IH]; intros s s' nds Hq; cbn [run]; [discriminate|].
  destruct (queue s) as [|p pos] eqn:Eq.
  { intros [= <- <-]. split; [apply grown_refl|]. split; [constructor|].
    split; [constructor|]. split; intros nd []. }
  pose proof Hq as Hq'. apply Forall_cons_1 in Hq' as [Hp Hpos].
  destruct (expand_step o s p pos Eq Hp)
    as [[Hstuck ->]|(s1 & next & v & -> & Hchild & Hin & Hg & Hbefore & Hafter & Hq1)];
    cbn [rbind].
  - destruct (run g o fuel _) as [[s2 nds2]| | |] eqn:Hr; cbn [rbind]; try discriminate.
    intros [= <- <-].
    destruct (IH (Walk (maze s) pos (rng s) (max s) (maxx s)) _ _ Hpos Hr)
      as (Hg2 & Hall & Hnd & Hst & Hpar). cbn [maze queue] in *.
    split; [exact Hg2|]. split; [exact Hall|]. split; [exact Hnd|]. split.
    + intros nd [<-|Hnd']; [apply (stuck_grown (maze s)); assumption|apply Hst, Hnd'].
    + intros nd Hnd'. destruct (Hpar nd Hnd') as (par & Hin & Hc).
      exists par. split; [right; exact Hin|exact Hc].
  - destruct (run g o fuel s1) as [[s2 nds2]| | |] eqn:Hr; cbn [rbind]; try discriminate.
    intros [= <- <-].
    assert (Hq1' : queue_in_grid g (queue s1)).
    { rewrite Hq1. apply enqueue_in_grid; assumption. }
    destruct (IH _ _ _ Hq1' Hr) as (Hg2 & Hall & Hnd & Hst & Hpar).
    assert (Hsub : forall x, In x ((p :: pos) ++ next :: nds2) -> In x (queue s1 ++ nds2)).
    { intros x Hx. rewrite Hq1. apply in_app_iff.
      rewrite enqueue_elements. cbn [app In] in Hx. rewrite in_app_iff in Hx. cbn [In] in Hx.
      intuition. }
    assert (Hsup : forall x, In x (queue s1 ++ nds2) -> In x ((p :: pos) ++ next :: nds2)).
    { intros x Hx. rewrite Hq1 in Hx. apply in_app_iff in Hx.
      rewrite enqueue_elements in Hx. cbn [app In]. rewrite in_app_iff. cbn [In].
      intuition. }
    split; [apply (grown_trans _ (maze s1)); assumption|]. split; [|split; [|split]].
    + constructor.
      * split; [exact Hin|]. split; [exact Hbefore|].
        destruct (untouched g (maze s2) (cell_of next)) eqn:Eu; [|reflexivity].
        rewrite (grown_untouched g (maze s1) (maze s2) _ Hg2 Eu) in Hafter.
        discriminate.
      * eapply Forall_impl; [exact Hall|]. intros nd (H1 & H2 & H3).
        split; [exact H1|]. split; [|exact H3].
        apply (grown_untouched g (maze s) (maze s1) _ Hg H2).
    + rewrite fmap_cons. apply NoDup_cons. split; [|exact Hnd].
      intros Hmem. apply list_elem_of_fmap in Hmem as (nd & Hc & Hmem).
      rewrite Forall_forall in Hall. destruct (Hall nd Hmem) as (_ & Hu & _).
      rewrite <- Hc in Hu. congruence.
    + intros nd Hnd'. apply Hst, Hsub, Hnd'.
    + intros nd [<-|Hnd'].
      * exists p. split; [left; reflexivity|exact Hchild].
      * destruct (Hpar nd Hnd') as (par & Hin' & Hc).
        exists par. split; [apply Hsup, Hin'|exact Hc].
Qed.

End Walk.

Lemma has_land (c F : Z) : has c F = false <-> Z.land c F = 0.
Proof. unfold has. destruct (Z.eqb_spec (Z.land c F) 0); cbn; split; congruence. Qed.

Lemma carve_down_spec (g : grid) (X : Z) (m : maze_t) :
  0 <= X < W g ->
  forall (fuel : nat) (Y : Z) (mc : maze_t),
    0 <= Y < H g -> (Z.to_nat Y < fuel)%nat ->
    (forall y, y <= Y -> cell mc X y = cell m X y) ->
    exists m' Y0,
      carve_down g fuel X Y mc = Ok (m', Y0)
      /\ 0 <= Y0 <= Y
      /\ (Y0 = 0 \/ has (cell m X Y0) FLAGI = false)
      /\ (forall y, Y0 < y <= Y ->
            has (cell m X y) FLAGI = true
            /\ cell m' X y = Z.lor (cell m X y) (FLAGU + FLAGD))
      /\ (forall x y, ~ (x = X /\ Y0 < y <= Y) -> cell m' x y = cell mc x y).
Proof.
  intros HX. induction fuel as [|fuel IH]; intros Y mc HY Hf Hsame; [lia|].
  cbn [carve_down]. destruct (Z.eqb_spec Y 0) as [->|HY0].
  { exists mc, 0. split; [reflexivity|]. split; [lia|]. split; [left; reflexivity|].
    split; [intros y Hy; lia|]. intros x y _. reflexivity. }
  assert (Hin : in_grid g X Y = true) by (apply in_grid_spec; lia).
  unfold maze_get, maze_or. rewrite Hin. cbn [rbind].
  destruct (Z.eqb_spec (Z.land (cell mc X Y) FLAGI) 0) as [Hz|Hnz].
  { exists mc, Y. split; [reflexivity|]. split; [lia|]. split.
    - right. apply has_land. rewrite <- Hsame by lia. exact Hz.
    - split; [intros y Hy; lia|]. intros x y _. reflexivity. }
  destruct (IH (Y - 1) (<[(X, Y) := Z.lor (cell mc X Y) (FLAGU + FLAGD)]> mc))
    as (m' & Y0 & Hc & HY0' & Hstop & Habove & Hrest).
  - lia.
  - lia.
  - intros y Hy. rewrite cell_insert.
    destruct (decide ((X, Y) = (X, y))) as [[= E]|_]; [lia|]. apply Hsame. lia.
  - exists m', Y0. split; [exact Hc|]. split; [lia|]. split; [exact Hstop|]. split.
    + intros y Hy. destruct (Z.eq_dec y Y) as [->|Hne]; [|apply Habove; lia].
      split.
      * rewrite <- Hsame by lia. unfold has.
        destruct (Z.eqb_spec (Z.land (cell mc X Y) FLAGI) 0); [contradiction|reflexivity].
      * rewrite Hrest by lia. rewrite cell_insert.
        destruct (decide ((X, Y) = (X, Y))); [|congruence].
        rewrite Hsame by lia. reflexivity.
    + intros x y Hxy. rewrite Hrest by lia. rewrite cell_insert.
      destruct (decide ((X, Y) = (x, y))) as [[= <- <-]|_]; [|reflexivity].
      exfalso. apply Hxy. lia.
Qed.

Lemma entry_columns_spec (g : grid) (maxx : Z) (m : maze_t) :
  0 < W g -> 1 <= Z.quot (W g) (nubs g) -> 1 <= H g ->
  forall (fuel : nat) (X : Z) (mc : maze_t),
    0 <= X -> X mod Z.quot (W g) (nubs g) = maxx mod Z.quot (W g) (nubs g) ->
    (Z.to_nat (W g - X) < fuel)%nat ->
    (forall x, entry_column g maxx x = true -> x < X -> entry_carved g m mc x) ->
    (forall x y, entry_column g maxx x = false \/ X <= x -> cell mc x y = cell m x y) ->
    exists m',
      entry_columns g fuel X mc = Ok m'
      /\ (forall x, entry_column g maxx x = true -> entry_carved g m m' x)
      /\ (forall x y, entry_column g maxx x = false -> cell m' x y = cell m x y).
Proof.
  intros HW Hstep HH. set (step := Z.quot (W g) (nubs g)) in *.
  induction fuel as [|fuel IH]; intros X mc HX0 Hmod Hf Hdone Hrest; [lia|].
  cbn [entry_columns]. destruct (Z.ltb_spec X (W g)) as [HX|HX].
  2:{ exists mc. split; [reflexivity|]. split.
      - intros x Hx. apply Hdone; [exact Hx|].
        unfold entry_column in Hx. lia.
      - intros x y Hx. apply Hrest. left. exact Hx. }
  assert (Hcol : entry_column g maxx X = true).
  { unfold entry_column. fold step. rewrite Hmod, Z.eqb_refl. lia. }
  destruct (carve_down_spec g X m ltac:(lia) (S (Z.to_nat (H g))) (H g - 1) mc)
    as (m1 & Y0 & -> & HY0 & Hstop & Habove & Hother).
  { lia. } { lia. } { intros y _. apply Hrest. right. lia. }
  cbn [rbind].
  assert (Hin : in_grid g X Y0 = true) by (apply in_grid_spec; lia).
  unfold maze_get. rewrite Hin. cbn [rbind]. fold step.
  assert (Hnew : entry_carved g m (<[(X, Y0) := (cell m1 X Y0 + FLAGU) mod 256]> m1) X).
  { exists Y0. split; [lia|]. split; [exact Hstop|]. split; [|split].
    - intros y Hy. destruct (Habove y ltac:(lia)) as [Hi Hc]. split; [exact Hi|].
      rewrite cell_insert. destruct (decide ((X, Y0) = (X, y))) as [[= E]|_]; [lia|].
      exact Hc.
    - rewrite cell_insert. destruct (decide ((X, Y0) = (X, Y0))); [|congruence].
      rewrite Hother by lia. rewrite Hrest by (right; lia). reflexivity.
    - intros y Hy. rewrite cell_insert.
      destruct (decide ((X, Y0) = (X, y))) as [[= E]|_]; [lia|].
      rewrite Hother by lia. apply Hrest. right. lia. }
  assert (Hkeep : forall x y, x <> X ->
            cell (<[(X, Y0) := (cell m1 X Y0 + FLAGU) mod 256]> m1) x y = cell mc x y).
  { intros x y Hne. rewrite cell_insert.
    destruct (decide ((X, Y0) = (x, y))) as [[= E _]|_]; [congruence|].
    apply Hother. lia. }
  apply IH.
  - lia.
  - rewrite <- Hmod. rewrite <- (Z_mod_plus_full X 1 step). f_equal. lia.
  - lia.
  - intros x Hx Hlt. destruct (Z.eq_dec x X) as [->|Hne]; [exact Hnew|].
    assert (Hlt' : x < X).
    { unfold entry_column in Hx. fold step in Hx.
      apply andb_true_iff in Hx as [Hr Hx]. apply Z.eqb_eq in Hx.
      destruct (Z.lt_ge_cases x X) as [|Hge]; [assumption|exfalso].
      assert (Hd : (x - X) mod step = 0).
      { rewrite Zminus_mod, Hx, Hmod, Z.sub_diag. apply Z.mod_0_l. lia. }
      apply Z.mod_divide in Hd; [|lia]. destruct Hd as [k Hk].
      assert (0 < k) by nia. assert (k < 1) by nia. lia. }
    destruct (Hdone x Hx Hlt') as (Y1 & H1 & H2 & H3 & H4 & H5).
    exists Y1. split; [exact H1|]. split; [exact H2|]. split; [|split].
    + intros y Hy. rewrite Hkeep by exact Hne. apply H3, Hy.
    + rewrite Hkeep by exact Hne. exact H4.
    + intros y Hy. rewrite Hkeep by exact Hne. apply H5, Hy.
  - intros x y Hx. rewrite Hkeep.
    + apply Hrest. destruct Hx as [Hx|Hx]; [left; exact Hx|right; lia].
    + intros ->. destruct Hx as [Hx|Hx]; [congruence|lia].
Qed.

Lemma entry_point_spec (g : grid) (maxx : Z) (m : maze_t) :
  0 < W g -> 1 <= Z.quot (W g) (nubs g) -> 1 <= H g -> 0 <= maxx ->
  exists m',
    entry_point g maxx m = Ok m'
    /\ (forall x, entry_column g maxx x = true -> entry_carved g m m' x)
    /\ (forall x y, entry_column g maxx x = false -> cell m' x y = cell m x y).
Proof.
  intros HW Hstep HH Hmx. unfold entry_point.
  destruct (Z.eqb_spec (Z.quot (W g) (nubs g)) 0) as [E|_]; [lia|].
  pose proof (Z.rem_bound_pos maxx (Z.quot (W g) (nubs g)) Hmx ltac:(lia)) as Hb.
  apply entry_columns_spec; try assumption; try lia.
  - rewrite Z.rem_mod_nonneg by lia. apply Z.mod_mod. lia.
  - intros x Hx Hlt. unfold entry_column in Hx.
    apply andb_true_iff in Hx as [Hr Hx]. apply Z.eqb_eq in Hx.
    rewrite Z.rem_mod_nonneg in * by lia.
    rewrite <- Hx in Hlt. rewrite (Z.mod_small x) in Hlt by lia. lia.
Qed.

Lemma same_FLAGI_refl (m : maze_t) : same_FLAGI m m.
Proof. intros a b. reflexivity. Qed.

Lemma same_FLAGI_has (m m' : maze_t) (x y : Z) :
  same_FLAGI m m' -> has (cell m' x y) FLAGI = has (cell m x y) FLAGI.
Proof. intros Hs. unfold has. rewrite Hs. reflexivity. Qed.

Lemma run_same_FLAGI (g : grid) (o : options) :
  0 < W g -> 0 < nubs g ->
  forall (fuel : nat) (s s' : walk) (nds : list pos_t),
    run g o fuel s = Ok (s', nds) -> same_FLAGI (maze s) (maze s').
Proof.
  intros HW Hn. induction fuel as [|fuel IH]; intros s s' nds; cbn [run]; [discriminate|].
  destruct (queue s) as [|p pos]; [intros [= <- _]; apply same_FLAGI_refl|].
  destruct (expand g o s) as [[s1 nd]| | |] eqn:He; cbn [rbind]; try discriminate.
  destruct (run g o fuel s1) as [[s2 nds2]| | |] eqn:Hr; cbn [rbind]; try discriminate.
  intros [= <- _].
  destruct (expand_records g HW Hn o (maze s) s s1 nd (same_FLAGI_refl _) He) as [Hs _].
  apply (same_FLAGI_trans _ (maze s1)); [exact Hs|]. apply (IH _ _ _ Hr).
Qed.

Lemma testmaze_pattern_same_FLAGI (g : grid) (o : options) (m m' : maze_t) (mx : Z) :
  testmaze_pattern g o m = Ok (m', mx) -> same_FLAGI m m'.
Proof.
  unfold testmaze_pattern.
  destruct (for_range 0 (H g) _ m) as [m1| | |] eqn:Hloop; cbn [rbind]; try discriminate.
  assert (Hs : same_FLAGI m m1).
  { revert Hloop. apply for_range_preserves; [|apply same_FLAGI_refl].
    intros Y t t' Ht. apply for_range_preserves; [|exact Ht].
    intros X u u' Hu Hc. apply (same_FLAGI_trans _ u); [exact Hu|].
    destruct (testmaze_cell_writes g X Y u u' Hc) as [->|Hw]; [apply same_FLAGI_refl|].
    apply (writes_same_FLAGI g _ u u' Hw). intros x y.
    cbn [wrote existsb]. eval_has. rewrite !andb_false_r. reflexivity. }
  destruct (negb (flip o) || inside o).
  - destruct (scan_maxx g m1 _ 0); cbn [rbind]; try discriminate. intros [= <- _]. exact Hs.
  - intros [= <- _]. exact Hs.
Qed.

Lemma scan_maxx_range (g : grid) (m : maze_t) :
  forall (fuel : nat) (mx mx' : Z),
    scan_maxx g m fuel mx = Ok mx' -> mx <= mx' /\ (mx < W g -> mx' < W g).
Proof.
  induction fuel as [|fuel IH]; intros mx mx'; cbn [scan_maxx]; [discriminate|].
  destruct (Z.ltb_spec (mx + 1) (W g)) as [Hlt|Hge]; [|intros [= <-]; lia].
  destruct (test g m (mx + 1) (H g - 2)) as [t| | |]; cbn [rbind]; try discriminate.
  destruct (Z.land t FLAGI =? 0); [|intros [= <-]; lia].
  intros Hs. apply IH in Hs. lia.
Qed.

(** The maze from which the walk or the test pattern starts. *)
Lemma cleared_cells (g : grid) (o : options) (m : maze_t) :
  clear_high_low g o ∅ = Ok m ->
  forall x y, cell m x y = if in_grid g x y && too_high_low o x y then FLAGI else 0.
Proof.
  intros Hc x y. destruct (clear_high_low_spec g o ∅) as (m' & Hm' & Hcell).
  rewrite Hc in Hm'. injection Hm' as <-. rewrite Hcell.
  unfold cell at 1 2. rewrite lookup_empty. reflexivity.
Qed.

Lemma cleared_paired (g : grid) (o : options) (m : maze_t) :
  clear_high_low g o ∅ = Ok m -> paired g m.
Proof.
  intros Hc x y Hx. rewrite !(cleared_cells g o m Hc).
  split; [|intros _ _];
    repeat match goal with |- context [if ?b then _ else _] => destruct b end;
    reflexivity.
Qed.

Section Build.

Context (g : grid) (o : options).

(** What the steps of [build_maze] keep, whenever it returns. *)
Lemma build_maze_keeps (seed : Z) (m : maze_t) (mx seed' : Z) :
  0 < W g -> 0 < nubs g -> 0 <= helix g ->
  build_maze g o seed = Ok (m, mx, seed') ->
  exists m0 m1,
    clear_high_low g o ∅ = Ok m0
    /\ writes g (park_writes g o) m0 = Ok m1
    /\ same_FLAGI m0 m
    /\ (paired g m1 -> paired g m).
Proof.
  intros HW Hn Hh. unfold build_maze.
  destruct (clear_high_low g o ∅) as [m0| | |] eqn:Hc; cbn [rbind]; try discriminate.
  rewrite park_point_writes by exact Hh.
  destruct (writes g (park_writes g o) m0) as [m1| | |] eqn:Hw; cbn [rbind];
    try discriminate.
  assert (Hs1 : same_FLAGI m0 m1).
  { apply (writes_same_FLAGI g _ _ _ Hw). intros x y. apply park_writes_no_FLAGI, Hh. }
  intros Hb. exists m0, m1. split; [reflexivity|]. split; [exact Hw|].
  destruct (testmaze o).
  - destruct (testmaze_pattern g o m1) as [[m2 mx2]| | |] eqn:Ht; cbn [rbind] in Hb;
      try discriminate.
    injection Hb as <- <- <-. split.
    + apply (same_FLAGI_trans _ m1); [exact Hs1|].
      apply (testmaze_pattern_same_FLAGI g o _ _ _ Ht).
    + intros Hp. apply (testmaze_pattern_paired g o _ _ _ Hp Ht).
  - unfold actual_maze in Hb.
    destruct (run g o (walk_fuel g) _) as [[s nds]| | |] eqn:Hr; cbn [rbind] in Hb;
      try discriminate.
    injection Hb as <- <- <-. split.
    + apply (same_FLAGI_trans _ m1); [exact Hs1|].
      apply (run_same_FLAGI g o HW Hn _ _ _ _ Hr : same_FLAGI m1 (maze s)).
    + intros Hp. revert Hr. apply run_paired. exact Hp.
Qed.

(** With room for the park point, [build_maze] returns, and the exit column
    is one of the grid. *)
Lemma build_maze_ok (seed : Z) :
  3 <= W g -> 0 < nubs g -> 0 <= helix g -> helix g + park_rows o < H g ->
  exists m mx seed',
    build_maze g o seed = Ok (m, mx, seed') /\ 0 <= mx < W g.
Proof.
  intros HW Hn Hh HH. unfold build_maze.
  destruct (clear_high_low_spec g o ∅) as (m0 & -> & _). cbn [rbind].
  rewrite park_point_writes by exact Hh.
  destruct (park_writes_in_grid g o HW Hh HH) as [Hall Hcell].
  destruct (writes_ok g _ Hall m0) as (m1 & ->). cbn [rbind].
  destruct (testmaze o).
  - unfold testmaze_pattern.
    destruct (pattern_all g ltac:(lia) Hn m1 ltac:(unfold park_rows in HH; destruct (parkvertical o); lia))
      as (m2 & -> & _).
    cbn [rbind]. destruct (negb (flip o) || inside o); cbn [rbind].
    + destruct (scan_maxx_ok g ltac:(lia) Hn m2 (S (Z.to_nat (W g))) 0) as [mx Hmx];
        try lia.
      rewrite Hmx. cbn [rbind]. apply scan_maxx_range in Hmx.
      exists m2, mx, seed. split; [reflexivity|lia].
    + exists m2, 0, seed. split; [reflexivity|lia].
  - unfold actual_maze.
    set (s0 := Walk m1 [Pos (fst (park_cell g o)) (snd (park_cell g o)) 0] seed 0 0).
    assert (Hq : queue_in_grid g (queue s0)).
    { apply Forall_cons_2; [exact Hcell|apply Forall_nil_2]. }
    destruct (run_ok g ltac:(lia) Hn o (walk_fuel g) s0 Hq) as (s & nds & Hrun).
    { pose proof (measure_bound g s0). unfold walk_fuel. cbn [s0 queue length] in *. lia. }
    rewrite Hrun. cbn [rbind]. exists (maze s), (maxx s), (rng s).
    split; [reflexivity|].
    assert (Hrec : records g o m1 [] (max s0) (maxx s0)).
    { cbn. split; [lia|]. split; [intros nd []|left; split; reflexivity]. }
    destruct (run_records g ltac:(lia) Hn o m1 _ s0 s [] nds (same_FLAGI_refl _) Hrec Hrun)
      as (_ & _ & _ & Hex).
    destruct Hex as [[_ ->]|(_ & nd & Hnd & _ & _ & <-)]; [lia|].
    destruct (run_walk g ltac:(lia) Hn o _ _ _ _ Hq Hrun) as (_ & Hin & _).
    rewrite Forall_forall in Hin. cbn [app] in Hnd.
    apply list_elem_of_In in Hnd. destruct (Hin nd Hnd) as [Hg _].
    apply in_grid_spec in Hg. lia.
Qed.

End Build.

(** *** Rules for [eafter] *)

Lemma eafter_bind {A B : Type} (pre : list out) (e : emit A) (k : A -> emit B)
    (Q : list out -> A -> Prop) (R : list out -> B -> Prop) :
  eafter pre e Q -> (forall out a, Q out a -> eafter out (k a) R) ->
  eafter pre (ebind e k) R.
Proof.
  intros He Hk o b. unfold ebind. destruct e as [o1 [a| | |]]; try discriminate.
  destruct (k a) as [o2 r] eqn:Ek. intros [= <- ->]. rewrite app_assoc.
  apply (Hk (pre ++ o1) a (He o1 a eq_refl) o2 b Ek).
Qed.

Lemma eafter_ret {A : Type} (pre : list out) (a : A) (Q : list out -> A -> Prop) :
  Q pre a -> eafter pre (eret a) Q.
Proof. intros HQ o b [= <- <-]. rewrite app_nil_r. exact HQ. Qed.

Lemma eafter_quiet {A : Type} (pre : list out) (r : result A) (Q : list out -> A -> Prop) :
  (forall a, r = Ok a -> Q pre a) -> eafter pre (quiet r) Q.
Proof. intros HQ o b [= <- ->]. rewrite app_nil_r. apply HQ. reflexivity. Qed.

Lemma eafter_print (pre : list out) (x : out) (Q : list out -> unit -> Prop) :
  Q (pre ++ [x]) tt -> eafter pre (print x) Q.
Proof. intros HQ o b [= <- <-]. exact HQ. Qed.

Lemma eafter_weaken {A : Type} (pre : list out) (e : emit A)
    (Q Q' : list out -> A -> Prop) :
  eafter pre e Q -> (forall out a, Q out a -> Q' out a) -> eafter pre e Q'.
Proof. intros He HQ o a Heq. apply HQ, He, Heq. Qed.

Lemma eafter_for_loop {St : Type} (I : Z -> list out -> St -> Prop)
    (body : Z -> St -> emit St) :
  forall (cnt : nat) (i : Z) (pre : list out) (s : St),
    I i pre s ->
    (forall j out t, i <= j < i + Z.of_nat cnt -> I j out t ->
                     eafter out (body j t) (I (j + 1))) ->
    eafter pre (for_loop_e cnt i body s) (I (i + Z.of_nat cnt)).
Proof.
  induction cnt as [|cnt IH]; intros i pre s Hi Hbody.
  - cbn [for_loop_e]. apply eafter_ret. rewrite Z.add_0_r. exact Hi.
  - cbn [for_loop_e]. apply (eafter_bind pre _ _ (I (i + 1))).
    + apply Hbody; [lia|exact Hi].
    + intros out t Ht.
      replace (i + Z.of_nat (S cnt)) with (i + 1 + Z.of_nat cnt) by lia.
      apply IH; [exact Ht|]. intros j out' t' Hj. apply Hbody. lia.
Qed.

Lemma eafter_for_range {St : Type} (I : Z -> list out -> St -> Prop)
    (body : Z -> St -> emit St) (lo hi : Z) (pre : list out) (s : St) :
  lo <= hi -> I lo pre s ->
  (forall j out t, lo <= j < hi -> I j out t -> eafter out (body j t) (I (j + 1))) ->
  eafter pre (for_range_e lo hi body s) (I hi).
Proof.
  intros Hle Hi Hbody. unfold for_range_e.
  replace hi with (lo + Z.of_nat (Z.to_nat (hi - lo))) at 2 by lia.
  apply eafter_for_loop; [exact Hi|]. intros j out t Hj. apply Hbody. lia.
Qed.

Lemma eafter_for_range_same {St : Type} (Q : list out -> St -> Prop)
    (body : Z -> St -> emit St) (lo hi : Z) (pre : list out) (s : St) :
  lo <= hi -> Q pre s ->
  (forall j out t, lo <= j < hi -> Q out t -> eafter out (body j t) Q) ->
  eafter pre (for_range_e lo hi body s) Q.
Proof. apply (eafter_for_range (fun _ => Q)). Qed.

(** *** Rules for [esafe] *)

Lemma esafe_bind {A B : Type} (msgs : list string) (e : emit A) (k : A -> emit B)
    (J : A -> Prop) (K : B -> Prop) :
  esafe msgs e J -> (forall a, J a -> esafe msgs (k a) K) -> esafe msgs (ebind e k) K.
Proof.
  unfold esafe, ebind. destruct e as [o1 [a| | |]]; cbn [snd]; try tauto.
  intros Ha Hk. specialize (Hk a Ha). destruct (k a) as [o2 r]. exact Hk.
Qed.

Lemma esafe_ret {A : Type} (msgs : list string) (a : A) (J : A -> Prop) :
  J a -> esafe msgs (eret a) J.
Proof. intros Ha. exact Ha. Qed.

Lemma esafe_quiet {A : Type} (msgs : list string) (a : A) (J : A -> Prop) :
  J a -> esafe msgs (quiet (Ok a)) J.
Proof. intros Ha. exact Ha. Qed.

Lemma esafe_fatal {A : Type} (msgs : list string) (msg : string) (J : A -> Prop) :
  In msg msgs -> esafe msgs (quiet (Fatal msg)) J.
Proof. intros Hin. exact Hin. Qed.

Lemma esafe_print (msgs : list string) (x : out) (J : unit -> Prop) :
  J tt -> esafe msgs (print x) J.
Proof. intros Ht. exact Ht. Qed.

Lemma esafe_weaken {A : Type} (msgs : list string) (e : emit A) (J J' : A -> Prop) :
  esafe msgs e J -> (forall a, J a -> J' a) -> esafe msgs e J'.
Proof.
  unfold esafe. destruct (snd e); try tauto. intros Ha HJ. apply HJ, Ha.
Qed.

Lemma esafe_for_loop {St : Type} (msgs : list string) (J : St -> Prop)
    (body : Z -> St -> emit St) :
  forall (cnt : nat) (i : Z) (s : St),
    J s ->
    (forall j t, i <= j < i + Z.of_nat cnt -> J t -> esafe msgs (body j t) J) ->
    esafe msgs (for_loop_e cnt i body s) J.
Proof.
  induction cnt as [|cnt IH]; intros i s Hs Hbody.
  - apply esafe_ret, Hs.
  - cbn [for_loop_e]. apply (esafe_bind msgs _ _ J).
    + apply Hbody; [lia|exact Hs].
    + intros t Ht. apply IH; [exact Ht|]. intros j t' Hj. apply Hbody. lia.
Qed.

Lemma esafe_for_range {St : Type} (msgs : list string) (J : St -> Prop)
    (body : Z -> St -> emit St) (lo hi : Z) (s : St) :
  J s -> (forall j t, lo <= j < hi -> J t -> esafe msgs (body j t) J) ->
  esafe msgs (for_range_e lo hi body s) J.
Proof.
  intros Hs Hbody. apply esafe_for_loop; [exact Hs|]. intros j t Hj. apply Hbody. lia.
Qed.

(** *** Points *)

Lemma slice_at_ok (ss : list slice_t) (S : Z) (x : slice_t) :
  slice_at ss S = Ok x <-> 0 <= S /\ ss !! Z.to_nat S = Some x.
Proof.
  unfold slice_at. destruct (Z.ltb_spec S 0) as [Hneg|Hpos].
  - split; [discriminate|lia].
  - destruct (ss !! Z.to_nat S) as [y|]; split.
    + intros [= ->]. split; [lia|reflexivity].
    + intros [_ [= ->]]. reflexivity.
    + discriminate.
    + intros [_ E]. discriminate.
Qed.

Lemma addpoint_indexed (g : grid) (o : options) (recess : bool) (S layer : Z)
    (pre : list out) (k : mesh) :
  indexed g pre k -> (recess = true -> layer = 1) ->
  eafter pre (addpoint o recess S layer k) (fun out k' =>
    indexed g out k' /\ out = pre ++ [Point S layer] /\ P k' = P k + 1
    /\ bottom k' = bottom k /\ top k' = top k /\ pstart k' = pstart k).
Proof.
  intros (Hlen & Hn & Hpts & Hidx) Hrec out k'. unfold addpoint.
  destruct (slice_at (slices k) S) as [x| | |] eqn:Ex; cbn [quiet ebind print];
    try discriminate.
  apply slice_at_ok in Ex as [HS Ex].
  destruct (MAXY o <=? Z.of_nat (length (sp x))); cbn [quiet eret]; [discriminate|].
  intros [= <- <-]. unfold set_slice, indexed. cbn [P slices bottom top pstart sp].
  split; [|repeat split; reflexivity].
  split; [rewrite length_app; cbn [length]; lia|].
  split; [rewrite length_insert; exact Hn|].
  split; [apply Forall_app; split; [exact Hpts|]; repeat constructor; eauto|].
  intros S1 x1 i HS1 Hx1 Hi.
  assert (Hold : forall j layer',
             pre !! Z.to_nat (Z.abs j) = Some (Point S1 layer') ->
             (pre ++ [Point S layer]) !! Z.to_nat (Z.abs j) = Some (Point S1 layer')).
  { intros j layer' E. rewrite lookup_app_l; [exact E|].
    apply lookup_lt_Some in E. exact E. }
  destruct (decide (Z.to_nat S = Z.to_nat S1)) as [E|Hne].
  - assert (S1 = S) as -> by lia.
    rewrite list_lookup_insert_eq in Hx1 by (apply lookup_lt_Some in Ex; exact Ex).
    injection Hx1 as <-. cbn [sp] in Hi. apply in_app_or in Hi as [Hi|[<-|[]]].
    + destruct (Hidx S x i HS Ex Hi) as (layer' & E' & Hl).
      exists layer'. split; [apply Hold, E'|exact Hl].
    + exists layer. split.
      * replace (Z.to_nat (Z.abs (if recess then - P k else P k))) with (length pre)
          by (destruct recess; lia).
        rewrite lookup_app_r by lia. rewrite Nat.sub_diag. reflexivity.
      * destruct recess; [intros _; apply Hrec; reflexivity|lia].
  - rewrite list_lookup_insert_ne in Hx1 by exact Hne.
    destruct (Hidx S1 x1 i HS1 Hx1 Hi) as (layer' & E' & Hl).
    exists layer'. split; [apply Hold, E'|exact Hl].
Qed.

(** A ring or a row of points: the indices go up by one from [P]. *)
Lemma addpoints_indexed (g : grid) (o : options) (recess : bool) (layer lo hi : Z)
    (pre : list out) (k : mesh) :
  lo <= hi -> indexed g pre k -> (recess = true -> layer = 1) ->
  eafter pre (addpoints o recess layer lo hi k) (fun out k' =>
    indexed g out k' /\ pre `prefix_of` out /\ P k' = P k + (hi - lo)
    /\ bottom k' = bottom k /\ top k' = top k /\ pstart k' = pstart k
    /\ forall S, lo <= S < hi -> out !! Z.to_nat (P k + (S - lo)) = Some (Point S layer)).
Proof.
  intros Hle Hidx Hrec. unfold addpoints.
  apply (eafter_for_range (fun j out k' =>
    indexed g out k' /\ pre `prefix_of` out /\ P k' = P k + (j - lo)
    /\ bottom k' = bottom k /\ top k' = top k /\ pstart k' = pstart k
    /\ forall S, lo <= S < j -> out !! Z.to_nat (P k + (S - lo)) = Some (Point S layer))).
  - exact Hle.
  - split; [exact Hidx|]. split; [reflexivity|]. split; [lia|].
    repeat split. intros S HS. lia.
  - intros j out t Hj (Ht & Hpre & HP & Hb & Htop & Hps & Hnew).
    eapply eafter_weaken; [apply (addpoint_indexed g o recess j layer out t Ht Hrec)|].
    cbn beta. intros out' t' (Ht' & -> & HP' & Hb' & Htop' & Hps').
    split; [exact Ht'|]. split; [etransitivity; [exact Hpre|apply prefix_app_r; reflexivity]|].
    split; [lia|]. split; [congruence|]. split; [congruence|]. split; [congruence|].
    intros S HS. destruct Ht as (Hlen & _).
    destruct (Z.eq_dec S j) as [->|Hne].
    + rewrite lookup_app_r by lia.
      replace (Z.to_nat (P k + (j - lo)) - length out)%nat with O by lia. reflexivity.
    + rewrite lookup_app_l; [apply Hnew; lia|].
      specialize (Hnew S ltac:(lia)). apply lookup_lt_Some in Hnew. exact Hnew.
Qed.

Lemma based_prefix (g : grid) (pre out : list out) :
  based g pre -> pre `prefix_of` out -> based g out.
Proof.
  intros Hb Hp S HS. apply (prefix_lookup_Some pre out _ _ (Hb S HS) Hp).
Qed.

(** The state of "Make points" once the three rings of the base are
    printed. *)
Lemma cell_points_indexed (g : grid) (o : options) (m : maze_t) (X Y : Z)
    (pre : list out) (k : mesh) :
  indexed g pre k ->
  eafter pre (cell_points g o m X Y k) (fun out k' =>
    indexed g out k' /\ pre `prefix_of` out /\ P k <= P k'
    /\ bottom k' = bottom k /\ top k' = top k).
Proof.
  intros Hidx. unfold cell_points.
  apply (eafter_bind pre _ _ (fun out v => out = pre)).
  { apply eafter_quiet. reflexivity. }
  intros out v ->.
  destruct ((Z.land v FLAGA =? 0) || negb (Z.land v FLAGI =? 0)).
  { apply eafter_ret. split; [exact Hidx|]. split; [reflexivity|]. split; [lia|].
    split; reflexivity. }
  set (k0 := Mesh (slices k) (P k) (<[(X, Y) := P k]> (pstart k)) (bottom k) (top k)).
  assert (Hidx0 : indexed g pre k0) by exact Hidx.
  assert (Hstep : forall recess layer pre1 k1,
             (recess = true -> layer = 1) ->
             indexed g pre1 k1 /\ pre `prefix_of` pre1 /\ P k <= P k1
             /\ bottom k1 = bottom k /\ top k1 = top k ->
             eafter pre1 (addpoints o recess layer (X * 4) (X * 4 + 4) k1) (fun out k' =>
               indexed g out k' /\ pre `prefix_of` out /\ P k <= P k'
               /\ bottom k' = bottom k /\ top k' = top k)).
  { intros recess layer pre1 k1 Hrec (H1 & H2 & H3 & H4 & H5).
    eapply eafter_weaken; [apply (addpoints_indexed g o recess layer); [lia|exact H1|exact Hrec]|].
    cbn beta. intros out k' (G1 & G2 & G3 & G4 & G5 & _).
    split; [exact G1|]. split; [etransitivity; eassumption|]. split; [lia|].
    split; congruence. }
  eapply eafter_bind; [apply (Hstep false 2); [discriminate|]|].
  { split; [exact Hidx0|]. split; [reflexivity|]. split; [cbn; lia|]. split; reflexivity. }
  intros out1 k1 H1. eapply eafter_bind; [apply (Hstep true 1); [reflexivity|exact H1]|].
  intros out2 k2 H2. eapply eafter_bind; [apply (Hstep true 1); [reflexivity|exact H2]|].
  intros out3 k3 H3. apply (Hstep false 2); [discriminate|exact H3].
Qed.

Lemma wrap_back_indexed (g : grid) (o : options) (S : Z) (pre : list out) (k : mesh) :
  0 <= S < W g * 4 -> based g pre -> indexed g pre k ->
  eafter pre (wrap_back o S k) (fun out k' =>
    indexed g out k' /\ out = pre /\ P k' = P k /\ bottom k' = bottom k /\ top k' = top k).
Proof.
  intros HS Hb (Hlen & Hn & Hpts & Hidx) out k'. unfold wrap_back.
  destruct (slice_at (slices k) S) as [x| | |] eqn:Ex; cbn [quiet ebind]; try discriminate.
  apply slice_at_ok in Ex as [_ Ex].
  destruct (MAXY o <=? Z.of_nat (length (sp x))); cbn [quiet eret]; [discriminate|].
  intros [= <- <-]. unfold set_slice, indexed. cbn [P slices bottom top pstart sp].
  rewrite app_nil_r. split; [|repeat split; reflexivity].
  split; [exact Hlen|]. split; [rewrite length_insert; exact Hn|]. split; [exact Hpts|].
  intros S1 x1 i HS1 Hx1 Hi.
  destruct (decide (Z.to_nat S = Z.to_nat S1)) as [E|Hne].
  - assert (S1 = S) as -> by lia.
    rewrite list_lookup_insert_eq in Hx1 by (apply lookup_lt_Some in Ex; exact Ex).
    injection Hx1 as <-. cbn [sp] in Hi. apply in_app_or in Hi as [Hi|[<-|[]]].
    + apply (Hidx S x i); assumption.
    + exists 0. split; [|lia]. rewrite Z.abs_eq by lia. apply Hb, HS.
  - rewrite list_lookup_insert_ne in Hx1 by exact Hne. apply (Hidx S1 x1 i); assumption.
Qed.

Lemma cells_points_indexed (g : grid) (o : options) (m : maze_t) (pre : list out) (k : mesh) :
  0 <= W g -> 0 <= H g -> indexed g pre k ->
  eafter pre (for_range_e 0 (H g) (fun Y k =>
                for_range_e 0 (W g) (fun X k => cell_points g o m X Y k) k) k)
    (fun out k' =>
       indexed g out k' /\ pre `prefix_of` out /\ P k <= P k'
       /\ bottom k' = bottom k /\ top k' = top k).
Proof.
  intros HW HH Hidx.
  set (Q := fun (out : list out) (k' : mesh) =>
              indexed g out k' /\ pre `prefix_of` out /\ P k <= P k'
              /\ bottom k' = bottom k /\ top k' = top k).
  assert (Hcell : forall X Y out t, Q out t -> eafter out (cell_points g o m X Y t) Q).
  { intros X Y out t (H1 & H2 & H3 & H4 & H5).
    eapply eafter_weaken; [apply (cell_points_indexed g o m X Y out t H1)|].
    cbn beta. intros out' t' (G1 & G2 & G3 & G4 & G5).
    split; [exact G1|]. split; [etransitivity; eassumption|]. split; [lia|].
    split; congruence. }
  apply (eafter_for_range_same Q); [exact HH| |].
  - split; [exact Hidx|]. split; [reflexivity|]. split; [lia|]. split; reflexivity.
  - intros Y out t _ Ht. apply (eafter_for_range_same Q); [exact HW|exact Ht|].
    intros X out' t' _ Ht'. apply Hcell, Ht'.
Qed.

Lemma make_points_indexed (g : grid) (o : options) (m : maze_t) :
  0 <= W g -> 0 <= H g ->
  eafter [] (make_points g o m) (fun out k => indexed g out k /\ ringed g out k).
Proof.
  intros HW HH. unfold make_points. cbv zeta. cbn [P slices pstart bottom top].
  set (n := W g * 4).
  set (k0 := Mesh (replicate (Z.to_nat n) (Slice 0 0 [])) 0 ∅ 0 0).
  assert (H0 : indexed g [] k0).
  { split; [reflexivity|]. split; [apply length_replicate|]. split; [constructor|].
    intros S x i _ Hx Hi. apply lookup_replicate in Hx as [-> _]. destruct Hi. }
  assert (Hring : forall recess layer pre k,
             (recess = true -> layer = 1) -> indexed g pre k ->
             eafter pre (addpoints o recess layer 0 n k) (fun out k' =>
               indexed g out k' /\ pre `prefix_of` out /\ P k' = P k + n
               /\ bottom k' = bottom k /\ top k' = top k
               /\ forall S, 0 <= S < n -> out !! Z.to_nat (P k + S) = Some (Point S layer))).
  { intros recess layer pre k Hrec Hk.
    eapply eafter_weaken;
      [apply (addpoints_indexed g o recess layer 0 n pre k); [lia|exact Hk|exact Hrec]|].
    cbn beta. intros out k' (G1 & G2 & G3 & G4 & G5 & _ & G7).
    split; [exact G1|]. split; [exact G2|]. split; [lia|]. split; [exact G4|].
    split; [exact G5|]. intros S HS. specialize (G7 S HS).
    replace (P k + (S - 0)) with (P k + S) in G7 by lia. exact G7. }
  eapply eafter_bind; [apply (Hring false 0 [] k0); [discriminate|exact H0]|].
  intros out1 k1 (I1 & _ & P1 & B1 & T1 & R1).
  eapply eafter_bind; [apply (Hring true 1 out1 k1); [reflexivity|exact I1]|].
  intros out2 k2 (I2 & Pre2 & P2 & B2 & T2 & R2).
  eapply eafter_bind; [apply (Hring false 2 out2 k2); [discriminate|exact I2]|].
  intros out3 k3 (I3 & Pre3 & P3 & B3 & T3 & R3).
  eapply eafter_bind; [apply (cells_points_indexed g o m out3 k3 HW HH I3)|].
  intros out4 k4 (I4 & Pre4 & P4 & B4 & T4).
  set (k5 := Mesh (slices k4) (P k4) (pstart k4) (bottom k4) (P k4)).
  assert (I5 : indexed g out4 k5) by exact I4.
  eapply eafter_bind; [apply (Hring false 2 out4 k5); [discriminate|exact I5]|].
  intros out6 k6 (I6 & Pre6 & P6 & B6 & T6 & R6).
  eapply eafter_bind; [apply (Hring false 1 out6 k6); [discriminate|exact I6]|].
  intros out7 k7 (I7 & Pre7 & P7 & B7 & T7 & R7).
  eapply eafter_bind; [apply (Hring false 0 out7 k7); [discriminate|exact I7]|].
  intros out8 k8 (I8 & Pre8 & P8 & B8 & T8 & R8).
  cbn [P bottom top k0 k5] in *.
  assert (Hb8 : based g out8).
  { intros S HS. specialize (R1 S HS). rewrite Z.add_0_l in R1.
    repeat (eapply prefix_lookup_Some; [|eassumption]). exact R1. }
  eapply eafter_weaken.
  - apply (eafter_for_range_same (fun out k =>
             indexed g out k /\ out = out8 /\ P k = P k8
             /\ bottom k = bottom k8 /\ top k = top k8)); [lia| |].
    + split; [exact I8|]. repeat split; reflexivity.
    + intros S out t HS (G1 & -> & G3 & G4 & G5).
      eapply eafter_weaken; [apply (wrap_back_indexed g o S out8 t HS Hb8 G1)|].
      cbn beta. intros out' t' (F1 & F2 & F3 & F4 & F5).
      split; [exact F1|]. split; [exact F2|]. split; [congruence|]. split; congruence.
  - cbn beta. intros out k (G1 & -> & G3 & G4 & G5). split; [exact G1|].
    unfold ringed. fold n. rewrite G3, G4, G5, B8, B7, B6, T8, T7, T6, P8, P7, P6.
    cbn [bottom top k5]. rewrite B4, B3, B2, B1.
    split; [reflexivity|]. split; [lia|]. split; [lia|].
    intros S HS. rewrite !Z.add_0_l.
    specialize (R1 S HS). specialize (R2 S HS). specialize (R3 S HS).
    specialize (R6 S HS). specialize (R7 S HS). specialize (R8 S HS).
    cbn [P k5] in R6. rewrite P1 in R2. rewrite P2, P1 in R3.
    rewrite P6 in R7. rewrite P7, P6 in R8. cbn [P k5] in R7, R8.
    rewrite !Z.add_0_l in *.
    replace (n + n + S) with (2 * n + S) in R3 by lia.
    replace (P k4 + n + n + S) with (P k4 + 2 * n + S) in R8 by lia.
    repeat split;
      repeat (first [eassumption | eapply prefix_lookup_Some; [|eassumption]]).
Qed.

(** *** Faces *)

Lemma scan_found (p : list Z) (a : Z) :
  (scan p a < length p)%nat -> exists x, In x p /\ Z.abs x = Z.abs a.
Proof.
  induction p as [|x p IH]; cbn [scan length]; [lia|].
  destruct (Z.eqb_spec (Z.abs x) (Z.abs a)) as [E|_].
  - intros _. exists x. split; [left; reflexivity|exact E].
  - intros Hlt. destruct (IH ltac:(lia)) as (y & Hy & E). exists y. split; [right|]; assumption.
Qed.

Lemma scan_le_length (p : list Z) (a : Z) : (scan p a <= length p)%nat.
Proof.
  induction p as [|x p IH]; cbn [scan length]; [lia|].
  destruct (Z.abs x =? Z.abs a); lia.
Qed.

Lemma scan_from_le_length (p : list Z) (n : nat) (a : Z) :
  (n <= length p)%nat -> (scan_from p n a <= length p)%nat.
Proof.
  intros Hn. unfold scan_from. pose proof (scan_le_length (drop n p) a) as Hs.
  rewrite length_drop in Hs. lia.
Qed.

Lemma In_drop {A : Type} (n : nat) (l : list A) (x : A) : In x (drop n l) -> In x l.
Proof.
  intros Hin. apply list_elem_of_In. apply list_elem_of_In in Hin.
  rewrite <- (take_drop n l). apply elem_of_app. right. exact Hin.
Qed.

Lemma In_take {A : Type} (n : nat) (l : list A) (x : A) : In x (take n l) -> In x l.
Proof.
  intros Hin. apply list_elem_of_In. apply list_elem_of_In in Hin.
  rewrite <- (take_drop n l). apply elem_of_app. left. exact Hin.
Qed.

Lemma scan_from_found (p : list Z) (n : nat) (a : Z) :
  (scan_from p n a < length p)%nat -> exists x, In x p /\ Z.abs x = Z.abs a.
Proof.
  unfold scan_from. intros Hlt.
  destruct (scan_found (drop n p) a) as (x & Hx & E).
  { rewrite length_drop. lia. }
  exists x. split; [apply (In_drop n), Hx|exact E].
Qed.

Lemma same_side_in (p : list Z) (n1 n2 : nat) (b j : Z) :
  In j (same_side p n1 n2 b) -> exists x, In x p /\ j = Z.abs x.
Proof.
  unfold same_side. intros Hin. apply list_elem_of_In, list_elem_of_fmap in Hin.
  destruct Hin as (x & -> & Hx). exists x. split; [|reflexivity].
  apply list_elem_of_filter in Hx. destruct Hx as [_ Hx]. apply list_elem_of_In in Hx.
  apply (In_drop n1), (In_take (n2 - n1)), Hx.
Qed.

Lemma set_slice_twice (S : Z) (x y : slice_t) (k : mesh) :
  set_slice S y (set_slice S x k) = set_slice S y k.
Proof. unfold set_slice. cbn. f_equal. apply list_insert_insert_eq. Qed.

Lemma set_slice_same (S : Z) (x : slice_t) (k : mesh) :
  slices k !! Z.to_nat S = Some x -> set_slice S (Slice (sl x) (sr x) (sp x)) k = k.
Proof.
  intros Hx. unfold set_slice. destruct k as [ss p ps b t], x as [l r q]. cbn in *.
  f_equal. apply list_insert_id, Hx.
Qed.

Lemma slice_unfold (g : grid) (S l r : Z) (k : mesh) :
  slice g S l r k
  = if W g * 4 <=? S then quiet (Fatal "Bad render %d")
    else
      do* x := quiet (slice_at (slices k) S) in
      do* k := slice_new g S l r k x in
      slice_advance g S l r k.
Proof. reflexivity. Qed.

Lemma set_slice_bounded (g : grid) (S l r : Z) (x : slice_t) (k : mesh) :
  slices k !! Z.to_nat S = Some x -> bounded g k ->
  bounded g (set_slice S (Slice l r (sp x)) k).
Proof.
  intros Hx (Hb & HP & Hn & Hall). unfold bounded, set_slice. cbn [bottom P slices].
  split; [exact Hb|]. split; [exact HP|]. split; [rewrite length_insert; exact Hn|].
  apply Forall_insert; [exact Hall|]. cbn [sp].
  rewrite Forall_forall in Hall. apply Hall. apply list_elem_of_lookup. eauto.
Qed.

Lemma bounded_slice (g : grid) (k : mesh) (S : nat) (x : slice_t) (a : Z) :
  bounded g k -> slices k !! S = Some x ->
  (exists i, In i (sp x) /\ Z.abs i = Z.abs a) -> 0 <= Z.abs a < P k.
Proof.
  intros (_ & _ & _ & Hall) Hx (i & Hi & E). rewrite Forall_forall in Hall.
  specialize (Hall x ltac:(apply list_elem_of_lookup; eauto)).
  rewrite Forall_forall in Hall. specialize (Hall i (proj2 (list_elem_of_In _ _) Hi)). lia.
Qed.

Lemma bounded_same_side (g : grid) (k : mesh) (S : nat) (x : slice_t) (n1 n2 : nat) (b : Z) :
  bounded g k -> slices k !! S = Some x ->
  Forall (fun j => 0 <= j < P k) (same_side (sp x) n1 n2 b).
Proof.
  intros Hb Hx. apply Forall_forall. intros j Hj. apply list_elem_of_In in Hj.
  destruct (same_side_in _ _ _ _ _ Hj) as (i & Hi & ->).
  apply (bounded_slice g k S x i Hb Hx). eauto.
Qed.

Lemma slice_new_spec (g : grid) (S l r : Z) (k : mesh) (x : slice_t)
    (o : list out) (k' : mesh) :
  0 < W g -> 0 <= S < W g * 4 -> slices k !! Z.to_nat S = Some x ->
  slice_new g S l r k x = (o, Ok k') ->
  (exists x', slices k' !! Z.to_nat S = Some x' /\ sp x' = sp x
              /\ forall y, set_slice S y k' = set_slice S y k)
  /\ (bounded g k -> faces_in (P k) o /\ bounded g k').
Proof.
  intros HW HS Hx. unfold slice_new. cbv zeta.
  destruct (sl x =? 0); cbn [ebind print eret app].
  - intros [= <- <-]. split.
    + eexists. split.
      * unfold set_slice. cbn [slices]. apply list_lookup_insert_eq.
        apply lookup_lt_Some in Hx. exact Hx.
      * split; [reflexivity|]. intros y. apply set_slice_twice.
    + intros Hb. split; [|apply set_slice_bounded; assumption].
      destruct Hb as (Hb & HP & _).
      pose proof (Z.rem_bound_pos (S + 1) (W g * 4) ltac:(lia) ltac:(lia)) as Hr.
      rewrite Hb. repeat constructor; destruct (l <? 0); destruct (r <? 0); lia.
  - intros [= <- <-]. split.
    + exists x. split; [exact Hx|]. split; reflexivity.
    + intros Hb. split; [constructor|exact Hb].
Qed.

Lemma slice_advance_spec (g : grid) (S l r : Z) (k : mesh) (x : slice_t)
    (o : list out) (k' : mesh) :
  0 < W g -> 0 <= S < W g * 4 -> slices k !! Z.to_nat S = Some x ->
  slice_advance g S l r k = (o, Ok k') ->
  k' = set_slice S (Slice l r (sp x)) k
  /\ (bounded g k -> faces_in (P k) o).
Proof.
  intros HW HS Hx. unfold slice_advance. cbv zeta.
  assert (Ex : slice_at (slices k) S = Ok x) by (apply slice_at_ok; split; [lia|exact Hx]).
  rewrite Ex. cbn [quiet ebind app].
  destruct ((l =? sl x) && (r =? sr x)) eqn:Esame.
  { intros [= <- <-]. split; [|intros _; constructor].
    apply andb_true_iff in Esame as [E1 E2]. apply Z.eqb_eq in E1, E2. subst l r.
    symmetry. apply set_slice_same, Hx. }
  set (n1 := scan (sp x) (sl x)). set (n2 := scan_from (sp x) n1 l).
  destruct (Nat.eqb_spec n1 (length (sp x))) as [|Hn1]; cbn [orb quiet]; [discriminate|].
  destruct (Nat.eqb_spec n2 (length (sp x))) as [|Hn2]; cbn [orb quiet]; [discriminate|].
  set (ls := same_side (sp x) n1 n2 (sl x)).
  pose proof (Z.rem_bound_pos (S + 1) (W g * 4) ltac:(lia) ltac:(lia)) as Hr.
  set (SR := Z.rem (S + 1) (W g * 4)) in *.
  assert (Hfound1 : exists i, In i (sp x) /\ Z.abs i = Z.abs (sl x)).
  { apply scan_found. fold n1. pose proof (scan_le_length (sp x) (sl x)) as Hle.
    fold n1 in Hle. lia. }
  assert (Hfound2 : exists i, In i (sp x) /\ Z.abs i = Z.abs l).
  { apply (scan_from_found (sp x) n1). fold n2.
    pose proof (scan_le_length (sp x) (sl x)) as Hle1. fold n1 in Hle1.
    pose proof (scan_from_le_length (sp x) n1 l Hle1) as Hle. fold n2 in Hle. lia. }
  destruct (slice_at (slices k) SR) as [xr| | |] eqn:Exr.
  2-4: destruct ls; cbn [ebind print eret quiet]; discriminate.
  apply slice_at_ok in Exr as [_ Exr].
  set (m1 := scan (sp xr) (sr x)). set (m2 := scan_from (sp xr) m1 r).
  destruct (Nat.eqb_spec m1 (length (sp xr))) as [|Hm1].
  { destruct ls; cbn [ebind print eret quiet orb app]; discriminate. }
  destruct (Nat.eqb_spec m2 (length (sp xr))) as [|Hm2].
  { destruct ls; cbn [ebind print eret quiet orb app]; discriminate. }
  assert (Hfound3 : exists i, In i (sp xr) /\ Z.abs i = Z.abs r).
  { apply (scan_from_found (sp xr) m1). fold m2.
    pose proof (scan_le_length (sp xr) (sr x)) as Hle1. fold m1 in Hle1.
    pose proof (scan_from_le_length (sp xr) m1 r Hle1) as Hle. fold m2 in Hle. lia. }
  set (rs := rev (same_side (sp xr) m1 m2 (sr x))).
  assert (Hrange : bounded g k ->
            0 <= Z.abs l < P k /\ 0 <= Z.abs r < P k /\ 0 <= Z.abs (sl x) < P k
            /\ Forall (fun j => 0 <= j < P k) ls /\ Forall (fun j => 0 <= j < P k) rs).
  { intros Hb.
    split; [apply (bounded_slice g k _ x l Hb Hx Hfound2)|].
    split; [apply (bounded_slice g k _ xr r Hb Exr Hfound3)|].
    split; [apply (bounded_slice g k _ x (sl x) Hb Hx Hfound1)|].
    split; [apply (bounded_same_side g k _ x _ _ _ Hb Hx)|].
    apply Forall_rev, (bounded_same_side g k _ xr _ _ _ Hb Exr). }
  destruct ls as [|j ls'] eqn:Els; cbn [ebind print eret quiet orb app].
  - intros [= <- <-]. split; [reflexivity|]. intros Hb.
    destruct (Hrange Hb) as (H1 & H2 & H3 & H4 & H5).
    constructor; [|constructor]. constructor; [exact H1|]. constructor; [exact H2|exact H5].
  - destruct (m1 <? m2)%nat; cbn [ebind print eret app]; intros [= <- <-];
      (split; [reflexivity|]); intros Hb;
      destruct (Hrange Hb) as (H1 & H2 & H3 & H4 & H5).
    + constructor; [|constructor; [|constructor]].
      * apply (Forall_app_2 _ (j :: ls') [Z.abs l; Z.abs r]); [exact H4|].
        constructor; [exact H1|]. constructor; [exact H2|constructor].
      * constructor; [exact H2|]. apply Forall_app_2; [exact H5|].
        constructor; [exact H3|constructor].
    + constructor; [|constructor].
      apply (Forall_app_2 _ (j :: ls') [Z.abs l; Z.abs r]); [exact H4|].
      constructor; [exact H1|]. constructor; [exact H2|constructor].
Qed.

(** The post-condition of a run of steps from those of each. *)
Ltac carried :=
  split; [assumption|split; [assumption|split; [assumption|repeat split; congruence]]].

Lemma slice_spec (g : grid) (S l r : Z) (k : mesh) (o : list out) (k' : mesh) :
  0 < W g ->
  slice g S l r k = (o, Ok k') ->
  0 <= S < W g * 4
  /\ (exists x, slices k !! Z.to_nat S = Some x /\ k' = set_slice S (Slice l r (sp x)) k)
  /\ (bounded g k -> faces_in (P k) o).
Proof.
  intros HW. rewrite slice_unfold.
  destruct (Z.leb_spec (W g * 4) S) as [|HS]; [discriminate|].
  destruct (slice_at (slices k) S) as [x| | |] eqn:Ex; cbn [quiet ebind]; try discriminate.
  apply slice_at_ok in Ex as [HS0 Ex].
  destruct (slice_new g S l r k x) as [o1 [k1| | |]] eqn:En; cbn [ebind]; try discriminate.
  destruct (slice_advance g S l r k1) as [o2 r2] eqn:Ea. cbn [app]. intros [= <- ->].
  destruct (slice_new_spec g S l r k x o1 k1 HW ltac:(lia) Ex En)
    as [(x1 & Hx1 & Hsp & Hset) Hnew].
  destruct (slice_advance_spec g S l r k1 x1 o2 k' HW ltac:(lia) Hx1 Ea) as [-> Hadv].
  split; [lia|]. split.
  - exists x. split; [exact Ex|]. rewrite Hsp. apply Hset.
  - intros Hb. destruct (Hnew Hb) as [Hf1 Hb1]. apply Forall_app. split; [exact Hf1|].
    assert (HP : P k1 = P k).
    { pose proof (f_equal P (Hset x)) as E. exact E. }
    rewrite <- HP. apply Hadv, Hb1.
Qed.

(** A step of "Make faces": the faces stay in range and the points are not
    touched. *)
Lemma slice_faces (g : grid) (n S l r : Z) (pre : list out) (k : mesh) :
  0 < W g -> faces_in n pre -> bounded g k -> P k = n ->
  eafter pre (slice g S l r k) (fun out k' =>
    faces_in n out /\ bounded g k' /\ P k' = n /\ top k' = top k
    /\ bottom k' = bottom k /\ pstart k' = pstart k).
Proof.
  intros HW Hpre Hb HP o k' Hs.
  destruct (slice_spec g S l r k o k' HW Hs) as (HS & (x & Hx & ->) & Hf).
  split; [apply Forall_app; split; [exact Hpre|rewrite <- HP; apply Hf, Hb]|].
  split; [apply set_slice_bounded; assumption|]. repeat split; assumption.
Qed.

Lemma slice_calls_faces (g : grid) (n : Z) (calls : list (Z * Z * Z)) :
  0 < W g ->
  forall (pre : list out) (k : mesh),
    faces_in n pre -> bounded g k -> P k = n ->
    eafter pre (slice_calls g calls k) (fun out k' =>
      faces_in n out /\ bounded g k' /\ P k' = n /\ top k' = top k
      /\ bottom k' = bottom k /\ pstart k' = pstart k).
Proof.
  intros HW. induction calls as [|[[i l] r] calls IH]; intros pre k Hpre Hb HP;
    cbn [slice_calls].
  - apply eafter_ret. carried.
  - eapply eafter_bind; [apply (slice_faces g n i l r pre k HW Hpre Hb HP)|].
    cbn beta. intros out k1 (H1 & H2 & H3 & H4 & H5 & H6).
    eapply eafter_weaken; [apply (IH out k1 H1 H2 H3)|].
    cbn beta. intros out' k2 (G1 & G2 & G3 & G4 & G5 & G6).
    carried.
Qed.

Lemma cell_faces_faces (g : grid) (m : maze_t) (n X Y : Z) (pre : list out) (k : mesh) :
  0 < W g -> faces_in n pre -> bounded g k -> P k = n ->
  eafter pre (cell_faces g m X Y k) (fun out k' =>
    faces_in n out /\ bounded g k' /\ P k' = n /\ top k' = top k
    /\ bottom k' = bottom k /\ pstart k' = pstart k).
Proof.
  intros HW Hpre Hb HP. unfold cell_faces.
  apply (eafter_bind pre _ _ (fun out v => out = pre)).
  { apply eafter_quiet. reflexivity. }
  intros out v ->.
  destruct ((Z.land v FLAGA =? 0) || has v FLAGI).
  { apply eafter_ret. carried. }
  eapply eafter_bind; [apply (slice_calls_faces g n _ HW pre k Hpre Hb HP)|].
  cbn beta. intros out k1 (H1 & H2 & H3 & H4 & H5 & H6).
  destruct (if W g <=? X + 1 then _ else _) as [x y].
  destruct ((0 <=? y) && (y <? H g)).
  - destruct (default 0 (pstart k1 !! (x, y)) =? 0).
    + apply eafter_ret. carried.
    + eapply eafter_weaken; [apply (slice_calls_faces g n _ HW out k1 H1 H2 H3)|].
      cbn beta. intros out' k2 (G1 & G2 & G3 & G4 & G5 & G6). carried.
  - apply eafter_ret. carried.
Qed.

Lemma top_faces_faces (g : grid) (n S : Z) (pre : list out) (k : mesh) :
  0 < W g -> faces_in n pre -> bounded g k -> P k = n ->
  eafter pre (top_faces g S k) (fun out k' =>
    faces_in n out /\ bounded g k' /\ P k' = n /\ top k' = top k
    /\ bottom k' = bottom k /\ pstart k' = pstart k).
Proof.
  intros HW Hpre Hb HP. unfold top_faces. cbv zeta.
  apply (eafter_bind pre _ _ (fun out x => out = pre)).
  { apply eafter_quiet. reflexivity. }
  intros out x ->.
  eapply eafter_bind; [apply (slice_faces g n _ _ _ pre k HW Hpre Hb HP)|].
  cbn beta. intros out1 k1 (H1 & H2 & H3 & H4 & H5 & H6).
  eapply eafter_bind; [apply (slice_faces g n _ _ _ out1 k1 HW H1 H2 H3)|].
  cbn beta. intros out2 k2 (G1 & G2 & G3 & G4 & G5 & G6).
  eapply eafter_bind; [apply (slice_faces g n _ _ _ out2 k2 HW G1 G2 G3)|].
  cbn beta. intros out3 k3 (F1 & F2 & F3 & F4 & F5 & F6).
  eapply eafter_weaken; [apply (slice_faces g n _ _ _ out3 k3 HW F1 F2 F3)|].
  cbn beta. intros out4 k4 (E1 & E2 & E3 & E4 & E5 & E6). carried.
Qed.

Lemma make_faces_faces (g : grid) (m : maze_t) (k : mesh) :
  0 < W g -> 0 <= H g -> bounded g k ->
  eafter [] (make_faces g m k) (fun out k' =>
    faces_in (P k) out /\ bounded g k' /\ P k' = P k /\ top k' = top k
    /\ bottom k' = bottom k /\ pstart k' = pstart k).
Proof.
  intros HW HH Hb. unfold make_faces.
  set (Q := fun (out : list out) (k' : mesh) =>
              faces_in (P k) out /\ bounded g k' /\ P k' = P k /\ top k' = top k
              /\ bottom k' = bottom k /\ pstart k' = pstart k).
  assert (Hweak : forall (e : emit mesh) pre k1,
             Q pre k1 ->
             eafter pre e (fun out k' =>
               faces_in (P k) out /\ bounded g k' /\ P k' = P k /\ top k' = top k1
               /\ bottom k' = bottom k1 /\ pstart k' = pstart k1) ->
             eafter pre e Q).
  { intros e pre k1 (H1 & H2 & H3 & H4 & H5 & H6) He.
    eapply eafter_weaken; [exact He|]. cbn beta.
    intros out k' (G1 & G2 & G3 & G4 & G5 & G6). carried. }
  assert (Q0 : Q [] k) by (split; [constructor|split; [exact Hb|repeat split; reflexivity]]).
  eapply eafter_bind.
  - apply (eafter_for_range_same Q); [exact HH|exact Q0|].
    intros Y out t _ Ht. apply (eafter_for_range_same Q); [lia|exact Ht|].
    intros X out' t' _ Ht'. apply (Hweak _ _ t' Ht').
    destruct Ht' as (H1 & H2 & H3 & _). apply cell_faces_faces; assumption.
  - intros out k1 Hk1. apply (eafter_for_range_same Q); [lia|exact Hk1|].
    intros S out' t' _ Ht'. apply (Hweak _ _ t' Ht').
    destruct Ht' as (H1 & H2 & H3 & _). apply top_faces_faces; assumption.
Qed.

Lemma indexed_bounded (g : grid) (pts : list out) (k : mesh) :
  indexed g pts k -> ringed g pts k -> bounded g k.
Proof.
  intros (Hlen & Hn & _ & Hidx) (Hb & Ht & HP & _).
  split; [exact Hb|]. split; [lia|]. split; [exact Hn|].
  apply Forall_forall. intros x Hx. apply Forall_forall. intros i Hi.
  apply list_elem_of_lookup in Hx as [S Hx].
  destruct (Hidx (Z.of_nat S) x i ltac:(lia)) as (layer & E & _).
  - rewrite Nat2Z.id. exact Hx.
  - apply list_elem_of_In, Hi.
  - apply lookup_lt_Some in E. lia.
Qed.

(** *** No access outside the slices *)

Lemma slice_at_in_range (g : grid) (k : mesh) (S : Z) :
  sliced g k -> 0 <= S < W g * 4 -> exists x, slice_at (slices k) S = Ok x.
Proof.
  intros Hk HS. destruct (lookup_lt_is_Some_2 (slices k) (Z.to_nat S)) as [x Hx].
  { rewrite Hk. lia. }
  exists x. apply slice_at_ok. split; [lia|exact Hx].
Qed.

Lemma addpoint_safe (g : grid) (o : options) (recess : bool) (S layer : Z) (k : mesh) :
  sliced g k -> 0 <= S < W g * 4 ->
  esafe points_messages (addpoint o recess S layer k) (sliced g).
Proof.
  intros Hk HS. unfold addpoint.
  destruct (slice_at_in_range g k S Hk HS) as [x ->]. cbn [quiet ebind print].
  destruct (MAXY o <=? Z.of_nat (length (sp x))); cbn [quiet eret].
  - left. reflexivity.
  - unfold esafe, sliced, set_slice. cbn. rewrite length_insert. exact Hk.
Qed.

Lemma addpoints_safe (g : grid) (o : options) (recess : bool) (layer lo hi : Z) (k : mesh) :
  sliced g k -> 0 <= lo -> hi <= W g * 4 ->
  esafe points_messages (addpoints o recess layer lo hi k) (sliced g).
Proof.
  intros Hk Hlo Hhi. apply esafe_for_range; [exact Hk|].
  intros j t Hj Ht. apply addpoint_safe; [exact Ht|lia].
Qed.

Lemma wrap_back_safe (g : grid) (o : options) (S : Z) (k : mesh) :
  sliced g k -> 0 <= S < W g * 4 ->
  esafe points_messages (wrap_back o S k) (sliced g).
Proof.
  intros Hk HS. unfold wrap_back.
  destruct (slice_at_in_range g k S Hk HS) as [x ->]. cbn [quiet ebind].
  destruct (MAXY o <=? Z.of_nat (length (sp x))); cbn [quiet eret].
  - right. left. reflexivity.
  - unfold esafe, sliced, set_slice. cbn. rewrite length_insert. exact Hk.
Qed.

Lemma cell_points_safe (g : grid) (o : options) (m : maze_t) (X Y : Z) (k : mesh) :
  0 < W g -> 0 < nubs g -> sliced g k -> 0 <= X < W g ->
  esafe points_messages (cell_points g o m X Y k) (sliced g).
Proof.
  intros HW Hn Hk HX. unfold cell_points. rewrite test_spec by assumption.
  eapply esafe_bind; [apply (esafe_quiet _ _ (fun _ => True)); exact I|]. intros v _.
  destruct ((Z.land _ FLAGA =? 0) || negb (Z.land _ FLAGI =? 0)); [exact Hk|].
  repeat (eapply esafe_bind; [apply addpoints_safe; [eassumption|lia|lia]|]; intros ? ?).
  apply addpoints_safe; [eassumption|lia|lia].
Qed.

Lemma make_points_safe (g : grid) (o : options) (m : maze_t) :
  0 < W g -> 0 < nubs g ->
  esafe points_messages (make_points g o m) (sliced g).
Proof.
  intros HW Hn. unfold make_points. cbv zeta. cbn [P slices pstart bottom top].
  assert (H0 : sliced g (Mesh (replicate (Z.to_nat (W g * 4)) (Slice 0 0 [])) 0 ∅ 0 0))
    by apply length_replicate.
  repeat (eapply esafe_bind; [apply addpoints_safe; [eassumption|lia|lia]|]; intros ? ?).
  eapply esafe_bind.
  { apply esafe_for_range; [eassumption|]. intros Y t _ Ht.
    apply esafe_for_range; [exact Ht|]. intros X t' HX Ht'.
    apply cell_points_safe; assumption. }
  intros k4 Hk4.
  assert (Hk5 : sliced g (Mesh (slices k4) (P k4) (pstart k4) (bottom k4) (P k4)))
    by exact Hk4.
  repeat (eapply esafe_bind; [apply addpoints_safe; [eassumption|lia|lia]|]; intros ? ?).
  apply esafe_for_range; [eassumption|]. intros S t HS Ht. apply wrap_back_safe; assumption.
Qed.

Lemma increasing_nil : increasing [].
Proof. intros i j a b Hi. rewrite lookup_nil in Hi. discriminate. Qed.

Lemma increasing_snoc (p : list Z) (c : Z) :
  increasing p -> Forall (fun i => Z.abs i < Z.abs c) p -> increasing (p ++ [c]).
Proof.
  intros Hinc Hall i j a b Hi Hj Hij.
  assert (Hjl : (j < length (p ++ [c]))%nat) by (apply lookup_lt_Some in Hj; exact Hj).
  rewrite length_app in Hjl. cbn [length] in Hjl.
  rewrite lookup_app_l in Hi by lia.
  destruct (decide (j < length p)%nat) as [Hlt|Hge].
  - rewrite lookup_app_l in Hj by exact Hlt. apply (Hinc i j); assumption.
  - rewrite lookup_app_r in Hj by lia.
    replace (j - length p)%nat with O in Hj by lia. injection Hj as <-.
    rewrite Forall_forall in Hall. apply Hall. apply list_elem_of_lookup. eauto.
Qed.

Lemma holds_set_slice (k : mesh) (S : Z) (x y : slice_t) (S' i : Z) :
  0 <= S -> slices k !! Z.to_nat S = Some x -> (forall j, In j (sp x) -> In j (sp y)) ->
  holds k S' i -> holds (set_slice S y k) S' i.
Proof.
  intros HS Hx Hsub (HS' & x' & Hx' & Hi). split; [exact HS'|].
  unfold set_slice. cbn [slices].
  destruct (decide (Z.to_nat S = Z.to_nat S')) as [E|Hne].
  - exists y. rewrite <- E. split.
    + apply list_lookup_insert_eq. apply lookup_lt_Some in Hx. exact Hx.
    + apply Hsub. rewrite <- E in Hx'. congruence.
  - exists x'. split; [|exact Hi]. rewrite list_lookup_insert_ne by exact Hne. exact Hx'.
Qed.

Lemma addpoint_grows (g : grid) (o : options) (recess : bool) (S layer : Z)
    (pre : list out) (k : mesh) :
  growing g k ->
  eafter pre (addpoint o recess S layer k) (fun _ k' =>
    growing g k' /\ P k' = P k + 1 /\ bottom k' = bottom k /\ top k' = top k
    /\ pstart k' = pstart k
    /\ holds k' S (if recess then - P k else P k)
    /\ forall S' i, holds k S' i -> holds k' S' i).
Proof.
  intros (Hn & HP & Hall) out k'. unfold addpoint.
  destruct (slice_at (slices k) S) as [x| | |] eqn:Ex; cbn [quiet ebind print];
    try discriminate.
  apply slice_at_ok in Ex as [HS Ex].
  destruct (MAXY o <=? Z.of_nat (length (sp x))); cbn [quiet eret]; [discriminate|].
  intros [= <- <-].
  pose proof (lookup_lt_Some _ _ _ Ex) as Hlt.
  set (i0 := if recess then - P k else P k).
  assert (Hi0 : Z.abs i0 = P k) by (subst i0; destruct recess; lia).
  set (y := Slice (sl x) (sr x) (sp x ++ [i0])).
  assert (Hh : forall S' i, holds k S' i -> holds (set_slice S y k) S' i).
  { intros S' i. apply (holds_set_slice k S x y); [exact HS|exact Ex|].
    intros j Hj. cbn [y sp]. apply in_or_app. left. exact Hj. }
  split; [|split; [reflexivity|split; [reflexivity|split;
    [reflexivity|split; [reflexivity|split]]]]].
  - split; [cbn [slices set_slice]; rewrite length_insert; exact Hn|].
    split; [cbn [P]; lia|]. cbn [slices set_slice P].
    intros S1 x1 Hx1. destruct (decide (Z.to_nat S = S1)) as [<-|Hne].
    + rewrite list_lookup_insert_eq in Hx1 by exact Hlt. injection Hx1 as <-.
      cbn [y sl sr sp]. destruct (Hall _ _ Ex) as (Hl & Hr & Hinc & Hb).
      split; [exact Hl|]. split; [exact Hr|]. split.
      * apply increasing_snoc; [exact Hinc|].
        eapply Forall_impl; [exact Hb|]. cbn beta. intros i Hi. lia.
      * apply Forall_app. split.
        -- eapply Forall_impl; [exact Hb|]. cbn beta. intros i Hi. lia.
        -- repeat constructor. lia.
    + rewrite list_lookup_insert_ne in Hx1 by exact Hne.
      destruct (Hall _ _ Hx1) as (Hl & Hr & Hinc & Hb).
      split; [exact Hl|]. split; [exact Hr|]. split; [exact Hinc|].
      eapply Forall_impl; [exact Hb|]. cbn beta. intros i Hi. lia.
  - split; [exact HS|]. exists y. split.
    + cbn [slices set_slice]. apply list_lookup_insert_eq. exact Hlt.
    + cbn [y sp]. apply in_or_app. right. left. reflexivity.
  - exact Hh.
Qed.

(** A ring or a row of points: slice [S] gets the index [P + (S - lo)]. *)
Lemma addpoints_grows (g : grid) (o : options) (recess : bool) (layer lo hi : Z)
    (pre : list out) (k : mesh) :
  lo <= hi -> growing g k ->
  eafter pre (addpoints o recess layer lo hi k) (fun _ k' =>
    growing g k' /\ P k' = P k + (hi - lo) /\ bottom k' = bottom k /\ top k' = top k
    /\ pstart k' = pstart k
    /\ (forall S, lo <= S < hi ->
          holds k' S (if recess then - (P k + (S - lo)) else P k + (S - lo)))
    /\ forall S' i, holds k S' i -> holds k' S' i).
Proof.
  intros Hle Hg. unfold addpoints.
  apply (eafter_for_range (fun j (_ : list out) k' =>
    growing g k' /\ P k' = P k + (j - lo) /\ bottom k' = bottom k /\ top k' = top k
    /\ pstart k' = pstart k
    /\ (forall S, lo <= S < j ->
          holds k' S (if recess then - (P k + (S - lo)) else P k + (S - lo)))
    /\ forall S' i, holds k S' i -> holds k' S' i)).
  - exact Hle.
  - split; [exact Hg|]. split; [lia|]. split; [reflexivity|]. split; [reflexivity|].
    split; [reflexivity|]. split; [intros S HS; lia|]. intros S' i Hi. exact Hi.
  - intros j out t Hj (Ht & HP & Hb & Htop & Hps & Hnew & Hold).
    eapply eafter_weaken; [apply (addpoint_grows g o recess j layer out t Ht)|].
    cbn beta. intros out' t' (Ht' & HP' & Hb' & Htop' & Hps' & Hj' & Hold').
    split; [exact Ht'|]. split; [lia|]. split; [congruence|]. split; [congruence|].
    split; [congruence|]. split.
    + intros S HS. destruct (Z.eq_dec S j) as [->|Hne].
      * rewrite HP in Hj'. exact Hj'.
      * apply Hold', Hnew. lia.
    + intros S' i Hi. apply Hold', Hold, Hi.
Qed.

Lemma rendered_spec (g : grid) (m : maze_t) (X Y : Z) :
  0 < W g -> 0 < nubs g ->
  exists v, test g m X Y = Ok v
            /\ (Z.land v FLAGA =? 0) || negb (Z.land v FLAGI =? 0) = negb (rendered g m X Y)
            /\ (Z.land v FLAGA =? 0) || has v FLAGI = negb (rendered g m X Y).
Proof.
  intros HW Hn. exists (group_flags g m X Y). split; [apply test_spec; assumption|].
  unfold rendered, has. cbv zeta. rewrite negb_involutive. split; reflexivity.
Qed.

(** "Points for each maze location", at (X, Y). *)
Lemma cell_points_grows (g : grid) (o : options) (m : maze_t) (X Y : Z)
    (pre : list out) (k : mesh) :
  0 < W g -> 0 < nubs g -> growing g k ->
  eafter pre (cell_points g o m X Y k) (fun _ k' =>
    growing g k' /\ bottom k' = bottom k /\ top k' = top k
    /\ (forall S i, holds k S i -> holds k' S i)
    /\ if rendered g m X Y
       then pstart k' = <[(X, Y) := P k]> (pstart k) /\ P k' = P k + 16 /\ block k' X (P k)
       else k' = k).
Proof.
  intros HW Hn Hg. unfold cell_points.
  destruct (rendered_spec g m X Y HW Hn) as (v & -> & Hc & _).
  apply eafter_bind with (Q := fun _ a => a = v).
  { intros o0 a [= <- <-]. reflexivity. }
  intros out0 a ->. rewrite Hc. destruct (rendered g m X Y); cbn [negb].
  2:{ apply eafter_ret. split; [exact Hg|]. split; [reflexivity|]. split; [reflexivity|].
      split; [intros S i Hi; exact Hi|reflexivity]. }
  set (k0 := Mesh (slices k) (P k) (<[(X, Y) := P k]> (pstart k)) (bottom k) (top k)).
  assert (Hg0 : growing g k0) by exact Hg.
  assert (Hh0 : forall S i, holds k S i -> holds k0 S i) by (intros S i Hi; exact Hi).
  eapply eafter_bind; [apply (addpoints_grows g o false 2 (X * 4) (X * 4 + 4) _ k0); [lia|exact Hg0]|].
  cbn beta. intros out1 k1 (G1 & P1 & B1 & T1 & S1 & N1 & O1).
  eapply eafter_bind; [apply (addpoints_grows g o true 1 (X * 4) (X * 4 + 4) _ k1); [lia|exact G1]|].
  cbn beta. intros out2 k2 (G2 & P2 & B2 & T2 & S2 & N2 & O2).
  eapply eafter_bind; [apply (addpoints_grows g o true 1 (X * 4) (X * 4 + 4) _ k2); [lia|exact G2]|].
  cbn beta. intros out3 k3 (G3 & P3 & B3 & T3 & S3 & N3 & O3).
  eapply eafter_weaken; [apply (addpoints_grows g o false 2 (X * 4) (X * 4 + 4) _ k3); [lia|exact G3]|].
  cbn beta. intros out4 k4 (G4 & P4 & B4 & T4 & S4 & N4 & O4).
  cbn [P bottom top pstart k0] in *.
  split; [exact G4|]. split; [congruence|]. split; [congruence|]. split.
  { intros S i Hi. apply O4, O3, O2, O1, Hh0, Hi. }
  split; [congruence|]. split; [lia|].
  intros j Hj.
  specialize (N1 (X * 4 + j) ltac:(lia)). specialize (N2 (X * 4 + j) ltac:(lia)).
  specialize (N3 (X * 4 + j) ltac:(lia)). specialize (N4 (X * 4 + j) ltac:(lia)).
  cbn beta iota in N1, N2, N3, N4.
  replace (P k + (X * 4 + j - X * 4)) with (P k + j) in N1 by lia.
  replace (P k1 + (X * 4 + j - X * 4)) with (P k + 4 + j) in N2 by lia.
  replace (P k2 + (X * 4 + j - X * 4)) with (P k + 8 + j) in N3 by lia.
  replace (P k3 + (X * 4 + j - X * 4)) with (P k + 12 + j) in N4 by lia.
  split; [apply O4, O3, O2, N1|]. split; [apply O4, O3, N2|]. split; [apply O4, N3|exact N4].
Qed.

Lemma block_kept (k k' : mesh) (X Pc : Z) :
  (forall S i, holds k S i -> holds k' S i) -> block k X Pc -> block k' X Pc.
Proof.
  intros Hh Hb j Hj. destruct (Hb j Hj) as (H1 & H2 & H3 & H4).
  split; [apply Hh, H1|]. split; [apply Hh, H2|]. split; [apply Hh, H3|apply Hh, H4].
Qed.

Lemma celled_kept (g : grid) (m : maze_t) (k k' : mesh) (Xc Yc lim lim' : Z) :
  (forall S i, holds k S i -> holds k' S i) -> pstart k' = pstart k -> lim <= lim' ->
  celled g m k Xc Yc lim -> celled g m k' Xc Yc lim'.
Proof.
  intros Hh Hps Hl (C1 & C2 & C3). unfold celled. rewrite Hps.
  split; [|split; assumption].
  intros X Y Pc Hp. destruct (C1 X Y Pc Hp) as (G1 & G2 & G3 & G4 & G5 & G6 & G7).
  split; [exact G1|]. split; [exact G2|]. split; [exact G3|]. split; [exact G4|].
  split; [exact G5|]. split; [lia|]. apply (block_kept k k'); assumption.
Qed.

(** One cell more. *)
Lemma celled_step (g : grid) (m : maze_t) (k k' : mesh) (X Y : Z) :
  0 <= X < W g -> 0 <= Y < H g -> 3 * (W g * 4) <= P k ->
  (forall S i, holds k S i -> holds k' S i) ->
  (if rendered g m X Y
   then pstart k' = <[(X, Y) := P k]> (pstart k) /\ P k' = P k + 16 /\ block k' X (P k)
   else k' = k) ->
  celled g m k X Y (P k) -> celled g m k' (X + 1) Y (P k').
Proof.
  intros HX HY HP Hh Hr (C1 & C2 & C3).
  destruct (rendered g m X Y) eqn:Er.
  - destruct Hr as (Hps & HP' & Hb). unfold celled. rewrite Hps. split; [|split].
    + intros X1 Y1 Pc Hp. apply lookup_insert_Some in Hp as [[[= <- <-] <-]|[Hne Hp]].
      * split; [exact HX|]. split; [exact HY|]. split.
        { rewrite earlier_step, !Z.eqb_refl. apply orb_true_r. }
        split; [exact Er|]. split; [exact HP|]. split; [lia|exact Hb].
      * destruct (C1 X1 Y1 Pc Hp) as (G1 & G2 & G3 & G4 & G5 & G6 & G7).
        split; [exact G1|]. split; [exact G2|]. split.
        { rewrite earlier_step, G3. reflexivity. }
        split; [exact G4|]. split; [exact G5|]. split; [lia|].
        apply (block_kept k k'); assumption.
    + intros X1 Y1 HX1 HY1 He Hr1.
      destruct (decide ((X, Y) = (X1, Y1))) as [E|Hne].
      * rewrite E, lookup_insert_eq. eauto.
      * rewrite lookup_insert_ne by exact Hne. apply C2; try assumption.
        rewrite earlier_step in He. apply orb_true_iff in He as [He|He]; [exact He|].
        apply andb_true_iff in He as [E1 E2]. apply Z.eqb_eq in E1, E2. congruence.
    + intros X1 Y1 Pc1 X2 Y2 Pc2 Hp1 Hp2 He.
      apply lookup_insert_Some in Hp1 as [[[= <- <-] <-]|[Hne1 Hp1]];
        apply lookup_insert_Some in Hp2 as [[[= <- <-] <-]|[Hne2 Hp2]].
      * unfold earlier in He. lia.
      * destruct (C1 _ _ _ Hp2) as (_ & _ & G3 & _). unfold earlier in He, G3. lia.
      * destruct (C1 _ _ _ Hp1) as (_ & _ & _ & _ & _ & G6 & _). lia.
      * apply (C3 _ _ _ _ _ _ Hp1 Hp2 He).
  - subst k'. split; [|split].
    + intros X1 Y1 Pc Hp. destruct (C1 X1 Y1 Pc Hp) as (G1 & G2 & G3 & G4 & G5 & G6 & G7).
      split; [exact G1|]. split; [exact G2|]. split.
      { rewrite earlier_step, G3. reflexivity. }
      split; [exact G4|]. split; [exact G5|]. split; [exact G6|exact G7].
    + intros X1 Y1 HX1 HY1 He Hr1. apply C2; try assumption.
      rewrite earlier_step in He. apply orb_true_iff in He as [He|He]; [exact He|].
      apply andb_true_iff in He as [E1 E2]. apply Z.eqb_eq in E1, E2. congruence.
    + exact C3.
Qed.

(** "Points for each maze location", the two loops. *)
Lemma cells_points_grow (g : grid) (o : options) (m : maze_t) (pre : list out) (k : mesh) :
  0 < W g -> 0 < nubs g -> 0 <= H g -> growing g k -> 3 * (W g * 4) <= P k ->
  pstart k = ∅ ->
  eafter pre (for_range_e 0 (H g) (fun Y k =>
                for_range_e 0 (W g) (fun X k => cell_points g o m X Y k) k) k)
    (fun _ k' =>
       growing g k' /\ bottom k' = bottom k /\ top k' = top k
       /\ (forall S i, holds k S i -> holds k' S i)
       /\ P k <= P k' /\ celled g m k' 0 (H g) (P k')).
Proof.
  intros HW Hn HH Hg HP Hps.
  set (I := fun (Xc Yc : Z) (_ : list out) (k' : mesh) =>
              growing g k' /\ bottom k' = bottom k /\ top k' = top k
              /\ (forall S i, holds k S i -> holds k' S i)
              /\ P k <= P k' /\ celled g m k' Xc Yc (P k')).
  eapply eafter_weaken.
  - apply (eafter_for_range (fun Y => I 0 Y)); [exact HH| |].
    + split; [exact Hg|]. split; [reflexivity|]. split; [reflexivity|].
      split; [intros S i Hi; exact Hi|]. split; [lia|].
      unfold celled. rewrite Hps. split; [|split].
      * intros X Y Pc Hp. rewrite lookup_empty in Hp. discriminate.
      * intros X Y HX HY He. unfold earlier in He. lia.
      * intros X Y Pc X' Y' Pc' Hp. rewrite lookup_empty in Hp. discriminate.
    + intros Y out t HY Ht. eapply eafter_weaken.
      * apply (eafter_for_range (fun X => I X Y)); [lia|exact Ht|].
        intros X out' t' HX (G1 & G2 & G3 & G4 & G5 & G6).
        eapply eafter_weaken; [apply (cell_points_grows g o m X Y out' t' HW Hn G1)|].
        cbn beta. intros out2 t2 (F1 & F2 & F3 & F4 & F5).
        split; [exact F1|]. split; [congruence|]. split; [congruence|].
        split; [intros S i Hi; apply F4, G4, Hi|]. split.
        { destruct (rendered g m X Y); [lia|subst t2; lia]. }
        apply (celled_step g m t' t2 X Y); try assumption; lia.
      * cbn beta. intros out' t' (G1 & G2 & G3 & G4 & G5 & (C1 & C2 & C3)).
        split; [exact G1|]. split; [exact G2|]. split; [exact G3|]. split; [exact G4|].
        split; [exact G5|]. split; [|split; [|exact C3]].
        -- intros X1 Y1 Pc Hp.
           destruct (C1 X1 Y1 Pc Hp) as (F1 & F2 & F3 & F4).
           split; [exact F1|]. split; [exact F2|]. split; [|exact F4].
           rewrite <- (earlier_row_end g) by exact F1. exact F3.
        -- intros X1 Y1 HX1 HY1 He. apply C2; try assumption.
           rewrite (earlier_row_end g) by exact HX1. exact He.
  - cbn beta. intros out k' (G1 & G2 & G3 & G4 & G5 & G6).
    split; [exact G1|]. split; [exact G2|]. split; [exact G3|]. split; [exact G4|].
    split; [exact G5|exact G6].
Qed.

(** "Wrap back to start", when the loop is about to visit slice [Sc] of the
    mesh [k0] that the rings left. *)
Lemma wrap_back_step (o : options) (k0 k : mesh) (Sc : Z) (pre : list out) :
  P k = P k0 /\ bottom k = bottom k0 /\ top k = top k0 /\ pstart k = pstart k0
  /\ (forall S x0, slices k0 !! S = Some x0 ->
        slices k !! S
        = Some (if Z.of_nat S <? Sc then Slice (sl x0) (sr x0) (sp x0 ++ [Z.of_nat S])
                else x0)) ->
  length (slices k) = length (slices k0) ->
  eafter pre (wrap_back o Sc k) (fun _ k' =>
    (P k' = P k0 /\ bottom k' = bottom k0 /\ top k' = top k0 /\ pstart k' = pstart k0
     /\ (forall S x0, slices k0 !! S = Some x0 ->
           slices k' !! S
           = Some (if Z.of_nat S <? Sc + 1
                   then Slice (sl x0) (sr x0) (sp x0 ++ [Z.of_nat S]) else x0)))
    /\ length (slices k') = length (slices k0)).
Proof.
  intros (HP & Hb & Ht & Hps & Hs) Hlen out k'. unfold wrap_back.
  destruct (slice_at (slices k) Sc) as [x| | |] eqn:Ex; cbn [quiet ebind]; try discriminate.
  apply slice_at_ok in Ex as [HS Ex].
  destruct (MAXY o <=? Z.of_nat (length (sp x))); cbn [quiet eret]; [discriminate|].
  intros [= <- <-]. unfold set_slice. cbn [P slices bottom top pstart].
  split; [|rewrite length_insert; exact Hlen].
  repeat (split; [assumption|]).
  pose proof (lookup_lt_Some _ _ _ Ex) as Hlt.
  intros S x0 Hx0. destruct (decide (Z.to_nat Sc = S)) as [<-|Hne].
  - rewrite list_lookup_insert_eq by exact Hlt.
    specialize (Hs _ _ Hx0). rewrite Ex in Hs. injection Hs as Hs.
    rewrite Z2Nat.id in * by exact HS.
    destruct (Z.ltb_spec Sc Sc); [lia|]. destruct (Z.ltb_spec Sc (Sc + 1)); [|lia].
    subst x. reflexivity.
  - rewrite list_lookup_insert_ne by exact Hne. rewrite (Hs _ _ Hx0).
    destruct (Z.ltb_spec (Z.of_nat S) Sc), (Z.ltb_spec (Z.of_nat S) (Sc + 1));
      try reflexivity; lia.
Qed.

(** "Make points", from the zeroed slices to the wrap back. *)
Lemma make_points_laid (g : grid) (o : options) (m : maze_t) :
  0 < W g -> 0 < nubs g -> 0 <= H g ->
  eafter [] (make_points g o m) (fun _ k => laid g m k).
Proof.
  intros HW Hn HH. unfold make_points. cbv zeta. cbn [P slices pstart bottom top].
  set (n := W g * 4).
  set (k0 := Mesh (replicate (Z.to_nat n) (Slice 0 0 [])) 0 ∅ 0 0).
  assert (G0 : growing g k0).
  { split; [apply length_replicate|]. split; [cbn; lia|].
    intros S x Hx. apply lookup_replicate in Hx as [-> _]. cbn [sl sr sp].
    split; [reflexivity|]. split; [reflexivity|]. split; [apply increasing_nil|constructor]. }
  assert (Hring : forall recess layer pre k,
             growing g k ->
             eafter pre (addpoints o recess layer 0 n k) (fun _ k' =>
               growing g k' /\ P k' = P k + n /\ bottom k' = bottom k /\ top k' = top k
               /\ pstart k' = pstart k
               /\ (forall S, 0 <= S < n ->
                     holds k' S (if recess then - (P k + S) else P k + S))
               /\ forall S' i, holds k S' i -> holds k' S' i)).
  { intros recess layer pre k Hk.
    eapply eafter_weaken; [apply (addpoints_grows g o recess layer 0 n pre k); [lia|exact Hk]|].
    cbn beta. intros out k' (F1 & F2 & F3 & F4 & F5 & F6 & F7).
    split; [exact F1|]. split; [lia|]. split; [exact F3|]. split; [exact F4|].
    split; [exact F5|]. split; [|exact F7].
    intros S HS. specialize (F6 S HS). rewrite Z.sub_0_r in F6. exact F6. }
  eapply eafter_bind; [apply (Hring false 0 [] k0 G0)|].
  cbn beta iota. intros out1 k1 (G1 & P1 & B1 & T1 & S1 & N1 & O1).
  eapply eafter_bind; [apply (Hring true 1 out1 k1 G1)|].
  cbn beta iota. intros out2 k2 (G2 & P2 & B2 & T2 & S2 & N2 & O2).
  eapply eafter_bind; [apply (Hring false 2 out2 k2 G2)|].
  cbn beta iota. intros out3 k3 (G3 & P3 & B3 & T3 & S3 & N3 & O3).
  cbn [P bottom top pstart k0] in *.
  eapply eafter_bind.
  { apply (cells_points_grow g o m out3 k3 HW Hn HH G3); [lia|congruence]. }
  cbn beta. intros out4 k4 (G4 & B4 & T4 & O4 & P4 & C4).
  set (k5 := Mesh (slices k4) (P k4) (pstart k4) (bottom k4) (P k4)).
  assert (G5 : growing g k5) by exact G4.
  eapply eafter_bind; [apply (Hring false 2 out4 k5 G5)|].
  cbn beta iota. intros out6 k6 (G6 & P6 & B6 & T6 & S6 & N6 & O6).
  eapply eafter_bind; [apply (Hring false 1 out6 k6 G6)|].
  cbn beta iota. intros out7 k7 (G7 & P7 & B7 & T7 & S7 & N7 & O7).
  eapply eafter_bind; [apply (Hring false 0 out7 k7 G7)|].
  cbn beta iota. intros out8 k8 (G8 & P8 & B8 & T8 & S8 & N8 & O8).
  cbn [P bottom top pstart k5] in *.
  eapply eafter_weaken.
  - apply (eafter_for_range (fun Sc (_ : list out) k =>
      (P k = P k8 /\ bottom k = bottom k8 /\ top k = top k8 /\ pstart k = pstart k8
       /\ (forall S x0, slices k8 !! S = Some x0 ->
             slices k !! S
             = Some (if Z.of_nat S <? Sc then Slice (sl x0) (sr x0) (sp x0 ++ [Z.of_nat S])
                     else x0)))
      /\ length (slices k) = length (slices k8))); [lia| |].
    + split; [|reflexivity]. repeat (split; [reflexivity|]).
      intros S x0 Hx0. destruct (Z.ltb_spec (Z.of_nat S) 0); [lia|exact Hx0].
    + intros Sc out t HSc [Hw Hl]. apply (wrap_back_step o k8 t Sc out Hw Hl).
  - cbn beta. intros out k ((HP & Hb & Ht & Hps & Hs) & Hlen).
    destruct G8 as (Gn & GP & Gall).
    assert (Hh : forall S i, holds k8 S i -> holds k S i).
    { intros S i (HS & x0 & Hx0 & Hi). split; [exact HS|].
      eexists. split; [apply (Hs _ _ Hx0)|].
      destruct (Z.of_nat (Z.to_nat S) <? n); [|exact Hi].
      cbn [sp]. apply in_or_app. left. exact Hi. }
    unfold laid. fold n. rewrite HP, Hb, Ht.
    split; [congruence|]. split; [lia|]. split; [lia|]. split; [rewrite Hlen; exact Gn|].
    split; [|split].
    + intros S x HS Hx.
      assert (Hlt : (Z.to_nat S < length (slices k8))%nat).
      { rewrite <- Hlen. apply lookup_lt_Some in Hx. exact Hx. }
      destruct (lookup_lt_is_Some_2 _ _ Hlt) as [x0 Hx0].
      rewrite (Hs _ _ Hx0) in Hx. rewrite Z2Nat.id in Hx by exact HS.
      destruct (Z.ltb_spec S n); [|lia]. injection Hx as <-. cbn [sl sr sp].
      destruct (Gall _ _ Hx0) as (F1 & F2 & F3 & F4).
      split; [exact F1|]. split; [exact F2|]. exists (sp x0).
      split; [reflexivity|]. split; [exact F3|exact F4].
    + unfold rings. fold n. intros S HS. rewrite Ht, T8, T7, T6.
      specialize (N1 S HS). specialize (N2 S HS). specialize (N3 S HS).
      specialize (N6 S HS). specialize (N7 S HS). specialize (N8 S HS).
      rewrite Z.add_0_l in N1. rewrite P1, Z.add_0_l in N2.
      rewrite P2, P1, Z.add_0_l in N3. rewrite P6 in N7. rewrite P7, P6 in N8.
      replace (n + n + S) with (2 * n + S) in N3 by lia.
      replace (P k4 + n + n + S) with (P k4 + 2 * n + S) in N8 by lia.
      split; [apply Hh, O8, O7, O6, O4, O3, O2, N1|].
      split; [apply Hh, O8, O7, O6, O4, O3, N2|].
      split; [apply Hh, O8, O7, O6, O4, N3|].
      split; [apply Hh, O8, O7, N6|]. split; [apply Hh, O8, N7|apply Hh, N8].
    + rewrite T8, T7, T6. apply (celled_kept g m k4 k _ _ (P k4)); [|congruence|lia|exact C4].
      intros S i Hi. apply Hh, O8, O7, O6, Hi.
Qed.

Lemma scan_le (p : list Z) (a : Z) :
  forall (i : nat) (v : Z), p !! i = Some v -> Z.abs v = Z.abs a -> (scan p a <= i)%nat.
Proof.
  induction p as [|x p IH]; intros i v Hi Hv; [rewrite lookup_nil in Hi; discriminate|].
  cbn [scan]. destruct (Z.eqb_spec (Z.abs x) (Z.abs a)) as [|Hne]; [lia|].
  destruct i as [|i]; [injection Hi as ->; contradiction|].
  cbn in Hi. specialize (IH i v Hi Hv). lia.
Qed.

Lemma scan_from_le (p : list Z) (n j : nat) (b v : Z) :
  (n <= j)%nat -> p !! j = Some v -> Z.abs v = Z.abs b -> (scan_from p n b <= j)%nat.
Proof.
  intros Hn Hj Hv. unfold scan_from.
  assert (Hd : drop n p !! (j - n)%nat = Some v).
  { rewrite lookup_drop. replace (n + (j - n))%nat with j by lia. exact Hj. }
  pose proof (scan_le _ b _ _ Hd Hv). lia.
Qed.

Lemma follows_at (p : list Z) (a b : Z) (i j : nat) (v w : Z) :
  p !! i = Some v -> Z.abs v = Z.abs a -> p !! j = Some w -> Z.abs w = Z.abs b ->
  (i <= j)%nat -> follows p a b.
Proof.
  intros Hi Hv Hj Hw Hij.
  pose proof (scan_le p a i v Hi Hv) as H1.
  pose proof (scan_from_le p (scan p a) j b w ltac:(lia) Hj Hw) as H2.
  pose proof (lookup_lt_Some _ _ _ Hi). pose proof (lookup_lt_Some _ _ _ Hj).
  split; lia.
Qed.

Lemma in_lookup (p : list Z) (a : Z) : In a p -> exists i, p !! i = Some a.
Proof. intros Ha. apply list_elem_of_In, list_elem_of_lookup in Ha. exact Ha. Qed.

(** In a list that goes up, with whatever last entry: from [a] to a [b] that
    is not smaller. *)
Lemma follows_in (q : list Z) (w a b : Z) :
  increasing q -> In a q -> In b q -> Z.abs a <= Z.abs b -> follows (q ++ [w]) a b.
Proof.
  intros Hinc Ha Hb Hab.
  destruct (in_lookup q a Ha) as [i Hi]. destruct (in_lookup q b Hb) as [j Hj].
  assert (Hij : (i <= j)%nat).
  { destruct (le_lt_dec i j) as [|Hlt]; [assumption|].
    pose proof (Hinc j i b a Hj Hi Hlt). lia. }
  apply (follows_at _ a b i j a b); try reflexivity; try assumption.
  - rewrite lookup_app_l; [exact Hi|]. apply lookup_lt_Some in Hi. exact Hi.
  - rewrite lookup_app_l; [exact Hj|]. apply lookup_lt_Some in Hj. exact Hj.
Qed.

(** From [a] to the last entry. *)
Lemma follows_last (q : list Z) (w a : Z) : In a q -> follows (q ++ [w]) a w.
Proof.
  intros Ha. destruct (in_lookup q a Ha) as [i Hi].
  pose proof (lookup_lt_Some _ _ _ Hi) as Hlt.
  apply (follows_at _ a w i (length q) a w); try reflexivity.
  - rewrite lookup_app_l; [exact Hi|exact Hlt].
  - rewrite lookup_app_r by lia. rewrite Nat.sub_diag. reflexivity.
  - lia.
Qed.

Lemma rem_succ_ne (S n : Z) : 0 <= S < n -> 2 <= n -> Z.rem (S + 1) n <> S.
Proof.
  intros HS Hn. destruct (Z.eq_dec (S + 1) n) as [E|Hne].
  - rewrite E, Z.rem_same by lia. lia.
  - rewrite Z.rem_small by lia. lia.
Qed.

(** A call of [slice] whose searches succeed sets the boundaries of slice
    [S] and does nothing else to the mesh. *)
Lemma slice_ok (g : grid) (S l r : Z) (k : mesh) (x xr : slice_t) :
  0 < W g -> 0 <= S < W g * 4 ->
  slices k !! Z.to_nat S = Some x ->
  slices k !! Z.to_nat (Z.rem (S + 1) (W g * 4)) = Some xr ->
  follows (sp x) (start_l g k x S l) l ->
  follows (sp xr) (start_r g k x S r) r ->
  exists o, slice g S l r k = (o, Ok (set_slice S (Slice l r (sp x)) k)).
Proof.
  intros HW HS Hx Hxr [Fl1 Fl2] [Fr1 Fr2]. rewrite slice_unfold.
  destruct (Z.leb_spec (W g * 4) S) as [|_]; [lia|].
  assert (Ex : slice_at (slices k) S = Ok x) by (apply slice_at_ok; split; [lia|exact Hx]).
  rewrite Ex. cbn [quiet ebind].
  pose proof (Z.rem_bound_pos (S + 1) (W g * 4) ltac:(lia) ltac:(lia)) as Hr.
  pose proof (rem_succ_ne S (W g * 4) HS ltac:(lia)) as Hne.
  pose proof (lookup_lt_Some _ _ _ Hx) as Hlt.
  assert (Hadv : forall k1 x1,
            slices k1 !! Z.to_nat S = Some x1 -> sp x1 = sp x ->
            sl x1 = start_l g k x S l -> sr x1 = start_r g k x S r ->
            slices k1 !! Z.to_nat (Z.rem (S + 1) (W g * 4)) = Some xr ->
            set_slice S (Slice l r (sp x)) k1 = set_slice S (Slice l r (sp x)) k ->
            exists o, slice_advance g S l r k1 = (o, Ok (set_slice S (Slice l r (sp x)) k))).
  { intros k1 x1 Hx1 Hsp Hl1 Hr1 Hxr1 Hset. unfold slice_advance. cbv zeta.
    assert (Ex1 : slice_at (slices k1) S = Ok x1)
      by (apply slice_at_ok; split; [lia|exact Hx1]).
    assert (Exr1 : slice_at (slices k1) (Z.rem (S + 1) (W g * 4)) = Ok xr)
      by (apply slice_at_ok; split; [lia|exact Hxr1]).
    rewrite Ex1. cbn [quiet ebind]. rewrite Hsp, Hl1, Hr1.
    destruct ((l =? start_l g k x S l) && (r =? start_r g k x S r)) eqn:Esame.
    { apply andb_true_iff in Esame as [E1 E2]. apply Z.eqb_eq in E1, E2.
      exists []. cbn [eret]. f_equal. f_equal. rewrite <- Hset.
      rewrite <- (set_slice_same S x1 k1 Hx1) at 1. rewrite Hl1, Hr1, Hsp, <- E1, <- E2.
      reflexivity. }
    destruct (Nat.eqb_spec (scan (sp x) (start_l g k x S l)) (length (sp x))) as [E|_];
      [lia|].
    destruct (Nat.eqb_spec (scan_from (sp x) (scan (sp x) (start_l g k x S l)) l)
                (length (sp x))) as [E|_]; [lia|]. cbn [orb].
    rewrite Hset.
    destruct (same_side (sp x) _ _ (start_l g k x S l)) as [|j ls];
      cbn [ebind print eret]; rewrite Exr1; cbn [quiet ebind];
      (destruct (Nat.eqb_spec (scan (sp xr) (start_r g k x S r)) (length (sp xr)))
         as [E|_]; [lia|]);
      (destruct (Nat.eqb_spec (scan_from (sp xr) (scan (sp xr) (start_r g k x S r)) r)
                   (length (sp xr))) as [E|_]; [lia|]);
      cbn [orb ebind print eret quiet app].
    - eexists. reflexivity.
    - destruct (_ <? _)%nat; cbn [ebind print eret quiet app]; eexists; reflexivity. }
  unfold slice_new. cbv zeta.
  destruct (sl x =? 0) eqn:Enew; cbn [ebind print eret app].
  - match goal with
    | |- context [slice_advance g S l r ?k1] =>
        destruct (Hadv k1 (Slice (start_l g k x S l) (start_r g k x S r) (sp x)))
          as [o Ho]
    end.
    + unfold set_slice, start_l, start_r. rewrite Enew. cbn [slices].
      apply list_lookup_insert_eq. exact Hlt.
    + reflexivity.
    + reflexivity.
    + reflexivity.
    + unfold set_slice. cbn [slices]. rewrite list_lookup_insert_ne by lia. exact Hxr.
    + apply set_slice_twice.
    + rewrite Ho. eexists. reflexivity.
  - destruct (Hadv k x Hx eq_refl) as [o Ho].
    + unfold start_l. rewrite Enew. reflexivity.
    + unfold start_r. rewrite Enew. reflexivity.
    + exact Hxr.
    + reflexivity.
    + rewrite Ho. eexists. reflexivity.
Qed.

Lemma laid_body (g : grid) (m : maze_t) (k0 : mesh) (S : Z) (x0 : slice_t) :
  laid g m k0 -> 0 <= S -> slices k0 !! Z.to_nat S = Some x0 ->
  exists q, sp x0 = q ++ [S] /\ increasing q.
Proof.
  intros (_ & _ & _ & _ & Hs & _) HS Hx0.
  destruct (Hs S x0 HS Hx0) as (_ & _ & q & Hq & Hinc & _). eauto.
Qed.

Lemma inner_body (g : grid) (k0 : mesh) (S i : Z) (x0 : slice_t) (q : list Z) :
  slices k0 !! Z.to_nat S = Some x0 -> sp x0 = q ++ [S] -> S < W g * 4 ->
  inner g k0 S i -> In i q.
Proof.
  intros Hx0 Hq HSn [(HS & y & Hy & Hi) Hn].
  assert (y = x0) as -> by congruence.
  rewrite Hq in Hi. apply in_app_or in Hi as [Hi|[<-|[]]]; [exact Hi|lia].
Qed.

Lemma laid_rings (g : grid) (m : maze_t) (k0 : mesh) (S : Z) :
  0 < W g -> laid g m k0 -> 0 <= S < W g * 4 ->
  inner g k0 S (- (W g * 4 + S)) /\ inner g k0 S (2 * (W g * 4) + S)
  /\ inner g k0 S (top k0 + S) /\ inner g k0 S (top k0 + W g * 4 + S)
  /\ inner g k0 S (top k0 + 2 * (W g * 4) + S).
Proof.
  intros HW (_ & Ht & _ & _ & _ & Hr & _) HS.
  destruct (Hr S HS) as (_ & R1 & R2 & R3 & R4 & R5). cbv zeta in Ht.
  split; [split; [exact R1|lia]|]. split; [split; [exact R2|lia]|].
  split; [split; [exact R3|lia]|]. split; [split; [exact R4|lia]|].
  split; [exact R5|lia].
Qed.

Lemma framed_refl (k : mesh) : framed k k.
Proof. repeat split. intros S x Hx. eauto. Qed.

Lemma framed_set_slice (k0 k : mesh) (S l r : Z) (x : slice_t) :
  framed k0 k -> slices k !! Z.to_nat S = Some x ->
  framed k0 (set_slice S (Slice l r (sp x)) k).
Proof.
  intros (F1 & F2 & F3 & F4 & F5 & F6) Hx. unfold framed, set_slice.
  cbn [P bottom top pstart slices]. rewrite length_insert.
  repeat (split; [assumption|]).
  intros S1 x1 Hx1. destruct (decide (Z.to_nat S = S1)) as [<-|Hne].
  - rewrite list_lookup_insert_eq in Hx1 by (apply lookup_lt_Some in Hx; exact Hx).
    injection Hx1 as <-. cbn [sp]. apply F6, Hx.
  - rewrite list_lookup_insert_ne in Hx1 by exact Hne. apply F6, Hx1.
Qed.

Lemma framed_lookup (g : grid) (m : maze_t) (k0 k : mesh) (S : Z) :
  laid g m k0 -> framed k0 k -> 0 <= S < W g * 4 ->
  exists x x0 q, slices k !! Z.to_nat S = Some x /\ slices k0 !! Z.to_nat S = Some x0
                 /\ sp x = q ++ [S] /\ sp x0 = q ++ [S] /\ increasing q.
Proof.
  intros Hlaid (_ & _ & _ & _ & Hl & F6) HS.
  assert (Hn : length (slices k0) = Z.to_nat (W g * 4))
    by (destruct Hlaid as (_ & _ & _ & Hn & _); exact Hn).
  destruct (lookup_lt_is_Some_2 (slices k) (Z.to_nat S)) as [x Hx]; [lia|].
  destruct (F6 _ _ Hx) as (x0 & Hx0 & Hsp).
  destruct (laid_body g m k0 S x0 Hlaid ltac:(lia) Hx0) as (q & Hq & Hinc).
  exists x, x0, q. rewrite Hsp. repeat split; assumption.
Qed.

(** A fit call that does not go back succeeds. *)
Lemma slice_fit (g : grid) (m : maze_t) (k0 k : mesh) (S l r : Z) (x : slice_t) :
  0 < W g -> laid g m k0 -> framed k0 k ->
  slices k !! Z.to_nat S = Some x ->
  (sl x = 0 \/ (inner g k0 S (sl x) /\ inner g k0 (Z.rem (S + 1) (W g * 4)) (sr x))) ->
  fit g k0 (S, l, r) -> above k (S, l, r) ->
  exists o, slice g S l r k = (o, Ok (set_slice S (Slice l r (sp x)) k)).
Proof.
  intros HW Hlaid Hfr Hx Hlev (HS & Hl & Hr & Hfl & Hfr') Hab.
  pose proof (Z.rem_bound_pos (S + 1) (W g * 4) ltac:(lia) ltac:(lia)) as HSR.
  set (SR := Z.rem (S + 1) (W g * 4)) in *.
  destruct (framed_lookup g m k0 k S Hlaid Hfr HS) as (y & x0 & q & Hy & Hx0 & Hsp & Hq & Hinc).
  assert (y = x) as -> by congruence.
  destruct (framed_lookup g m k0 k SR Hlaid Hfr HSR)
    as (xr & xr0 & qr & Hxr & Hxr0 & Hspr & Hqr & Hincr).
  assert (Hb : bottom k = 0).
  { destruct Hfr as (_ & -> & _). destruct Hlaid as (-> & _). reflexivity. }
  destruct (laid_rings g m k0 S HW Hlaid HS) as (R1 & R2 & _).
  destruct (laid_rings g m k0 SR HW Hlaid HSR) as (R1r & R2r & _).
  pose proof (fun i => inner_body g k0 S i x0 q Hx0 Hq ltac:(lia)) as Hin.
  pose proof (fun i => inner_body g k0 SR i xr0 qr Hxr0 Hqr ltac:(lia)) as Hinr.
  specialize (Hab x Hx).
  apply (slice_ok g S l r k x xr HW HS Hx Hxr).
  - rewrite Hsp. unfold start_l. rewrite Hb.
    destruct (Z.eqb_spec (sl x) 0) as [E|Hne].
    + destruct (Z.ltb_spec l 0).
      * replace (-1 * (0 + S + W g * 4 + 0)) with (- (W g * 4 + S)) by lia.
        apply follows_in; [exact Hinc|apply Hin, R1|apply Hin, Hl|lia].
      * replace (1 * (0 + S + W g * 4 + W g * 4)) with (2 * (W g * 4) + S) by lia.
        apply follows_in; [exact Hinc|apply Hin, R2|apply Hin, Hl|lia].
    + destruct Hlev as [E|[Il Ir]]; [contradiction|].
      apply follows_in; [exact Hinc|apply Hin, Il|apply Hin, Hl|apply Hab, Hne].
  - rewrite Hspr. unfold start_r. fold SR. rewrite Hb.
    destruct (Z.eqb_spec (sl x) 0) as [E|Hne].
    + destruct (Z.ltb_spec r 0).
      * replace (-1 * (0 + SR + W g * 4 + 0)) with (- (W g * 4 + SR)) by lia.
        apply follows_in; [exact Hincr|apply Hinr, R1r|apply Hinr, Hr|lia].
      * replace (1 * (0 + SR + W g * 4 + W g * 4)) with (2 * (W g * 4) + SR) by lia.
        apply follows_in; [exact Hincr|apply Hinr, R2r|apply Hinr, Hr|lia].
    + destruct Hlev as [E|[Il Ir]]; [contradiction|].
      apply follows_in; [exact Hincr|apply Hinr, Ir|apply Hinr, Hr|apply Hab, Hne].
Qed.

(** A run of fit calls, each slice going up, from a mesh that none of them
    goes back from. *)
Lemma slice_calls_fit (g : grid) (m : maze_t) (k0 : mesh) :
  0 < W g -> laid g m k0 ->
  forall (calls : list (Z * Z * Z)) (k : mesh),
    framed k0 k -> leveled g k0 k ->
    Forall (fit g k0) calls -> StronglySorted rising calls -> Forall (above k) calls ->
    exists o k',
      slice_calls g calls k = (o, Ok k') /\ framed k0 k' /\ leveled g k0 k'
      /\ forall S x', 0 <= S -> slices k' !! Z.to_nat S = Some x' ->
           slices k !! Z.to_nat S = Some x'
           \/ exists l r, In (S, l, r) calls /\ sl x' = l /\ sr x' = r.
Proof.
  intros HW Hlaid. induction calls as [|[[i l] r] cs IH]; intros k Hfr Hlev Hfit Hsort Hab.
  - exists [], k. split; [reflexivity|]. split; [exact Hfr|]. split; [exact Hlev|].
    intros S x' _ Hx'. left. exact Hx'.
  - apply Forall_cons in Hfit as [Hf Hfit]. apply Forall_cons in Hab as [Ha Hab].
    apply StronglySorted_inv in Hsort as [Hsort Hrise].
    assert (Hi : 0 <= i < W g * 4) by (destruct Hf as (Hi & _); exact Hi).
    destruct (framed_lookup g m k0 k i Hlaid Hfr Hi) as (x & _ & _ & Hx & _).
    destruct (slice_fit g m k0 k i l r x HW Hlaid Hfr Hx (Hlev i x ltac:(lia) Hx) Hf Ha)
      as [o1 Ho1].
    set (k1 := set_slice i (Slice l r (sp x)) k) in *.
    pose proof (lookup_lt_Some _ _ _ Hx) as Hlt.
    assert (Hfr1 : framed k0 k1) by (apply framed_set_slice; assumption).
    assert (Hlev1 : leveled g k0 k1).
    { intros S y HS Hy. unfold k1, set_slice in Hy. cbn [slices] in Hy.
      destruct (decide (Z.to_nat i = Z.to_nat S)) as [E|Hne].
      - rewrite <- E, list_lookup_insert_eq in Hy by exact Hlt. injection Hy as <-.
        assert (S = i) as -> by lia. right. cbn [sl sr].
        destruct Hf as (_ & Hl & Hr & _). split; assumption.
      - rewrite list_lookup_insert_ne in Hy by exact Hne. apply (Hlev S y HS Hy). }
    assert (Hab1 : Forall (above k1) cs).
    { rewrite Forall_forall in Hab, Hrise. apply Forall_forall.
      intros [[i' l'] r'] Hc y Hy Hne. unfold k1, set_slice in Hy. cbn [slices] in Hy.
      assert (Hi' : 0 <= i').
      { rewrite Forall_forall in Hfit. destruct (Hfit _ Hc) as (Hi' & _). lia. }
      destruct (decide (Z.to_nat i = Z.to_nat i')) as [E|Hne'].
      - rewrite <- E, list_lookup_insert_eq in Hy by exact Hlt. injection Hy as <-.
        cbn [sl sr]. apply (Hrise _ Hc). cbn. lia.
      - rewrite list_lookup_insert_ne in Hy by exact Hne'.
        apply (Hab _ Hc y Hy Hne). }
    destruct (IH k1 Hfr1 Hlev1 Hfit Hsort Hab1) as (o2 & k' & Ho2 & Hfr' & Hlev' & Hst).
    exists (o1 ++ o2), k'. split.
    { cbn [slice_calls]. rewrite Ho1. cbn [ebind]. fold k1. rewrite Ho2. reflexivity. }
    split; [exact Hfr'|]. split; [exact Hlev'|].
    intros S y HS Hy. destruct (Hst S y HS Hy) as [Hy1|(l' & r' & Hc & E1 & E2)].
    + unfold k1, set_slice in Hy1. cbn [slices] in Hy1.
      destruct (decide (Z.to_nat i = Z.to_nat S)) as [E|Hne].
      * rewrite <- E, list_lookup_insert_eq in Hy1 by exact Hlt. injection Hy1 as <-.
        assert (S = i) as -> by lia. right. exists l, r. split; [left; reflexivity|].
        split; reflexivity.
      * rewrite list_lookup_insert_ne in Hy1 by exact Hne. left. exact Hy1.
    + right. exists l', r'. split; [right; exact Hc|]. split; assumption.
Qed.

(** The steps of a proof that a list written out is sorted, or that all
    its elements have a property. *)
Ltac each_call :=
  repeat first [apply SSorted_nil | apply SSorted_cons
               | apply List.Forall_nil | apply List.Forall_cons].

Lemma Forall_sublist {A : Type} (Q : A -> Prop) (l1 l2 : list A) :
  sublist l1 l2 -> Forall Q l2 -> Forall Q l1.
Proof.
  induction 1 as [|x l1 l2 _ IH|x l1 l2 _ IH]; intros Hall.
  - constructor.
  - apply Forall_cons in Hall as [Hx Hall]. constructor; [exact Hx|apply IH, Hall].
  - apply Forall_cons in Hall as [_ Hall]. apply IH, Hall.
Qed.

Lemma StronglySorted_sublist {A : Type} (R : A -> A -> Prop) (l1 l2 : list A) :
  sublist l1 l2 -> StronglySorted R l2 -> StronglySorted R l1.
Proof.
  induction 1 as [|x l1 l2 Hsub IH|x l1 l2 _ IH]; intros Hs.
  - constructor.
  - apply StronglySorted_inv in Hs as [Hs Hall]. constructor; [apply IH, Hs|].
    apply (Forall_sublist _ l1 l2 Hsub Hall).
  - apply StronglySorted_inv in Hs as [Hs _]. apply IH, Hs.
Qed.

(** The calls of a cell are among those of a cell closed below and above and
    open to both sides. *)
Lemma cell_calls_sub (X v P : Z) : sublist (cell_calls X v P) (cell_calls X 3 P).
Proof.
  unfold cell_calls. cbv zeta.
  change (has 3 FLAGD) with false. change (has 3 FLAGL) with true.
  change (has 3 FLAGU) with false. change (has 3 FLAGR) with true. cbv iota.
  repeat apply sublist_app;
    try (destruct (has v FLAGD)); try (destruct (has v FLAGL));
    try (destruct (has v FLAGU)); try (destruct (has v FLAGR));
    first [reflexivity | apply sublist_nil_l].
Qed.

Lemma join_calls_sub (X v P PR : Z) : sublist (join_calls X v P PR) (join_calls X 2 P PR).
Proof.
  unfold join_calls. cbv zeta. change (has 2 FLAGR) with true. cbv iota.
  repeat apply sublist_app; try (destruct (has v FLAGR));
    first [reflexivity | apply sublist_nil_l].
Qed.

Lemma cell_calls_rising (X v P : Z) : 0 <= P -> StronglySorted rising (cell_calls X v P).
Proof.
  intros HP. apply (StronglySorted_sublist _ _ _ (cell_calls_sub X v P)).
  unfold cell_calls. cbv zeta.
  change (has 3 FLAGD) with false. change (has 3 FLAGL) with true.
  change (has 3 FLAGU) with false. change (has 3 FLAGR) with true. cbv iota. cbn [app].
  each_call; unfold rising; cbn [fst snd]; intros; lia.
Qed.

Lemma join_calls_rising (X v P PR : Z) :
  0 <= P -> 0 <= PR -> StronglySorted rising (join_calls X v P PR).
Proof.
  intros HP HPR. apply (StronglySorted_sublist _ _ _ (join_calls_sub X v P PR)).
  unfold join_calls. cbv zeta. change (has 2 FLAGR) with true. cbv iota. cbn [app].
  each_call; unfold rising; cbn [fst snd]; intros; lia.
Qed.

(** The slices and the points of the calls of a cell. *)
Lemma cell_calls_bounds (X v P : Z) :
  0 <= P ->
  Forall (fun c => (exists j, 0 <= j < 3 /\ fst (fst c) = X * 4 + j)
                   /\ P <= Z.abs (snd (fst c)) <= P + 15
                   /\ P <= Z.abs (snd c) <= P + 15) (cell_calls X v P).
Proof.
  intros HP. apply (Forall_sublist _ _ _ (cell_calls_sub X v P)).
  unfold cell_calls. cbv zeta.
  change (has 3 FLAGD) with false. change (has 3 FLAGL) with true.
  change (has 3 FLAGU) with false. change (has 3 FLAGR) with true. cbv iota. cbn [app].
  each_call; cbn [fst snd];
    (split; [first [exists 0; lia | exists 1; lia | exists 2; lia]|lia]).
Qed.

Lemma join_calls_bounds (X v P PR : Z) :
  0 <= P -> 0 <= PR ->
  Forall (fun c => fst (fst c) = X * 4 + 3
                   /\ P <= Z.abs (snd (fst c)) <= P + 15
                   /\ PR <= Z.abs (snd c) <= PR + 12) (join_calls X v P PR).
Proof.
  intros HP HPR. apply (Forall_sublist _ _ _ (join_calls_sub X v P PR)).
  unfold join_calls. cbv zeta. change (has 2 FLAGR) with true. cbv iota. cbn [app].
  each_call; cbn [fst snd]; lia.
Qed.

Lemma cell_point_inner (g : grid) (k0 : mesh) (X Pc j i : Z) :
  0 < W g -> 3 * (W g * 4) <= Pc -> block k0 X Pc -> 0 <= j < 4 -> cell_point Pc j i ->
  inner g k0 (X * 4 + j) i /\ Pc <= Z.abs i.
Proof.
  intros HW HP Hb Hj [d [[-> Hd]|[-> Hd]]]; destruct (Hb j Hj) as (B1 & B2 & B3 & B4).
  - split; [|lia]. split; [|lia]. destruct Hd as [->| ->]; [exact B1|].
    replace (Pc + (12 + j)) with (Pc + 12 + j) by lia. exact B4.
  - split; [|lia]. split; [|lia]. destruct Hd as [->| ->].
    + replace (Pc + (4 + j)) with (Pc + 4 + j) by lia. exact B2.
    + replace (Pc + (8 + j)) with (Pc + 8 + j) by lia. exact B3.
Qed.

Lemma fit_cell (g : grid) (k0 : mesh) (X Pc j l r : Z) :
  0 < W g -> 0 <= X < W g -> 0 <= j < 3 -> 3 * (W g * 4) <= Pc -> block k0 X Pc ->
  cell_point Pc j l -> cell_point Pc (j + 1) r -> fit g k0 (X * 4 + j, l, r).
Proof.
  intros HW HX Hj HP Hb Hl Hr. unfold fit. cbv zeta.
  replace (Z.rem (X * 4 + j + 1) (W g * 4)) with (X * 4 + (j + 1))
    by (rewrite Z.rem_small; lia).
  destruct (cell_point_inner g k0 X Pc j l HW HP Hb ltac:(lia) Hl) as [Il Bl].
  destruct (cell_point_inner g k0 X Pc (j + 1) r HW HP Hb ltac:(lia) Hr) as [Ir Br].
  split; [lia|]. split; [exact Il|]. split; [exact Ir|].
  destruct (l <? 0), (r <? 0); lia.
Qed.

Lemma rem_right_of (g : grid) (X Y : Z) :
  0 < W g -> 0 <= X < W g ->
  Z.rem (X * 4 + 3 + 1) (W g * 4) = fst (right_of g X Y) * 4 + 0
  /\ 0 <= fst (right_of g X Y) < W g.
Proof.
  intros HW HX. unfold right_of. destruct (Z.leb_spec (W g) (X + 1)); cbn [fst].
  - replace (X * 4 + 3 + 1) with (W g * 4) by lia. rewrite Z.rem_same by lia. lia.
  - rewrite Z.rem_small by lia. lia.
Qed.

Lemma fit_join (g : grid) (k0 : mesh) (X Y Pc PR l r : Z) :
  0 < W g -> 0 <= X < W g -> 3 * (W g * 4) <= Pc -> 3 * (W g * 4) <= PR ->
  block k0 X Pc -> block k0 (fst (right_of g X Y)) PR ->
  cell_point Pc 3 l -> cell_point PR 0 r -> fit g k0 (X * 4 + 3, l, r).
Proof.
  intros HW HX HP HPR Hb Hbr Hl Hr. unfold fit. cbv zeta.
  destruct (rem_right_of g X Y HW HX) as [-> Hx].
  destruct (cell_point_inner g k0 X Pc 3 l HW HP Hb ltac:(lia) Hl) as [Il Bl].
  destruct (cell_point_inner g k0 _ PR 0 r HW HPR Hbr ltac:(lia) Hr) as [Ir Br].
  split; [lia|]. split; [exact Il|]. split; [exact Ir|].
  destruct (l <? 0), (r <? 0); lia.
Qed.

(** One of the points of a block, written out. *)
Ltac block_point :=
  eexists; first [left; split; [reflexivity|lia] | right; split; [reflexivity|lia]].

Lemma cell_calls_fit (g : grid) (k0 : mesh) (X v Pc : Z) :
  0 < W g -> 0 <= X < W g -> 3 * (W g * 4) <= Pc -> block k0 X Pc ->
  Forall (fit g k0) (cell_calls X v Pc).
Proof.
  intros HW HX HP Hb. apply (Forall_sublist _ _ _ (cell_calls_sub X v Pc)).
  unfold cell_calls. cbv zeta.
  change (has 3 FLAGD) with false. change (has 3 FLAGL) with true.
  change (has 3 FLAGU) with false. change (has 3 FLAGR) with true. cbv iota. cbn [app].
  each_call;
    (apply (fit_cell g k0 X Pc); [exact HW|exact HX|lia|exact HP|exact Hb| |]); block_point.
Qed.

Lemma join_calls_fit (g : grid) (k0 : mesh) (X Y v Pc PR : Z) :
  0 < W g -> 0 <= X < W g -> 3 * (W g * 4) <= Pc -> 3 * (W g * 4) <= PR ->
  block k0 X Pc -> block k0 (fst (right_of g X Y)) PR ->
  Forall (fit g k0) (join_calls X v Pc PR).
Proof.
  intros HW HX HP HPR Hb Hbr. apply (Forall_sublist _ _ _ (join_calls_sub X v Pc PR)).
  unfold join_calls. cbv zeta. change (has 2 FLAGR) with true. cbv iota. cbn [app].
  each_call;
    (apply (fit_join g k0 X Y Pc PR); [exact HW|exact HX|exact HP|exact HPR|exact Hb
                                      |exact Hbr| |]); block_point.
Qed.

Lemma esafe_for_loop_at {St : Type} (msgs : list string) (I : Z -> St -> Prop)
    (body : Z -> St -> emit St) :
  forall (cnt : nat) (i : Z) (s : St),
    I i s ->
    (forall j t, i <= j < i + Z.of_nat cnt -> I j t -> esafe msgs (body j t) (I (j + 1))) ->
    esafe msgs (for_loop_e cnt i body s) (I (i + Z.of_nat cnt)).
Proof.
  induction cnt as [|cnt IH]; intros i s Hs Hbody.
  - apply esafe_ret. replace (i + Z.of_nat 0) with i by lia. exact Hs.
  - cbn [for_loop_e]. apply (esafe_bind msgs _ _ (I (i + 1))).
    + apply Hbody; [lia|exact Hs].
    + intros t Ht. replace (i + Z.of_nat (S cnt)) with (i + 1 + Z.of_nat cnt) by lia.
      apply IH; [exact Ht|]. intros j t' Hj. apply Hbody. lia.
Qed.

Lemma esafe_for_range_at {St : Type} (msgs : list string) (I : Z -> St -> Prop)
    (body : Z -> St -> emit St) (lo hi : Z) (s : St) :
  lo <= hi -> I lo s ->
  (forall j t, lo <= j < hi -> I j t -> esafe msgs (body j t) (I (j + 1))) ->
  esafe msgs (for_range_e lo hi body s) (I hi).
Proof.
  intros Hle Hs Hbody. unfold for_range_e.
  replace hi with (lo + Z.of_nat (Z.to_nat (hi - lo))) at 2 by lia.
  apply esafe_for_loop_at; [exact Hs|]. intros j t Hj. apply Hbody. lia.
Qed.

Lemma advanced_refl (k : mesh) : advanced k k [].
Proof. intros S x' _ Hx'. left. exact Hx'. Qed.

Lemma advanced_app (k k1 k2 : mesh) (c1 c2 : list (Z * Z * Z)) :
  advanced k k1 c1 -> advanced k1 k2 c2 -> advanced k k2 (c1 ++ c2).
Proof.
  intros H1 H2 S x' HS Hx'. destruct (H2 S x' HS Hx') as [Hx1|(l & r & Hin & E)].
  - destruct (H1 S x' HS Hx1) as [Hx|(l & r & Hin & E)]; [left; exact Hx|].
    right. exists l, r. split; [apply in_or_app; left; exact Hin|exact E].
  - right. exists l, r. split; [apply in_or_app; right; exact Hin|exact E].
Qed.

(** From a cell to the next one of its row. *)
Lemma below_step (g : grid) (k0 k k' : mesh) (X Y : Z) (calls : list (Z * Z * Z)) :
  0 <= X < W g ->
  below g k0 k X Y -> advanced k k' calls -> Forall (settled g k0 X Y) calls ->
  below g k0 k' (X + 1) Y.
Proof.
  intros HX Hbel Hadv Hset X1 j x' HX1 Hj Hx' Hne.
  destruct (Hadv (X1 * 4 + j) x' ltac:(lia) Hx') as [Hx|(l & r & Hin & El & Er)].
  - destruct (Hbel X1 j x' HX1 Hj Hx Hne) as (B1 & B2 & B3).
    split; [exact B1|]. split; [exact B2|]. intros Y1 Pc He. apply B3.
    rewrite earlier_step in He. apply orb_false_iff in He as [He _]. exact He.
  - rewrite Forall_forall in Hset.
    destruct (Hset _ (proj2 (list_elem_of_In _ _) Hin)) as (j' & Hj' & E & _ & T1 & T2 & T3).
    assert (X1 = X) as -> by lia. assert (j' = j) as -> by lia.
    rewrite El, Er. split; [exact T1|]. split; [exact T2|].
    intros Y1 Pc He HPc. apply (T3 Y1 Pc); [|exact HPc].
    unfold earlier in He. lia.
Qed.

Lemma laid_cell (g : grid) (m : maze_t) (k0 : mesh) (X Y Pc : Z) :
  laid g m k0 -> pstart k0 !! (X, Y) = Some Pc ->
  0 <= X < W g /\ 3 * (W g * 4) <= Pc /\ Pc + 16 <= top k0 /\ block k0 X Pc.
Proof.
  intros (_ & _ & _ & _ & _ & _ & C1 & _) HPc.
  destruct (C1 X Y Pc HPc) as (G1 & _ & _ & _ & G5 & G6 & G7).
  split; [exact G1|]. split; [exact G5|]. split; [exact G6|exact G7].
Qed.

Lemma laid_order (g : grid) (m : maze_t) (k0 : mesh) (X Y Y' Pc Pc' : Z) :
  laid g m k0 -> pstart k0 !! (X, Y) = Some Pc -> pstart k0 !! (X, Y') = Some Pc' ->
  Y < Y' -> Pc + 16 <= Pc'.
Proof.
  intros (_ & _ & _ & _ & _ & _ & _ & _ & C3) HPc HPc' Hlt.
  apply (C3 X Y Pc X Y' Pc' HPc HPc'). unfold earlier.
  destruct (Z.ltb_spec Y Y'); [reflexivity|lia].
Qed.

Lemma laid_rendered (g : grid) (m : maze_t) (k0 : mesh) (X Y : Z) :
  laid g m k0 -> 0 <= X < W g -> 0 <= Y < H g -> rendered g m X Y = true ->
  exists Pc, pstart k0 !! (X, Y) = Some Pc.
Proof.
  intros (_ & _ & _ & _ & _ & _ & _ & C2 & _) HX HY Hr.
  apply (C2 X Y HX HY); [|exact Hr]. unfold earlier.
  destruct (Z.ltb_spec Y (H g)); [reflexivity|lia].
Qed.

Lemma right_of_row (g : grid) (X Y Y' : Z) :
  right_of g X Y' = (fst (right_of g X Y), snd (right_of g X Y) + (Y' - Y)).
Proof.
  unfold right_of. destruct (W g <=? X + 1); cbn [fst snd]; f_equal; lia.
Qed.

Lemma cell_calls_settled (g : grid) (m : maze_t) (k0 : mesh) (X Y v Pc : Z) :
  0 < W g -> laid g m k0 -> pstart k0 !! (X, Y) = Some Pc ->
  Forall (settled g k0 X Y) (cell_calls X v Pc).
Proof.
  intros HW Hlaid HPc.
  destruct (laid_cell g m k0 X Y Pc Hlaid HPc) as (HX & HP & HP16 & _).
  eapply Forall_impl; [apply (cell_calls_bounds X v Pc); lia|].
  intros [[i l] r]. cbn [fst snd]. intros ((j & Hj & ->) & Hl & Hr).
  exists j. split; [lia|]. split; [reflexivity|]. split; [lia|]. split; [lia|].
  split; [lia|]. intros Y' Pc' Hlt HPc'.
  pose proof (laid_order g m k0 X Y Y' Pc Pc' Hlaid HPc HPc' Hlt). 
  split; [lia|]. split; [lia|]. intros E. lia.
Qed.

Lemma join_calls_settled (g : grid) (m : maze_t) (k0 : mesh) (X Y v Pc PR : Z) :
  0 < W g -> laid g m k0 -> pstart k0 !! (X, Y) = Some Pc ->
  pstart k0 !! right_of g X Y = Some PR ->
  Forall (settled g k0 X Y) (join_calls X v Pc PR).
Proof.
  intros HW Hlaid HPc HPR.
  destruct (laid_cell g m k0 X Y Pc Hlaid HPc) as (HX & HP & HP16 & _).
  destruct (right_of g X Y) as [x y] eqn:Ero.
  destruct (laid_cell g m k0 x y PR Hlaid HPR) as (Hx & HR & HR16 & _).
  eapply Forall_impl; [apply (join_calls_bounds X v Pc PR); lia|].
  intros [[i l] r]. cbn [fst snd]. intros (-> & Hl & Hr).
  exists 3. split; [lia|]. split; [reflexivity|]. split; [lia|]. split; [lia|].
  split; [lia|]. intros Y' Pc' Hlt HPc'.
  pose proof (laid_order g m k0 X Y Y' Pc Pc' Hlaid HPc HPc' Hlt).
  split; [lia|]. split; [lia|]. intros _ PR' HPR'.
  rewrite (right_of_row g X Y Y'), Ero in HPR'. cbn [fst snd] in HPR'.
  pose proof (laid_order g m k0 x y (y + (Y' - Y)) PR PR' Hlaid HPR HPR' ltac:(lia)). lia.
Qed.

(** The calls of a cell do not go back from the boundaries that the cells
    before it have left. *)
Lemma cell_calls_above (g : grid) (m : maze_t) (k0 k : mesh) (X Y v Pc : Z) :
  laid g m k0 -> below g k0 k X Y -> pstart k0 !! (X, Y) = Some Pc ->
  Forall (above k) (cell_calls X v Pc).
Proof.
  intros Hlaid Hbel HPc.
  destruct (laid_cell g m k0 X Y Pc Hlaid HPc) as (HX & HP & HP16 & _).
  eapply Forall_impl; [apply (cell_calls_bounds X v Pc); lia|].
  intros [[i l] r]. cbn [fst snd]. intros ((j & Hj & ->) & Hl & Hr) x Hx Hne.
  destruct (Hbel X j x HX ltac:(lia) Hx Hne) as (_ & _ & B3).
  destruct (B3 Y Pc) as (B4 & B5 & _); [|exact HPc|].
  - unfold earlier. lia.
  - specialize (B5 ltac:(lia)). lia.
Qed.

Lemma join_calls_above (g : grid) (m : maze_t) (k0 k k1 : mesh) (X Y v Pc PR : Z) :
  laid g m k0 -> below g k0 k X Y -> advanced k k1 (cell_calls X v Pc) ->
  pstart k0 !! (X, Y) = Some Pc -> pstart k0 !! right_of g X Y = Some PR ->
  Forall (above k1) (join_calls X v Pc PR).
Proof.
  intros Hlaid Hbel Hadv HPc HPR.
  destruct (laid_cell g m k0 X Y Pc Hlaid HPc) as (HX & HP & HP16 & _).
  assert (0 <= PR).
  { destruct (right_of g X Y) as [x y].
    destruct (laid_cell g m k0 x y PR Hlaid HPR) as (_ & HR & _). lia. }
  eapply Forall_impl; [apply (join_calls_bounds X v Pc PR); lia|].
  intros [[i l] r]. cbn [fst snd]. intros (-> & Hl & Hr) x Hx1 Hne.
  destruct (Hadv (X * 4 + 3) x ltac:(lia) Hx1) as [Hx|(l' & r' & Hin & _)].
  - destruct (Hbel X 3 x HX ltac:(lia) Hx Hne) as (_ & _ & B3).
    destruct (B3 Y Pc) as (B4 & _ & B6); [|exact HPc|].
    + unfold earlier. lia.
    + specialize (B6 eq_refl PR HPR). lia.
  - pose proof (cell_calls_bounds X v Pc ltac:(lia)) as Hall.
    rewrite Forall_forall in Hall.
    destruct (Hall _ (proj2 (list_elem_of_In _ _) Hin)) as ((j & Hj & E) & _).
    cbn [fst] in E. lia.
Qed.

Lemma slice_calls_run (g : grid) (m : maze_t) (k0 k : mesh) (calls : list (Z * Z * Z)) :
  0 < W g -> laid g m k0 -> framed k0 k -> leveled g k0 k ->
  Forall (fit g k0) calls -> StronglySorted rising calls -> Forall (above k) calls ->
  esafe [] (slice_calls g calls k)
    (fun k' => framed k0 k' /\ leveled g k0 k' /\ advanced k k' calls).
Proof.
  intros HW Hlaid Hfr Hlev Hfit Hsort Hab.
  destruct (slice_calls_fit g m k0 HW Hlaid calls k Hfr Hlev Hfit Hsort Hab)
    as (o & k' & E & Hfr' & Hlev' & Hadv).
  unfold esafe. rewrite E. cbn [snd]. split; [exact Hfr'|]. split; [exact Hlev'|exact Hadv].
Qed.

(** "Maze", at (X, Y): the calls of the cell and those that join it to its
    right neighbour all succeed. *)
Lemma cell_faces_ok (g : grid) (m : maze_t) (k0 k : mesh) (X Y : Z) :
  0 < W g -> 0 < nubs g -> laid g m k0 -> 0 <= X < W g -> 0 <= Y < H g ->
  framed k0 k -> leveled g k0 k -> below g k0 k X Y ->
  esafe [] (cell_faces g m X Y k)
    (fun k' => framed k0 k' /\ leveled g k0 k' /\ below g k0 k' (X + 1) Y).
Proof.
  intros HW Hn Hlaid HX HY Hfr Hlev Hbel. unfold cell_faces.
  destruct (rendered_spec g m X Y HW Hn) as (v & Ev & _ & Hc). rewrite Ev.
  apply esafe_bind with (J := fun a => a = v); [reflexivity|]. intros a ->.
  rewrite Hc. destruct (rendered g m X Y) eqn:Er; cbn [negb].
  2:{ apply esafe_ret. split; [exact Hfr|]. split; [exact Hlev|].
      apply (below_step g k0 k k X Y []); [exact HX|exact Hbel|apply advanced_refl|constructor]. }
  destruct (laid_rendered g m k0 X Y Hlaid HX HY Er) as [Pc HPc].
  destruct (laid_cell g m k0 X Y Pc Hlaid HPc) as (_ & HP & HP16 & Hb).
  assert (Hps : pstart k = pstart k0) by (destruct Hfr as (_ & _ & _ & Hps & _); exact Hps).
  cbv zeta. rewrite Hps, HPc. change (default 0 (Some Pc)) with Pc.
  eapply esafe_bind.
  { apply (slice_calls_run g m k0 k); try assumption.
    - apply cell_calls_fit; assumption.
    - apply cell_calls_rising. lia.
    - apply (cell_calls_above g m k0 k X Y v Pc); assumption. }
  cbn beta. intros k1 (Hfr1 & Hlev1 & Hadv1).
  assert (Hps1 : pstart k1 = pstart k0)
    by (destruct Hfr1 as (_ & _ & _ & Hps1 & _); exact Hps1).
  assert (Hset1 : Forall (settled g k0 X Y) (cell_calls X v Pc))
    by (apply (cell_calls_settled g m k0 X Y v Pc); assumption).
  assert (Hdone : framed k0 k1 /\ leveled g k0 k1 /\ below g k0 k1 (X + 1) Y).
  { split; [exact Hfr1|]. split; [exact Hlev1|].
    apply (below_step g k0 k k1 X Y _ HX Hbel Hadv1 Hset1). }
  change (if W g <=? X + 1 then (X + 1 - W g, Y + helix g) else (X + 1, Y))
    with (right_of g X Y).
  destruct (right_of g X Y) as [x y] eqn:Ero.
  destruct ((0 <=? y) && (y <? H g)); [|apply esafe_ret; exact Hdone].
  rewrite Hps1. destruct (pstart k0 !! (x, y)) as [PR|] eqn:HPR;
    [change (default 0 (Some PR)) with PR|apply esafe_ret; exact Hdone].
  destruct (Z.eqb_spec PR 0); [apply esafe_ret; exact Hdone|].
  rewrite <- Ero in HPR.
  assert (HR : 3 * (W g * 4) <= PR /\ block k0 (fst (right_of g X Y)) PR).
  { rewrite Ero in *. destruct (laid_cell g m k0 x y PR Hlaid HPR) as (_ & HR & _ & HbR).
    split; assumption. }
  eapply esafe_weaken.
  { apply (slice_calls_run g m k0 k1); try assumption.
    - apply (join_calls_fit g k0 X Y v Pc PR); try assumption; apply HR.
    - apply join_calls_rising; lia.
    - apply (join_calls_above g m k0 k k1 X Y v Pc PR); assumption. }
  cbn beta. intros k2 (Hfr2 & Hlev2 & Hadv2).
  split; [exact Hfr2|]. split; [exact Hlev2|].
  apply (below_step g k0 k k2 X Y _ HX Hbel (advanced_app _ _ _ _ _ Hadv1 Hadv2)).
  apply Forall_app. split; [exact Hset1|].
  apply (join_calls_settled g m k0 X Y v Pc PR); assumption.
Qed.

(** A fit call on slice [S], whose boundaries are [a] and [b]. *)
Lemma slice_fit_at (g : grid) (m : maze_t) (k0 k : mesh) (S l r a b : Z) (x : slice_t) :
  0 < W g -> laid g m k0 -> framed k0 k -> 0 <= S ->
  slices k !! Z.to_nat S = Some x ->
  (a = 0 \/ (inner g k0 S a /\ inner g k0 (Z.rem (S + 1) (W g * 4)) b)) ->
  fit g k0 (S, l, r) ->
  (a <> 0 -> Z.abs a <= Z.abs l /\ Z.abs b <= Z.abs r) ->
  esafe [] (slice g S l r (set_slice S (Slice a b (sp x)) k))
    (fun k' => k' = set_slice S (Slice l r (sp x)) k).
Proof.
  intros HW Hlaid Hfr HS Hx Hlev Hfit Hab.
  pose proof (lookup_lt_Some _ _ _ Hx) as Hlt.
  assert (Hx1 : slices (set_slice S (Slice a b (sp x)) k) !! Z.to_nat S
                = Some (Slice a b (sp x))).
  { unfold set_slice. cbn [slices]. apply list_lookup_insert_eq. exact Hlt. }
  destruct (slice_fit g m k0 _ S l r _ HW Hlaid (framed_set_slice k0 k S a b x Hfr Hx)
              Hx1 Hlev Hfit) as [o Ho].
  { intros y Hy Hne. rewrite Hx1 in Hy. injection Hy as <-. cbn [sl sr] in *.
    apply Hab, Hne. }
  unfold esafe. rewrite Ho. cbn [snd sp]. apply set_slice_twice.
Qed.

(** "Top": the four calls that close slice [S] succeed. *)
Lemma top_faces_ok (g : grid) (m : maze_t) (k0 k : mesh) (S : Z) :
  0 < W g -> laid g m k0 -> 0 <= S < W g * 4 -> topping g k0 k S ->
  esafe [] (top_faces g S k) (fun k' => topping g k0 k' (S + 1)).
Proof.
  intros HW Hlaid HS [Hfr Hlev]. unfold top_faces. cbv zeta.
  pose proof (Z.rem_bound_pos (S + 1) (W g * 4) ltac:(lia) ltac:(lia)) as HSR.
  pose proof (rem_succ_ne S (W g * 4) HS ltac:(lia)) as Hne.
  set (n := W g * 4) in *. set (SR := Z.rem (S + 1) n) in *.
  destruct (framed_lookup g m k0 k S Hlaid Hfr HS) as (x & x0 & q & Hx & Hx0 & Hsp & Hq & Hinc).
  destruct (framed_lookup g m k0 k SR Hlaid Hfr HSR)
    as (xr & xr0 & qr & Hxr & Hxr0 & Hspr & Hqr & Hincr).
  assert (Ex : slice_at (slices k) S = Ok x) by (apply slice_at_ok; split; [lia|exact Hx]).
  rewrite Ex. apply esafe_bind with (J := fun a => a = x); [reflexivity|]. intros a ->.
  assert (Ht : top k = top k0) by (destruct Hfr as (_ & _ & Ht & _); exact Ht).
  assert (Hb : bottom k = 0).
  { destruct Hfr as (_ & -> & _). destruct Hlaid as (-> & _). reflexivity. }
  assert (Htop : 3 * n <= top k0) by (destruct Hlaid as (_ & Htop & _); exact Htop).
  destruct (laid_rings g m k0 S HW Hlaid HS) as (_ & _ & T1 & T2 & T3).
  destruct (laid_rings g m k0 SR HW Hlaid HSR) as (_ & _ & T1r & T2r & T3r).
  fold n in T1, T2, T3, T1r, T2r, T3r.
  pose proof (Hlev S x ltac:(lia) Hx) as HlevS.
  rewrite Ht.
  set (l1 := top k0 + S + (if sl x <? 0 then n else 0)).
  set (r1 := top k0 + SR + (if sr x <? 0 then n else 0)).
  assert (Il1 : inner g k0 S l1).
  { subst l1. destruct (sl x <? 0).
    - replace (top k0 + S + n) with (top k0 + n + S) by lia. exact T2.
    - rewrite Z.add_0_r. exact T1. }
  assert (Ir1 : inner g k0 SR r1).
  { subst r1. destruct (sr x <? 0).
    - replace (top k0 + SR + n) with (top k0 + n + SR) by lia. exact T2r.
    - rewrite Z.add_0_r. exact T1r. }
  assert (Hl1 : top k0 + S <= l1 <= top k0 + S + n) by (subst l1; destruct (sl x <? 0); lia).
  assert (Hr1 : top k0 + SR <= r1 <= top k0 + SR + n)
    by (subst r1; destruct (sr x <? 0); lia).
  eapply esafe_bind.
  { rewrite <- (set_slice_same S x k Hx) at 1.
    apply (slice_fit_at g m k0 k S l1 r1 (sl x) (sr x) x HW Hlaid Hfr ltac:(lia) Hx).
    - destruct HlevS as [E|(I1 & I2 & _)]; [left; exact E|right; split; assumption].
    - unfold fit. cbv zeta. fold n SR. split; [exact HS|]. split; [exact Il1|].
      split; [exact Ir1|]. destruct (l1 <? 0), (r1 <? 0); lia.
    - intros Hne0. destruct HlevS as [E|(_ & _ & B1 & B2)]; [contradiction|]. lia. }
  cbn beta. intros k1 ->. cbn [top bottom set_slice]. rewrite Ht.
  eapply esafe_bind.
  { apply (slice_fit_at g m k0 k S (top k0 + S + n) (top k0 + SR + n) l1 r1 x
             HW Hlaid Hfr ltac:(lia) Hx).
    - right. split; assumption.
    - unfold fit. cbv zeta. fold n SR. split; [exact HS|].
      split; [replace (top k0 + S + n) with (top k0 + n + S) by lia; exact T2|].
      split; [replace (top k0 + SR + n) with (top k0 + n + SR) by lia; exact T2r|].
      destruct (top k0 + S + n <? 0), (top k0 + SR + n <? 0); lia.
    - intros _. lia. }
  cbn beta. intros k2 ->. cbn [top bottom set_slice]. rewrite Ht.
  eapply esafe_bind.
  { apply (slice_fit_at g m k0 k S (top k0 + S + 2 * n) (top k0 + SR + 2 * n)
             (top k0 + S + n) (top k0 + SR + n) x HW Hlaid Hfr ltac:(lia) Hx).
    - right. split.
      + replace (top k0 + S + n) with (top k0 + n + S) by lia. exact T2.
      + replace (top k0 + SR + n) with (top k0 + n + SR) by lia. exact T2r.
    - unfold fit. cbv zeta. fold n SR. split; [exact HS|].
      split; [replace (top k0 + S + 2 * n) with (top k0 + 2 * n + S) by lia; exact T3|].
      split; [replace (top k0 + SR + 2 * n) with (top k0 + 2 * n + SR) by lia; exact T3r|].
      destruct (top k0 + S + 2 * n <? 0), (top k0 + SR + 2 * n <? 0); lia.
    - intros _. lia. }
  cbn beta. intros k3 ->. cbn [top bottom set_slice]. rewrite Hb, !Z.add_0_l.
  set (l3 := top k0 + S + 2 * n). set (r3 := top k0 + SR + 2 * n).
  set (k3 := set_slice S (Slice l3 r3 (sp x)) k).
  pose proof (lookup_lt_Some _ _ _ Hx) as Hlt.
  assert (Hx3 : slices k3 !! Z.to_nat S = Some (Slice l3 r3 (sp x))).
  { unfold k3, set_slice. cbn [slices]. apply list_lookup_insert_eq. exact Hlt. }
  assert (Hxr3 : slices k3 !! Z.to_nat SR = Some xr).
  { unfold k3, set_slice. cbn [slices]. rewrite list_lookup_insert_ne by lia. exact Hxr. }
  destruct (slice_ok g S S SR k3 _ xr HW HS Hx3 Hxr3) as [o Ho].
  - unfold start_l. cbn [sl sp]. destruct (Z.eqb_spec l3 0) as [E|_]; [lia|].
    rewrite Hsp. apply follows_last.
    apply (inner_body g k0 S l3 x0 q Hx0 Hq ltac:(lia)).
    subst l3. replace (top k0 + S + 2 * n) with (top k0 + 2 * n + S) by lia. exact T3.
  - unfold start_r. cbn [sl sr sp]. destruct (Z.eqb_spec l3 0) as [E|_]; [lia|].
    rewrite Hspr. apply follows_last.
    apply (inner_body g k0 SR r3 xr0 qr Hxr0 Hqr ltac:(lia)).
    subst r3. replace (top k0 + SR + 2 * n) with (top k0 + 2 * n + SR) by lia. exact T3r.
  - unfold esafe. fold n SR in Ho. rewrite Ho. cbn [snd sp].
    unfold k3. rewrite set_slice_twice. split.
    + apply framed_set_slice; assumption.
    + intros S' y HS' Hy. unfold set_slice in Hy. cbn [slices] in Hy.
      rewrite list_lookup_insert_ne in Hy by lia.
      apply (Hlev S' y ltac:(lia) Hy).
Qed.

(** "Make faces" succeeds on the mesh that "Make points" left. *)
Lemma make_faces_ok (g : grid) (m : maze_t) (k0 : mesh) :
  0 < W g -> 0 < nubs g -> 0 <= H g -> laid g m k0 ->
  esafe [] (make_faces g m k0) (fun k' => framed k0 k').
Proof.
  intros HW Hn HH Hlaid. unfold make_faces.
  apply esafe_bind
    with (J := fun k => framed k0 k /\ leveled g k0 k /\ below g k0 k 0 (H g)).
  - apply (esafe_for_range_at [] (fun Y k =>
             framed k0 k /\ leveled g k0 k /\ below g k0 k 0 Y)); [exact HH| |].
    + assert (Hz : forall S x, 0 <= S -> slices k0 !! Z.to_nat S = Some x -> sl x = 0).
      { intros S x HS Hx. destruct Hlaid as (_ & _ & _ & _ & Hs & _).
        destruct (Hs S x HS Hx) as (E & _). exact E. }
      split; [apply framed_refl|]. split.
      * intros S x HS Hx. left. apply (Hz S x HS Hx).
      * intros X j x HX Hj Hx Hne. exfalso. apply Hne, (Hz (X * 4 + j) x); [lia|exact Hx].
    + intros Y k HY (Hfr & Hlev & Hbel). eapply esafe_weaken.
      * apply (esafe_for_range_at [] (fun X k =>
                 framed k0 k /\ leveled g k0 k /\ below g k0 k X Y)); [lia| |].
        -- split; [exact Hfr|]. split; [exact Hlev|exact Hbel].
        -- intros X t HX (Hfr' & Hlev' & Hbel').
           apply (cell_faces_ok g m k0 t X Y); assumption.
      * cbn beta. intros t (Hfr' & Hlev' & Hbel').
        split; [exact Hfr'|]. split; [exact Hlev'|].
        intros X j x HX Hj Hx Hne. destruct (Hbel' X j x HX Hj Hx Hne) as (B1 & B2 & B3).
        split; [exact B1|]. split; [exact B2|]. intros Y1 Pc He. apply B3.
        rewrite (earlier_row_end g) by exact HX. exact He.
  - intros k (Hfr & Hlev & Hbel). eapply esafe_weaken.
    + apply (esafe_for_range_at [] (fun S k => topping g k0 k S)); [lia| |].
      * split; [exact Hfr|]. intros S x HS Hx.
        destruct (Hlev S x ltac:(lia) Hx) as [E|[I1 I2]]; [left; exact E|].
        right. split; [exact I1|]. split; [exact I2|].
        pose proof (Z.div_mod S 4 ltac:(lia)) as Hdm.
        pose proof (Z.mod_pos_bound S 4 ltac:(lia)) as Hmb.
        assert (HX : 0 <= S / 4 < W g).
        { split; [apply Z.div_pos; lia|apply Z.div_lt_upper_bound; lia]. }
        assert (Hx' : slices k !! Z.to_nat (S / 4 * 4 + S mod 4) = Some x).
        { replace (S / 4 * 4 + S mod 4) with S by lia. exact Hx. }
        assert (Hne : sl x <> 0) by (destruct I1 as [_ Hge]; lia).
        destruct (Hbel (S / 4) (S mod 4) x HX Hmb Hx' Hne) as (B1 & B2 & _).
        split; assumption.
      * intros S t HS Ht. apply (top_faces_ok g m k0 t S); assumption.
    + cbn beta. intros t [Hfr' _]. exact Hfr'.
Qed.

Lemma fits_le (k : mesh) (f f' : Z -> Z) :
  fits k f -> (forall S, 0 <= S -> f S <= f' S) -> fits k f'.
Proof. intros Hf Hle S x HS Hx. specialize (Hf S x HS Hx). specialize (Hle S HS). lia. Qed.

Lemma addpoint_fits (g : grid) (o : options) (recess : bool) (S layer : Z) (k : mesh)
    (f : Z -> Z) :
  sliced g k -> 0 <= S < W g * 4 -> fits k f -> f S < MAXY o ->
  esafe [] (addpoint o recess S layer k) (fun k' =>
    sliced g k' /\ fits k' (fun S' => f S' + (if S' =? S then 1 else 0))).
Proof.
  intros Hk HS Hf Hroom. unfold addpoint.
  destruct (slice_at_in_range g k S Hk HS) as [x Ex]. rewrite Ex. cbn [quiet ebind print].
  apply slice_at_ok in Ex as [_ Ex]. pose proof (Hf S x ltac:(lia) Ex) as Hlen.
  destruct (Z.leb_spec (MAXY o) (Z.of_nat (length (sp x)))); [lia|]. cbn [quiet eret].
  unfold esafe, sliced, set_slice, fits. cbn [snd slices]. rewrite length_insert.
  split; [exact Hk|]. intros S' y HS' Hy.
  destruct (decide (Z.to_nat S = Z.to_nat S')) as [E|Hne].
  - rewrite <- E, list_lookup_insert_eq in Hy by (apply lookup_lt_Some in Ex; exact Ex).
    injection Hy as <-. cbn [sp]. rewrite length_app. cbn [length].
    assert (S' = S) as -> by lia. rewrite Z.eqb_refl. lia.
  - rewrite list_lookup_insert_ne in Hy by exact Hne. specialize (Hf S' y HS' Hy).
    destruct (S' =? S); lia.
Qed.

Lemma addpoints_fits (g : grid) (o : options) (recess : bool) (layer lo hi : Z) (k : mesh)
    (f : Z -> Z) :
  sliced g k -> 0 <= lo <= hi -> hi <= W g * 4 -> fits k f ->
  (forall S, lo <= S < hi -> f S < MAXY o) ->
  esafe [] (addpoints o recess layer lo hi k) (fun k' =>
    sliced g k' /\ fits k' (fun S' => f S' + (if (lo <=? S') && (S' <? hi) then 1 else 0))).
Proof.
  intros Hk Hlo Hhi Hf Hroom. unfold addpoints.
  apply (esafe_for_range_at [] (fun j k' =>
    sliced g k' /\ fits k' (fun S' => f S' + (if (lo <=? S') && (S' <? j) then 1 else 0))));
    [lia| |].
  - split; [exact Hk|]. apply (fits_le k f); [exact Hf|]. intros S HS.
    destruct (Z.leb_spec lo S), (Z.ltb_spec S lo); cbn; lia.
  - intros j t Hj [Ht Hft]. eapply esafe_weaken.
    + apply (addpoint_fits g o recess j layer t _ Ht ltac:(lia) Hft).
      destruct (Z.leb_spec lo j), (Z.ltb_spec j j); cbn; try lia.
      specialize (Hroom j Hj). lia.
    + cbn beta. intros t' [Ht' Hft']. split; [exact Ht'|].
      apply (fits_le _ _ _ Hft'). intros S HS.
      destruct (Z.leb_spec lo S), (Z.ltb_spec S j), (Z.ltb_spec S (j + 1)),
        (Z.eqb_spec S j); cbn; lia.
Qed.

Lemma cell_points_fits (g : grid) (o : options) (m : maze_t) (X Y : Z) (k : mesh)
    (f : Z -> Z) :
  0 < W g -> 0 < nubs g -> sliced g k -> 0 <= X < W g -> fits k f ->
  (forall S, X * 4 <= S < X * 4 + 4 -> f S + 3 < MAXY o) ->
  esafe [] (cell_points g o m X Y k) (fun k' =>
    sliced g k'
    /\ fits k' (fun S' => f S' + (if (X * 4 <=? S') && (S' <? X * 4 + 4) then 4 else 0))).
Proof.
  intros HW Hn Hk HX Hf Hroom. unfold cell_points. rewrite test_spec by assumption.
  eapply esafe_bind; [apply (esafe_quiet _ _ (fun _ => True)); exact I|]. intros v _.
  destruct ((Z.land _ FLAGA =? 0) || negb (Z.land _ FLAGI =? 0)).
  { apply esafe_ret. split; [exact Hk|]. apply (fits_le k f); [exact Hf|].
    intros S HS. destruct ((X * 4 <=? S) && (S <? X * 4 + 4)); lia. }
  set (k0 := Mesh (slices k) (P k) (<[(X, Y) := P k]> (pstart k)) (bottom k) (top k)).
  assert (Hk0 : sliced g k0) by exact Hk.
  assert (Hf0 : fits k0 (fun S' => f S' + (if (X * 4 <=? S') && (S' <? X * 4 + 4)
                                           then 0 else 0))).
  { apply (fits_le k f); [exact Hf|]. intros S HS.
    destruct ((X * 4 <=? S) && (S <? X * 4 + 4)); lia. }
  assert (Hrow : forall recess layer t c,
             sliced g t -> 0 <= c <= 3 ->
             fits t (fun S' => f S' + (if (X * 4 <=? S') && (S' <? X * 4 + 4)
                                       then c else 0)) ->
             esafe [] (addpoints o recess layer (X * 4) (X * 4 + 4) t) (fun t' =>
               sliced g t'
               /\ fits t' (fun S' => f S' + (if (X * 4 <=? S') && (S' <? X * 4 + 4)
                                             then c + 1 else 0)))).
  { intros recess layer t c Ht Hc Hft. eapply esafe_weaken.
    - eapply (addpoints_fits g o recess layer (X * 4) (X * 4 + 4) t);
        [exact Ht|lia|lia|exact Hft|].
      cbn beta. intros S HS. specialize (Hroom S HS).
      destruct ((X * 4 <=? S) && (S <? X * 4 + 4)); lia.
    - cbn beta. intros t' [Ht' Hft']. split; [exact Ht'|].
      apply (fits_le _ _ _ Hft'). intros S HS.
      destruct ((X * 4 <=? S) && (S <? X * 4 + 4)); lia. }
  eapply esafe_bind; [apply (Hrow false 2 k0 0 Hk0 ltac:(lia) Hf0)|].
  cbn beta. intros k1 [Hk1 Hf1].
  eapply esafe_bind; [apply (Hrow true 1 k1 (0 + 1) Hk1 ltac:(lia) Hf1)|].
  cbn beta. intros k2 [Hk2 Hf2].
  eapply esafe_bind; [apply (Hrow true 1 k2 (0 + 1 + 1) Hk2 ltac:(lia) Hf2)|].
  cbn beta. intros k3 [Hk3 Hf3].
  eapply esafe_weaken; [apply (Hrow false 2 k3 (0 + 1 + 1 + 1) Hk3 ltac:(lia) Hf3)|].
  cbn beta. intros k4 [Hk4 Hf4]. split; [exact Hk4|].
  apply (fits_le _ _ _ Hf4). intros S HS.
  destruct ((X * 4 <=? S) && (S <? X * 4 + 4)); lia.
Qed.

(** With room for four points by row and seven more, "Make points" does not
    end on "WTF points". *)
Lemma make_points_fits (g : grid) (o : options) (m : maze_t) :
  0 < W g -> 0 < nubs g -> 0 <= H g -> 4 * H g + 7 <= MAXY o ->
  esafe [] (make_points g o m) (sliced g).
Proof.
  intros HW Hn HH Hroom. unfold make_points. cbv zeta. cbn [P slices pstart bottom top].
  set (n := W g * 4).
  set (k0 := Mesh (replicate (Z.to_nat n) (Slice 0 0 [])) 0 ∅ 0 0).
  assert (Hk0 : sliced g k0) by apply length_replicate.
  assert (Hf0 : fits k0 (fun _ => 0)).
  { intros S x _ Hx. apply lookup_replicate in Hx as [-> _]. cbn. lia. }
  assert (Hring : forall recess layer k c,
             sliced g k -> fits k (fun _ => c) -> c < MAXY o ->
             esafe [] (addpoints o recess layer 0 n k) (fun k' =>
               sliced g k' /\ fits k' (fun _ => c + 1))).
  { intros recess layer k c Hk Hf Hc. eapply esafe_weaken.
    - eapply (addpoints_fits g o recess layer 0 n k); [exact Hk|lia|lia|exact Hf|].
      intros S _. exact Hc.
    - cbn beta. intros k' [Hk' Hf']. split; [exact Hk'|].
      apply (fits_le _ _ _ Hf'). intros S HS. destruct ((0 <=? S) && (S <? n)); lia. }
  eapply esafe_bind; [apply (Hring false 0 k0 0 Hk0 Hf0); lia|].
  cbn beta. intros k1 [Hk1 Hf1].
  eapply esafe_bind; [apply (Hring true 1 k1 _ Hk1 Hf1); lia|].
  cbn beta. intros k2 [Hk2 Hf2].
  eapply esafe_bind; [apply (Hring false 2 k2 _ Hk2 Hf2); lia|].
  cbn beta. intros k3 [Hk3 Hf3].
  eapply esafe_bind.
  { apply (esafe_for_range_at [] (fun Y k =>
             sliced g k /\ fits k (fun _ => 3 + 4 * Y))); [exact HH| |].
    - split; [exact Hk3|]. apply (fits_le _ _ _ Hf3). intros S _. lia.
    - intros Y t HY [Ht Hft]. eapply esafe_weaken.
      + apply (esafe_for_range_at [] (fun X k =>
                 sliced g k
                 /\ fits k (fun S => 3 + 4 * Y + (if S <? X * 4 then 4 else 0))));
          [lia| |].
        * split; [exact Ht|]. apply (fits_le _ _ _ Hft). intros S HS.
          destruct (Z.ltb_spec S (0 * 4)); lia.
        * intros X t' HX [Ht' Hft']. eapply esafe_weaken.
          -- eapply (cell_points_fits g o m X Y t'); [exact HW|exact Hn|exact Ht'|exact HX
                                                     |exact Hft'|]. cbn beta.
             intros S HS. destruct (Z.ltb_spec S (X * 4)); lia.
          -- cbn beta. intros t2 [Ht2 Hft2]. split; [exact Ht2|].
             apply (fits_le _ _ _ Hft2). intros S HS.
             destruct (Z.ltb_spec S (X * 4)), (Z.ltb_spec S ((X + 1) * 4)),
               (Z.leb_spec (X * 4) S), (Z.ltb_spec S (X * 4 + 4)); cbn; lia.
      + cbn beta. intros t' [Ht' Hft']. split; [exact Ht'|].
        apply (fits_le _ _ _ Hft'). intros S HS. destruct (S <? W g * 4); lia. }
  cbn beta. intros k4 [Hk4 Hf4].
  set (k5 := Mesh (slices k4) (P k4) (pstart k4) (bottom k4) (P k4)).
  assert (Hk5 : sliced g k5) by exact Hk4.
  assert (Hf5 : fits k5 (fun _ => 3 + 4 * H g)) by exact Hf4.
  eapply esafe_bind; [apply (Hring false 2 k5 _ Hk5 Hf5); lia|].
  cbn beta. intros k6 [Hk6 Hf6].
  eapply esafe_bind; [apply (Hring false 1 k6 _ Hk6 Hf6); lia|].
  cbn beta. intros k7 [Hk7 Hf7].
  eapply esafe_bind; [apply (Hring false 0 k7 _ Hk7 Hf7); lia|].
  cbn beta. intros k8 [Hk8 Hf8].
  eapply esafe_weaken.
  - apply (esafe_for_range_at [] (fun Sc k =>
             sliced g k
             /\ fits k (fun S => 3 + 4 * H g + 1 + 1 + 1 + (if S <? Sc then 1 else 0))));
      [lia| |].
    + split; [exact Hk8|]. apply (fits_le _ _ _ Hf8). intros S HS.
      destruct (Z.ltb_spec S 0); lia.
    + intros S t HS [Ht Hft]. unfold wrap_back.
      destruct (slice_at_in_range g t S Ht HS) as [x Ex]. rewrite Ex. cbn [quiet ebind].
      apply slice_at_ok in Ex as [_ Ex]. pose proof (Hft S x ltac:(lia) Ex) as Hlen.
      cbn beta in Hlen. destruct (Z.ltb_spec S S); [lia|].
      destruct (Z.leb_spec (MAXY o) (Z.of_nat (length (sp x)))); [lia|]. cbn [quiet eret].
      unfold esafe, sliced, set_slice, fits. cbn [snd slices]. rewrite length_insert.
      split; [exact Ht|]. intros S' y HS' Hy.
      destruct (decide (Z.to_nat S = Z.to_nat S')) as [E|Hne].
      * rewrite <- E, list_lookup_insert_eq in Hy by (apply lookup_lt_Some in Ex; exact Ex).
        injection Hy as <-. cbn [sp]. rewrite length_app. cbn [length].
        assert (S' = S) as -> by lia. destruct (Z.ltb_spec S (S + 1)); lia.
      * rewrite list_lookup_insert_ne in Hy by exact Hne. specialize (Hft S' y HS' Hy).
        cbn beta in Hft. destruct (Z.ltb_spec S' S), (Z.ltb_spec S' (S + 1)); lia.
  - cbn beta. intros t [Ht _]. exact Ht.
Qed.

Example path_sample :
  read_path sample_libc (chr "/") (cstr "/m=3/n=2") []
  = Ok (Done [("parts"%string, VInt 3)]).
Proof. vm_compute. reflexivity. Qed.

(** *** The loops of the path stay inside the copy *)

Lemma byte_at_ok (buf : list Z) (n p : nat) :
  terminated buf n -> (p <= n)%nat -> exists c, byte_at buf p = Ok c /\ buf !! p = Some c.
Proof.
  intros [Hlen _] Hp. unfold byte_at.
  destruct (lookup_lt_is_Some_2 buf p) as [c Hc]; [lia|]. rewrite Hc. eauto.
Qed.

Lemma nonzero_before_end (buf : list Z) (n p : nat) (c : Z) :
  terminated buf n -> (p <= n)%nat -> buf !! p = Some c -> c <> 0 -> (p < n)%nat.
Proof.
  intros [_ Hend] Hp Hc Hne. destruct (decide (p = n)) as [->|]; [congruence|lia].
Qed.

Lemma set_byte_ok (buf : list Z) (n q : nat) (c : Z) :
  terminated buf n -> (q <= n)%nat -> (q = n -> c = 0) ->
  exists buf', set_byte buf q c = Ok buf' /\ terminated buf' n.
Proof.
  intros [Hlen Hend] Hq Hc. unfold set_byte.
  destruct (Nat.ltb_spec q (length buf)); [|lia].
  eexists. split; [reflexivity|]. split; [rewrite length_insert; exact Hlen|].
  destruct (decide (q = n)) as [->|Hne].
  - rewrite list_lookup_insert_eq by lia. rewrite Hc; reflexivity.
  - rewrite list_lookup_insert_ne by exact Hne. exact Hend.
Qed.

Lemma skip_to_sep_ok (sep : Z) (buf : list Z) (n : nat) :
  terminated buf n ->
  forall (fuel p : nat), (p <= n)%nat -> (n - p < fuel)%nat ->
    exists p', skip_to_sep fuel sep buf p = Ok p' /\ (p <= p' <= n)%nat.
Proof.
  intros Ht. induction fuel as [|fuel IH]; intros p Hp Hf; [lia|]. cbn [skip_to_sep].
  destruct (byte_at_ok buf n p Ht Hp) as (c & -> & Hc). cbn [rbind].
  destruct (Z.eqb_spec c 0) as [|Hne]; cbn [negb andb]; [exists p; split; [reflexivity|lia]|].
  destruct (c =? sep); cbn [negb]; [exists p; split; [reflexivity|lia]|].
  pose proof (nonzero_before_end buf n p c Ht Hp Hc Hne).
  destruct (IH (S p) ltac:(lia) ltac:(lia)) as (p' & -> & Hp'). exists p'. split; [reflexivity|lia].
Qed.

Lemma decode_ok (sep : Z) (n : nat) :
  forall (fuel : nat) (buf : list Z) (p q : nat),
    terminated buf n -> (q <= p <= n)%nat -> (n - p < fuel)%nat ->
    exists buf' p' q',
      decode fuel sep buf p q = Ok (buf', p', q')
      /\ terminated buf' n /\ (q' <= p' <= n)%nat /\ (p <= p')%nat.
Proof.
  induction fuel as [|fuel IH]; intros buf p q Ht Hp Hf; [lia|]. cbn [decode].
  destruct (byte_at_ok buf n p Ht ltac:(lia)) as (c & -> & Hc). cbn [rbind].
  destruct (Z.eqb_spec c 0) as [|Hne]; cbn [negb andb].
  { exists buf, p, q. split; [reflexivity|]. split; [exact Ht|]. lia. }
  destruct (c =? sep); cbn [negb].
  { exists buf, p, q. split; [reflexivity|]. split; [exact Ht|]. lia. }
  pose proof (nonzero_before_end buf n p c Ht ltac:(lia) Hc Hne) as Hlt.
  assert (Hstep : forall b k,
             (S p <= k <= n)%nat ->
             exists buf' p' q',
               (let* buf0 := set_byte buf q b in decode fuel sep buf0 k (S q))
               = Ok (buf', p', q')
               /\ terminated buf' n /\ (q' <= p' <= n)%nat /\ (p <= p')%nat).
  { intros b k Hk. destruct (set_byte_ok buf n q b Ht ltac:(lia) ltac:(lia)) as (buf0 & -> & Ht0).
    cbn [rbind]. destruct (IH buf0 k (S q) Ht0 ltac:(lia) ltac:(lia))
      as (buf' & p' & q' & -> & Ht' & Hq' & Hp').
    exists buf', p', q'. split; [reflexivity|]. split; [exact Ht'|]. lia. }
  destruct ((sep =? chr "&") && (c =? chr "+")); [apply Hstep; lia|].
  destruct ((sep =? chr "&") && (c =? chr "%")); cbn [rbind]; [|apply Hstep; lia].
  destruct (byte_at_ok buf n (p + 1) Ht ltac:(lia)) as (c1 & E1 & Hc1). rewrite E1.
  cbn [rbind]. destruct (isxdigit c1) eqn:X1; cbn [rbind]; [|apply Hstep; lia].
  assert (Hlt1 : (p + 1 < n)%nat).
  { apply (nonzero_before_end buf n (p + 1) c1 Ht ltac:(lia) Hc1).
    intros ->. discriminate. }
  destruct (byte_at_ok buf n (p + 2) Ht ltac:(lia)) as (c2 & E2 & Hc2). rewrite E2.
  cbn [rbind]. destruct (isxdigit c2) eqn:X2; [|apply Hstep; lia].
  cbn [rbind]. cbv zeta.
  assert (Hlt2 : (p + 2 < n)%nat).
  { apply (nonzero_before_end buf n (p + 2) c2 Ht ltac:(lia) Hc2).
    intros ->. discriminate. }
  apply Hstep. lia.
Qed.

Lemma path_value_ok (L : libc) (sep : Z) (n : nat) (fuel : nat) (buf : list Z) (p : nat)
    (argch : Z) (opt : option_t) :
  terminated buf n -> (p <= n)%nat -> (n - p < fuel)%nat ->
  exists r, path_value L fuel sep buf p argch opt = Ok r
            /\ match r with
               | inl (buf', p', _) => terminated buf' n /\ (p <= p' <= n)%nat
               | inr _ => True
               end.
Proof.
  intros Ht Hp Hf. unfold path_value.
  destruct (byte_at_ok buf n p Ht Hp) as (c & -> & Hc). cbn [rbind].
  destruct (is_none (type opt)); cbn [negb].
  - destruct (c =? chr "=").
    + destruct (skip_to_sep_ok sep buf n Ht fuel p Hp Hf) as (p' & -> & Hp'). cbn [rbind].
      eexists. split; [reflexivity|]. split; [exact Ht|exact Hp'].
    + eexists. split; [reflexivity|]. split; [exact Ht|lia].
  - destruct (Z.eqb_spec c (chr "=")) as [->|]; cbn [negb];
      [|eexists; split; [reflexivity|exact I]].
    pose proof (nonzero_before_end buf n p _ Ht Hp Hc ltac:(discriminate)) as Hlt.
    destruct (decode_ok sep n fuel buf (S p) (S p) Ht ltac:(lia) ltac:(lia))
      as (buf1 & p1 & q1 & -> & Ht1 & Hq1 & Hp1). cbn [rbind].
    destruct (set_byte_ok buf1 n q1 0 Ht1 ltac:(lia) ltac:(reflexivity)) as (buf2 & -> & Ht2).
    cbn [rbind]. eexists. split; [reflexivity|]. split; [exact Ht2|lia].
Qed.

Lemma parse_path_ok (L : libc) (sep : Z) (n : nat) :
  sep <> 0 ->
  forall (fuel : nat) (buf : list Z) (p : nat) (st : store L),
    terminated buf n -> (p <= n)%nat -> (n - p < fuel)%nat ->
    exists r, parse_path L fuel sep buf p st = Ok r.
Proof.
  intros Hsep. induction fuel as [|fuel IH]; intros buf p st Ht Hp Hf; [lia|].
  cbn [parse_path].
  destruct (byte_at_ok buf n p Ht Hp) as (c & -> & Hc). cbn [rbind].
  destruct (Z.eqb_spec c 0) as [|Hne]; [eauto|].
  pose proof (nonzero_before_end buf n p c Ht Hp Hc Hne) as Hlt.
  destruct (c =? sep).
  { destruct (set_byte_ok buf n p 0 Ht Hp ltac:(reflexivity)) as (buf' & -> & Ht').
    cbn [rbind]. apply IH; [exact Ht'|lia|lia]. }
  destruct (isalpha c); cbn [negb]; [|eauto]. cbv zeta.
  destruct (find_option_by_short optionsTable c) as [opt|]; [|eauto].
  destruct (path_value_ok L sep n (S fuel) buf (S p) c opt Ht ltac:(lia) ltac:(lia))
    as (r & -> & Hr). cbn [rbind].
  destruct r as [[[buf1 p1] v]|e]; [|eauto]. destruct Hr as [Ht1 Hp1].
  destruct (apply_option L opt v st) as [st'|e]; [|eauto].
  destruct (skip_to_sep_ok sep buf1 n Ht1 (S fuel) p1 ltac:(lia) ltac:(lia))
    as (p2 & -> & Hp2). cbn [rbind].
  destruct (byte_at_ok buf1 n p2 Ht1 ltac:(lia)) as (c2 & -> & Hc2). cbn [rbind].
  destruct (Z.eqb_spec c2 sep) as [->|].
  - pose proof (nonzero_before_end buf1 n p2 sep Ht1 ltac:(lia) Hc2 Hsep).
    apply IH; [exact Ht1|lia|lia].
  - apply IH; [exact Ht1|lia|lia].
Qed.

(** *** A value without escape *)

Lemma insert_middle (A R : list Z) (b x : Z) : <[length A := x]> (A ++ b :: R) = A ++ x :: R.
Proof.
  rewrite insert_app_r_alt by lia. rewrite Nat.sub_diag. reflexivity.
Qed.

Lemma byte_at_middle (A R : list Z) (b : Z) : byte_at (A ++ b :: R) (length A) = Ok b.
Proof.
  unfold byte_at. rewrite lookup_app_r by lia. rewrite Nat.sub_diag. reflexivity.
Qed.

Lemma set_byte_middle (A R : list Z) (b x : Z) :
  set_byte (A ++ b :: R) (length A) x = Ok (A ++ x :: R).
Proof.
  unfold set_byte. rewrite length_app. cbn [length].
  destruct (Nat.ltb_spec (length A) (length A + S (length R))); [|lia].
  rewrite insert_middle. reflexivity.
Qed.

Lemma cstring_of_app (v R : list Z) :
  Forall (fun b => b <> 0) v -> cstring_of (v ++ 0 :: R) = v.
Proof.
  induction 1 as [|b v Hb _ IH]; cbn [cstring_of app]; [reflexivity|].
  destruct (Z.eqb_spec b 0); [contradiction|]. rewrite IH. reflexivity.
Qed.

(** The loop copies such a value onto itself, up to the separator. *)
Lemma decode_plain (sep : Z) :
  forall (val A B : list Z) (fuel : nat),
    Forall (fun b => b <> 0 /\ b <> sep /\ b <> chr "%") val ->
    (length val < fuel)%nat ->
    decode fuel sep (A ++ val ++ sep :: B) (length A) (length A)
    = Ok (A ++ plus_to_space sep val ++ sep :: B,
          (length A + length val)%nat, (length A + length val)%nat).
Proof.
  induction val as [|b val IH]; intros A B fuel Hall Hf;
    (destruct fuel as [|fuel]; [cbn in Hf; lia|]); cbn [decode].
  - cbn [app]. rewrite byte_at_middle. cbn [rbind].
    rewrite Z.eqb_refl, andb_false_r. cbn [plus_to_space fmap list_fmap app length].
    rewrite Nat.add_0_r. reflexivity.
  - apply Forall_cons in Hall as [(Hb0 & Hbs & Hbp) Hall]. cbn [length] in Hf.
    cbn [app]. rewrite byte_at_middle. cbn [rbind].
    destruct (Z.eqb_spec b 0); [contradiction|]. destruct (Z.eqb_spec b sep); [contradiction|].
    cbn [negb andb].
    assert (Hnext : forall x,
              x = (if (sep =? chr "&") && (b =? chr "+") then chr " " else b) ->
              (let* buf := set_byte (A ++ b :: val ++ sep :: B) (length A) x in
               decode fuel sep buf (S (length A)) (S (length A)))
              = Ok (A ++ plus_to_space sep (b :: val) ++ sep :: B,
                    (length A + S (length val))%nat, (length A + S (length val))%nat)).
    { intros x Hx. rewrite set_byte_middle. cbn [rbind].
      replace (A ++ x :: val ++ sep :: B) with ((A ++ [x]) ++ val ++ sep :: B)
        by (rewrite <- app_assoc; reflexivity).
      replace (S (length A)) with (length (A ++ [x])) by (rewrite length_app; cbn; lia).
      rewrite (IH (A ++ [x]) B fuel Hall ltac:(lia)).
      rewrite <- app_assoc, length_app. cbn [length app plus_to_space fmap list_fmap].
      rewrite <- Hx. apply f_equal. apply f_equal2; [apply f_equal2; [reflexivity|lia]|lia]. }
    destruct ((sep =? chr "&") && (b =? chr "+")) eqn:Eplus; [apply Hnext; reflexivity|].
    destruct (Z.eqb_spec b (chr "%")); [contradiction|]. rewrite andb_false_r.
    cbn [rbind]. apply Hnext. reflexivity.
Qed.

Lemma slice_at_inside (ss : list slice_t) (S : Z) :
  0 <= S < Z.of_nat (length ss) -> exists x, slice_at ss S = Ok x.
Proof.
  intros HS. unfold slice_at.
  destruct (Z.ltb_spec S 0) as [|_]; [lia|].
  destruct (lookup_lt_is_Some_2 ss (Z.to_nat S)) as [x ->]; [lia|]. eauto.
Qed.

Lemma slice_at_outside (ss : list slice_t) (S : Z) :
  Z.of_nat (length ss) <= S -> slice_at ss S = Undefined.
Proof.
  intros HS. unfold slice_at.
  destruct (Z.ltb_spec S 0) as [|_]; [reflexivity|].
  rewrite lookup_ge_None_2 by lia. reflexivity.
Qed.

(** A nub whose six slices exist prints its 32 points. *)
Lemma ridge_nub_ok (o : options) (ss : list slice_t) (N : Z) (pts : list ridge_point)
    (lo hi : Z) :
  0 <= N -> N * 4 + 5 < Z.of_nat (length ss) \/
            (parkvertical o = true /\ N * 4 + 3 < Z.of_nat (length ss)) ->
  lo <= N * 4 -> N * 4 + 5 < hi \/ (parkvertical o = true /\ N * 4 + 3 < hi) ->
  Forall (fun p => lo <= ridge_slice p < hi) pts ->
  exists pts', ridge_nub o ss N pts = Ok pts'
    /\ length pts' = (length pts + 32)%nat
    /\ Forall (fun p => lo <= ridge_slice p < hi) pts'.
Proof.
  intros HN Hss Hlo Hhi Hpts.
  set (off := if parkvertical o then 0 else 2).
  assert (Hoff : 0 <= off <= 2) by (unfold off; destruct (parkvertical o); lia).
  assert (Hin : forall X, 0 <= X < 4 -> exists x, slice_at ss (N * 4 + X + off) = Ok x).
  { intros X HX. apply slice_at_inside. unfold off.
    destruct Hss as [|[-> ?]]; [destruct (parkvertical o)|]; lia. }
  assert (Hr : forall X, 0 <= X < 4 -> lo <= N * 4 + X + off < hi).
  { intros X HX. unfold off.
    destruct Hhi as [|[-> ?]]; [destruct (parkvertical o)|]; lia. }
  assert (Hcell : forall Y X l, 0 <= X < 4 ->
            Forall (fun p => lo <= ridge_slice p < hi) l ->
            exists l', ridge_cell o ss N Y X l = Ok l'
              /\ length l' = (length l + 2)%nat
              /\ Forall (fun p => lo <= ridge_slice p < hi) l').
  { intros Y X l HX Hl. unfold ridge_cell. fold off.
    destruct (Hin X HX) as [x ->]. cbn [rbind]. eexists. split; [reflexivity|].
    split; [rewrite length_app; reflexivity|].
    apply Forall_app. split; [exact Hl|].
    repeat apply List.Forall_cons; try apply List.Forall_nil; cbn [ridge_slice]; apply Hr, HX. }
  assert (Hrow : forall Y l,
            Forall (fun p => lo <= ridge_slice p < hi) l ->
            exists l', for_loop 4 0 (fun X pts => ridge_cell o ss N Y X pts) l = Ok l'
              /\ length l' = (length l + 8)%nat
              /\ Forall (fun p => lo <= ridge_slice p < hi) l').
  { intros Y l Hl. cbn [for_loop].
    destruct (Hcell Y 0 l) as (l1 & -> & E1 & F1); [lia|exact Hl|]. cbn [rbind].
    destruct (Hcell Y (0 + 1) l1) as (l2 & -> & E2 & F2); [lia|exact F1|]. cbn [rbind].
    destruct (Hcell Y (0 + 1 + 1) l2) as (l3 & -> & E3 & F3); [lia|exact F2|]. cbn [rbind].
    destruct (Hcell Y (0 + 1 + 1 + 1) l3) as (l4 & -> & E4 & F4); [lia|exact F3|]. cbn [rbind].
    eexists. split; [reflexivity|]. split; [lia|exact F4]. }
  unfold ridge_nub.
  set (row := fun Y pts => for_loop 4 0 (fun X pts => ridge_cell o ss N Y X pts) pts).
  change (forall Y l, Forall (fun p => lo <= ridge_slice p < hi) l ->
            exists l', row Y l = Ok l' /\ length l' = (length l + 8)%nat
              /\ Forall (fun p => lo <= ridge_slice p < hi) l') in Hrow.
  clearbody row. cbn [for_loop].
  destruct (Hrow 0 pts Hpts) as (l1 & -> & E1 & F1). cbn [rbind].
  destruct (Hrow (0 + 1) l1 F1) as (l2 & -> & E2 & F2). cbn [rbind].
  destruct (Hrow (0 + 1 + 1) l2 F2) as (l3 & -> & E3 & F3). cbn [rbind].
  destruct (Hrow (0 + 1 + 1 + 1) l3 F3) as (l4 & -> & E4 & F4). cbn [rbind].
  eexists. split; [reflexivity|]. split; [lia|exact F4].
Qed.

(** The loop over the nubs, from the nub [j]. *)
Lemma ridge_loop_ok (o : options) (ss : list slice_t) (q n : Z) :
  1 <= q -> parkvertical o = true \/ 2 <= q ->
  Z.of_nat (length ss) = q * n * 4 ->
  forall (k : nat) (j : Z) (pts : list ridge_point) (fuel : nat),
    Z.of_nat k = n - j -> 0 <= j -> (k <= fuel)%nat ->
    Z.of_nat (length pts) = 32 * j ->
    Forall (fun p => 0 <= ridge_slice p < q * n * 4) pts ->
    exists pts', for_step fuel (j * q) (n * q) q (ridge_nub o ss) pts = Ok pts'
      /\ Z.of_nat (length pts') = 32 * n
      /\ Forall (fun p => 0 <= ridge_slice p < q * n * 4) pts'.
Proof.
  intros Hq Hv Hlen. induction k as [|k IH]; intros j pts fuel Hk Hj Hfuel Hpts Hall.
  - assert (j = n) by lia. subst j.
    destruct fuel; cbn [for_step]; rewrite Z.ltb_irrefl; eauto.
  - destruct fuel as [|fuel]; [lia|]. cbn [for_step].
    destruct (Z.ltb_spec (j * q) (n * q)) as [_|Hge]; [|nia].
    destruct (ridge_nub_ok o ss (j * q) pts 0 (q * n * 4)) as (l & -> & El & Fl);
      [nia| |nia| |exact Hall|].
    + destruct Hv as [Hv|Hv]; [right; split; [exact Hv|nia]|left; nia].
    + destruct Hv as [Hv|Hv]; [right; split; [exact Hv|nia]|left; nia].
    + cbn [rbind]. replace (j * q + q) with ((j + 1) * q) by lia.
      apply IH; [lia|lia|lia|lia|exact Fl].
Qed.

Lemma nub_faces_within (N n : Z) :
  0 <= N -> 32 * (N + 1) <= n -> Forall (face_within n) (nub_faces N).
Proof.
  intros HN Hn. unfold nub_faces. cbn [flat_map app add].
  repeat apply List.Forall_cons; try apply List.Forall_nil; cbn [face_within]; lia.
Qed.

Lemma ridge_faces_within (g : grid) : Forall (face_within (32 * nubs g)) (ridge_faces g).
Proof.
  unfold ridge_faces. apply Forall_flat_map. apply Forall_forall. intros N HN.
  apply elem_of_seqZ in HN. apply nub_faces_within; lia.
Qed.

(** * Further properties *)

(** X1. random_int(limit) returns 0 and leaves the random state untouched when
    limit <= 0. For limit > 0 it advances the state exactly once, to a 32-bit
    value, and returns v with 0 <= v < min(limit, 32768): values from 32768 up
    are never drawn, however large the limit. *)
Theorem random_int_bounds (limit s : Z) :
  (limit <= 0 -> random_int limit s = (0, s))
  /\ (0 < limit ->
      0 <= fst (random_int limit s) < Z.min limit 32768
      /\ snd (random_int limit s) = rng_next s
      /\ 0 <= rng_next s < 2 ^ 32).
Proof.
  split.
  - intros Hl. unfold random_int. destruct (Z.leb_spec limit 0); [reflexivity|lia].
  - intros Hl. split; [|split].
    + pose proof (random_int_range limit s Hl) as Hr.
      unfold random_int in *. destruct (Z.leb_spec limit 0); [lia|]. cbn [fst] in *.
      assert (0 <= (rng_next s / 65536) mod 32768 < 32768) as Hm
        by (apply Z.mod_pos_bound; lia).
      pose proof (Z.rem_le ((rng_next s / 65536) mod 32768) limit ltac:(lia) Hl). lia.
    + apply random_int_state, Hl.
    + unfold rng_next. apply Z.mod_pos_bound. lia.
Qed.

(** X2. For helix > 0 and nubs >= 1 the adjustment of nubs against helix in main
    leaves a nub count r with 1 <= r <= helix that is 1, helix / 2 or helix,
    so r divides helix. A request of at most helix is never lowered, and
    adjusting r again leaves it as it is. *)
Theorem adjust_nubs_divides (helix nubs : Z) :
  0 < helix -> 1 <= nubs ->
  let r := adjust_nubs helix nubs in
  1 <= r <= helix
  /\ (r = 1 \/ 2 * r = helix \/ r = helix)
  /\ Z.rem helix r = 0
  /\ (nubs <= helix -> nubs <= r)
  /\ adjust_nubs helix r = r.
Proof.
  intros Hh Hn r.
  pose proof (Z.quot_rem' helix 2) as Hq.
  pose proof (Z.rem_bound_pos helix 2 ltac:(lia) ltac:(lia)) as Hb.
  assert (Hr : (r = 1 /\ nubs = 1) \/ (r = helix /\ (2 * nubs > helix \/ Z.rem helix 2 <> 0 \/ helix <= nubs))
               \/ (r = Z.quot helix 2 /\ 1 < nubs <= r /\ Z.rem helix 2 = 0)).
  { subst r. unfold adjust_nubs. if_cases; lia. }
  assert (Hid : adjust_nubs helix r = r).
  { unfold adjust_nubs.
    destruct Hr as [[-> _]|[[-> _]|(-> & Hn2 & He)]]; if_cases; lia. }
  split; [lia|]. split; [lia|]. split; [|split; [lia|exact Hid]].
  destruct Hr as [[-> _]|[[-> _]|(-> & Hn2 & He)]].
  - apply Z.rem_1_r.
  - apply Z.rem_same. lia.
  - set (q := Z.quot helix 2) in *. replace helix with (2 * q) by lia.
    apply Z.rem_mul. lia.
Qed.

Lemma adjust_nubs_divides_witness :
  let r := adjust_nubs 4 2 in
  1 <= r <= 4 /\ (r = 1 \/ 2 * r = 4 \/ r = 4) /\ Z.rem 4 r = 0
  /\ (2 <= 4 -> 2 <= r) /\ adjust_nubs 4 r = r.
Proof. apply (adjust_nubs_divides 4 2); lia. Defined.

(** X3. The maze width W = n / nubs * nubs, computed for nonzero nubs from the
    integer count n of maze steps round the part, is a multiple of nubs. For n
    >= 0 and nubs > 0 it is at most n and more than n - nubs, and when W >= 3
    the sector width W / nubs is at least one cell. *)
Theorem maze_width_multiple (n nubs w : Z) :
  maze_width n nubs = Ok w ->
  Z.quot w nubs * nubs = w
  /\ Z.rem w nubs = 0
  /\ (0 <= n -> 0 < nubs -> n - nubs < w <= n)
  /\ (3 <= w -> 0 < nubs -> 1 <= Z.quot w nubs).
Proof.
  unfold maze_width. destruct (Z.eqb_spec nubs 0) as [|Hn]; [discriminate|].
  intros [= <-]. rewrite Z.quot_mul, Z.rem_mul by exact Hn.
  split; [reflexivity|]. split; [reflexivity|]. split.
  - intros H0 Hp. pose proof (Z.quot_rem' n nubs) as Hq.
    pose proof (Z.rem_bound_pos n nubs H0 Hp). lia.
  - intros H3 Hp. destruct (Z.le_gt_cases 1 (Z.quot n nubs)); [assumption|].
    assert (Z.quot n nubs * nubs <= 0) by nia. lia.
Qed.

Lemma maze_width_multiple_witness :
  Z.quot 30 3 * 3 = 30 /\ Z.rem 30 3 = 0
  /\ (0 <= 31 -> 0 < 3 -> 31 - 3 < 30 <= 31)
  /\ (3 <= 30 -> 0 < 3 -> 1 <= Z.quot 30 3).
Proof. apply (maze_width_multiple 31 3 30). reflexivity. Defined.

(** X4. Between part and part + 1 (1 <= part < parts) exactly one of the two
    facing surfaces carries a maze, for every setting of inside and flip: part
    has its maze outside exactly if part + 1 has none inside. The surface
    without the maze is the one that gets the nubs: addnub is called for the
    outside of part exactly if part + 1 has its maze inside, and for the
    inside of part + 1 exactly if part has its maze outside. *)
Theorem one_maze_per_interface (inside flip : bool) (part parts : Z) :
  1 <= part < parts ->
  let a := box_flags inside flip part parts in
  let b := box_flags inside flip (part + 1) parts in
  mazeoutside a = negb (mazeinside b)
  /\ nubs_outside a part parts = mazeinside b
  /\ nubs_inside b (part + 1) = mazeoutside a.
Proof.
  intros Hp a b. subst a b. unfold box_flags, nubs_inside, nubs_outside.
  rewrite land_1_succ.
  destruct (Z.eqb_spec part parts); [lia|].
  destruct (Z.eqb_spec (part + 1) 1); [lia|].
  destruct (Z.ltb_spec part parts); [|lia].
  destruct (Z.ltb_spec 1 (part + 1)); [|lia].
  destruct inside, flip, (Z.land part 1 =? 0), (part =? 1), (part + 1 =? parts),
    (parts <=? part + 1), (parts <=? part + 1 + 1); cbn; auto.
Qed.

Lemma one_maze_per_interface_witness :
  let a := box_flags false true 2 4 in
  let b := box_flags false true (2 + 1) 4 in
  mazeoutside a = negb (mazeinside b)
  /\ nubs_outside a 2 4 = mazeinside b
  /\ nubs_inside b (2 + 1) = mazeoutside a.
Proof. apply (one_maze_per_interface false true 2 4). lia. Defined.

(** X5. The flags nextinside and nextoutside that box computes for part (1 <= part
    < parts) are the flags mazeinside and mazeoutside that it computes for
    part + 1. *)
Theorem next_flags_agree (inside flip : bool) (part parts : Z) :
  1 <= part < parts ->
  let a := box_flags inside flip part parts in
  let b := box_flags inside flip (part + 1) parts in
  nextinside a = mazeinside b /\ nextoutside a = mazeoutside b.
Proof.
  intros Hp a b. subst a b. unfold box_flags.
  rewrite land_1_succ.
  destruct (Z.eqb_spec part parts); [lia|].
  destruct (Z.eqb_spec (part + 1) 1); [lia|].
  destruct (Z.eqb_spec (part + 1) parts) as [E|E];
    destruct (Z.leb_spec parts (part + 1)); try lia;
    destruct inside, flip, (Z.land part 1 =? 0), (part =? 1),
      (parts <=? part + 1 + 1); cbn; auto.
Qed.

Lemma next_flags_agree_witness :
  let a := box_flags true true 2 4 in
  let b := box_flags true true (2 + 1) 4 in
  nextinside a = mazeinside b /\ nextoutside a = mazeoutside b.
Proof. apply (next_flags_agree true true 2 4). lia. Defined.

Lemma park_cell_written (g : grid) (o : options) :
  0 <= helix g ->
  wrote (park_writes g o) FLAGA (fst (park_cell g o)) (snd (park_cell g o)) = true.
Proof.
  intros Hh. unfold park_writes, park_cell.
  destruct (parkvertical o).
  - rewrite wrote_app, wrote_park_loop by lia. eval_has.
    destruct (park_A g o); cbv zeta; cbn [wrote existsb fst snd]; eval_has; lia.
  - cbv zeta. rewrite wrote_app.
    destruct (park_A g o); cbn [wrote existsb fst snd]; eval_has; lia.
Qed.

(** X6. With W >= 3, helix >= 0 and H > helix + 1 (H > helix + 2 when parking
    vertically), the park point code writes only inside maze[W][H], changes no
    FLAGI, and leaves (X, Y) at a cell of the grid that has an edge flag set:
    (0, helix + 2) or (1, helix + 1), according to parkvertical and to whether
    the loop of the 'A' is drawn. *)
Theorem park_point_in_bounds (g : grid) (o : options) (m : maze_t) :
  3 <= W g -> 0 <= helix g -> helix g + park_rows o < H g ->
  exists m' X Y,
    park_point g o m = Ok (m', X, Y)
    /\ (X, Y) = park_cell g o
    /\ in_grid g X Y = true
    /\ has (cell m' X Y) FLAGA = true
    /\ same_FLAGI m m'.
Proof.
  intros HW Hh HH. rewrite park_point_writes by exact Hh.
  destruct (park_writes_in_grid g o HW Hh HH) as [Hall Hcell].
  destruct (writes_ok g _ Hall m) as (m' & Hw). rewrite Hw. cbn [rbind].
  exists m', (fst (park_cell g o)), (snd (park_cell g o)).
  split; [reflexivity|]. split; [destruct (park_cell g o); reflexivity|].
  split; [exact Hcell|]. split.
  - rewrite (writes_has g _ m m' _ _ _ Hw), park_cell_written by exact Hh.
    apply orb_true_r.
  - apply (writes_same_FLAGI g _ m m' Hw). intros x y. apply park_writes_no_FLAGI, Hh.
Qed.

Lemma park_point_in_bounds_witness :
  exists m' X Y,
    park_point helix_grid vertical_options ∅ = Ok (m', X, Y)
    /\ (X, Y) = park_cell helix_grid vertical_options
    /\ in_grid helix_grid X Y = true
    /\ has (cell m' X Y) FLAGA = true
    /\ same_FLAGI ∅ m'.
Proof. apply (park_point_in_bounds helix_grid vertical_options ∅); cbn; lia. Defined.

(** X7. The 'Too small' check lets through a maze too short for the park point:
    with W >= 3, helix >= 0 and H = H0 + 2 + helix >= 1 but H0 + 1 < 1 (H0 + 1
    < 2 when parking vertically), makemaze passes the check and then, before
    it prints anything, writes maze[x][y] at a row y >= H, which is outside
    the array's row range. *)
Theorem short_box_out_of_bounds (o : options) (helix nubs Wm H0 seed : Z) :
  3 <= Wm -> 0 <= helix -> - helix <= H0 + 1 -> H0 + 1 < park_rows o ->
  makemaze o helix nubs Wm H0 seed = ([], Undefined).
Proof.
  intros HW Hh Hlo Hhi. unfold makemaze. cbn [W].
  destruct (Z.ltb_spec Wm 3) as [Hc1|_]; [lia|].
  destruct (Z.ltb_spec (H0 + 2 + helix) 1) as [Hc2|_]; [lia|]. cbn [orb].
  set (g := Grid Wm (H0 + 2 + helix) helix nubs).
  unfold build_maze.
  destruct (clear_high_low_spec g o ∅) as (m0 & -> & _). cbn [rbind].
  rewrite park_point_writes by exact Hh.
  rewrite writes_undefined; [reflexivity|].
  unfold park_writes, park_rows, in_grid in *. subst g. cbn.
  destruct (parkvertical o).
  - apply Exists_app. left. apply Exists_exists.
    exists (0, H0 + 2 + helix, FLAGD). split.
    + apply list_elem_of_In, in_flat_map. exists (H0 + 1 + helix). split.
      * apply list_elem_of_In, elem_of_seqZ. lia.
      * right. left. apply f_equal2; [apply f_equal2; [reflexivity|lia]|reflexivity].
    + cbn [fst snd]. lia.
  - cbv zeta. apply Exists_cons. left. cbn [fst snd]. lia.
Qed.

Lemma short_box_out_of_bounds_witness :
  makemaze sample_options 3 3 30 (-1) 42 = ([], Undefined).
Proof. apply (short_box_out_of_bounds sample_options 3 3 30 (-1) 42); cbn; lia. Defined.

(** X8. With W >= 3, nubs > 0, W / nubs >= 1, helix >= 0 and H > helix + 1 (H >
    helix + 2 when parking vertically), maze generation runs to its end
    without leaving the maze array and without dividing by zero: it yields a
    maze and an exit column maxx with 0 <= maxx < W, the entry loop that
    follows ends too, and in test mode no random number is drawn. *)
Theorem maze_generation_total (g : grid) (o : options) (seed : Z) :
  3 <= W g -> 0 < nubs g -> 1 <= Z.quot (W g) (nubs g) ->
  0 <= helix g -> helix g + park_rows o < H g ->
  exists m mx seed' m',
    build_maze g o seed = Ok (m, mx, seed')
    /\ 0 <= mx < W g
    /\ (testmaze o = true -> seed' = seed)
    /\ entry_point g mx m = Ok m'.
Proof.
  intros HW Hn Hstep Hh HH.
  destruct (build_maze_ok g o seed HW Hn Hh HH) as (m & mx & seed' & Hb & Hmx).
  destruct (entry_point_spec g mx m ltac:(lia) Hstep) as (m' & He & _).
  { unfold park_rows in HH. destruct (parkvertical o); lia. }
  { lia. }
  exists m, mx, seed', m'. split; [exact Hb|]. split; [exact Hmx|]. split; [|exact He].
  intros Ht. unfold build_maze in Hb. rewrite Ht in Hb.
  destruct (clear_high_low g o ∅) as [m0| | |]; cbn [rbind] in Hb; try discriminate.
  destruct (park_point g o m0) as [[[m1 X] Y]| | |]; cbn [rbind] in Hb; try discriminate.
  destruct (testmaze_pattern g o m1) as [[m2 mx2]| | |]; cbn [rbind] in Hb;
    try discriminate.
  congruence.
Qed.

Lemma maze_generation_total_witness :
  exists m mx seed' m',
    build_maze sample_grid sample_options 42 = Ok (m, mx, seed')
    /\ 0 <= mx < W sample_grid
    /\ (testmaze sample_options = true -> seed' = 42)
    /\ entry_point sample_grid mx m = Ok m'.
Proof.
  apply (maze_generation_total sample_grid sample_options 42);
    first [cbn; lia | vm_compute; discriminate].
Defined.

(** X9. Nothing after 'Clear too high/low' sets or clears FLAGI up to the end of
    maze generation: in the maze built by the park point and the test pattern
    or the random walk, a cell carries FLAGI exactly if it is in the grid and
    the height comparison of 'Clear too high/low' held for it. *)
Theorem invalid_cells_fixed (g : grid) (o : options) (seed : Z) (m : maze_t)
    (mx seed' : Z) :
  0 < W g -> 0 < nubs g -> 0 <= helix g ->
  build_maze g o seed = Ok (m, mx, seed') ->
  forall x y, has (cell m x y) FLAGI = in_grid g x y && too_high_low o x y.
Proof.
  intros HW Hn Hh Hb x y.
  destruct (build_maze_keeps g o seed m mx seed' HW Hn Hh Hb) as (m0 & m1 & Hc & _ & Hs & _).
  rewrite (same_FLAGI_has m0 m x y Hs), (cleared_cells g o m0 Hc).
  destruct (in_grid g x y && too_high_low o x y); reflexivity.
Qed.

Lemma invalid_cells_fixed_witness :
  has (cell sample_built 2 0) FLAGI = in_grid sample_grid 2 0 && band_1_2 2 0.
Proof.
  apply (invalid_cells_fixed sample_grid sample_options 42 sample_built 5 3884214914);
    [cbn; lia..|vm_compute; reflexivity].
Defined.

Lemma run_ends (g : grid) (o : options) :
  forall (fuel : nat) (s s' : walk) (nds : list pos_t),
    run g o fuel s = Ok (s', nds) -> queue s' = [].
Proof.
  induction fuel as [|fuel IH]; intros s s' nds; cbn [run]; [discriminate|].
  destruct (queue s) as [|p pos] eqn:Eq; [intros [= <- _]; exact Eq|].
  destruct (expand g o s) as [[s1 nd]| | |]; cbn [rbind]; try discriminate.
  destruct (run g o fuel s1) as [[s2 nds2]| | |] eqn:Hr; cbn [rbind]; try discriminate.
  intros [= <- _]. apply (IH _ _ _ Hr).
Qed.

(** X10. In the maze built before the entry is carved (W >= 3, nubs > 0, helix >=
    0) every passage is open from both of its ends: a cell of a column of the
    grid has FLAGR exactly if the cell to its right, wrapped at the seam with
    the helix shift, has FLAGL, and a cell has FLAGU exactly if the cell above
    it has FLAGD. *)
Theorem passages_open_from_both_ends (g : grid) (o : options) (seed : Z) (m : maze_t)
    (mx seed' : Z) :
  3 <= W g -> 0 < nubs g -> 0 <= helix g ->
  build_maze g o seed = Ok (m, mx, seed') ->
  forall x y, 0 <= x < W g ->
    has (cell m x y) FLAGR
    = has (cell m (fst (right_of g x y)) (snd (right_of g x y))) FLAGL
    /\ (0 <= y -> y + 1 < H g ->
        has (cell m x y) FLAGU = has (cell m x (y + 1)) FLAGD).
Proof.
  intros HW Hn Hh Hb.
  destruct (build_maze_keeps g o seed m mx seed' ltac:(lia) Hn Hh Hb)
    as (m0 & m1 & Hc & Hw & _ & Hp).
  apply Hp. apply (writes_paired g (park_writes g o) m0 m1); [|exact Hw|].
  - apply (cleared_paired g o m0 Hc).
  - apply park_writes_paired; assumption.
Qed.

Lemma passages_open_from_both_ends_witness :
  has (cell sample_built 5 1) FLAGR
  = has (cell sample_built (fst (right_of sample_grid 5 1))
                           (snd (right_of sample_grid 5 1))) FLAGL
  /\ (0 <= 1 -> 1 + 1 < H sample_grid ->
      has (cell sample_built 5 1) FLAGU = has (cell sample_built 5 (1 + 1)) FLAGD).
Proof.
  apply (passages_open_from_both_ends sample_grid sample_options 42 sample_built
           5 3884214914); [cbn; lia..|vm_compute; reflexivity|cbn; lia].
Defined.

(** X11. From any start cell of the grid (W > 0, nubs > 0) the random walk ends
    within 2 * W * H + 1 rounds and allocates one node per cell it reaches: no
    cell is reached twice, every reached cell is in the grid, was free before
    the walk (test returned 0) and is in use after it, and every node is one
    deeper than the start node or another node whose cell is its neighbour,
    wrapped at the seam. *)
Theorem walk_is_a_tree (g : grid) (o : options) (fuel : nat) (m : maze_t)
    (X Y seed : Z) :
  0 < W g -> 0 < nubs g -> in_grid g X Y = true ->
  (2 * (Z.to_nat (W g) * Z.to_nat (H g)) + 1 < fuel)%nat ->
  exists s nds,
    actual_maze g o fuel m X Y seed = Ok (s, nds)
    /\ NoDup (cell_of <$> nds)
    /\ (forall nd, In nd nds ->
          in_grid g (px nd) (py nd) = true
          /\ test g m (px nd) (py nd) = Ok 0
          /\ test g (maze s) (px nd) (py nd) <> Ok 0)
    /\ (forall nd, In nd nds ->
          exists par, In par (Pos X Y 0 :: nds) /\ child_of g par nd).
Proof.
  intros HW Hn Hin Hfuel. unfold actual_maze.
  set (s0 := Walk m [Pos X Y 0] seed 0 0).
  assert (Hq : queue_in_grid g (queue s0))
    by (apply Forall_cons_2; [exact Hin|apply Forall_nil_2]).
  destruct (run_ok g HW Hn o fuel s0 Hq) as (s & nds & Hrun).
  { pose proof (measure_bound g s0). cbn [s0 queue length] in *. lia. }
  exists s, nds. split; [exact Hrun|].
  destruct (run_walk g HW Hn o fuel s0 s nds Hq Hrun) as (_ & Hall & Hnd & _ & Hpar).
  split; [exact Hnd|]. split; [|exact Hpar].
  intros nd Hnd'. rewrite Forall_forall in Hall.
  destruct (Hall nd (proj2 (list_elem_of_In _ _) Hnd')) as (H1 & H2 & H3).
  unfold untouched, cell_of in H2, H3. cbn [fst snd maze s0] in H2, H3.
  rewrite !test_spec by assumption. split; [exact H1|]. split.
  - f_equal. apply Z.eqb_eq, H2.
  - intros [= E]. rewrite E in H3. discriminate.
Qed.

Lemma walk_is_a_tree_witness :
  exists s nds,
    actual_maze sample_grid sample_options 100 sample_maze 1 1 42 = Ok (s, nds)
    /\ NoDup (cell_of <$> nds)
    /\ (forall nd, In nd nds ->
          in_grid sample_grid (px nd) (py nd) = true
          /\ test sample_grid sample_maze (px nd) (py nd) = Ok 0
          /\ test sample_grid (maze s) (px nd) (py nd) <> Ok 0)
    /\ (forall nd, In nd nds ->
          exists par, In par (Pos 1 1 0 :: nds) /\ child_of sample_grid par nd).
Proof.
  apply (walk_is_a_tree sample_grid sample_options 100 sample_maze 1 1 42);
    first [reflexivity | cbn; lia].
Defined.

(** X12. When the random walk ends, its queue is empty and it has nowhere left to
    go: from the start cell and from every cell it reached, test reports each
    of the four neighbours in use or invalid, so the count of ways is 0. *)
Theorem walk_leaves_no_way (g : grid) (o : options) (fuel : nat) (m : maze_t)
    (X Y seed : Z) :
  0 < W g -> 0 < nubs g -> in_grid g X Y = true ->
  (2 * (Z.to_nat (W g) * Z.to_nat (H g)) + 1 < fuel)%nat ->
  exists s nds,
    actual_maze g o fuel m X Y seed = Ok (s, nds)
    /\ queue s = []
    /\ forall nd, In nd (Pos X Y 0 :: nds) ->
         ways g (maze s) (px nd) (py nd) = Ok 0
         /\ forall d, closed g (maze s) d (px nd) (py nd) = Ok false.
Proof.
  intros HW Hn Hin Hfuel. unfold actual_maze.
  set (s0 := Walk m [Pos X Y 0] seed 0 0).
  assert (Hq : queue_in_grid g (queue s0))
    by (apply Forall_cons_2; [exact Hin|apply Forall_nil_2]).
  destruct (run_ok g HW Hn o fuel s0 Hq) as (s & nds & Hrun).
  { pose proof (measure_bound g s0). cbn [s0 queue length] in *. lia. }
  exists s, nds. split; [exact Hrun|]. split; [apply (run_ends g o fuel s0 s nds Hrun)|].
  destruct (run_walk g HW Hn o fuel s0 s nds Hq Hrun) as (_ & _ & _ & Hst & _).
  intros nd Hnd. specialize (Hst nd Hnd). split; [exact Hst|].
  intros d. rewrite closed_spec by assumption. f_equal.
  apply Z.eqb_neq. revert d. apply (ways_zero g HW Hn), Hst.
Qed.

Lemma walk_leaves_no_way_witness :
  exists s nds,
    actual_maze sample_grid sample_options 100 sample_maze 1 1 42 = Ok (s, nds)
    /\ queue s = []
    /\ forall nd, In nd (Pos 1 1 0 :: nds) ->
         ways sample_grid (maze s) (px nd) (py nd) = Ok 0
         /\ forall d, closed sample_grid (maze s) d (px nd) (py nd) = Ok false.
Proof.
  apply (walk_leaves_no_way sample_grid sample_options 100 sample_maze 1 1 42);
    first [reflexivity | cbn; lia].
Defined.

(** X13. With W > 0, W / nubs >= 1, H >= 1 and 0 <= maxx < W the entry loop ends
    and carves the entry in exactly the columns of the grid congruent to maxx
    modulo W / nubs, column maxx among them. In each such column, from the top
    row down, the cells with FLAGI get FLAGU and FLAGD, and the first cell
    without FLAGI (or else the cell of row 0) has FLAGU added to its byte
    modulo 256; every other cell keeps its byte. *)
Theorem entry_carved_in_copies (g : grid) (maxx : Z) (m : maze_t) :
  0 < W g -> 1 <= Z.quot (W g) (nubs g) -> 1 <= H g -> 0 <= maxx < W g ->
  exists m',
    entry_point g maxx m = Ok m'
    /\ entry_carved g m m' maxx
    /\ (forall x, entry_column g maxx x = true -> entry_carved g m m' x)
    /\ (forall x y, entry_column g maxx x = false -> cell m' x y = cell m x y).
Proof.
  intros HW Hstep HH Hmx.
  destruct (entry_point_spec g maxx m HW Hstep HH ltac:(lia)) as (m' & He & Hin & Hout).
  exists m'. split; [exact He|]. split; [|split; assumption].
  apply Hin. unfold entry_column. rewrite Z.eqb_refl. lia.
Qed.

Lemma entry_carved_in_copies_witness :
  exists m',
    entry_point sample_grid 5 sample_built = Ok m'
    /\ entry_carved sample_grid sample_built m' 5
    /\ (forall x, entry_column sample_grid 5 x = true ->
                  entry_carved sample_grid sample_built m' x)
    /\ (forall x y, entry_column sample_grid 5 x = false ->
                    cell m' x y = cell sample_built x y).
Proof.
  apply (entry_carved_in_copies sample_grid 5 sample_built);
    first [cbn; lia | vm_compute; discriminate].
Defined.

Lemma scan_maxx_valid (g : grid) (m : maze_t) :
  forall (fuel : nat) (mx mx' : Z),
    scan_maxx g m fuel mx = Ok mx' ->
    mx <= mx'
    /\ (forall x, mx < x <= mx' -> valid g m x (H g - 2) = true)
    /\ (mx' + 1 < W g -> valid g m (mx' + 1) (H g - 2) = false).
Proof.
  induction fuel as [|fuel IH]; intros mx mx'; cbn [scan_maxx]; [discriminate|].
  destruct (Z.ltb_spec (mx + 1) (W g)) as [Hlt|Hge];
    [|intros [= <-]; split; [lia|split; intros; lia]].
  unfold valid in *.
  destruct (test g m (mx + 1) (H g - 2)) as [t| | |] eqn:Et; cbn [rbind]; try discriminate.
  destruct (Z.land t FLAGI =? 0) eqn:Ev.
  - intros Hs. destruct (IH _ _ Hs) as (Hle & Hall & Hend).
    split; [lia|]. split; [|exact Hend].
    intros x Hx. destruct (Z.eq_dec x (mx + 1)) as [->|Hne].
    + rewrite Et. exact Ev.
    + apply Hall. lia.
  - intros [= <-]. split; [lia|]. split; [intros; lia|].
    intros _. rewrite Et. exact Ev.
Qed.

(** X14. In test mode the exit column maxx is 0 for a flipped outside maze (flip
    set, inside clear). Otherwise it is the end of the run of valid cells of
    row H - 2 that starts at column 1: test reports no FLAGI at (x, H - 2) for
    every x from 1 to maxx, and column maxx + 1 is either W or one where test
    reports FLAGI. Column 0 is not looked at. *)
Theorem test_exit_column (g : grid) (o : options) (seed : Z) (m : maze_t)
    (mx seed' : Z) :
  testmaze o = true ->
  build_maze g o seed = Ok (m, mx, seed') ->
  if flip o && negb (inside o) then mx = 0
  else
    0 <= mx
    /\ (forall x, 1 <= x <= mx -> valid g m x (H g - 2) = true)
    /\ (mx + 1 < W g -> valid g m (mx + 1) (H g - 2) = false).
Proof.
  intros Ht. unfold build_maze. rewrite Ht.
  destruct (clear_high_low g o ∅) as [m0| | |]; cbn [rbind]; try discriminate.
  destruct (park_point g o m0) as [[[m1 X] Y]| | |]; cbn [rbind]; try discriminate.
  unfold testmaze_pattern.
  destruct (for_range 0 (H g) _ m1) as [m2| | |]; cbn [rbind]; try discriminate.
  destruct (flip o), (inside o); cbn [negb orb andb];
    try (destruct (scan_maxx g m2 _ 0) as [mx2| | |] eqn:Hs; cbn [rbind];
         try discriminate; intros [= <- <- _];
         destruct (scan_maxx_valid g m2 _ _ _ Hs) as (Hle & Hall & Hend);
         split; [exact Hle|]; split; [intros x Hx; apply Hall; lia|exact Hend]).
  intros [= _ <- _]. reflexivity.
Qed.

Lemma test_exit_column_witness :
  if flip test_options && negb (inside test_options) then 3 = 0
  else
    0 <= 3
    /\ (forall x, 1 <= x <= 3 -> valid plain_grid test_built x (H plain_grid - 2) = true)
    /\ (3 + 1 < W plain_grid -> valid plain_grid test_built (3 + 1) (H plain_grid - 2) = false).
Proof.
  apply (test_exit_column plain_grid test_options 7 test_built 3 7);
    [reflexivity|vm_compute; reflexivity].
Defined.

(** X15. When 'Make points' completes it has printed exactly P points and nothing
    else. Every entry i of a slice's list s[S].p is, by its absolute value,
    the rank of a point printed for that slice S, and a negative entry is a
    point of the recess layer. The first three rings of W * 4 points (from
    bottom = 0) and the last three (from top) hold one point per slice in
    slice order, for the back, recess and front layers and for the front,
    recess and back layers. *)
Theorem points_are_indexed (g : grid) (o : options) (m : maze_t)
    (pts : list out) (k : mesh) :
  0 <= W g -> 0 <= H g ->
  make_points g o m = (pts, Ok k) ->
  Z.of_nat (length pts) = P k
  /\ (forall n x, pts !! n = Some x -> exists S layer, x = Point S layer)
  /\ (forall S x i,
        0 <= S -> slices k !! Z.to_nat S = Some x -> In i (sp x) ->
        exists layer,
          pts !! Z.to_nat (Z.abs i) = Some (Point S layer) /\ (i < 0 -> layer = 1))
  /\ ringed g pts k.
Proof.
  intros HW HH Hm.
  destruct (make_points_indexed g o m HW HH pts k Hm) as [(H1 & _ & H3 & H4) Hr].
  cbn [app] in *. split; [exact H1|]. split; [|split; [exact H4|exact Hr]].
  intros n x Hx. rewrite Forall_forall in H3. apply H3.
  apply list_elem_of_lookup. eauto.
Qed.

Lemma points_are_indexed_witness :
  Z.of_nat (length (fst sample_points)) = P sample_mesh
  /\ (forall n x, fst sample_points !! n = Some x -> exists S layer, x = Point S layer)
  /\ (forall S x i,
        0 <= S -> slices sample_mesh !! Z.to_nat S = Some x -> In i (sp x) ->
        exists layer,
          fst sample_points !! Z.to_nat (Z.abs i) = Some (Point S layer)
          /\ (i < 0 -> layer = 1))
  /\ ringed sample_grid (fst sample_points) sample_mesh.
Proof.
  apply (points_are_indexed sample_grid sample_options sample_entry);
    [cbn; lia|cbn; lia|vm_compute; reflexivity].
Defined.

(** X16. Whenever makemaze completes the polyhedron, what it printed is the P
    points followed by faces only, and every index of every face is at least 0
    and less than P, the number of points printed. *)
Theorem faces_index_points (o : options) (helix nubs Wm H0 seed : Z)
    (printed : list out) (a : Z * Z) (seed' : Z) (k : mesh) :
  makemaze o helix nubs Wm H0 seed = (printed, Ok (a, seed', k)) ->
  exists pts fs,
    printed = pts ++ fs
    /\ Z.of_nat (length pts) = P k
    /\ (forall n x, pts !! n = Some x -> exists S layer, x = Point S layer)
    /\ (forall n x, fs !! n = Some x ->
          exists f, x = Face f /\ Forall (fun j => 0 <= j < P k) f).
Proof.
  unfold makemaze. cbn [W]. set (g := Grid Wm (H0 + 2 + helix) helix nubs).
  destruct (Z.ltb_spec Wm 3) as [|HW]; cbn [orb]; [unfold quiet; discriminate|].
  destruct (Z.ltb_spec (H0 + 2 + helix) 1) as [|HH]; [unfold quiet; discriminate|].
  destruct (build_maze g o seed) as [[[m mx] s1]| | |]; cbn [quiet ebind]; try discriminate.
  destruct (entry_point g mx m) as [m1| | |]; cbn [quiet ebind]; try discriminate.
  destruct (make_points g o m1) as [pts [k1| | |]] eqn:Ep; cbn [ebind]; try discriminate.
  destruct (make_faces g m1 k1) as [fs [k2| | |]] eqn:Ef; cbn [ebind eret];
    try discriminate.
  rewrite !app_nil_r. cbn [app]. intros [= <- _ _ <-].
  destruct (make_points_indexed g o m1 ltac:(cbn; lia) ltac:(cbn; lia) pts k1 Ep)
    as [Hidx Hring].
  cbn [app] in Hidx, Hring.
  pose proof (indexed_bounded g pts k1 Hidx Hring) as Hb.
  destruct (make_faces_faces g m1 k1 ltac:(cbn; lia) ltac:(cbn; lia) Hb fs k2 Ef)
    as (Hf & _ & HP & _).
  cbn [app] in Hf. destruct Hidx as (Hlen & _ & Hpts & _).
  exists pts, fs. split; [reflexivity|]. split; [lia|]. split.
  - intros n x Hx. rewrite Forall_forall in Hpts. apply Hpts.
    apply list_elem_of_lookup. eauto.
  - intros n x Hx. unfold faces_in in Hf. rewrite Forall_forall in Hf.
    specialize (Hf x ltac:(apply list_elem_of_lookup; eauto)).
    destruct x as [S layer|f]; [destruct Hf|]. exists f. split; [reflexivity|].
    rewrite HP. exact Hf.
Qed.

Lemma faces_index_points_witness :
  exists pts fs,
    fst sample_makemaze = pts ++ fs
    /\ Z.of_nat (length pts) = P (snd (returned sample_makemaze (0, 0, 0, no_mesh)))
    /\ (forall n x, pts !! n = Some x -> exists S layer, x = Point S layer)
    /\ (forall n x, fs !! n = Some x ->
          exists f, x = Face f
                    /\ Forall (fun j => 0 <= j
                                        < P (snd (returned sample_makemaze (0, 0, 0, no_mesh)))) f).
Proof.
  apply (faces_index_points sample_options 0 2 6 2 42 (fst sample_makemaze)
           (360 * 5, 6) 3884214914).
  vm_compute. reflexivity.
Defined.

(** X17. When 'Make points' completes (W > 0, nubs > 0), no slice has a boundary
    set and every list s[S].p is strictly increasing in absolute value up to
    its last entry, which is S. p[X][Y] is set exactly for the cells whose
    test value has an edge flag and no FLAGI; such a cell owns the sixteen
    point indices from p[X][Y] >= 3 * 4W to p[X][Y] + 15 < top, slice 4X + j
    holding p + j, -(p + 4 + j), -(p + 8 + j) and p + 12 + j. A cell visited
    later owns a later block. *)
Theorem cells_get_blocks (g : grid) (o : options) (m : maze_t) (pts : list out) (k : mesh) :
  0 < W g -> 0 < nubs g -> 0 <= H g ->
  make_points g o m = (pts, Ok k) ->
  (forall S x, 0 <= S -> slices k !! Z.to_nat S = Some x ->
     sl x = 0 /\ sr x = 0 /\ exists q, sp x = q ++ [S] /\ increasing q)
  /\ (forall X Y, 0 <= X < W g -> 0 <= Y < H g ->
        match pstart k !! (X, Y) with
        | Some Pc => rendered g m X Y = true
                     /\ 3 * (W g * 4) <= Pc /\ Pc + 16 <= top k /\ block k X Pc
        | None => rendered g m X Y = false
        end)
  /\ (forall X Y Pc X' Y' Pc',
        pstart k !! (X, Y) = Some Pc -> pstart k !! (X', Y') = Some Pc' ->
        earlier X Y X' Y' = true -> Pc + 16 <= Pc').
Proof.
  intros HW Hn HH Hm.
  pose proof (make_points_laid g o m HW Hn HH pts k Hm) as Hlaid. cbn beta in Hlaid.
  destruct Hlaid as (_ & _ & _ & _ & Hs & _ & C1 & C2 & C3).
  split; [|split; [|exact C3]].
  - intros S x HS Hx. destruct (Hs S x HS Hx) as (E1 & E2 & q & Hq & Hinc & _).
    split; [exact E1|]. split; [exact E2|]. exists q. split; assumption.
  - intros X Y HX HY. destruct (pstart k !! (X, Y)) as [Pc|] eqn:HPc.
    + destruct (C1 X Y Pc HPc) as (_ & _ & _ & G4 & G5 & G6 & G7).
      split; [exact G4|]. split; [exact G5|]. split; [exact G6|exact G7].
    + destruct (rendered g m X Y) eqn:Er; [|reflexivity].
      destruct (C2 X Y HX HY) as [Pc HPc']; [|exact Er|congruence].
      unfold earlier. destruct (Z.ltb_spec Y (H g)); [reflexivity|lia].
Qed.

Lemma cells_get_blocks_witness :
  (forall S x, 0 <= S -> slices sample_mesh !! Z.to_nat S = Some x ->
     sl x = 0 /\ sr x = 0 /\ exists q, sp x = q ++ [S] /\ increasing q)
  /\ (forall X Y, 0 <= X < W sample_grid -> 0 <= Y < H sample_grid ->
        match pstart sample_mesh !! (X, Y) with
        | Some Pc => rendered sample_grid sample_entry X Y = true
                     /\ 3 * (W sample_grid * 4) <= Pc /\ Pc + 16 <= top sample_mesh
                     /\ block sample_mesh X Pc
        | None => rendered sample_grid sample_entry X Y = false
        end)
  /\ (forall X Y Pc X' Y' Pc',
        pstart sample_mesh !! (X, Y) = Some Pc ->
        pstart sample_mesh !! (X', Y') = Some Pc' ->
        earlier X Y X' Y' = true -> Pc + 16 <= Pc').
Proof.
  apply (cells_get_blocks sample_grid sample_options sample_entry (fst sample_points));
    [cbn; lia|cbn; lia|cbn; lia|vm_compute; reflexivity].
Defined.

(** X18. Whenever 'Make points' completes (W > 0, nubs > 0), 'Make faces'
    completes too, whatever the maze array holds: no call of slice ends on
    'Bad render', every boundary it looks for being in the list of the slice
    at or after the current one. The point lists, P, bottom, top and p[][] are
    left as 'Make points' set them. *)
Theorem faces_never_fail (g : grid) (o : options) (m : maze_t) (pts : list out) (k : mesh) :
  0 < W g -> 0 < nubs g -> 0 <= H g ->
  make_points g o m = (pts, Ok k) ->
  exists fs k', make_faces g m k = (fs, Ok k') /\ framed k k'.
Proof.
  intros HW Hn HH Hm.
  pose proof (make_points_laid g o m HW Hn HH pts k Hm) as Hlaid. cbn beta in Hlaid.
  pose proof (make_faces_ok g m k HW Hn HH Hlaid) as Hok. unfold esafe in Hok.
  destruct (make_faces g m k) as [fs [k'| | |]]; cbn [snd] in Hok; try contradiction.
  exists fs, k'. split; [reflexivity|exact Hok].
Qed.

Lemma faces_never_fail_witness :
  exists fs k', make_faces sample_grid sample_entry sample_mesh = (fs, Ok k')
                /\ framed sample_mesh k'.
Proof.
  apply (faces_never_fail sample_grid sample_options sample_entry (fst sample_points));
    [cbn; lia|cbn; lia|cbn; lia|vm_compute; reflexivity].
Defined.

(** Up to the last face of the maze polyhedron [makemaze] is defined: it
    leaves [W * 4] slices, or stops on one of the messages of "Make points",
    and that only when [MAXY < 4 * H + 7]. *)
Lemma polyhedron_defined (o : options) (helix nubs Wm H0 seed : Z) :
  3 <= Wm -> 0 < nubs -> 1 <= Z.quot Wm nubs -> 0 <= helix -> park_rows o <= H0 + 1 ->
  match snd (makemaze o helix nubs Wm H0 seed) with
  | Ok (a, seed', k) => length (slices k) = Z.to_nat (Wm * 4)
  | Fatal msg => In msg points_messages /\ MAXY o < 4 * (H0 + 2 + helix) + 7
  | Undefined | OutOfFuel => False
  end.
Proof.
  intros HW Hn Hstep Hh HH.
  assert (Hrows : 1 <= park_rows o) by (unfold park_rows; destruct (parkvertical o); lia).
  set (g := Grid Wm (H0 + 2 + helix) helix nubs).
  destruct (build_maze_ok g o seed) as (m & mx & s1 & Hb & Hmx); try (cbn; lia).
  destruct (entry_point_spec g mx m) as (m1 & He & _); try (cbn; lia).
  unfold makemaze. cbn [W]. fold g.
  destruct (Z.ltb_spec Wm 3) as [Hc1|_]; [lia|].
  destruct (Z.ltb_spec (H0 + 2 + helix) 1) as [Hc2|_]; [lia|]. cbn [orb].
  rewrite Hb. cbn [quiet ebind]. rewrite He. cbn [quiet ebind].
  pose proof (make_points_safe g o m1 ltac:(cbn; lia) ltac:(cbn; lia)) as Hsafe.
  pose proof (make_points_laid g o m1 ltac:(cbn; lia) ltac:(cbn; lia) ltac:(cbn; lia))
    as Hlaid.
  pose proof (make_points_fits g o m1 ltac:(cbn; lia) ltac:(cbn; lia) ltac:(cbn; lia))
    as Hfits.
  unfold esafe in Hsafe, Hfits.
  destruct (make_points g o m1) as [pts [k1| | |]]; cbn [snd ebind] in *;
    try contradiction.
  - specialize (Hlaid pts k1 eq_refl). cbn beta in Hlaid.
    pose proof (make_faces_ok g m1 k1 ltac:(cbn; lia) ltac:(cbn; lia) ltac:(cbn; lia) Hlaid)
      as Hok.
    unfold esafe in Hok.
    destruct (make_faces g m1 k1) as [fs [k2| | |]]; cbn [snd ebind eret] in *;
      try contradiction.
    destruct Hok as (_ & _ & _ & _ & Hlen & _). rewrite Hlen.
    destruct Hlaid as (_ & _ & _ & Hn4 & _). exact Hn4.
  - split; [exact Hsafe|].
    destruct (Z.lt_ge_cases (MAXY o) (4 * (H0 + 2 + helix) + 7)) as [Hlt|Hge];
      [exact Hlt|]. exfalso. apply Hfits. cbn [H g]. lia.
Qed.

(** The park ridge of a maze whose sectors are two columns wide or more, or
    parked vertically, reads its slices in range and returns 32 points for
    each nub. *)
Lemma ridge_points_total (g : grid) (o : options) (ss : list slice_t) :
  0 < nubs g -> 1 <= Z.quot (W g) (nubs g) -> W g = Z.quot (W g) (nubs g) * nubs g ->
  parkvertical o = true \/ 2 <= Z.quot (W g) (nubs g) ->
  length ss = Z.to_nat (W g * 4) ->
  exists pts, ridge_points g o ss = Ok pts
    /\ Z.of_nat (length pts) = 32 * nubs g
    /\ Forall (fun p => 0 <= ridge_slice p < W g * 4) pts.
Proof.
  intros Hn Hq HW Hv Hlen. unfold ridge_points.
  set (q := Z.quot (W g) (nubs g)) in *.
  destruct (ridge_loop_ok o ss q (nubs g) Hq Hv) with
    (k := Z.to_nat (nubs g)) (j := 0) (pts := @nil ridge_point)
    (fuel := S (Z.to_nat (W g))) as (pts & E & El & Fl).
  - rewrite Hlen. nia.
  - lia.
  - lia.
  - nia.
  - reflexivity.
  - constructor.
  - change (0 * q) with 0 in E. replace (nubs g * q) with (W g) in E by lia.
    exists pts. split; [exact E|]. split; [exact El|].
    replace (W g * 4) with (q * nubs g * 4) by lia. exact Fl.
Qed.

(** X19.  With [W >= 3] a multiple of [nubs], [nubs > 0], [helix >= 0] and
    [H0 + 1 >= 1] ([H0 + 1 >= 2] when parking vertically), and with the park
    ridge off ([parkthickness = 0]), vertical, or on sectors of two columns or
    more ([W / nubs >= 2]), [makemaze], park ridge included, never indexes an
    array out of range, never divides by zero and always ends.  It completes
    the maze polyhedron, leaving [W * 4] slices, and the park ridge, with 32
    points for each nub, read from slices [s[0 .. 4W)], unless a slice list
    runs out of room: it can only stop on "WTF points %d" or "WTF points",
    and only if [MAXY < 4 * H + 7], where [H = H0 + 2 + helix]. *)
Theorem makemaze_park_defined (o : options) (park : bool) (helix nubs Wm H0 seed : Z) :
  3 <= Wm -> 0 < nubs -> Wm = Z.quot Wm nubs * nubs ->
  0 <= helix -> park_rows o <= H0 + 1 ->
  park = false \/ parkvertical o = true \/ 2 <= Z.quot Wm nubs ->
  match snd (makemaze_park o park helix nubs Wm H0 seed) with
  | Ok (a, seed', k, pts) =>
      length (slices k) = Z.to_nat (Wm * 4)
      /\ Z.of_nat (length pts) = (if park then 32 * nubs else 0)
      /\ Forall (fun p => 0 <= ridge_slice p < Wm * 4) pts
  | Fatal msg => In msg points_messages /\ MAXY o < 4 * (H0 + 2 + helix) + 7
  | Undefined | OutOfFuel => False
  end.
Proof.
  intros HW Hn Hmul Hh HH Hpark.
  assert (Hstep : 1 <= Z.quot Wm nubs) by nia.
  pose proof (polyhedron_defined o helix nubs Wm H0 seed HW Hn Hstep Hh HH) as Hm.
  unfold makemaze_park.
  destruct (makemaze o helix nubs Wm H0 seed) as [printed [[[a s1] k]| msg | |]];
    cbn [snd ebind] in *; try contradiction; [|exact Hm].
  destruct park; cbn [eret snd app].
  - set (g := Grid Wm (H0 + 2 + helix) helix nubs).
    destruct (ridge_points_total g o (slices k)) as (pts & -> & El & Fl);
      try (subst g; cbn; assumption).
    + destruct Hpark as [Hp|Hp]; [discriminate|exact Hp].
    + cbn [quiet ebind eret snd]. split; [exact Hm|]. split; [exact El|exact Fl].
  - split; [exact Hm|]. split; [reflexivity|constructor].
Qed.

Lemma makemaze_park_defined_witness :
  match snd (makemaze_park sample_options true 0 2 6 2 42) with
  | Ok (a, seed', k, pts) =>
      length (slices k) = Z.to_nat (6 * 4)
      /\ Z.of_nat (length pts) = (if true then 32 * 2 else 0)
      /\ Forall (fun p => 0 <= ridge_slice p < 6 * 4) pts
  | Fatal msg => In msg points_messages /\ MAXY sample_options < 4 * (2 + 2 + 0) + 7
  | Undefined | OutOfFuel => False
  end.
Proof.
  apply (makemaze_park_defined sample_options true 0 2 6 2 42);
    first [cbn; lia | vm_compute; discriminate | reflexivity
          | right; right; vm_compute; discriminate].
Defined.

(** X20. A call slice (S, l, r) with l nonzero that returns had 0 <= S < W * 4 and
    changes nothing but the boundaries of slice S, which become l and r: the
    point lists of all slices, P, bottom, top and p[][] are as before. The
    same call made again prints nothing and changes nothing. *)
Theorem slice_sets_boundaries (g : grid) (S l r : Z) (k : mesh) (o : list out) (k' : mesh) :
  0 < W g -> l <> 0 ->
  slice g S l r k = (o, Ok k') ->
  0 <= S < W g * 4
  /\ (exists x, slices k !! Z.to_nat S = Some x
                /\ slices k' = <[Z.to_nat S := Slice l r (sp x)]> (slices k))
  /\ P k' = P k /\ bottom k' = bottom k /\ top k' = top k /\ pstart k' = pstart k
  /\ slice g S l r k' = ([], Ok k').
Proof.
  intros HW Hl Hs. destruct (slice_spec g S l r k o k' HW Hs) as (HS & (x & Hx & ->) & _).
  split; [exact HS|]. split; [exists x; split; [exact Hx|reflexivity]|].
  repeat (split; [reflexivity|]).
  rewrite slice_unfold. destruct (Z.leb_spec (W g * 4) S) as [|_]; [lia|].
  assert (Ex : slice_at (slices (set_slice S (Slice l r (sp x)) k)) S
               = Ok (Slice l r (sp x))).
  { apply slice_at_ok. split; [lia|]. unfold set_slice. cbn [slices].
    apply list_lookup_insert_eq. apply lookup_lt_Some in Hx. exact Hx. }
  rewrite Ex. cbn [quiet ebind]. unfold slice_new. cbn [sl].
  destruct (Z.eqb_spec l 0) as [|_]; [contradiction|]. cbn [eret ebind].
  unfold slice_advance. rewrite Ex. cbn [quiet ebind sl sr]. rewrite !Z.eqb_refl.
  reflexivity.
Qed.

Lemma slice_sets_boundaries_witness :
  0 <= 0 < W sample_grid * 4
  /\ (exists x, slices sample_mesh !! Z.to_nat 0 = Some x
                /\ slices (returned sample_slice no_mesh)
                   = <[Z.to_nat 0 := Slice 72 73 (sp x)]> (slices sample_mesh))
  /\ P (returned sample_slice no_mesh) = P sample_mesh
  /\ bottom (returned sample_slice no_mesh) = bottom sample_mesh
  /\ top (returned sample_slice no_mesh) = top sample_mesh
  /\ pstart (returned sample_slice no_mesh) = pstart sample_mesh
  /\ slice sample_grid 0 72 73 (returned sample_slice no_mesh)
     = ([], Ok (returned sample_slice no_mesh)).
Proof.
  apply (slice_sets_boundaries sample_grid 0 72 73 sample_mesh (fst sample_slice));
    [cbn; lia|lia|vm_compute; reflexivity].
Defined.

(** X21. Whatever the bytes of PATH_INFO or QUERY_STRING, the loop of main that
    reads options from the path comes to an end, with the options read or with
    an error message, and it reads and writes only inside its copy of the
    path, the terminating zero included. This holds for any separator other
    than zero. *)
Theorem path_never_overruns (L : libc) (sep : Z) (path : list Z) (st : store L) :
  sep <> 0 -> exists r, read_path L sep path st = Ok r.
Proof.
  intros Hsep. unfold read_path.
  apply (parse_path_ok L sep (length path) Hsep); [|lia|lia].
  split; [rewrite length_app; cbn; lia|].
  rewrite lookup_app_r by lia. rewrite Nat.sub_diag. reflexivity.
Qed.

Lemma path_never_overruns_witness :
  exists r, read_path sample_libc (chr "&") (cstr "E=%4") [] = Ok r.
Proof. apply (path_never_overruns sample_libc (chr "&")). discriminate. Defined.

(** X22. When the path holds an option that takes a value, written c=value with no
    zero byte, separator or '%' in the value, and a separator follows the
    value, the option is applied to the value (each '+' turned into a space in
    a query string) and reading ends there: whatever follows in the path is
    not read, sets nothing and gives no error, because the zero that ends the
    value is written over the separator. *)
Theorem path_stops_after_value (L : libc) (sep : Z) (pre val rest : list Z) (c : Z)
    (opt : option_t) (st : store L) (fuel : nat) :
  sep = chr "/" \/ sep = chr "&" ->
  isalpha c = true -> find_option_by_short optionsTable c = Some opt ->
  type opt <> OPT_NONE ->
  Forall (fun b => b <> 0 /\ b <> sep /\ b <> chr "%") val ->
  (length (pre ++ c :: chr "=" :: val ++ sep :: rest) < fuel)%nat ->
  parse_path L fuel sep (pre ++ c :: chr "=" :: val ++ sep :: rest) (length pre) st
  = Ok (match apply_option L opt (Some (plus_to_space sep val)) st with
        | inl st' => Done st'
        | inr e => e
        end).
Proof.
  intros Hsep Hc Hopt Htype Hval Hf.
  assert (Hsep0 : sep <> 0) by (destruct Hsep as [->| ->]; discriminate).
  assert (Hc0 : (c =? 0) = false).
  { destruct (Z.eqb_spec c 0) as [->|]; [discriminate|reflexivity]. }
  assert (Hcs : (c =? sep) = false).
  { destruct (Z.eqb_spec c sep) as [->|]; [|reflexivity].
    destruct Hsep as [->| ->]; discriminate. }
  rewrite !length_app in Hf. cbn [length] in Hf. rewrite length_app in Hf. cbn [length] in Hf.
  destruct fuel as [|[|fuel]]; [lia|lia|]. cbn [parse_path].
  rewrite byte_at_middle. cbn [rbind]. rewrite Hc0, Hcs, Hc. cbn [negb]. cbv zeta.
  rewrite Hopt. unfold path_value.
  assert (Hnone : is_none (type opt) = false) by (destruct (type opt); [contradiction|..]; reflexivity).
  rewrite Hnone. cbn [negb].
  replace (pre ++ c :: chr "=" :: val ++ sep :: rest)
    with ((pre ++ [c]) ++ chr "=" :: val ++ sep :: rest) at 1
    by (rewrite <- app_assoc; reflexivity).
  replace (S (length pre)) with (length (pre ++ [c])) at 1
    by (rewrite length_app; cbn; lia).
  rewrite byte_at_middle. cbn [rbind]. rewrite Z.eqb_refl. cbn [negb]. cbv zeta.
  set (A := pre ++ [c; chr "="]).
  assert (HA : S (S (length pre)) = length A) by (unfold A; rewrite length_app; cbn; lia).
  replace (pre ++ c :: chr "=" :: val ++ sep :: rest) with (A ++ val ++ sep :: rest)
    by (unfold A; rewrite <- app_assoc; reflexivity).
  rewrite HA. rewrite (decode_plain sep val A rest) by (try assumption; lia).
  cbn [rbind].
  set (val' := plus_to_space sep val).
  assert (Hlen' : length val' = length val) by (unfold val', plus_to_space; apply length_fmap).
  assert (Hval' : Forall (fun b => b <> 0) val').
  { unfold val', plus_to_space. apply Forall_fmap. eapply Forall_impl; [exact Hval|].
    intros b (Hb & _). unfold compose.
    destruct ((sep =? chr "&") && (b =? chr "+")); [discriminate|exact Hb]. }
  replace (A ++ val' ++ sep :: rest) with ((A ++ val') ++ sep :: rest)
    by (rewrite <- app_assoc; reflexivity).
  replace (length A + length val)%nat with (length (A ++ val'))
    by (rewrite length_app; lia).
  rewrite set_byte_middle. cbn [rbind].
  assert (Hcs' : cstring ((A ++ val') ++ 0 :: rest) (length A) = val').
  { unfold cstring. rewrite <- app_assoc, drop_app_length. apply cstring_of_app, Hval'. }
  rewrite Hcs'.
  destruct (apply_option L opt (Some val') st) as [st'|e]; [|reflexivity].
  cbn [skip_to_sep]. rewrite byte_at_middle. cbn [rbind negb andb Z.eqb].
  rewrite byte_at_middle. cbn [rbind].
  destruct (Z.eqb_spec 0 sep) as [E|_]; [congruence|].
  cbn [parse_path]. rewrite byte_at_middle. cbn [rbind]. reflexivity.
Qed.

Lemma path_stops_after_value_witness :
  parse_path sample_libc 9 (chr "/")
    ([] ++ chr "m" :: chr "=" :: cstr "3" ++ chr "/" :: cstr "n=2" ++ [0]) (length (@nil Z)) []
  = Ok (match apply_option sample_libc (Opt "parts" (chr "m") OPT_INT "parts")
                (Some (plus_to_space (chr "/") (cstr "3"))) [] with
        | inl st' => Done st'
        | inr e => e
        end).
Proof.
  apply (path_stops_after_value sample_libc (chr "/") [] (cstr "3") (cstr "n=2" ++ [0])
           (chr "m") (Opt "parts" (chr "m") OPT_INT "parts") [] 9).
  - left. reflexivity.
  - reflexivity.
  - reflexivity.
  - discriminate.
  - repeat constructor; discriminate.
  - cbn. lia.
Defined.

(** X23. In the decoding of %-escapes of a query string a hexadecimal letter
    counts one more than its value: the digit value computed for a hexadecimal
    character c is hex(c) + 1 when c is a letter (11 to 16 for A to F and a to
    f) and hex(c) when c is a decimal digit. The byte written for %c1c2 is
    therefore 16 * v1 + v2 modulo 256 with these values v1 and v2. *)
Theorem hex_letter_one_more (c1 c2 : Z) :
  isxdigit c1 = true -> isxdigit c2 = true ->
  hexval c1 = hex_digit c1 + (if isalpha c1 then 1 else 0)
  /\ to_char (Z.shiftl (hexval c1) 4 + hexval c2)
     = (16 * (hex_digit c1 + (if isalpha c1 then 1 else 0))
        + hex_digit c2 + (if isalpha c2 then 1 else 0)) mod 256.
Proof.
  assert (Hone : forall c, isxdigit c = true ->
                   hexval c = hex_digit c + (if isalpha c then 1 else 0)).
  { intros c Hx.
    assert (Hc : In c [48; 49; 50; 51; 52; 53; 54; 55; 56; 57;
                       65; 66; 67; 68; 69; 70; 97; 98; 99; 100; 101; 102]).
    { unfold isxdigit, isdigit in Hx.
      change (chr "0") with 48 in Hx. change (chr "9") with 57 in Hx.
      change (chr "A") with 65 in Hx. change (chr "F") with 70 in Hx.
      change (chr "a") with 97 in Hx. change (chr "f") with 102 in Hx.
      cbn [In]. lia. }
    cbn [In] in Hc.
    repeat (destruct Hc as [<-|Hc]; [vm_compute; reflexivity|]). destruct Hc. }
  intros H1 H2. split; [apply Hone, H1|].
  rewrite (Hone c1 H1), (Hone c2 H2). unfold to_char. rewrite Z.shiftl_mul_pow2 by lia.
  f_equal. lia.
Qed.

Lemma hex_letter_one_more_witness :
  hexval (chr "4") = hex_digit (chr "4") + (if isalpha (chr "4") then 1 else 0)
  /\ to_char (Z.shiftl (hexval (chr "4")) 4 + hexval (chr "A"))
     = (16 * (hex_digit (chr "4") + (if isalpha (chr "4") then 1 else 0))
        + hex_digit (chr "A") + (if isalpha (chr "A") then 1 else 0)) mod 256.
Proof. apply (hex_letter_one_more (chr "4") (chr "A")); reflexivity. Defined.

Lemma apply_option_fails (L : libc) (opt : option_t) (v : option (list Z)) (st : store L)
    (e : outcome L) :
  apply_option L opt v st = inr e -> exists fmt arg, e = Failed fmt arg.
Proof.
  unfold apply_option.
  destruct (type opt), v as [s|]; try discriminate;
    try destruct (parse_int L s); try destruct (parse_double L s); try discriminate;
    intros E; injection E as <-; eauto.
Qed.

Ltac failed_option E :=
  let fmt := fresh "fmt" in let arg := fresh "arg" in
  destruct (apply_option_fails _ _ _ _ _ E) as (fmt & arg & ->); discriminate.

Lemma parse_args_app (L : libc) (b : list (list Z)) (n : nat) :
  forall (a : list (list Z)) (st st' : store L),
    (length a <= n)%nat -> parse_args L a st = Done st' ->
    parse_args L (a ++ b) st = parse_args L b st'.
Proof.
  induction n as [|n IH]; intros a st st' Hn Hd.
  - destruct a; [|cbn in Hn; lia]. cbn in Hd. injection Hd as <-. reflexivity.
  - destruct a as [|arg rest]; [cbn in Hd; injection Hd as <-; reflexivity|].
    cbn [length] in Hn.
    assert (IH0 : forall s, parse_args L rest s = Done st' ->
                            parse_args L (rest ++ b) s = parse_args L b st')
      by (intros s; apply IH; lia).
    assert (IH1 : forall v rest' s, rest = v :: rest' -> parse_args L rest' s = Done st' ->
                            parse_args L (rest' ++ b) s = parse_args L b st').
    { intros v rest' s -> . apply IH. cbn [length] in Hn. lia. }
    revert Hd. rewrite <- app_comm_cons. cbn [parse_args].
    destruct (streq arg (cstr "--help") || streq arg (cstr "-h")); [discriminate|].
    destruct (streq (take 2 arg) (cstr "--")).
    + destruct (match strchr (drop 2 arg) (chr "=") with
                | Some len => _ | None => _ end) as [name v].
      destruct (find_option_by_long optionsTable name) as [opt|]; [|discriminate].
      destruct (negb (is_none (type opt)) && negb (bool_decide (is_Some v))).
      * destruct rest as [|v' rest']; [discriminate|]. rewrite <- app_comm_cons.
        destruct (apply_option L opt (Some v') st) as [s|e] eqn:E; [|failed_option E].
        apply (IH1 v' rest' s eq_refl).
      * destruct (is_none (type opt) && bool_decide (is_Some v)); [discriminate|].
        destruct (apply_option L opt v st) as [s|e] eqn:E; [apply IH0|failed_option E].
    + destruct arg as [|a0 [|a1 arg2]]; try discriminate.
      destruct (a0 =? chr "-"); [|discriminate].
      destruct (find_option_by_short optionsTable a1) as [opt|]; [|discriminate].
      destruct (negb (is_none (type opt))).
      * destruct arg2 as [|a2 arg2].
        -- destruct rest as [|v' rest']; [discriminate|]. rewrite <- app_comm_cons.
           destruct (apply_option L opt (Some v') st) as [s|e] eqn:E;
             [apply (IH1 v' rest' s eq_refl)|failed_option E].
        -- destruct (apply_option L opt (Some (a2 :: arg2)) st) as [s|e] eqn:E;
             [apply IH0|failed_option E].
      * destruct arg2 as [|a2 arg2]; [|discriminate].
        destruct (apply_option L opt None st) as [s|e] eqn:E; [apply IH0|failed_option E].
Qed.

(** X24. The loop over the command line reads its arguments from left to right and
    carries nothing but the variables set so far: if the arguments a are read
    to the end without error, reading a followed by b ends as reading b does
    from the variables as a left them, with the same values, the same usage or
    the same error message. *)
Theorem args_compose (L : libc) (a b : list (list Z)) (st st' : store L) :
  parse_args L a st = Done st' -> parse_args L (a ++ b) st = parse_args L b st'.
Proof. apply (parse_args_app L b (length a)). lia. Qed.

Lemma args_compose_witness :
  parse_args sample_libc ([cstr "-m"; cstr "3"] ++ [cstr "--part=2"]) []
  = parse_args sample_libc [cstr "--part=2"] [("parts"%string, VInt 3)].
Proof. apply (args_compose sample_libc [cstr "-m"; cstr "3"]). reflexivity. Defined.

(** X25. After arguments that were read without error, the argument -h prints the
    usage and ends the run, whatever follows it, although h is the short name
    of core-height in the option table: '-h 80' does not set the core height.
    Written as one argument, -h followed by a nonempty value that strtod reads
    to its end, as in -h80, does set coreheight. *)
Theorem short_h_is_help (L : libc) (a rest : list (list Z)) (v : list Z) (x : double L)
    (st st' : store L) :
  parse_args L a st = Done st' -> v <> [] -> strtod L v = (x, length v) ->
  parse_args L (a ++ cstr "-h" :: rest) st = Usage
  /\ (exists opt, find_option_by_short optionsTable (chr "h") = Some opt
                  /\ target opt = "coreheight"%string /\ type opt = OPT_DOUBLE)
  /\ parse_args L (a ++ [chr "-" :: chr "h" :: v]) st
     = Done (("coreheight"%string, VDouble x) :: st').
Proof.
  intros Hd Hv Hx. split; [|split].
  - rewrite (parse_args_app L _ (length a) a st st') by (lia || exact Hd). reflexivity.
  - eexists. split; [reflexivity|]. split; reflexivity.
  - rewrite (parse_args_app L _ (length a) a st st') by (lia || exact Hd).
    destruct v as [|v0 v]; [contradiction|].
    cbn [parse_args].
    replace (streq (chr "-" :: chr "h" :: v0 :: v) (cstr "--help")) with false.
    2:{ symmetry. apply bool_decide_eq_false. intros E. discriminate E. }
    replace (streq (chr "-" :: chr "h" :: v0 :: v) (cstr "-h")) with false.
    2:{ symmetry. apply bool_decide_eq_false. intros E. discriminate E. }
    replace (streq (take 2 (chr "-" :: chr "h" :: v0 :: v)) (cstr "--")) with false.
    2:{ symmetry. apply bool_decide_eq_false. intros E. discriminate E. }
    cbn [orb]. change (chr "-" =? chr "-") with true. cbv iota.
    change (find_option_by_short optionsTable (chr "h"))
      with (Some (Opt "core-height" (chr "h") OPT_DOUBLE "coreheight")).
    cbn [type is_none negb]. unfold apply_option. cbn [type target short_name].
    unfold parse_double. rewrite Hx.
    rewrite bool_decide_eq_false_2 by discriminate. rewrite Nat.ltb_irrefl. reflexivity.
Qed.

Lemma short_h_is_help_witness :
  parse_args sample_libc ([cstr "-m"; cstr "3"] ++ cstr "-h" :: [cstr "80"]) [] = Usage
  /\ (exists opt, find_option_by_short optionsTable (chr "h") = Some opt
                  /\ target opt = "coreheight"%string /\ type opt = OPT_DOUBLE)
  /\ parse_args sample_libc ([cstr "-m"; cstr "3"] ++ [chr "-" :: chr "h" :: cstr "80"]) []
     = Done (("coreheight"%string, VDouble (80 : double sample_libc))
             :: [("parts"%string, VInt 3)]).
Proof.
  apply (short_h_is_help sample_libc [cstr "-m"; cstr "3"] [cstr "80"] (cstr "80")).
  - reflexivity.
  - discriminate.
  - reflexivity.
Defined.

(** X26. With nubs > 0, W a multiple of nubs and W / nubs >= 2 (W / nubs >= 1 is
    enough when parking vertically), the park ridge reads only slices s[0 ..
    4W), prints 32 points for each nub, 32 * nubs in all, and every face it
    prints names three of these points. *)
Theorem park_ridge_indexed (g : grid) (o : options) (ss : list slice_t) :
  0 < nubs g -> 1 <= Z.quot (W g) (nubs g) -> W g = Z.quot (W g) (nubs g) * nubs g ->
  parkvertical o = true \/ 2 <= Z.quot (W g) (nubs g) ->
  length ss = Z.to_nat (W g * 4) ->
  exists pts, ridge_points g o ss = Ok pts
    /\ Z.of_nat (length pts) = 32 * nubs g
    /\ Forall (fun p => 0 <= ridge_slice p < W g * 4) pts
    /\ Forall (face_within (Z.of_nat (length pts))) (ridge_faces g).
Proof.
  intros Hn Hq HW Hv Hlen. unfold ridge_points.
  set (q := Z.quot (W g) (nubs g)) in *.
  destruct (ridge_loop_ok o ss q (nubs g) Hq Hv) with
    (k := Z.to_nat (nubs g)) (j := 0) (pts := @nil ridge_point)
    (fuel := S (Z.to_nat (W g))) as (pts & E & El & Fl).
  - rewrite Hlen. nia.
  - lia.
  - lia.
  - nia.
  - reflexivity.
  - constructor.
  - change (0 * q) with 0 in E. replace (nubs g * q) with (W g) in E by lia.
    exists pts. split; [exact E|]. split; [exact El|]. split.
    + replace (W g * 4) with (q * nubs g * 4) by lia. exact Fl.
    + rewrite El. apply ridge_faces_within.
Qed.

Lemma park_ridge_indexed_witness :
  exists pts, ridge_points (Grid 6 4 0 3) (Options false false false false false 5 30 (fun _ _ => false))
                (replicate 24 (Slice 0 0 [])) = Ok pts
    /\ Z.of_nat (length pts) = 32 * nubs (Grid 6 4 0 3)
    /\ Forall (fun p => 0 <= ridge_slice p < W (Grid 6 4 0 3) * 4) pts
    /\ Forall (face_within (Z.of_nat (length pts))) (ridge_faces (Grid 6 4 0 3)).
Proof.
  apply (park_ridge_indexed (Grid 6 4 0 3)
           (Options false false false false false 5 30 (fun _ _ => false))
           (replicate 24 (Slice 0 0 []))).
  - reflexivity.
  - vm_compute. discriminate.
  - reflexivity.
  - right. vm_compute. discriminate.
  - reflexivity.
Defined.

(** X27. When the maze has as many nubs as columns (nubs = W >= 3, so W / nubs =
    1) and the park is not vertical, the point loop of the park ridge reads
    s[4W], one past the end of the slice array s[W * 4]. *)
Theorem park_ridge_overrun (g : grid) (o : options) (ss : list slice_t) :
  3 <= W g -> nubs g = W g -> parkvertical o = false ->
  length ss = Z.to_nat (W g * 4) ->
  ridge_points g o ss = Undefined.
Proof.
  intros HW Hn Hv Hlen. unfold ridge_points. rewrite Hn, Z.quot_same by lia.
  assert (Hloop : forall (k : nat) (i : Z) (pts : list ridge_point) (fuel : nat),
            Z.of_nat k = W g - 1 - i -> 0 <= i -> (k < fuel)%nat ->
            Forall (fun p => 0 <= ridge_slice p < W g * 4) pts ->
            for_step fuel i (W g) 1 (ridge_nub o ss) pts = Undefined).
  { induction k as [|k IH]; intros i pts fuel Hk Hi Hfuel Hpts.
    - destruct fuel as [|fuel]; [lia|]. cbn [for_step].
      destruct (Z.ltb_spec i (W g)) as [_|]; [|lia].
      unfold ridge_nub. cbn [for_loop]. unfold ridge_cell at 1. rewrite Hv.
      destruct (slice_at_inside ss (i * 4 + 0 + 2)) as [x ->]; [lia|]. cbn [rbind].
      unfold ridge_cell at 1. rewrite Hv.
      destruct (slice_at_inside ss (i * 4 + (0 + 1) + 2)) as [x' ->]; [lia|]. cbn [rbind].
      unfold ridge_cell at 1. rewrite Hv.
      rewrite (slice_at_outside ss (i * 4 + (0 + 1 + 1) + 2)) by lia. reflexivity.
    - destruct fuel as [|fuel]; [lia|]. cbn [for_step].
      destruct (Z.ltb_spec i (W g)) as [_|]; [|lia].
      destruct (ridge_nub_ok o ss i pts 0 (W g * 4)) as (l & -> & _ & Fl);
        [lia|left; lia|lia|left; lia|exact Hpts|].
      cbn [rbind]. apply IH; [lia|lia|lia|exact Fl]. }
  apply (Hloop (Z.to_nat (W g - 1))); [lia|lia|lia|constructor].
Qed.

Lemma park_ridge_overrun_witness :
  ridge_points (Grid 3 4 0 3) (Options false false false false false 5 30 (fun _ _ => false))
    (replicate 12 (Slice 0 0 [])) = Undefined.
Proof.
  apply (park_ridge_overrun (Grid 3 4 0 3)
           (Options false false false false false 5 30 (fun _ _ => false))
           (replicate 12 (Slice 0 0 []))).
  - vm_compute. discriminate.
  - reflexivity.
  - reflexivity.
  - reflexivity.
Defined.

(** X28.  From a start cell of the grid, with [W > 0] and [nubs > 0], the
    walk ends within [2 * W * H + 1] rounds, and [max] and [maxx] record this
    of the nodes [nds] it allocated (the cells reached, each with its depth):
    no eligible cell is deeper than [max + 1], where a cell is eligible if
    [test (X, Y + 1)] reports FLAGI and, with [flip] on an outside maze, its
    x is a multiple of [W / nubs]; if [max > 0], [maxx] is the x of an
    eligible cell of depth [max + 1]; if [max = 0], [maxx] is 0, whatever
    was reached at depth 1. *)
Theorem exit_column_recorded (g : grid) (o : options) (fuel : nat) (m : maze_t)
    (X Y seed : Z) :
  0 < W g -> 0 < nubs g -> in_grid g X Y = true ->
  (2 * (Z.to_nat (W g) * Z.to_nat (H g)) + 1 < fuel)%nat ->
  exists s nds,
    actual_maze g o fuel m X Y seed = Ok (s, nds)
    /\ queue s = []
    /\ 0 <= max s
    /\ (forall nd, In nd nds -> eligible g o m nd = true -> pn nd <= max s + 1)
    /\ (0 < max s ->
        exists nd, In nd nds /\ eligible g o m nd = true
                   /\ pn nd = max s + 1 /\ px nd = maxx s)
    /\ (max s = 0 -> maxx s = 0).
Proof.
  intros HW Hn Hin Hfuel. unfold actual_maze.
  set (s0 := Walk m [Pos X Y 0] seed 0 0).
  destruct (run_ok g HW Hn o fuel s0) as (s & nds & Hrun).
  { apply Forall_cons_2; [exact Hin|apply Forall_nil_2]. }
  { pose proof (measure_bound g s0). cbn [s0 queue length] in *. lia. }
  exists s, nds. split; [exact Hrun|].
  assert (Hsame : same_FLAGI m (maze s0)) by (intros a b; reflexivity).
  assert (Hrec : records g o m [] (max s0) (maxx s0)).
  { cbn. split; [lia|]. split; [intros nd []|left; split; reflexivity]. }
  destruct (run_records g HW Hn o m fuel s0 s [] nds Hsame Hrec Hrun)
    as (Hq & Hpos & Hall & Hex).
  cbn [app] in *. split; [exact Hq|]. split; [exact Hpos|]. split; [exact Hall|].
  split.
  - intros Hp. destruct Hex as [[Hz _]|[_ Hnd]]; [lia|exact Hnd].
  - intros Hz. destruct Hex as [[_ Hx]|[Hp _]]; [exact Hx|lia].
Qed.

Lemma exit_column_recorded_witness :
  exists s nds,
    actual_maze sample_grid sample_options 100 sample_maze 1 1 42 = Ok (s, nds)
    /\ queue s = []
    /\ 0 <= max s
    /\ (forall nd, In nd nds -> eligible sample_grid sample_options sample_maze nd = true ->
                   pn nd <= max s + 1)
    /\ (0 < max s ->
        exists nd, In nd nds /\ eligible sample_grid sample_options sample_maze nd = true
                   /\ pn nd = max s + 1 /\ px nd = maxx s)
    /\ (max s = 0 -> maxx s = 0).
Proof.
  apply (exit_column_recorded sample_grid sample_options 100 sample_maze 1 1 42).
  - cbn. lia.
  - cbn. lia.
  - reflexivity.
  - cbn. lia.
Defined.
